(** * grammar_experiments: span graphs, chart resolution and rule compilation

    A shallow embedding of [trees.py] and [docapply.py].

    Conventions of the embedding:
    - document offsets are [Z]; a span coordinate is a [num], an integer
      extended with the two float infinities that the sentinels START and
      END carry;
    - Python dictionaries and networkx graphs keep insertion order, so they
      are association lists and lists of nodes and edges;
    - an exception (IndexError, AssertionError, KeyError ...) is [None];
    - a character of a string stands for the Unicode code point of its
      number, so the strings are those over the code points below 256;
    - a data frame is the list of its records, and [groupby(...).apply]
      combines its results as pandas 1.x does (see [fixed_frame]);
    - a [while] loop takes a fuel argument and returns [None] when the fuel
      is used up before the loop condition fails. *)

From Stdlib Require Import ZArith String Ascii Bool Lia Arith PeanoNat List.
From Stdlib Require Import Sorting.Sorted.
From Stdlib Require FinFun.
From Stdlib Require Import Decimal DecimalString DecimalNat.
From Stdlib Require Import Relations.Relation_Operators Relations.Operators_Properties.
Import ListNotations.
Local Open Scope Z_scope.
Set Warnings "-register-all".

(* ================================================================== *)
(** * Data model ([trees.py]) *)
(* ================================================================== *)

(** A number as the code compares it: an [int] offset or [float('inf')],
    [float('-inf')]. *)
Inductive num : Type :=
| NegInf : num
| Fin : Z -> num
| PosInf : num.

Definition num_eqb (a b : num) : bool :=
  match a, b with
  | NegInf, NegInf => true
  | PosInf, PosInf => true
  | Fin x, Fin y => Z.eqb x y
  | _, _ => false
  end.

Definition num_ltb (a b : num) : bool :=
  match a, b with
  | NegInf, NegInf => false
  | NegInf, _ => true
  | Fin _, NegInf => false
  | Fin x, Fin y => Z.ltb x y
  | Fin _, PosInf => true
  | PosInf, _ => false
  end.

Definition Span : Type := (num * num)%type.

(** Tuple comparison of two spans, as Python compares 2-tuples. *)
Definition span_eqb (s t : Span) : bool :=
  num_eqb (fst s) (fst t) && num_eqb (snd s) (snd t).

Definition span_ltb (s t : Span) : bool :=
  if num_eqb (fst s) (fst t) then num_ltb (snd s) (snd t)
  else num_ltb (fst s) (fst t).

(** [class Node]: a span, a label and a weight (default 1). *)
Record Node : Type := mkNode {
  span : Span;
  name : string;
  weight : Z
}.

Definition Node_start (n : Node) : num := fst (span n).
Definition Node_end (n : Node) : num := snd (span n).

(** [Node.__eq__]: [self[0] == other[0] and self[1] == other[1]], where
    [self[i]] indexes the pair [(span, name)].  [Node.__hash__] hashes the
    same pair, so a dictionary or a graph looks a node up by this test. *)
Definition Node_eq (a b : Node) : bool :=
  span_eqb (span a) (span b) && String.eqb (name a) (name b).

(** [Node.__lt__] and [Node.__gt__] compare the spans only. *)
Definition Node_lt (a b : Node) : bool := span_ltb (span a) (span b).
Definition Node_gt (a b : Node) : bool := span_ltb (span b) (span a).

Definition START : Node := mkNode (NegInf, NegInf) "START" 1.
Definition END : Node := mkNode (PosInf, PosInf) "END" 1.

(** [class Rule]: the weight defaults to [len(rhs)]. *)
Record Rule : Type := mkRule {
  lhs : string;
  rhs : list string;
  rule_weight : Z
}.

Definition Rule_default (l : string) (r : list string) : Rule :=
  mkRule l r (Z.of_nat (length r)).

(** The document: layer name to list of [(start, end)] offsets, in the
    order the dictionary was filled. *)
Definition Document : Type := list (string * list (Z * Z)).

(* ================================================================== *)
(** * The dense successor matrix ([get_dense_mapping], [get_dense_matrix]) *)
(* ================================================================== *)

(** [sorted(starts | ends)]: the distinct offsets in ascending order. *)
Fixpoint insert_sorted (x : Z) (l : list Z) : list Z :=
  match l with
  | [] => [x]
  | y :: l' =>
      if Z.ltb x y then x :: l
      else if Z.eqb x y then l
      else y :: insert_sorted x l'
  end.

Definition sorted_set (l : list Z) : list Z := fold_right insert_sorted [] l.

(** The pairs [(s, e)] of a document in iteration order
    ([for k, v in rows.items(): for s, e in v]). *)
Definition doc_spans (rows : Document) : list (Z * Z) :=
  flat_map (fun kv => snd kv) rows.

Definition doc_starts (rows : Document) : list Z := map fst (doc_spans rows).
Definition doc_ends (rows : Document) : list Z := map snd (doc_spans rows).

(** [enumerate] into a dictionary offset -> index. *)
Fixpoint enumerate_from (idx : nat) (l : list Z) : list (Z * nat) :=
  match l with
  | [] => []
  | x :: l' => (x, idx) :: enumerate_from (S idx) l'
  end.

Fixpoint dict_get (m : list (Z * nat)) (k : Z) : option nat :=
  match m with
  | [] => None
  | (k', v) :: m' => if Z.eqb k k' then Some v else dict_get m' k
  end.

(** [get_dense_mapping]: [(mapping, reverse_mapping)]. *)
Definition get_dense_mapping (rows : Document) : list (Z * nat) * list Z :=
  let keys := sorted_set (doc_starts rows ++ doc_ends rows) in
  (enumerate_from 0 keys, keys).

(** [x = np.zeros(n); x[i:j] = 1] for non-negative [i], [j]. *)
Definition zeros_set_slice (n i j : nat) : list bool :=
  map (fun k => Nat.leb i k && Nat.ltb k j) (seq 0 n).

(** [np.where(row)[0]]: the indices of the true entries. *)
Definition np_where (row : list bool) : list nat :=
  filter (fun k => nth k row false) (seq 0 (length row)).

(** [wh[0]] and [wh[-1]]; both raise IndexError on an empty array. *)
Definition first_index (wh : list nat) : option nat := hd_error wh.
Definition last_index (wh : list nat) : option nat :=
  match wh with
  | [] => None
  | _ => Some (last wh 0%nat)
  end.

Fixpoint option_all {A : Type} (l : list (option A)) : option (list A) :=
  match l with
  | [] => Some []
  | None :: _ => None
  | Some x :: l' =>
      match option_all l' with
      | Some r => Some (x :: r)
      | None => None
      end
  end.

(** The rows [b_rows]: one boolean row per span, true on the dense indices
    [mapping[a] .. mapping[b] - 1]. *)
Definition dense_rows (rows : Document) : option (list (list bool)) :=
  let '(mapping, reverse_mapping) := get_dense_mapping rows in
  option_all
    (map (fun ab : Z * Z =>
            match dict_get mapping (fst ab), dict_get mapping (snd ab) with
            | Some i, Some j =>
                Some (zeros_set_slice (length reverse_mapping - 1)%nat i j)
            | _, _ => None
            end)
         (doc_spans rows)).

(** [get_dense_matrix]: [res[r][c] = start_index[c] > end_index[r]]. *)
Definition get_dense_matrix (rows : Document) : option (list (list bool)) :=
  match dense_rows rows with
  | None => None
  | Some b_rows =>
      match option_all (map (fun row => first_index (np_where row)) b_rows),
            option_all (map (fun row => last_index (np_where row)) b_rows) with
      | Some start_index, Some end_index =>
          Some (map (fun idx => map (fun s => Nat.ltb idx s) start_index)
                    end_index)
      | _, _ => None
      end
  end.

(** Matrix entry [m[r][c]]; [false] outside the matrix. *)
Definition mget (m : list (list bool)) (r c : nat) : bool :=
  nth c (nth r m []) false.

(** [get_elementary_nodes]: one node per (layer, span), weight 1. *)
Definition get_elementary_nodes (rows : Document) : list Node :=
  flat_map (fun kv : string * list (Z * Z) =>
              map (fun ab : Z * Z => mkNode (Fin (fst ab), Fin (snd ab)) (fst kv) 1)
                  (snd kv))
           rows.

(** Number of keys strictly below [x]: the dense index of [x]. *)
Definition rank (l : list Z) (x : Z) : nat :=
  length (filter (fun y => Z.ltb y x) l).

(** Every span of the document is non-empty: [start < end]. *)
Definition spans_nonempty (rows : Document) : bool :=
  forallb (fun ab : Z * Z => Z.ltb (fst ab) (snd ab)) (doc_spans rows).

(** Two layers whose spans touch at offset 5. *)
Definition c2_doc : Document :=
  [("NOUN"%string, [(0, 5)]); ("VERB"%string, [(5, 9)])].

(* ================================================================== *)
(** * The candidate table ([matrix_to_dataframe], [edges_from_dataframe]) *)
(* ================================================================== *)

Definition num_leb (a b : num) : bool := negb (num_ltb b a).

(** One record of the data frame with columns [n1 s1 e1 n2 s2 e2 a b]. *)
Record DfRow : Type := mkDfRow {
  col_n1 : string; col_s1 : num; col_e1 : num;
  col_n2 : string; col_s2 : num; col_e2 : num;
  col_a : nat; col_b : nat
}.

(** The index pairs [(a, b)] that [np.where(res)] yields: the true entries,
    row by row. *)
Definition np_where2 (m : list (list bool)) : list (nat * nat) :=
  flat_map (fun r => map (fun c => (r, c)) (np_where (nth r m [])))
           (seq 0 (length m)).

(** [matrix_to_dataframe]; [items[a]] raises IndexError out of range. *)
Definition matrix_to_dataframe (res : list (list bool)) (items : list Node)
  : option (list DfRow) :=
  option_all
    (map (fun ab : nat * nat =>
            match nth_error items (fst ab), nth_error items (snd ab) with
            | Some A, Some B =>
                Some (mkDfRow (name A) (Node_start A) (Node_end A)
                              (name B) (Node_start B) (Node_end B)
                              (fst ab) (snd ab))
            | _, _ => None
            end)
         (np_where2 res)).

(** The distinct keys of a column in ascending order, as [groupby] sorts
    its groups. *)
Fixpoint insert_key {K : Type} (ltb eqb : K -> K -> bool) (x : K) (l : list K)
  : list K :=
  match l with
  | [] => [x]
  | y :: l' =>
      if ltb x y then x :: l
      else if eqb x y then l
      else y :: insert_key ltb eqb x l'
  end.

Definition group_keys {K : Type} (ltb eqb : K -> K -> bool) (l : list K) : list K :=
  fold_right (insert_key ltb eqb) [] l.

(** [df.groupby(col)]: for each key in ascending order, the records that
    carry it, in their original order. *)
Definition groupby {K : Type} (ltb eqb : K -> K -> bool) (col : DfRow -> K)
    (df : list DfRow) : list (K * list DfRow) :=
  map (fun k => (k, filter (fun r => eqb (col r) k) df))
      (group_keys ltb eqb (map col df)).

(** [y.e2.min()]. *)
Fixpoint num_min (l : list num) : option num :=
  match l with
  | [] => None
  | x :: l' =>
      match num_min l' with
      | None => Some x
      | Some m => Some (if num_ltb m x then m else x)
      end
  end.

(** [y[y.s2 <= y.e2.min()]]. *)
Definition keep_nearest (y : list DfRow) : list DfRow :=
  match num_min (map col_e2 y) with
  | None => []
  | Some m => filter (fun r => num_leb (col_s2 r) m) y
  end.

(** What [groupby(...).apply(f)] makes of the frames that [f] returns
    (pandas 1.x, [GroupBy._concat_objects]).  When every result is indexed
    like its group, the results are concatenated and put back in the
    order of the grouped frame.  Otherwise the apply counts as mutated:
    the group key is put in front of the index of every result and the
    results are concatenated in the order of the keys. *)
Record Applied : Type := mkApplied {
  mutated : bool;
  records : list DfRow
}.

(** [x.groupby('n2').apply(lambda y: y[y.s2 <= y.e2.min()])] on one group
    [x] of the outer [groupby].  A result is indexed like its group
    exactly when the filter dropped none of its records. *)
Definition apply_n2 (x : list DfRow) : Applied :=
  let groups := groupby String.ltb String.eqb col_n2 x in
  if existsb (fun y : string * list DfRow =>
                negb (Nat.eqb (length (keep_nearest (snd y))) (length (snd y))))
             groups
  then mkApplied true
         (flat_map (fun y : string * list DfRow => keep_nearest (snd y)) groups)
  else mkApplied false x.

(** [df.groupby('e1').apply(lambda x: x.groupby('n2').apply(...))].  A
    mutated inner result carries the two-level index [(n2, i)], the others
    the index of the frame.  When some inner results are mutated and
    others are not, the outer concatenation meets indices with different
    numbers of levels and raises AssertionError('Cannot concat indices
    that do not have the same number of levels').  A frame without
    records gives a frame without records that keeps its columns. *)
Definition fixed_frame (df : list DfRow) : option (list DfRow) :=
  let results := map (fun x : num * list DfRow => apply_n2 (snd x))
                     (groupby num_ltb num_eqb col_e1 df) in
  if forallb (fun r => negb (mutated r)) results then Some df
  else if forallb mutated results then Some (flat_map records results)
  else None.

(** [edges_from_dataframe].  [fixed] always has the columns of [df], so
    the attribute lookups succeed and the [except AttributeError] clause
    is not entered; it does not catch the AssertionError of the
    concatenation either.  [items[a]] raises IndexError out of range. *)
Definition edges_from_dataframe (df : list DfRow) (items : list Node)
  : option (list (Node * Node)) :=
  match fixed_frame df with
  | None => None
  | Some fixed =>
      option_all
        (map (fun r =>
                match nth_error items (col_a r), nth_error items (col_b r) with
                | Some A, Some B => Some (A, B)
                | _, _ => None
                end)
             fixed)
  end.

(* ================================================================== *)
(** * Directed graphs (the part of [networkx.DiGraph] the code uses) *)
(* ================================================================== *)

(** Nodes and edges in insertion order; a node or an edge is looked up
    with [Node_eq], as the dictionaries of networkx do through [__hash__]
    and [__eq__]. *)
Record DiGraph : Type := mkDiGraph {
  nodes : list Node;
  edges : list (Node * Node)
}.

Definition empty_graph : DiGraph := mkDiGraph [] [].

Definition edge_eq (e f : Node * Node) : bool :=
  Node_eq (fst e) (fst f) && Node_eq (snd e) (snd f).

Definition has_node (g : DiGraph) (n : Node) : bool :=
  existsb (Node_eq n) (nodes g).

Definition has_edge (g : DiGraph) (u v : Node) : bool :=
  existsb (edge_eq (u, v)) (edges g).

Definition add_node (g : DiGraph) (n : Node) : DiGraph :=
  if has_node g n then g else mkDiGraph (nodes g ++ [n]) (edges g).

Definition add_nodes_from (g : DiGraph) (l : list Node) : DiGraph :=
  fold_left add_node l g.

Definition add_edge (g : DiGraph) (u v : Node) : DiGraph :=
  let g1 := add_node (add_node g u) v in
  if has_edge g1 u v then g1 else mkDiGraph (nodes g1) (edges g1 ++ [(u, v)]).

Definition add_edges_from (g : DiGraph) (l : list (Node * Node)) : DiGraph :=
  fold_left (fun g e => add_edge g (fst e) (snd e)) l g.

(** [remove_edge] raises NetworkXError when the edge is absent. *)
Definition remove_edge (g : DiGraph) (u v : Node) : option DiGraph :=
  if has_edge g u v
  then Some (mkDiGraph (nodes g)
                       (filter (fun e => negb (edge_eq (u, v) e)) (edges g)))
  else None.

(** [remove_nodes_from] drops the nodes with their edges and ignores
    absent nodes. *)
Definition remove_node_silent (g : DiGraph) (n : Node) : DiGraph :=
  mkDiGraph (filter (fun m => negb (Node_eq n m)) (nodes g))
            (filter (fun e => negb (Node_eq n (fst e)) && negb (Node_eq n (snd e)))
                    (edges g)).

Definition remove_nodes_from (g : DiGraph) (l : list Node) : DiGraph :=
  fold_left remove_node_silent l g.

Definition successors (g : DiGraph) (n : Node) : list Node :=
  map snd (filter (fun e => Node_eq (fst e) n) (edges g)).

Definition predecessors (g : DiGraph) (n : Node) : list Node :=
  map fst (filter (fun e => Node_eq (snd e) n) (edges g)).

Definition node_mem (n : Node) (l : list Node) : bool := existsb (Node_eq n) l.

(** One round of reachability: the nodes of [s] and their successors. *)
Definition reach_step (g : DiGraph) (s : list Node) : list Node :=
  fold_left (fun acc n => if node_mem n acc then acc else acc ++ [n])
            (flat_map (successors g) s) s.

Fixpoint reach_iter (k : nat) (g : DiGraph) (s : list Node) : list Node :=
  match k with
  | O => s
  | S k' => reach_iter k' g (reach_step g s)
  end.

(** [nx.descendants(G, source)]: the nodes reachable from [source], without
    [source]. *)
Definition descendants (g : DiGraph) (source : Node) : list Node :=
  filter (fun n => negb (Node_eq n source))
         (reach_iter (length (nodes g)) g [source]).

Definition reverse_graph (g : DiGraph) : DiGraph :=
  mkDiGraph (nodes g) (map (fun e => (snd e, fst e)) (edges g)).

(** [nx.ancestors(G, source)]. *)
Definition ancestors (g : DiGraph) (source : Node) : list Node :=
  descendants (reverse_graph g) source.

(** Early exit on an exception. *)
Notation "x <- c ;; k" :=
  (match c with Some x => k | None => None end)
  (at level 61, c at next level, right associativity).

(* ================================================================== *)
(** * Transitive reduction ([remove_shortcuts]) *)
(* ================================================================== *)

(** A distance as [floyd_warshall_numpy] computes it: [None] is [inf]. *)
Definition dist : Type := option nat.

Definition dist_add (a b : dist) : dist :=
  match a, b with
  | Some x, Some y => Some (x + y)%nat
  | _, _ => None
  end.

Definition dist_min (a b : dist) : dist :=
  match a, b with
  | Some x, Some y => Some (Nat.min x y)
  | Some x, None => Some x
  | None, _ => b
  end.

Definition dist_is_one (a : dist) : bool :=
  match a with
  | Some 1%nat => true
  | _ => false
  end.

(** An [n] x [n] matrix given by its entries. *)
Definition tabulate {T : Type} (n : nat) (f : nat -> nat -> T) : list (list T) :=
  map (fun i => map (fun j => f i j) (seq 0 n)) (seq 0 n).

Definition dget (m : list (list dist)) (r c : nat) : dist :=
  nth c (nth r m []) None.

(** [nx.to_numpy_matrix(graph, nodelist, nonedge=...)] with unit weights. *)
Definition to_numpy_matrix (g : DiGraph) (nodelist : list Node) (nonedge : dist)
  : list (list dist) :=
  tabulate (length nodelist)
    (fun i j => if has_edge g (nth i nodelist START) (nth j nodelist START)
                then Some 1%nat else nonedge).

(** [nx.floyd_warshall_numpy]: infinite where there is no edge, zero on the
    diagonal, then one relaxation round per pivot [i]:
    [A = np.minimum(A, A[i, :] + A[:, i])]. *)
Definition floyd_warshall_numpy (g : DiGraph) (nodelist : list Node)
  : list (list dist) :=
  let n := length nodelist in
  let A0 := to_numpy_matrix g nodelist None in
  let A1 := tabulate n (fun r c => if Nat.eqb r c then Some 0%nat else dget A0 r c) in
  fold_left
    (fun A i => tabulate n (fun r c => dist_min (dget A r c)
                                         (dist_add (dget A i c) (dget A r i))))
    (seq 0 n) A1.

(** Boolean matrices: [==  1], [@], [&], [~] and [^]. *)
Definition mat_is_one (n : nat) (m : list (list dist)) : list (list bool) :=
  tabulate n (fun r c => dist_is_one (dget m r c)).

Definition mat_mul (n : nat) (x y : list (list bool)) : list (list bool) :=
  tabulate n (fun r c => existsb (fun k => mget x r k && mget y k c) (seq 0 n)).

Definition mat_and (n : nat) (x y : list (list bool)) : list (list bool) :=
  tabulate n (fun r c => mget x r c && mget y r c).

Definition mat_not (n : nat) (x : list (list bool)) : list (list bool) :=
  tabulate n (fun r c => negb (mget x r c)).

Definition mat_xor (n : nat) (x y : list (list bool)) : list (list bool) :=
  tabulate n (fun r c => xorb (mget x r c) (mget y r c)).

(** The matrix [to_remove] of [remove_shortcuts]. *)
Definition shortcut_matrix (g : DiGraph) : list (list bool) :=
  let nodelist := nodes g in
  let n := length nodelist in
  let adjacency_matrix := mat_is_one n (to_numpy_matrix g nodelist (Some 0%nat)) in
  let reachability_matrix := mat_is_one n (floyd_warshall_numpy g nodelist) in
  let transitive_reduction :=
    mat_and n adjacency_matrix
            (mat_not n (mat_mul n adjacency_matrix reachability_matrix)) in
  mat_xor n adjacency_matrix transitive_reduction.

Definition remove_shortcuts (g : DiGraph) : option DiGraph :=
  let nodelist := nodes g in
  fold_left
    (fun (og : option DiGraph) (ab : nat * nat) =>
       g' <- og ;;
       remove_edge g' (nth (fst ab) nodelist START) (nth (snd ab) nodelist START))
    (np_where2 (shortcut_matrix g)) (Some g).

(* ================================================================== *)
(** * Building the base graph ([graph_from_document]) *)
(* ================================================================== *)

(** [sorted(items)]: a stable sort with [Node.__lt__]. *)
Fixpoint insert_node (x : Node) (l : list Node) : list Node :=
  match l with
  | [] => [x]
  | y :: l' => if Node_lt y x then y :: insert_node x l' else x :: l
  end.

Definition sorted (items : list Node) : list Node :=
  fold_right insert_node [] items.

(** [create_entry_and_exit_nodes]; [items[0]] raises IndexError on an empty
    list.  The two loops run over Python sets, whose iteration order is
    not fixed; the order of the node list is taken. *)
Definition create_entry_and_exit_nodes (graph : DiGraph) (items : list Node)
  : option DiGraph :=
  let g := add_nodes_from graph [START; END] in
  let items := sorted items in
  match items with
  | [] => None
  | first :: _ =>
      let g := add_edge g START first in
      let g := fold_left (fun g node => add_edge g START node)
                 (filter (fun n => negb (Node_eq n START)
                                   && negb (node_mem n (descendants g START)))
                         (nodes g)) g in
      let g := add_edge g (last items first) END in
      let g := fold_left (fun g node => add_edge g node END)
                 (filter (fun n => negb (Node_eq n END)
                                   && negb (node_mem n (ancestors g END)))
                         (nodes g)) g in
      Some g
  end.

(** [s2 - e1 > 1] on integers and float infinities ([inf - inf] is [nan],
    and every comparison with [nan] is false). *)
Definition gap_gt_one (s2 e1 : num) : bool :=
  match s2, e1 with
  | Fin x, Fin y => Z.ltb 1 (x - y)
  | PosInf, Fin _ => true
  | PosInf, NegInf => true
  | Fin _, NegInf => true
  | _, _ => false
  end.

(** [add_blanks]: both loops run over lists taken before the loop starts. *)
Definition add_blanks (graph : DiGraph) : option DiGraph :=
  fold_left
    (fun (og : option DiGraph) (node : Node) =>
       g <- og ;;
       if negb (String.eqb (name node) "_") && negb (Node_eq node START) then
         fold_left
           (fun (og : option DiGraph) (succ : Node) =>
              g <- og ;;
              if gap_gt_one (Node_start succ) (Node_end node)
                 && negb (Node_eq succ END) then
                let nnode := mkNode (Node_end node, Node_start succ) "_" 1 in
                let g := add_node g nnode in
                let g := add_edges_from g [(node, nnode); (nnode, succ)] in
                remove_edge g node succ
              else Some g)
           (successors g node) (Some g)
       else Some g)
    (nodes graph) (Some graph).

Definition graph_from_document (rows : Document) : option DiGraph :=
  res <- get_dense_matrix rows ;;
  let items := get_elementary_nodes rows in
  df <- matrix_to_dataframe res items ;;
  edges <- edges_from_dataframe df items ;;
  let graph := empty_graph in
  let graph := add_nodes_from graph items in
  let graph := add_edges_from graph edges in
  graph <- create_entry_and_exit_nodes graph items ;;
  graph <- remove_shortcuts graph ;;
  graph <- add_blanks graph ;;
  remove_shortcuts graph.

(** The document of the end-to-end example. *)
Definition example_doc : Document :=
  [("NOUN"%string, [(0, 5); (9, 14)]); ("VERB"%string, [(5, 9)])].

Definition noun_0_5 : Node := mkNode (Fin 0, Fin 5) "NOUN" 1.
Definition noun_9_14 : Node := mkNode (Fin 9, Fin 14) "NOUN" 1.
Definition verb_5_9 : Node := mkNode (Fin 5, Fin 9) "VERB" 1.

(* ================================================================== *)
(** * Grammar ([class Grammar]) *)
(* ================================================================== *)

Definition str_mem (x : string) (l : list string) : bool :=
  existsb (String.eqb x) l.

(** A Python [set] of strings built from a sequence: first occurrences. *)
Fixpoint str_set (l : list string) : list string :=
  match l with
  | [] => []
  | x :: l' => x :: filter (fun y => negb (String.eqb x y)) (str_set l')
  end.

(** Set difference [s - t]. *)
Definition str_diff (s t : list string) : list string :=
  filter (fun x => negb (str_mem x t)) s.

Record Grammar : Type := mkGrammar {
  rules : list Rule;
  start_symbol : string;
  nonterminals : list string;
  terminals : list string;
  nonterminal_dependency_order : list string
}.

Definition Grammar_nonterminals (rules : list Rule) : list string :=
  str_set (map lhs rules).

Definition Grammar_terminals (rules : list Rule) : list string :=
  str_diff (str_set (flat_map rhs rules)) (Grammar_nonterminals rules).

(** [toolz.groupby(lambda x: x['lhs'], self)]: the rules of each left-hand
    side, keys in order of first appearance. *)
Definition groupby_lhs (rules : list Rule) : list (string * list Rule) :=
  map (fun k => (k, filter (fun r => String.eqb (lhs r) k) rules))
      (str_set (map lhs rules)).

(** [rules_deps]: for each nonterminal, the symbols of its right-hand
    sides that are not terminals. *)
Definition rules_deps (rules : list Rule) : list (string * list string) :=
  map (fun kv : string * list Rule =>
         (fst kv, str_diff (str_set (flat_map rhs (snd kv)))
                           (Grammar_terminals rules)))
      (groupby_lhs rules).

(** One run of the [for k, v in rules_deps.items()] loop.  [done] holds
    the entries already visited (and updated) in this run. *)
Fixpoint order_pass (todo done : list (string * list string)) (order : list string)
  : list (string * list string) * list string :=
  match todo with
  | [] => (done, order)
  | (k, v) :: todo' =>
      match v with
      | [] =>
          if negb (str_mem k order) then (done ++ todo, order ++ [k])
          else order_pass todo'
                 (done ++ [(k, match order with [] => v | _ => str_diff v order end)])
                 order
      | _ =>
          order_pass todo'
            (done ++ [(k, match order with [] => v | _ => str_diff v order end)])
            order
      end
  end.

(** The [while len(order) != len(self.nonterminals)] loop. *)
Fixpoint order_loop (fuel : nat) (n : nat) (deps : list (string * list string))
    (order : list string) : option (list string) :=
  if Nat.eqb (length order) n then Some order
  else
    match fuel with
    | O => None
    | S fuel' =>
        let '(deps', order') := order_pass deps [] order in
        order_loop fuel' n deps' order'
    end.

Definition get_rule_application_order (fuel : nat) (rules : list Rule)
  : option (list string) :=
  order_loop fuel (length (Grammar_nonterminals rules)) (rules_deps rules) [].

(** [Grammar.__init__]. *)
Definition Grammar_init (fuel : nat) (start_symbol : string) (rules : list Rule)
  : option Grammar :=
  order <- get_rule_application_order fuel rules ;;
  Some (mkGrammar rules start_symbol (Grammar_nonterminals rules)
                  (Grammar_terminals rules) order).

(** [grammar[key]] for a nonterminal [key]. *)
Definition Grammar_getitem (g : Grammar) (key : string) : option (list Rule) :=
  if str_mem key (nonterminals g)
  then Some (filter (fun r => String.eqb (lhs r) key) (rules g))
  else None.

(* ================================================================== *)
(** * Chart resolution ([get_valid_paths], [get_nonterminal_nodes]) *)
(* ================================================================== *)

(** The body of [for succ in new_graph.successors(current_path[-1])]. *)
Definition valid_paths_step (etalon : list string) (current_path : list Node)
    (st : list (list Node) * list (list Node)) (succ : Node)
  : list (list Node) * list (list Node) :=
  let '(paths, dones_paths) := st in
  if Nat.leb (length current_path) (length etalon) then
    if String.eqb (name succ) (nth (length current_path - 1) etalon ""%string)
    then (paths ++ [current_path ++ [succ]], dones_paths)
    else (paths, dones_paths)
  else if Nat.eqb (length current_path) (length etalon + 1) && Node_eq succ END
  then (paths, dones_paths ++ [tl current_path])
  else (paths, dones_paths).

(** The [while paths] loop. *)
Fixpoint valid_paths_loop (fuel : nat) (new_graph : DiGraph) (etalon : list string)
    (paths dones_paths : list (list Node)) : option (list (list Node)) :=
  match paths with
  | [] => Some dones_paths
  | current_path :: rest =>
      match fuel with
      | O => None
      | S fuel' =>
          let '(paths', dones') :=
            fold_left (valid_paths_step etalon current_path)
                      (successors new_graph (last current_path START))
                      (rest, dones_paths) in
          valid_paths_loop fuel' new_graph etalon paths' dones'
      end
  end.

(** [get_valid_paths]; [rule.rhs[0]] raises IndexError on an empty
    right-hand side. *)
Definition get_valid_paths (fuel : nat) (graph : DiGraph) (rule : Rule)
  : option (list (list Node)) :=
  let new_graph := remove_nodes_from graph [START; END] in
  let new_graph := add_nodes_from new_graph [START; END] in
  match rhs rule with
  | [] => None
  | rhs0 :: _ =>
      let entries := filter (fun n => String.eqb (name n) rhs0) (nodes new_graph) in
      let exits := filter (fun n => String.eqb (name n) (last (rhs rule) rhs0))
                          (nodes new_graph) in
      let new_graph := add_edges_from new_graph (map (fun i => (START, i)) entries) in
      let new_graph := add_edges_from new_graph (map (fun i => (i, END)) exits) in
      valid_paths_loop fuel new_graph (rhs rule) [[START]] []
  end.

(** The candidate map: a [defaultdict(list)] keyed by nodes. *)
Definition CandidateMap : Type := list (Node * list (Rule * list Node)).

(** [nodes[node].append(d)]: an existing key (found with [Node_eq]) keeps
    its key object; a missing key is inserted with an empty list first. *)
Fixpoint cm_append (cm : CandidateMap) (node : Node) (d : Rule * list Node)
  : CandidateMap :=
  match cm with
  | [] => [(node, [d])]
  | (k, ds) :: cm' =>
      if Node_eq k node then (k, ds ++ [d]) :: cm'
      else (k, ds) :: cm_append cm' node d
  end.

(** [nodes[node]]: the list under the key, empty for a missing key. *)
Fixpoint cm_get (cm : CandidateMap) (node : Node) : list (Rule * list Node) :=
  match cm with
  | [] => []
  | (k, ds) :: cm' => if Node_eq k node then ds else cm_get cm' node
  end.

(** The body of [for path in paths]. *)
Definition resolve_path (nonterminal : string) (rule : Rule)
    (st : option (DiGraph * CandidateMap)) (path : list Node)
  : option (DiGraph * CandidateMap) :=
  s <- st ;;
  let '(g2, nodes) := s in
  match path with
  | [] => None
  | first :: _ =>
      let node := mkNode (Node_start first, Node_end (last path first))
                         nonterminal (rule_weight rule) in
      let nodes := cm_append nodes node (rule, path) in
      let g2 := add_node g2 node in
      let g2 := add_edges_from g2
                  (map (fun i => (i, node)) (predecessors g2 first)
                   ++ map (fun i => (node, i)) (successors g2 (last path first))) in
      Some (g2, nodes)
  end.

(** The body of [for rule in grammar[nonterminal]]. *)
Definition resolve_rule (fuel : nat) (nonterminal : string)
    (st : option (DiGraph * CandidateMap)) (rule : Rule)
  : option (DiGraph * CandidateMap) :=
  s <- st ;;
  paths <- get_valid_paths fuel (fst s) rule ;;
  fold_left (resolve_path nonterminal rule) paths (Some s).

(** The body of [for nonterminal in order]. *)
Definition resolve_nonterminal (fuel : nat) (grammar : Grammar)
    (st : option (DiGraph * CandidateMap)) (nonterminal : string)
  : option (DiGraph * CandidateMap) :=
  s <- st ;;
  rs <- Grammar_getitem grammar nonterminal ;;
  fold_left (resolve_rule fuel nonterminal) rs (Some s).

Definition get_nonterminal_nodes (fuel : nat) (graph : DiGraph) (grammar : Grammar)
  : option CandidateMap :=
  s <- fold_left (resolve_nonterminal fuel grammar)
                 (nonterminal_dependency_order grammar) (Some (graph, [])) ;;
  Some (snd s).

(* ================================================================== *)
(** * Tree selection ([choose_parse_tree]) *)
(* ================================================================== *)

(** [max(it, key=...)] and [max(it)] keep the first of the greatest
    elements: a later element replaces the current one only when it is
    strictly greater. *)
Definition py_max {A : Type} (gt : A -> A -> bool) (x : A) (l : list A) : A :=
  fold_left (fun m y => if gt y m then y else m) l x.

(** [l1 > l2] on lists of nodes: the first position where the nodes differ
    under [Node_eq] decides with [Node.__gt__]; without one, the longer
    list is greater. *)
Fixpoint nodes_gt (l1 l2 : list Node) : bool :=
  match l1, l2 with
  | [], _ => false
  | _ :: _, [] => true
  | x :: l1', y :: l2' => if Node_eq x y then nodes_gt l1' l2' else Node_gt x y
  end.

(** [(w1, c1) > (w2, c2)] on the pairs [(rule.weight, children)]. *)
Definition derivation_gt (d1 d2 : Z * list Node) : bool :=
  if Z.eqb (fst d1) (fst d2) then nodes_gt (snd d1) (snd d2)
  else Z.ltb (fst d2) (fst d1).

(** The children of the chosen derivation of [node], if it has one. *)
Definition chosen_children (nodes : CandidateMap) (node : Node)
  : option (list Node) :=
  match map (fun d : Rule * list Node => (rule_weight (fst d), snd d))
            (cm_get nodes node) with
  | [] => None
  | d :: ds => Some (snd (py_max derivation_gt d ds))
  end.

(** The [while stack] loop. *)
Fixpoint parse_tree_loop (fuel : nat) (nodes : CandidateMap)
    (stack : list Node) (graph : DiGraph) : option DiGraph :=
  match stack with
  | [] => Some graph
  | node :: stack' =>
      match fuel with
      | O => None
      | S fuel' =>
          let graph := add_node graph node in
          match chosen_children nodes node with
          | Some children =>
              parse_tree_loop fuel' nodes (stack' ++ children)
                (add_edges_from graph (map (fun i => (node, i)) children))
          | None => parse_tree_loop fuel' nodes stack' graph
          end
      end
  end.

(** The root: the start-symbol key of greatest weight; AssertionError
    ('Parse failed, change grammar.') when there is none. *)
Definition choose_root (nodes : CandidateMap) (grammar : Grammar) : option Node :=
  match filter (fun i => String.eqb (name i) (start_symbol grammar))
               (map fst nodes) with
  | [] => None
  | i :: l => Some (py_max (fun x y => Z.ltb (weight y) (weight x)) i l)
  end.

Definition choose_parse_tree (fuel : nat) (nodes : CandidateMap) (grammar : Grammar)
  : option DiGraph :=
  root <- choose_root nodes grammar ;;
  parse_tree_loop fuel nodes [root] empty_graph.

Definition document_to_graph (fuel : nat) (document : Document) (grammar : Grammar)
  : option DiGraph :=
  graph <- graph_from_document document ;;
  nonterminal_nodes <- get_nonterminal_nodes fuel graph grammar ;;
  choose_parse_tree fuel nonterminal_nodes grammar.

(** The grammar of the end-to-end example: [S -> NOUN VERB NOUN : 5]. *)
Definition example_rule : Rule :=
  mkRule "S" ["NOUN"; "VERB"; "NOUN"]%string 5.

Definition example_grammar : Grammar :=
  mkGrammar [example_rule] "S" ["S"%string] ["NOUN"; "VERB"]%string ["S"%string].

Definition s_0_14 : Node := mkNode (Fin 0, Fin 14) "S" 5.

(** The base graph of the example. *)
Definition example_base_graph : DiGraph :=
  mkDiGraph [noun_0_5; noun_9_14; verb_5_9; START; END]
            [(noun_0_5, verb_5_9); (verb_5_9, noun_9_14);
             (START, noun_0_5); (START, END); (noun_9_14, END)].

(** The edges of a graph that touch neither sentinel. *)
Definition inner_edges (g : DiGraph) : list (Node * Node) :=
  filter (fun e => negb (Node_eq (fst e) START) && negb (Node_eq (snd e) END))
         (edges g).

Definition is_sentinel (n : Node) : bool := Node_eq n START || Node_eq n END.

(** Three layers with one span each; the later two both follow the first. *)
Definition c5_doc : Document :=
  [("X"%string, [(0, 1)]); ("Y"%string, [(2, 3)]); ("Z"%string, [(5, 6)])].

Definition x_0_1 : Node := mkNode (Fin 0, Fin 1) "X" 1.
Definition y_2_3 : Node := mkNode (Fin 2, Fin 3) "Y" 1.
Definition z_5_6 : Node := mkNode (Fin 5, Fin 6) "Z" 1.

(** The edge list that [graph_from_document] computes before it builds
    the graph. *)
Definition document_edges (rows : Document) : option (list (Node * Node)) :=
  res <- get_dense_matrix rows ;;
  df <- matrix_to_dataframe res (get_elementary_nodes rows) ;;
  edges_from_dataframe df (get_elementary_nodes rows).

(* ================================================================== *)
(** * Graph invariants and reachability *)
(* ================================================================== *)

(** No two nodes of the list are equal under [Node_eq]. *)
Fixpoint nodes_distinct (l : list Node) : bool :=
  match l with
  | [] => true
  | x :: l' => negb (node_mem x l') && nodes_distinct l'
  end.

(** What networkx maintains: node keys are distinct and both ends of an
    edge are nodes. *)
Definition wf_graph (g : DiGraph) : bool :=
  nodes_distinct (nodes g)
  && forallb (fun e => has_node g (fst e) && has_node g (snd e)) (edges g).

(** The edge [u -> v] is doubled by a path [u -> x -> v] over another
    node [x]. *)
Definition is_shortcut (g : DiGraph) (u v : Node) : bool :=
  existsb (fun x => has_edge g u x && (negb (Node_eq x v) && has_edge g x v))
          (nodes g).

Definition edge (g : DiGraph) (u v : Node) : Prop := has_edge g u v = true.

(** [v] is reachable from [u] by a path of at least one edge. *)
Definition reachable (g : DiGraph) : Node -> Node -> Prop :=
  clos_trans Node (edge g).

Definition acyclic (g : DiGraph) : Prop := forall x, ~ reachable g x x.

(** A walk: a list of nodes, each linked to the next by an edge. *)
Fixpoint is_walk (g : DiGraph) (w : list Node) : Prop :=
  match w with
  | x :: ((y :: _) as w') => edge g x y /\ is_walk g w'
  | _ => True
  end.

(** The key under which a node is stored. *)
Definition Node_key (n : Node) : Span * string := (span n, name n).

(** The graph of the example as [create_entry_and_exit_nodes] leaves it,
    before the first reduction. *)
Definition example_raw_graph : DiGraph :=
  mkDiGraph [noun_0_5; noun_9_14; verb_5_9; START; END]
            [(noun_0_5, noun_9_14); (noun_0_5, verb_5_9); (verb_5_9, noun_9_14);
             (START, noun_0_5); (START, END); (noun_9_14, END)].

(** A ranking of the nodes by their start offset. *)
Definition start_rank (n : Node) : Z :=
  match Node_start n with
  | NegInf => -1
  | Fin z => z
  | PosInf => 1000
  end.

(* ================================================================== *)
(** * Dependencies between nonterminals *)
(* ================================================================== *)

(** [k] depends on [d]: [d] is a nonterminal that occurs in the right-hand
    side of a rule for [k]. *)
Definition depends (rules : list Rule) (k d : string) : Prop :=
  exists r, In r rules /\ lhs r = k /\ In d (rhs r) /\ In d (map lhs rules).

(** [d] stands before [k] in [order]. *)
Definition before (d k : string) (order : list string) : Prop :=
  exists o1 o2, order = o1 ++ k :: o2 /\ In d o1.

(** [rules_deps[k] -= set(order)], run once per element of [order]: no
    change while [order] is empty. *)
Definition deps_update (order v : list string) : list string :=
  match order with
  | [] => v
  | _ => str_diff v order
  end.

(** Some entry of [deps] has an empty set and a key outside [order]: the
    [for] loop will reach its [break]. *)
Definition pass_finds (deps : list (string * list string)) (order : list string)
  : bool :=
  existsb (fun kv : string * list string =>
             match snd kv with
             | [] => negb (str_mem (fst kv) order)
             | _ => false
             end)
          deps.

(** A chain: each element is related to the next. *)
Fixpoint chain {A : Type} (R : A -> A -> Prop) (l : list A) : Prop :=
  match l with
  | x :: ((y :: _) as l') => R x y /\ chain R l'
  | _ => True
  end.

(** Two rules that need each other. *)
Definition cyclic_rules : list Rule :=
  [mkRule "A" ["B"; "x"]%string 2; mkRule "B" ["A"]%string 1].

(** [dict] lookup in the dependency table. *)
Fixpoint deps_get (deps : list (string * list string)) (k : string)
  : option (list string) :=
  match deps with
  | [] => None
  | (k', v) :: deps' => if String.eqb k k' then Some v else deps_get deps' k
  end.

(** The state of the [while] loop of [get_rule_application_order] after
    [k] rounds, whatever the loop condition says. *)
Fixpoint order_rounds (k : nat) (st : list (string * list string) * list string)
  : list (string * list string) * list string :=
  match k with
  | O => st
  | S k' => order_rounds k' (order_pass (fst st) [] (snd st))
  end.

(** A sentence rule over a noun phrase. *)
Definition layered_rules : list Rule :=
  [mkRule "S" ["NP"; "VERB"; "NP"]%string 3; mkRule "NP" ["ADJ"; "NOUN"]%string 2].

Definition layered_rank (s : string) : Z :=
  if String.eqb s "S" then 1 else 0.

(** Three rules for [S]; the first two produce the same node with
    different weights. *)
Definition rule_s5 : Rule := mkRule "S" ["NOUN"; "VERB"; "NOUN"]%string 5.
Definition rule_s9 : Rule := mkRule "S" ["NOUN"; "VERB"; "NOUN"]%string 9.
Definition rule_s7 : Rule := mkRule "S" ["NOUN"; "VERB"]%string 7.

Definition weights_rules : list Rule := [rule_s5; rule_s9; rule_s7].

Definition weights_grammar : Grammar :=
  mkGrammar weights_rules "S" ["S"%string] ["NOUN"; "VERB"]%string ["S"%string].

Definition s_0_9 : Node := mkNode (Fin 0, Fin 9) "S" 7.

(** The candidate map as chart resolution keeps it: keys are distinct
    under [Node_eq], and the weight stored in a key is the weight of the
    rule of the first derivation recorded under it. *)
Definition first_weight_inv (cm : CandidateMap) : Prop :=
  nodes_distinct (map fst cm) = true /\
  forall k ds, In (k, ds) cm ->
    exists r p ds', ds = (r, p) :: ds' /\ weight k = rule_weight r.

(** The edge [u -> v] follows the chosen derivation of [u]. *)
Definition derivation_edge (cm : CandidateMap) (u v : Node) : Prop :=
  exists children, chosen_children cm u = Some children /\ In v children.

(** A candidate map in which two nodes both derive from the same child. *)
Definition leaf_x : Node := mkNode (Fin 0, Fin 1) "x" 1.
Definition node_a : Node := mkNode (Fin 0, Fin 1) "A" 1.
Definition node_b : Node := mkNode (Fin 0, Fin 1) "B" 1.
Definition node_s : Node := mkNode (Fin 0, Fin 1) "S" 2.

Definition shared_rules : list Rule :=
  [mkRule "S" ["A"; "B"]%string 2; mkRule "A" ["x"]%string 1;
   mkRule "B" ["x"]%string 1].

Definition shared_map : CandidateMap :=
  [(node_a, [(mkRule "A" ["x"]%string 1, [leaf_x])]);
   (node_b, [(mkRule "B" ["x"]%string 1, [leaf_x])]);
   (node_s, [(mkRule "S" ["A"; "B"]%string 2, [node_a; node_b])])].

Definition shared_grammar : Grammar :=
  mkGrammar shared_rules "S" ["S"; "A"; "B"]%string ["x"%string]
            ["A"; "B"; "S"]%string.

(* ================================================================== *)
(** * Rule notation: tokens ([docapply.py], [tokenize]) *)
(* ================================================================== *)

(** The cap that stands for an unbounded repetition. *)
Definition INF : nat := 10.

(** [class Token]: the name of the lexical category and the matched
    text. *)
Record Token : Type := mkToken {
  typ : string;
  value : string
}.

Definition Token_eqb (s t : Token) : bool :=
  String.eqb (typ s) (typ t) && String.eqb (value s) (value t).

(** Character classes of the token patterns.  A character of a string
    stands for the Unicode code point of its number, so that the strings
    are those over the code points below 256.  [[[:alpha:]]] is the
    Unicode property Alphabetic, which holds there for A-Z, a-z, U+00AA,
    U+00B5, U+00BA, U+00C0 to U+00D6, U+00D8 to U+00F6 and U+00F8 to
    U+00FF; [[[:digit:]]] holds for 0-9 only. *)
Definition is_alpha (c : ascii) : bool :=
  let n := nat_of_ascii c in
  (Nat.leb 65 n && Nat.leb n 90) || (Nat.leb 97 n && Nat.leb n 122)
  || Nat.eqb n 170 || Nat.eqb n 181 || Nat.eqb n 186
  || (Nat.leb 192 n && Nat.leb n 214) || (Nat.leb 216 n && Nat.leb n 246)
  || (Nat.leb 248 n && Nat.leb n 255).

Definition is_digit (c : ascii) : bool :=
  let n := nat_of_ascii c in Nat.leb 48 n && Nat.leb n 57.

Definition is_underscore (c : ascii) : bool := Ascii.eqb c "_".

Definition is_space (c : ascii) : bool :=
  Ascii.eqb c " " || Ascii.eqb c "010" || Ascii.eqb c "009".

Definition is_meta (c : ascii) : bool :=
  Ascii.eqb c "?" || Ascii.eqb c "*" || Ascii.eqb c "+" || Ascii.eqb c "|".

(** The longest prefix of [s] whose characters satisfy [p], and the
    rest. *)
Fixpoint take_while (p : ascii -> bool) (s : string) : string * string :=
  match s with
  | EmptyString => (EmptyString, EmptyString)
  | String c rest =>
      if p c then let '(a, b) := take_while p rest in (String c a, b)
      else (EmptyString, s)
  end.

(** The pattern [{[0-9]+, *[0-9]+}] after its opening brace: the matched
    text without the opening brace, and the rest. *)
Definition match_brackets (s : string) : option (string * string) :=
  let '(d1, s1) := take_while is_digit s in
  match d1, s1 with
  | String _ _, String "," s2 =>
      let '(sp, s3) := take_while (fun c => Ascii.eqb c " ") s2 in
      let '(d2, s4) := take_while is_digit s3 in
      match d2, s4 with
      | String _ _, String "}" s5 =>
          Some ((d1 ++ "," ++ sp ++ d2 ++ "}")%string, s5)
      | _, _ => None
      end
  | _, _ => None
  end.

(** One match of the combined pattern at the start of [s]: category,
    matched text and the rest of the input.  The alternatives are tried
    in the order of [token_specification]. *)
Definition get_token (s : string) : option (string * string * string) :=
  match s with
  | EmptyString => None
  | String c rest =>
      if is_alpha c || is_underscore c then
        let '(a, b) :=
          take_while (fun x => is_alpha x || is_digit x || is_underscore x) rest in
        Some ("token"%string, String c a, b)
      else if is_meta c then Some ("meta"%string, String c EmptyString, rest)
      else if Ascii.eqb c "(" then Some ("startbr"%string, "("%string, rest)
      else if Ascii.eqb c ")" then Some ("endbr"%string, ")"%string, rest)
      else if Ascii.eqb c "-" then
        match rest with
        | String ">" rest' => Some ("arrow"%string, "->"%string, rest')
        | _ => None
        end
      else if Ascii.eqb c "{" then
        match match_brackets rest with
        | Some (text, rest') => Some ("brackets"%string, String "{" text, rest')
        | None => None
        end
      else if Ascii.eqb c ":" then
        match take_while is_digit rest with
        | (String d ds, rest') => Some ("weight"%string, String ":" (String d ds), rest')
        | _ => None
        end
      else if is_space c then
        let '(a, b) := take_while is_space rest in
        Some ("SKIP"%string, String c a, b)
      else None
  end.

(** The [while mo is not None] loop; a character that no pattern matches
    raises RuntimeError. *)
Fixpoint tokenize_loop (fuel : nat) (s : string) : option (list Token) :=
  match s with
  | EmptyString => Some []
  | String _ _ =>
      match fuel with
      | O => None
      | S fuel' =>
          match get_token s with
          | None => None
          | Some (ty, val, rest) =>
              toks <- tokenize_loop fuel' rest ;;
              Some (if String.eqb ty "SKIP" then toks else mkToken ty val :: toks)
          end
      end
  end.

(** [tokenize]: every match takes at least one character, so the length
    of the line bounds the number of rounds. *)
Definition tokenize (s : string) : option (list Token) :=
  tokenize_loop (String.length s) s.

(* ================================================================== *)
(** * Rule notation: the expression tree ([parse], [to_tree], [shunt]) *)
(* ================================================================== *)

(** What an [Expr] holds: tokens, nested [Expr]s, and after [shunt] the
    alternations [Or].  [IExprObj] is an [Expr] whose [nodes] is an [Expr]
    object instead of a list, which [parse] builds for a group that is
    never closed. *)
Inductive item : Type :=
| ITok : Token -> item
| IExpr : list item -> nat -> nat -> item
| IExprObj : item -> nat -> nat -> item
| IOr : item -> item -> item.

(** The two shapes [parse] returns: [(idx + frm + 1, res)] at a closing
    parenthesis and [(idx, Expr(res))] at the end of the list. *)
Inductive parse_result : Type :=
| PClosed : Z -> list item -> parse_result
| PEnd : Z -> item -> parse_result.

(** [res[-1].frm = f; res[-1].to = t]; IndexError on an empty list.  On a
    ['|'] token the two attributes are set and never read. *)
Definition set_last_range (res : list item) (f t : nat) : option (list item) :=
  match res with
  | [] => None
  | _ =>
      Some (removelast res ++
            [match last res (ITok (mkToken "" "")) with
             | IExpr nodes _ _ => IExpr nodes f t
             | IExprObj e _ _ => IExprObj e f t
             | other => other
             end])
  end.

(** [s.strip()] for the blanks the pattern allows, and [int(s)]. *)
Definition lstrip (s : string) : string := snd (take_while is_space s).

Fixpoint rstrip (s : string) : string :=
  match s with
  | EmptyString => EmptyString
  | String c rest =>
      match rstrip rest with
      | EmptyString => if is_space c then EmptyString else String c EmptyString
      | r => String c r
      end
  end.

Definition py_int (s : string) : option nat :=
  match rstrip (lstrip s) with
  | EmptyString => None
  | t => option_map Nat.of_uint (NilEmpty.uint_of_string t)
  end.

(** [s.split(',')]. *)
Fixpoint split_comma (s : string) : list string :=
  match s with
  | EmptyString => [EmptyString]
  | String c rest =>
      if Ascii.eqb c "," then EmptyString :: split_comma rest
      else match split_comma rest with
           | [] => [String c EmptyString]
           | x :: l => String c x :: l
           end
  end.

(** [value[1:-1]]. *)
Definition strip_ends (s : string) : string :=
  match s with
  | EmptyString => EmptyString
  | String _ rest => String.substring 0 (String.length rest - 1) rest
  end.

(** [[int(j.strip()) for j in i.value[1:-1].split(',')]], unpacked into
    two names. *)
Definition bracket_range (val : string) : option (nat * nat) :=
  match split_comma (strip_ends val) with
  | [a; b] => f <- py_int a ;; t <- py_int b ;; Some (f, t)
  | _ => None
  end.

(** The [for idx, i in enumerate(lst)] loop of [parse]; [idx] counts the
    elements already passed, so the loop ends with [idx - 1] as the last
    index seen. *)
Fixpoint parse_loop (lst : list Token) (frm nst idx : nat) (res : list item)
    (to : option Z) : option parse_result :=
  match lst with
  | [] => Some (PEnd (Z.of_nat idx - 1) (IExpr res 1 1))
  | i :: tl =>
      if match to with Some t => Z.ltb (Z.of_nat idx) t | None => false end
      then parse_loop tl frm nst (S idx) res to
      else if String.eqb (value i) "(" then
        match parse_loop tl (idx + frm) (S nst) 0 [] None with
        | None => None
        | Some (PClosed to' new) =>
            parse_loop tl frm nst (S idx) (res ++ [IExpr new 1 1]) (Some to')
        | Some (PEnd to' e) =>
            parse_loop tl frm nst (S idx) (res ++ [IExprObj e 1 1]) (Some to')
        end
      else if String.eqb (value i) ")" then
        if negb (Nat.eqb nst 0) then Some (PClosed (Z.of_nat (idx + frm + 1)) res)
        else match res with
             | [] => None
             | _ =>
                 parse_loop tl frm nst (S idx)
                   (removelast res ++ [IExpr [last res (ITok i)] 1 1]) None
             end
      else if String.eqb (typ i) "token" then
        parse_loop tl frm nst (S idx) (res ++ [IExpr [ITok i] 1 1]) None
      else if String.eqb (value i) "|" then
        parse_loop tl frm nst (S idx) (res ++ [ITok i]) None
      else if String.eqb (value i) "+" then
        res' <- set_last_range res 1 INF ;; parse_loop tl frm nst (S idx) res' None
      else if String.eqb (value i) "*" then
        res' <- set_last_range res 0 INF ;; parse_loop tl frm nst (S idx) res' None
      else if String.eqb (value i) "?" then
        res' <- set_last_range res 0 1 ;; parse_loop tl frm nst (S idx) res' None
      else if String.eqb (typ i) "brackets" then
        ft <- bracket_range (value i) ;;
        res' <- set_last_range res (fst ft) (snd ft) ;;
        parse_loop tl frm nst (S idx) res' None
      else parse_loop tl frm nst (S idx) res None
  end.

Definition parse (lst : list Token) (frm nst : nat) : option parse_result :=
  parse_loop lst frm nst 0 [] None.

(** [to_tree]: [start, arrow, *rest, weight = tokens] needs three tokens;
    a last token that is no weight belongs to the right-hand side. *)
Definition to_tree (statements : string) : option item :=
  toks <- tokenize statements ;;
  match toks with
  | start :: arrow :: more =>
      match more with
      | [] => None
      | _ =>
          let weight := last more start in
          let rest := removelast more in
          let rest := if String.eqb (typ weight) "weight" then rest
                      else rest ++ [weight] in
          if String.eqb (typ start) "token" && String.eqb (typ arrow) "arrow" then
            match parse rest 0 0 with
            | Some (PEnd _ p) => Some p
            | Some (PClosed _ res) => None
            | None => None
            end
          else None
      end
  | _ => None
  end.

Definition is_bar (i : item) : bool :=
  match i with
  | ITok t => String.eqb (value t) "|"
  | _ => false
  end.

(** [shunt]: folds the ['|'] tokens into [Or] nodes.  A tree whose first
    node is a token is returned as it is; an empty node list raises
    IndexError, and so do an alternation without a left or a right
    operand; a token or an [Expr] object where an [Expr] with a node list
    is awaited raises as well. *)
Fixpoint shunt (fuel : nat) (tree : item) : option item :=
  match fuel with
  | O => None
  | S fuel' =>
      match tree with
      | IExpr nodes frm to =>
          match nodes with
          | [] => None
          | ITok _ :: _ => Some tree
          | _ =>
              let fix loop (stack news : list item) : option (list item) :=
                match stack with
                | [] => Some news
                | i :: stack' =>
                    if is_bar i then
                      match news, stack' with
                      | _ :: _, r :: stack'' =>
                          r' <- shunt fuel' r ;;
                          loop stack''
                               (removelast news
                                ++ [IOr (last news (ITok (mkToken "" ""))) r'])
                      | _, _ => None
                      end
                    else
                      i' <- shunt fuel' i ;;
                      loop stack' (news ++ [i'])
                end in
              news <- loop nodes [] ;;
              Some (IExpr news frm to)
          end
      | _ => None
      end
  end.

(** The depth of a tree, enough fuel for [shunt]. *)
Fixpoint item_depth (i : item) : nat :=
  match i with
  | ITok _ => 1%nat
  | IExpr nodes _ _ =>
      S ((fix go (l : list item) : nat :=
            match l with
            | [] => O
            | k :: l' => Nat.max (item_depth k) (go l')
            end) nodes)
  | IExprObj e _ _ => S (item_depth e)
  | IOr l r => S (Nat.max (item_depth l) (item_depth r))
  end.

(* ================================================================== *)
(** * Rule notation: expansion ([unwrap]) *)
(* ================================================================== *)

(** What [unwrap] returns: a list of tokens and of n-ary alternations
    [ORR], whose branches are such lists again. *)
Inductive uitem : Type :=
| UTok : Token -> uitem
| UOrr : list (list uitem) -> uitem.

(** [range(frm, to + 1)]. *)
Definition py_range (frm to : nat) : list nat := seq frm (to + 1 - frm).

(** What one node [i] of [t.nodes] adds to [results] in [unwrap(t)];
    [unwrap(Expr(nodes))] concatenates it over the nodes. *)
Fixpoint unwrap_node (i : item) : option (list uitem) :=
  match i with
  | ITok t => Some [UTok t]
  | IOr l r =>
      a <- unwrap_node l ;;
      b <- unwrap_node r ;;
      Some [UOrr [a; b]]
  | IExpr nodes frm to =>
      let inner :=
        (fix go (l : list item) : option (list uitem) :=
           match l with
           | [] => Some []
           | k :: l' => a <- unwrap_node k ;; b <- go l' ;; Some (a ++ b)
           end) nodes in
      if Nat.eqb to 1 then
        if Nat.eqb frm 1 then inner
        else if Nat.eqb frm 0 then x <- inner ;; Some [UOrr [[]; x]]
        else Some []
      else
        match nodes with
        | [ITok t] =>
            Some [UOrr (map (fun j => repeat (UTok t) j) (py_range frm to))]
        | _ =>
            match py_range frm to with
            | [] => Some [UOrr []]
            | js =>
                x <- inner ;;
                Some [UOrr (map (fun j => concat (repeat x j)) js)]
            end
        end
  | IExprObj _ _ _ => None
  end.

(** [unwrap(t)] for an [Expr] [t]. *)
Definition unwrap (t : item) : option (list uitem) :=
  match t with
  | IExpr nodes _ _ =>
      (fix go (l : list item) : option (list uitem) :=
         match l with
         | [] => Some []
         | k :: l' => a <- unwrap_node k ;; b <- go l' ;; Some (a ++ b)
         end) nodes
  | _ => None
  end.

(* ================================================================== *)
(** * Rule notation: the branching graph ([fixup], [get_rhs_set]) *)
(* ================================================================== *)

(** The nodes of the branching graph.  The last component of a tuple is
    the value of [random.random()]; it is modelled by a counter, so that
    two draws never give the same value. *)
Inductive gnode : Type :=
| GStart : gnode
| GEnd : gnode
| GEps : nat -> nat -> gnode
| GTok : Token -> nat -> nat -> nat -> gnode
| GOr : nat -> nat -> nat -> gnode
| GEndOr : nat -> nat -> nat -> gnode.

Definition gnode_eqb (a b : gnode) : bool :=
  match a, b with
  | GStart, GStart => true
  | GEnd, GEnd => true
  | GEps l r, GEps l' r' => Nat.eqb l l' && Nat.eqb r r'
  | GTok t l i r, GTok t' l' i' r' =>
      Token_eqb t t' && Nat.eqb l l' && Nat.eqb i i' && Nat.eqb r r'
  | GOr i l r, GOr i' l' r' => Nat.eqb i i' && Nat.eqb l l' && Nat.eqb r r'
  | GEndOr i l r, GEndOr i' l' r' => Nat.eqb i i' && Nat.eqb l l' && Nat.eqb r r'
  | _, _ => false
  end.

(** A [DiGraph] over these nodes. *)
Record RGraph : Type := mkRGraph {
  rnodes : list gnode;
  redges : list (gnode * gnode)
}.

Definition gmem (n : gnode) (l : list gnode) : bool := existsb (gnode_eqb n) l.

Definition radd_node (g : RGraph) (n : gnode) : RGraph :=
  if gmem n (rnodes g) then g else mkRGraph (rnodes g ++ [n]) (redges g).

Definition radd_edge (g : RGraph) (u v : gnode) : RGraph :=
  let g1 := radd_node (radd_node g u) v in
  if existsb (fun e => gnode_eqb u (fst e) && gnode_eqb v (snd e)) (redges g1)
  then g1 else mkRGraph (rnodes g1) (redges g1 ++ [(u, v)]).

Definition rsuccessors (g : RGraph) (n : gnode) : list gnode :=
  map snd (filter (fun e => gnode_eqb (fst e) n) (redges g)).

(** The state of [fixup]: the graph and the next random value. *)
Definition FixState : Type := (RGraph * nat)%type.

Section Fixup.

(** How one element of [x] is laid down, given its index and the
    previous node: the entry in [fixup_seq], instantiated below. *)
Variable fixup_elem :
  uitem -> nat -> nat -> option gnode -> FixState -> gnode * gnode * FixState.

(** The [for idx, i in enumerate(x)] loop: [fst] and [prev] are [None]
    until the first element is laid down. *)
Fixpoint fixup_seq (x : list uitem) (lvl idx : nat) (fst_ prev : option gnode)
    (st : FixState) : option gnode * option gnode * FixState :=
  match x with
  | [] => (fst_, prev, st)
  | i :: x' =>
      let '(new, prev', st') := fixup_elem i lvl idx prev st in
      fixup_seq x' lvl (S idx)
                (match fst_ with Some f => Some f | None => Some new end)
                (Some prev') st'
  end.

(** [fixup(g, j, lvl)] for one list [j]: an empty list is one epsilon
    node, which enters the graph only with the edges laid to it. *)
Definition fixup_list (j : list uitem) (lvl : nat) (st : FixState)
  : gnode * gnode * FixState :=
  match j with
  | [] => let ff := GEps lvl (snd st) in (ff, ff, (fst st, S (snd st)))
  | _ =>
      let '(f, p, st') := fixup_seq j lvl O None None st in
      (match f with Some n => n | None => GStart end,
       match p with Some n => n | None => GStart end, st')
  end.

(** The [for j in i.nodes] loop over the branches of an alternation
    between the nodes [new] and [endor]. *)
Fixpoint fixup_branches (new endor : gnode) (lvl : nat) (alts : list (list uitem))
    (st : FixState) : FixState :=
  match alts with
  | [] => st
  | j :: alts' =>
      let '(enter, exit, (g, c)) := fixup_list j lvl st in
      let g := radd_edge g exit endor in
      let g := radd_edge g new enter in
      fixup_branches new endor lvl alts' (g, c)
  end.

End Fixup.

(** The body of the loop for one element [i]: returns the node [new] the
    element starts with and the node [prev] it ends with. *)
Fixpoint fixup_elem (i : uitem) (lvl idx : nat) (prev : option gnode)
    (st : FixState) : gnode * gnode * FixState :=
  let '(g, c) := st in
  match i with
  | UTok t =>
      let new := GTok t lvl idx c in
      let g := radd_node g new in
      let g := match prev with Some p => radd_edge g p new | None => g end in
      (new, new, (g, S c))
  | UOrr alts =>
      let new := GOr idx lvl c in
      let g := match prev with Some p => radd_edge g p new | None => g end in
      let g := radd_node g new in
      let endor := GEndOr idx lvl (S c) in
      let g := radd_node g endor in
      (new, endor, fixup_branches fixup_elem new endor (S lvl) alts (g, S (S c)))
  end.

(** [fixup(g, x)] at level 0. *)
Definition fixup (st : FixState) (x : list uitem) : gnode * gnode * FixState :=
  fixup_list fixup_elem x O st.

(** [nx.all_simple_paths]: depth-first enumeration of the paths from the
    current node to [target] that repeat no node; [fuel] is the cutoff
    [len(G) - 1] on the number of nodes before the target. *)
Fixpoint simple_paths_from (fuel : nat) (g : RGraph) (target : gnode)
    (visited : list gnode) (cur : gnode) : list (list gnode) :=
  match fuel with
  | O => []
  | S fuel' =>
      flat_map
        (fun child =>
           if gnode_eqb child target then [visited ++ [target]]
           else if gmem child visited then []
           else simple_paths_from fuel' g target (visited ++ [child]) child)
        (rsuccessors g cur)
  end.

Definition all_simple_paths (g : RGraph) (source target : gnode)
  : list (list gnode) :=
  simple_paths_from (length (rnodes g) - 1) g target [source] source.

(** [[j[0].value for j in i if isinstance(j[0], Token)]]. *)
Definition path_labels (p : list gnode) : list string :=
  flat_map (fun j => match j with GTok t _ _ _ => [value t] | _ => [] end) p.

(** The first three lines of [get_rhs_set]: [unwrap(shunt(to_tree(line)))]. *)
Definition expand_line (line : string) : option (list uitem) :=
  t0 <- to_tree line ;;
  t <- shunt (item_depth t0) t0 ;;
  unwrap t.

(** The graph [g] of [get_rhs_set] once START and END are wired. *)
Definition rhs_graph (x : list uitem) : RGraph :=
  let g := mkRGraph [] [] in
  let '(fst_, last_, (g, _)) := fixup (g, 0%nat) x in
  let g := radd_edge g GStart fst_ in
  radd_edge g last_ GEnd.

(** The loop over the simple paths; the set is listed in the order in
    which the paths first produce its elements. *)
Definition rhs_of_paths (g : RGraph) : list string :=
  str_set (map (fun i => String.concat " " (path_labels i))
               (all_simple_paths g GStart GEnd)).

(** [get_rhs_set]. *)
Definition get_rhs_set (line : string) : option (list string) :=
  x <- expand_line line ;;
  Some (rhs_of_paths (rhs_graph x)).

(** The token [a] of the examples. *)
Definition tok_a : Token := mkToken "token" "a".

(** A walk of the branching graph from a node to [target], listed without
    its first node; [target] occurs only at the end. *)
Inductive rwalk (g : RGraph) (target : gnode) : gnode -> list gnode -> Prop :=
| rwalk_end : forall cur,
    In (cur, target) (redges g) -> rwalk g target cur [target]
| rwalk_step : forall cur c p,
    In (cur, c) (redges g) -> c <> target -> rwalk g target c p ->
    rwalk g target cur (c :: p).

(** Both ends of every edge are nodes of the graph. *)
Definition rwf (g : RGraph) : Prop :=
  forall u v, In (u, v) (redges g) -> In u (rnodes g) /\ In v (rnodes g).

(** The pairs of neighbours of a list. *)
Fixpoint chain_edges (l : list gnode) : list (gnode * gnode) :=
  match l with
  | x :: ((y :: _) as l') => (x, y) :: chain_edges l'
  | _ => []
  end.

(** The nodes that [fixup] creates for a list of tokens, from the index
    [idx] and the random value [c] on. *)
Fixpoint tok_nodes (lvl idx c : nat) (ts : list Token) : list gnode :=
  match ts with
  | [] => []
  | t :: ts' => GTok t lvl idx c :: tok_nodes lvl (S idx) (S c) ts'
  end.

(** The nodes of one branch made of tokens: an epsilon node when the
    branch is empty. *)
Definition alt_nodes (c : nat) (ts : list Token) : list gnode :=
  match ts with
  | [] => [GEps 1 c]
  | _ => tok_nodes 1 0 c ts
  end.

(** The branches of an alternation with the random value each starts
    from. *)
Fixpoint alt_starts (c : nat) (talts : list (list Token))
  : list (nat * list Token) :=
  match talts with
  | [] => []
  | ts :: rest => (c, ts) :: alt_starts (c + length (alt_nodes c ts)) rest
  end.

(** The random value of a branch node. *)
Definition gid (n : gnode) : nat :=
  match n with
  | GEps _ r => r
  | GTok _ _ _ r => r
  | GOr _ _ r => r
  | GEndOr _ _ r => r
  | _ => O
  end.

Definition opt_list {A : Type} (o : option A) : list A :=
  match o with
  | Some x => [x]
  | None => []
  end.

(** The alternation of branches made of tokens only. *)
Definition flat_orr (talts : list (list Token)) : uitem :=
  UOrr (map (map UTok) talts).

(** The edges that the branch starting at [s] contributes between the
    nodes [new] and [endor]. *)
Definition branch_edge (new endor : gnode) (s : nat) (ts : list Token)
    (e : gnode * gnode) : Prop :=
  In e (chain_edges (alt_nodes s ts)) \/
  e = (last (alt_nodes s ts) GStart, endor) \/
  e = (new, hd GStart (alt_nodes s ts)).

(** The two nodes [fixup] creates for an alternation that is the only
    element of the list, with the first two random values. *)
Definition orr_new : gnode := GOr 0 0 0.

Definition orr_end : gnode := GEndOr 0 0 1.

(** The nodes of a branch: epsilon and token nodes. *)
Definition is_branch_node (n : gnode) : bool :=
  match n with
  | GEps _ _ => true
  | GTok _ _ _ _ => true
  | _ => false
  end.

(** Every character of [s] satisfies [p]. *)
Fixpoint all_chars (p : ascii -> bool) (s : string) : bool :=
  match s with
  | EmptyString => true
  | String c rest => p c && all_chars p rest
  end.

(** The characters of [s] that satisfy [p]. *)
Fixpoint keep_chars (p : ascii -> bool) (s : string) : string :=
  match s with
  | EmptyString => EmptyString
  | String c rest => if p c then String c (keep_chars p rest) else keep_chars p rest
  end.

(** [s] without its blanks. *)
Definition drop_spaces (s : string) : string :=
  keep_chars (fun c => negb (is_space c)) s.

(** The character class [[[:alpha:][:digit:]_]] of the pattern [token]. *)
Definition is_name_char (c : ascii) : bool :=
  is_alpha c || is_digit c || is_underscore c.

(** The strings the pattern [token] matches as a whole. *)
Definition is_name (s : string) : bool :=
  match s with
  | EmptyString => false
  | String c rest => (is_alpha c || is_underscore c) && all_chars is_name_char rest
  end.

(** The characters some token pattern can match. *)
Definition in_alphabet (c : ascii) : bool :=
  is_name_char c || is_meta c || is_space c ||
  existsb (Ascii.eqb c) ["("; ")"; "-"; ">"; "{"; "}"; ","; ":"]%char.

(** The categories of the tokens that [tokenize] yields. *)
Definition token_types : list string :=
  ["token"; "meta"; "startbr"; "endbr"; "arrow"; "brackets"; "weight"]%string.

(** The decimal notation of a number. *)
Definition dec (n : nat) : string := NilEmpty.string_of_uint (Nat.to_uint n).

(** The first character of [s], if any, does not satisfy [p]. *)
Definition stops (p : ascii -> bool) (s : string) : bool :=
  match s with
  | EmptyString => true
  | String c _ => negb (p c)
  end.

(** The values of a list of tokens, one after the other. *)
Definition joined (toks : list Token) : string :=
  fold_right (fun t acc => (value t ++ acc)%string) EmptyString toks.

(** The characters of the ASCII range. *)
Definition is_ascii (c : ascii) : bool := Nat.ltb (nat_of_ascii c) 128.

(** Some character of [s] satisfies [p]. *)
Definition some_char (p : ascii -> bool) (s : string) : bool :=
  negb (all_chars (fun c => negb (p c)) s).

(** The token of a name, and the unit [parse] makes of it. *)
Definition name_token (n : string) : Token := mkToken "token" n.

Definition unit_of (n : string) : item := IExpr [ITok (name_token n)] 1 1.

(** [Grammar.get_rule(lhs, rhs)]: the third condition is a list, which is
    true as soon as it is not empty, whatever comparisons it holds. *)
Definition Grammar_get_rule (g : Grammar) (lhs_node : Node) (rhs_nodes : list Node)
  : option Rule :=
  find (fun rule =>
          String.eqb (lhs rule) (name lhs_node)
          && Nat.eqb (length rhs_nodes) (length (rhs rule))
          && match map (fun ab : string * Node => String.eqb (fst ab) (name (snd ab)))
                       (combine (rhs rule) rhs_nodes) with
             | [] => false
             | _ :: _ => true
             end)
       (rules g).

(** The graph in which [get_valid_paths] searches: the sentinels stripped
    of their edges, then linked to the entries and exits of the rule. *)
Definition search_graph (graph : DiGraph) (rhs0 rhs_last : string) : DiGraph :=
  let new_graph := remove_nodes_from graph [START; END] in
  let new_graph := add_nodes_from new_graph [START; END] in
  let entries := filter (fun n => String.eqb (name n) rhs0) (nodes new_graph) in
  let exits := filter (fun n => String.eqb (name n) rhs_last) (nodes new_graph) in
  let new_graph := add_edges_from new_graph (map (fun i => (START, i)) entries) in
  add_edges_from new_graph (map (fun i => (i, END)) exits).

(** A path of the queue of [get_valid_paths]: START, then nodes that
    spell a prefix of the right-hand side, each linked to the next. *)
Definition queue_inv (g : DiGraph) (etalon : list string) (cp : list Node) : Prop :=
  exists q, cp = START :: q /\ is_walk g cp /\
            map name q = firstn (length q) etalon /\
            (length q <= length etalon)%nat.

(** A finished path: it spells the right-hand side and follows edges
    from START on. *)
Definition done_inv (g : DiGraph) (etalon : list string) (d : list Node) : Prop :=
  is_walk g (START :: d) /\ map name d = etalon.

(** A bound on the rounds of the [while paths] loop: a path that may
    still grow by [k] nodes stands for at most [round_bound d k] rounds
    when no node has more than [d] successors. *)
Fixpoint round_bound (d k : nat) : nat :=
  match k with
  | O => 1%nat
  | S k' => (1 + d * round_bound d k')%nat
  end.

Definition queue_bound (d l : nat) (paths : list (list Node)) : nat :=
  fold_right (fun p acc => (round_bound d (l + 1 - length p) + acc)%nat) O paths.

(** A derivation [(rule, path)] stored under the key [k] of the candidate
    map is justified: the rule is a rule of the grammar for the label of
    [k], the path spells its right-hand side, and the span of [k] runs
    from the start of the first node to the end of the last. *)
Definition justified (grammar : Grammar) (k : Node) (rule : Rule)
    (path : list Node) : Prop :=
  In rule (rules grammar) /\ lhs rule = name k /\
  map name path = rhs rule /\
  span k = (Node_start (hd START path), Node_end (last path START)).

Definition justified_map (grammar : Grammar) (cm : CandidateMap) : Prop :=
  forall k ds rule path,
    In (k, ds) cm -> In (rule, path) ds -> justified grammar k rule path.

(** The graph of the example with its candidate edges, before the entry
    and exit nodes are added. *)
Definition example_candidate_graph : DiGraph :=
  mkDiGraph [noun_0_5; noun_9_14; verb_5_9]
            [(noun_0_5, noun_9_14); (noun_0_5, verb_5_9); (verb_5_9, noun_9_14)].

(** The blank node [add_blanks] puts between a node and a successor. *)
Definition blank_between (a b : Node) : Node :=
  mkNode (Node_end a, Node_start b) "_" 1.

(** The test of [add_blanks] on an edge: more than one character lies
    between the two nodes, and the second is not END. *)
Definition far_apart (a b : Node) : bool :=
  gap_gt_one (Node_start b) (Node_end a) && negb (Node_eq b END).

(** The test of [add_blanks] on a node: no blank and not START. *)
Definition takes_blanks (a : Node) : bool :=
  negb (String.eqb (name a) "_") && negb (Node_eq a START).

(** The body of [for succ in graph.successors(node)]. *)
Definition blank_step (node : Node) (og : option DiGraph) (succ : Node)
  : option DiGraph :=
  g <- og ;;
  if far_apart node succ then
    let nnode := blank_between node succ in
    let g := add_node g nnode in
    let g := add_edges_from g [(node, nnode); (nnode, succ)] in
    remove_edge g node succ
  else Some g.

(** No edge is listed twice, as in the dictionaries of networkx. *)
Fixpoint edges_distinct (l : list (Node * Node)) : bool :=
  match l with
  | [] => true
  | e :: l' => negb (existsb (edge_eq e) l') && edges_distinct l'
  end.

(** The edge [a -> b] of [g] is one that [add_blanks] replaces. *)
Definition replaced (g : DiGraph) (a b : Node) : Prop :=
  edge g a b /\ takes_blanks a = true /\ far_apart a b = true.

(** [u -> v] is one of the two edges through the blank node of a
    replaced edge. *)
Definition through_blank (g : DiGraph) (u v : Node) : Prop :=
  exists a b, replaced g a b /\
    ((Node_eq u a = true /\ Node_eq v (blank_between a b) = true) \/
     (Node_eq u (blank_between a b) = true /\ Node_eq v b = true)).

(** Two nodes more than one character apart, linked by an edge. *)
Definition gap_graph : DiGraph := mkDiGraph [x_0_1; z_5_6] [(x_0_1, z_5_6)].

(** A node with finite offsets and a span that is not empty: an
    elementary node or a blank. *)
Definition proper (n : Node) : Prop :=
  exists s e, span n = (Fin s, Fin e) /\ s < e.

(** Every edge leads to a node that starts later. *)
Definition forward (g : DiGraph) : Prop :=
  forall u v, edge g u v -> num_ltb (Node_start u) (Node_start v) = true.

(** What the stages of [graph_from_document] keep: the graph is as
    networkx keeps it, its nodes are the sentinels and proper nodes, and
    its edges lead forward. *)
Definition base_inv (g : DiGraph) : Prop :=
  wf_graph g = true /\ edges_distinct (edges g) = true /\
  (forall n, has_node g n = true ->
             Node_eq n START = true \/ Node_eq n END = true \/ proper n) /\
  forward g.

(** START and END are nodes, START reaches every other node and every
    other node reaches END. *)
Definition spanned (g : DiGraph) : Prop :=
  has_node g START = true /\ has_node g END = true /\
  (forall n, has_node g n = true -> Node_eq n START = false ->
             reachable g START n) /\
  (forall n, has_node g n = true -> Node_eq n END = false ->
             reachable g n END).

(** A record that the filter [y.s2 <= y.e2.min()] drops: a record with
    the same [e1] and the same [n2] ends before it starts. *)
Definition dropped_in (df : list DfRow) (r : DfRow) : Prop :=
  exists r', In r' df /\ col_e1 r' = col_e1 r /\ col_n2 r' = col_n2 r /\
             num_ltb (col_e2 r') (col_s2 r) = true.

(** [B] is a candidate successor of [A]: it starts at or after the end
    of [A]. *)
Definition candidate (A B : Node) : bool := num_leb (Node_end A) (Node_start B).

(** Among the candidate successors of [A], one with the label of [B]
    ends before [B] starts. *)
Definition overtaken (items : list Node) (A B : Node) : bool :=
  existsb (fun C => candidate A C && String.eqb (name C) (name B)
                    && num_ltb (Node_end C) (Node_start B))
          items.

(** Some candidate successor of some item is overtaken. *)
Definition crowded (items : list Node) : bool :=
  existsb (fun A => existsb (fun B => candidate A B && overtaken items A B) items)
          items.

(** Two spans of one layer with a gap between them, after a span of
    another layer. *)
Definition gap_doc : Document :=
  [("A"%string, [(0, 1)]); ("B"%string, [(2, 3); (5, 6)])].

(** [s] is the values of [toks] in their order, with nothing but runs of
    blanks, which may be empty, before, between and after them. *)
Fixpoint spaced (toks : list Token) (s : string) : Prop :=
  match toks with
  | [] => all_chars is_space s = true
  | t :: toks' =>
      exists b rest, all_chars is_space b = true /\
                     s = (b ++ value t ++ rest)%string /\ spaced toks' rest
  end.

(** The place of a symbol in a list, counted from 1; 0 for a symbol that
    is not in the list. *)
Fixpoint place (o : list string) (x : string) : nat :=
  match o with
  | [] => 0%nat
  | y :: o' =>
      if String.eqb x y then 1%nat
      else match place o' x with
           | O => 0%nat
           | S n => S (S n)
           end
  end.

(** [x] ends at or before the start of [y]. *)
Definition apart (x y : Node) : Prop :=
  num_leb (Node_end x) (Node_start y) = true.

(** The spans of [x] and [y] do not overlap. *)
Definition separate (x y : Node) : Prop := apart x y \/ apart y x.

(** The span of [c] lies within the span of [u]. *)
Definition inside (c u : Node) : Prop :=
  num_leb (Node_start u) (Node_start c) = true /\
  num_leb (Node_end c) (Node_end u) = true.

(** Every edge leads to a node that starts where its source ends, or
    later. *)
Definition follows (g : DiGraph) : Prop := forall u v, edge g u v -> apart u v.

(** What chart resolution keeps of the graph it extends: the graph is as
    networkx keeps it, its nodes are the sentinels and proper nodes, and
    its edges follow the text. *)
Definition geo_inv (g : DiGraph) : Prop :=
  wf_graph g = true /\
  (forall n, has_node g n = true ->
             Node_eq n START = true \/ Node_eq n END = true \/ proper n) /\
  follows g.

(** Every derivation of the candidate map is a sequence of proper nodes,
    one after the other in the text. *)
Definition tiled (cm : CandidateMap) : Prop :=
  forall k ds rule path,
    In (k, ds) cm -> In (rule, path) ds ->
    path <> [] /\ Forall proper path /\ chain apart path.

(** The chosen derivation of every node: proper children, one after the
    other, within the span of the node, and each with a label that
    stands before the label of the node in [order] or is not in it. *)
Definition well_derived (order : list string) (cm : CandidateMap) : Prop :=
  forall u cs,
    chosen_children cm u = Some cs ->
    Forall proper cs /\ ForallOrdPairs apart cs /\
    forall c, In c cs ->
      inside c u /\ (place order (name c) < place order (name u))%nat.

(** No rule mentions the labels of the sentinels. *)
Definition no_sentinel (rs : list Rule) : Prop :=
  forall r, In r rs ->
    ~ In "START"%string (rhs r) /\ ~ In "END"%string (rhs r).

(** What the [while stack] loop keeps: the nodes that wait on the stack
    lie apart from each other; every edge follows a chosen derivation;
    a node that has its children lies apart from a waiting node or above
    it; and no node has two parents. *)
Definition tree_inv (cm : CandidateMap) (stack : list Node) (graph : DiGraph)
  : Prop :=
  ForallOrdPairs separate stack /\
  (forall u v, In (u, v) (edges graph) -> derivation_edge cm u v) /\
  (forall u v q, In (u, v) (edges graph) -> In q stack ->
     separate u q \/ clos_trans Node (derivation_edge cm) u q) /\
  (forall u v u' v', In (u, v) (edges graph) -> In (u', v') (edges graph) ->
     Node_eq v v' = true -> Node_eq u u' = true).

(* ================================================================== *)
(** * Theorems *)
(* ================================================================== *)

(** ** Dense mapping: the index of an offset is its rank *)

Section DenseMapping.

Lemma insert_sorted_In (x y : Z) (l : list Z) :
  In y (insert_sorted x l) <-> y = x \/ In y l.
Proof.
  induction l as [|z l IH]; simpl.
  - intuition.
  - destruct (Z.ltb_spec x z).
    + simpl. intuition.
    + destruct (Z.eqb_spec x z).
      * subst. simpl. intuition.
      * simpl. rewrite IH. intuition.
Qed.

Lemma insert_sorted_sorted (x : Z) (l : list Z) :
  StronglySorted Z.lt l -> StronglySorted Z.lt (insert_sorted x l).
Proof.
  induction 1 as [|z l Hs IH Hall]; simpl.
  - repeat constructor.
  - destruct (Z.ltb_spec x z).
    + constructor.
      * constructor; assumption.
      * constructor; [assumption|].
        rewrite Forall_forall in *. intros w Hw. specialize (Hall w Hw). lia.
    + destruct (Z.eqb_spec x z).
      * constructor; assumption.
      * constructor; [assumption|].
        rewrite Forall_forall in *. intros w Hw.
        apply insert_sorted_In in Hw. destruct Hw as [->|Hw]; [lia|auto].
Qed.

Lemma sorted_set_In (x : Z) (l : list Z) : In x (sorted_set l) <-> In x l.
Proof.
  induction l as [|y l IH]; simpl; [tauto|].
  rewrite insert_sorted_In, IH. intuition.
Qed.

Lemma sorted_set_sorted (l : list Z) : StronglySorted Z.lt (sorted_set l).
Proof.
  induction l; simpl; [constructor | apply insert_sorted_sorted; assumption].
Qed.

Lemma filter_length_le {A : Type} (f g : A -> bool) (l : list A) :
  (forall z, In z l -> f z = true -> g z = true) ->
  (length (filter f l) <= length (filter g l))%nat.
Proof.
  induction l as [|y l IH]; simpl; intros H; [lia|].
  assert (IH' := IH (fun z Hz => H z (or_intror Hz))).
  destruct (f y) eqn:Hf.
  - rewrite (H y (or_introl eq_refl) Hf). simpl. lia.
  - destruct (g y); simpl; lia.
Qed.

Lemma filter_length_lt {A : Type} (f g : A -> bool) (l : list A) (x : A) :
  (forall z, In z l -> f z = true -> g z = true) ->
  In x l -> f x = false -> g x = true ->
  (length (filter f l) < length (filter g l))%nat.
Proof.
  induction l as [|y l IH]; simpl; intros H Hin Hf Hg; [tauto|].
  assert (Hle := filter_length_le f g l (fun z Hz => H z (or_intror Hz))).
  destruct Hin as [->|Hin].
  - rewrite Hf, Hg. simpl. lia.
  - assert (IH' := IH (fun z Hz => H z (or_intror Hz)) Hin Hf Hg).
    destruct (f y) eqn:Hfy.
    + rewrite (H y (or_introl eq_refl) Hfy). simpl. lia.
    + destruct (g y); simpl; lia.
Qed.

Lemma rank_le (l : list Z) (x y : Z) : x <= y -> (rank l x <= rank l y)%nat.
Proof.
  intros H. apply filter_length_le. intros z _ Hz.
  apply Z.ltb_lt in Hz. apply Z.ltb_lt. lia.
Qed.

Lemma rank_lt (l : list Z) (x y : Z) :
  In x l -> x < y -> (rank l x < rank l y)%nat.
Proof.
  intros Hin H. apply filter_length_lt with (x := x); auto.
  - intros z _ Hz. apply Z.ltb_lt in Hz. apply Z.ltb_lt. lia.
  - apply Z.ltb_ge. lia.
  - apply Z.ltb_lt. assumption.
Qed.

Lemma rank_lt_length (l : list Z) (x : Z) : In x l -> (rank l x < length l)%nat.
Proof.
  intros Hin.
  assert (H : (rank l x < length (filter (fun _ => true) l))%nat).
  { apply filter_length_lt with (x := x); auto. apply Z.ltb_ge. lia. }
  assert (Hle := filter_length_le (fun _ : Z => true) (fun _ : Z => true) l (fun _ _ H => H)).
  assert (Hl : (length (filter (fun _ : Z => true) l) <= length l)%nat).
  { clear. induction l; simpl; lia. }
  lia.
Qed.

Lemma rank_leb_iff (l : list Z) (x y : Z) :
  In y l -> ((rank l x <= rank l y)%nat <-> x <= y).
Proof.
  intros Hy. split.
  - intros H. destruct (Z.le_gt_cases x y) as [|Hlt]; [assumption|].
    assert (rank l y < rank l x)%nat by (apply rank_lt; [assumption|lia]). lia.
  - apply rank_le.
Qed.

Lemma dict_get_enumerate (l : list Z) :
  StronglySorted Z.lt l -> forall (k : nat) (x : Z), In x l ->
  dict_get (enumerate_from k l) x = Some (k + rank l x)%nat.
Proof.
  induction 1 as [|y l Hs IH Hall]; intros k x Hin; [destruct Hin|].
  rewrite Forall_forall in Hall. simpl. unfold rank. simpl.
  destruct (Z.eqb_spec x y) as [->|Hne].
  - rewrite Z.ltb_irrefl.
    replace (filter (fun y0 => y0 <? y) l) with (@nil Z); [simpl; f_equal; lia|].
    symmetry. clear -Hall. induction l as [|z l IHl]; simpl; [reflexivity|].
    assert (y < z) by (apply Hall; left; reflexivity).
    destruct (Z.ltb_spec z y); [lia|]. apply IHl. intros w Hw. apply Hall. right. assumption.
  - destruct Hin as [Heq|Hin]; [congruence|].
    assert (y < x) by (apply Hall; assumption).
    destruct (Z.ltb_spec y x); [|lia].
    rewrite (IH (S k) x Hin). unfold rank. simpl. f_equal. lia.
Qed.

End DenseMapping.

(** ** Rows of the dense matrix *)

Lemma filter_slice_seq (i j n : nat) :
  (j <= n)%nat ->
  filter (fun k => Nat.leb i k && Nat.ltb k j) (seq 0 n) = seq i (j - i).
Proof.
  revert j. induction n as [|n IH]; intros j Hj.
  - assert (j = 0)%nat by lia. subst. reflexivity.
  - rewrite seq_S, filter_app.
    destruct (Nat.eq_dec j (S n)) as [->|Hne].
    + rewrite (filter_ext_in _ (fun k => Nat.leb i k && Nat.ltb k n) (seq 0 n)).
      * rewrite (IH n (Nat.le_refl n)).
        cbn [filter Nat.add].
        destruct (Nat.leb_spec i n) as [Hle|Hgt].
        -- destruct (Nat.ltb_spec n (S n)); [|lia]. cbn [andb].
           replace (S n - i)%nat with (S (n - i)) by lia.
           rewrite (seq_S (n - i) i). f_equal. f_equal. lia.
        -- cbn [andb]. replace (n - i)%nat with 0%nat by lia.
           replace (S n - i)%nat with 0%nat by lia. reflexivity.
      * intros k Hk. apply in_seq in Hk. f_equal.
        destruct (Nat.ltb_spec k (S n)), (Nat.ltb_spec k n); try reflexivity; lia.
    + rewrite (IH j) by lia. cbn [filter Nat.add].
      destruct (Nat.ltb_spec n j); [lia|]. rewrite andb_false_r. apply app_nil_r.
Qed.

Lemma nth_map_seq {A : Type} (f : nat -> A) (n k : nat) (d : A) :
  (k < n)%nat -> nth k (map f (seq 0 n)) d = f k.
Proof.
  intros H.
  rewrite (nth_indep _ d (f 0%nat)) by (rewrite length_map, length_seq; lia).
  rewrite (map_nth f), seq_nth by lia. reflexivity.
Qed.

Lemma np_where_slice (n i j : nat) :
  (j <= n)%nat -> np_where (zeros_set_slice n i j) = seq i (j - i).
Proof.
  intros Hj. unfold np_where, zeros_set_slice.
  rewrite length_map, length_seq.
  rewrite <- (filter_slice_seq i j n Hj).
  apply filter_ext_in. intros k Hk. apply in_seq in Hk.
  apply (nth_map_seq (fun k => Nat.leb i k && Nat.ltb k j)). lia.
Qed.

Lemma first_index_seq (i d : nat) : first_index (seq i (S d)) = Some i.
Proof. reflexivity. Qed.

Lemma last_index_seq (i d : nat) : last_index (seq i (S d)) = Some (i + d)%nat.
Proof.
  unfold last_index. rewrite seq_S.
  destruct (seq i d ++ [(i + d)%nat]) eqn:E.
  - destruct (seq i d); discriminate.
  - rewrite <- E, last_last. reflexivity.
Qed.

Lemma option_all_map {A B : Type} (f : A -> option B) (g : A -> B) (l : list A) :
  (forall x, In x l -> f x = Some (g x)) ->
  option_all (map f l) = Some (map g l).
Proof.
  induction l as [|x l IH]; simpl; intros H; [reflexivity|].
  rewrite (H x (or_introl eq_refl)), IH; [reflexivity|].
  intros y Hy. apply H. right. assumption.
Qed.

(** ** The successor matrix compares end and start offsets *)

Lemma doc_spans_keys (rows : Document) (a b : Z) :
  In (a, b) (doc_spans rows) ->
  In a (sorted_set (doc_starts rows ++ doc_ends rows)) /\
  In b (sorted_set (doc_starts rows ++ doc_ends rows)).
Proof.
  intros H. rewrite !sorted_set_In, !in_app_iff. unfold doc_starts, doc_ends. split.
  - left. apply (in_map fst) in H. exact H.
  - right. apply (in_map snd) in H. exact H.
Qed.

Lemma dense_rows_spec (rows : Document) :
  let keys := sorted_set (doc_starts rows ++ doc_ends rows) in
  dense_rows rows =
  Some (map (fun ab : Z * Z =>
               zeros_set_slice (length keys - 1)%nat
                 (rank keys (fst ab)) (rank keys (snd ab)))
            (doc_spans rows)).
Proof.
  intros keys. unfold dense_rows, get_dense_mapping. fold keys.
  apply option_all_map. intros [a b] Hin. simpl.
  destruct (doc_spans_keys rows a b Hin) as [Ha Hb]. fold keys in Ha, Hb.
  pose proof (sorted_set_sorted (doc_starts rows ++ doc_ends rows)) as Hs.
  fold keys in Hs. rewrite !(dict_get_enumerate keys Hs) by assumption.
  reflexivity.
Qed.

Lemma get_dense_matrix_spec (rows : Document) :
  spans_nonempty rows = true ->
  let keys := sorted_set (doc_starts rows ++ doc_ends rows) in
  get_dense_matrix rows =
  Some (map (fun idx => map (fun s => Nat.ltb idx s)
                            (map (fun ab : Z * Z => rank keys (fst ab)) (doc_spans rows)))
            (map (fun ab : Z * Z => (rank keys (snd ab) - 1)%nat) (doc_spans rows))).
Proof.
  intros Hwf keys. unfold get_dense_matrix. rewrite dense_rows_spec. fold keys.
  unfold spans_nonempty in Hwf. rewrite forallb_forall in Hwf.
  assert (Hrow : forall ab, In ab (doc_spans rows) ->
            exists d, np_where (zeros_set_slice (length keys - 1)%nat
                        (rank keys (fst ab)) (rank keys (snd ab)))
                      = seq (rank keys (fst ab)) (S d) /\
                      (rank keys (fst ab) + d = rank keys (snd ab) - 1)%nat).
  { intros [a b] Hin. cbn [fst snd].
    destruct (doc_spans_keys rows a b Hin) as [Ha Hb]. fold keys in Ha, Hb.
    assert (Hab : a < b) by (apply Z.ltb_lt; exact (Hwf _ Hin)).
    assert (Hlt := rank_lt keys a b Ha Hab).
    assert (Hlen := rank_lt_length keys b Hb).
    exists (rank keys b - rank keys a - 1)%nat. split; [|lia].
    rewrite np_where_slice by lia. f_equal. lia. }
  rewrite !map_map.
  rewrite (option_all_map _ (fun ab : Z * Z => rank keys (fst ab))).
  2:{ intros ab Hin. destruct (Hrow ab Hin) as [d [-> _]]. apply first_index_seq. }
  rewrite (option_all_map _ (fun ab : Z * Z => (rank keys (snd ab) - 1)%nat)).
  2:{ intros ab Hin. destruct (Hrow ab Hin) as [d [-> Hd]].
      rewrite last_index_seq. f_equal. exact Hd. }
  f_equal. rewrite (map_map _ _ (doc_spans rows)). reflexivity.
Qed.

(** C2 (as the code has it): on a document whose spans are non-empty the
    matrix is built, and its entry for the pair (A, B) is true exactly when
    B's start offset is greater than OR EQUAL TO A's end offset. *)
Theorem get_dense_matrix_candidate (rows : Document) :
  spans_nonempty rows = true ->
  exists res, get_dense_matrix rows = Some res /\
    forall r c s1 e1 s2 e2,
      nth_error (doc_spans rows) r = Some (s1, e1) ->
      nth_error (doc_spans rows) c = Some (s2, e2) ->
      mget res r c = Z.leb e1 s2.
Proof.
  intros Hwf. eexists. split; [apply get_dense_matrix_spec; assumption|].
  intros r c s1 e1 s2 e2 Hr Hc.
  set (keys := sorted_set (doc_starts rows ++ doc_ends rows)).
  unfold mget.
  assert (Hrow : nth_error
            (map (fun idx => map (fun s => Nat.ltb idx s)
                     (map (fun ab : Z * Z => rank keys (fst ab)) (doc_spans rows)))
                 (map (fun ab : Z * Z => (rank keys (snd ab) - 1)%nat) (doc_spans rows))) r
          = Some (map (fun s => Nat.ltb (rank keys e1 - 1)%nat s)
                     (map (fun ab : Z * Z => rank keys (fst ab)) (doc_spans rows)))).
  { rewrite !nth_error_map, Hr. reflexivity. }
  rewrite (nth_error_nth _ _ _ Hrow).
  assert (Hcol : nth_error
            (map (fun s => Nat.ltb (rank keys e1 - 1)%nat s)
                 (map (fun ab : Z * Z => rank keys (fst ab)) (doc_spans rows))) c
          = Some (Nat.ltb (rank keys e1 - 1)%nat (rank keys s2))).
  { rewrite !nth_error_map, Hc. reflexivity. }
  rewrite (nth_error_nth _ _ _ Hcol).
  apply nth_error_In in Hr, Hc.
  destruct (doc_spans_keys rows s1 e1 Hr) as [Hs1 He1].
  destruct (doc_spans_keys rows s2 e2 Hc) as [Hs2 He2].
  fold keys in Hs1, He1, Hs2, He2.
  unfold spans_nonempty in Hwf. rewrite forallb_forall in Hwf.
  assert (H1 : s1 < e1) by (apply Z.ltb_lt; exact (Hwf _ Hr)).
  assert (Hpos := rank_lt keys s1 e1 Hs1 H1).
  assert (Hiff := rank_leb_iff keys e1 s2 Hs2).
  destruct (Z.leb_spec e1 s2), (Nat.ltb_spec (rank keys e1 - 1) (rank keys s2));
    try reflexivity; lia.
Qed.

Lemma get_dense_matrix_candidate_witness :
  spans_nonempty c2_doc = true /\
  exists res, get_dense_matrix c2_doc = Some res /\
    forall r c s1 e1 s2 e2,
      nth_error (doc_spans c2_doc) r = Some (s1, e1) ->
      nth_error (doc_spans c2_doc) c = Some (s2, e2) ->
      mget res r c = Z.leb e1 s2.
Proof.
  split; [reflexivity | apply (get_dense_matrix_candidate c2_doc); reflexivity].
Defined.

(** C2 as stated fails: VERB@(5,9) starts exactly where NOUN@(0,5) ends, so
    its start is not strictly greater than that end, and still the matrix
    marks it as a candidate successor. *)
Lemma touching_spans_are_candidates :
  get_dense_matrix c2_doc = Some [[false; true]; [false; false]] /\
  nth_error (doc_spans c2_doc) 0 = Some (0, 5) /\
  nth_error (doc_spans c2_doc) 1 = Some (5, 9) /\
  Z.ltb 5 5 = false.
Proof. repeat split. Qed.

(** ** The end-to-end example *)

(** C1: for the document [{"NOUN": [(0,5), (9,14)], "VERB": [(5,9)]}] and
    the grammar [S -> NOUN VERB NOUN : 5] with start symbol [S]:
    the grammar is built; the base graph has the three elementary nodes and
    the two sentinels, no blank node, and between elementary nodes exactly
    the edges NOUN@(0,5) -> VERB@(5,9) -> NOUN@(9,14); chart resolution
    yields one node S@(0,14) of weight 5 with the one derivation over the
    three elementary nodes; the selected tree has that node as its root and
    the three elementary nodes as its children, in ascending start order,
    each of them a leaf. *)
Theorem end_to_end_example :
  Grammar_init 1 "S" [example_rule] = Some example_grammar /\
  graph_from_document example_doc = Some example_base_graph /\
  filter (fun n => negb (is_sentinel n)) (nodes example_base_graph)
    = [noun_0_5; noun_9_14; verb_5_9] /\
  filter (fun n => String.eqb (name n) "_") (nodes example_base_graph) = [] /\
  inner_edges example_base_graph
    = [(noun_0_5, verb_5_9); (verb_5_9, noun_9_14)] /\
  get_nonterminal_nodes 5 example_base_graph example_grammar
    = Some [(s_0_14, [(example_rule, [noun_0_5; verb_5_9; noun_9_14])])] /\
  exists tree,
    document_to_graph 5 example_doc example_grammar = Some tree /\
    nodes tree = [s_0_14; noun_0_5; verb_5_9; noun_9_14] /\
    edges tree = [(s_0_14, noun_0_5); (s_0_14, verb_5_9); (s_0_14, noun_9_14)] /\
    successors tree s_0_14 = [noun_0_5; verb_5_9; noun_9_14] /\
    map Node_start (successors tree s_0_14) = [Fin 0; Fin 5; Fin 9] /\
    successors tree noun_0_5 = [] /\
    successors tree verb_5_9 = [] /\
    successors tree noun_9_14 = [].
Proof.
  repeat apply conj; try (vm_compute; reflexivity).
  exists (mkDiGraph [s_0_14; noun_0_5; verb_5_9; noun_9_14]
                    [(s_0_14, noun_0_5); (s_0_14, verb_5_9); (s_0_14, noun_9_14)]).
  repeat apply conj; vm_compute; reflexivity.
Qed.

(** ** Extended numbers and node equality *)

Lemma num_eqb_eq (a b : num) : num_eqb a b = true <-> a = b.
Proof.
  destruct a, b; simpl; split; intros H; try congruence; try discriminate.
  - apply Z.eqb_eq in H. congruence.
  - apply Z.eqb_eq. congruence.
Qed.

Lemma num_eqb_refl (a : num) : num_eqb a a = true.
Proof. apply num_eqb_eq. reflexivity. Qed.

Lemma num_leb_refl (a : num) : num_leb a a = true.
Proof. destruct a; unfold num_leb; simpl; try reflexivity. rewrite Z.ltb_irrefl. reflexivity. Qed.

Lemma num_leb_trans (a b c : num) :
  num_leb a b = true -> num_leb b c = true -> num_leb a c = true.
Proof.
  unfold num_leb. destruct a, b, c; simpl; try reflexivity; try discriminate.
  rewrite !negb_true_iff, !Z.ltb_ge. lia.
Qed.

Lemma num_leb_total (a b : num) : num_leb a b = true \/ num_leb b a = true.
Proof.
  unfold num_leb. destruct a, b; simpl; auto.
  rewrite !negb_true_iff, !Z.ltb_ge. lia.
Qed.

Lemma num_ltb_leb (a b : num) : num_ltb a b = true -> num_leb a b = true.
Proof.
  unfold num_leb. destruct a, b; simpl; try reflexivity; try discriminate.
  rewrite negb_true_iff, Z.ltb_ge, Z.ltb_lt. lia.
Qed.

Lemma num_leb_Fin (x y : Z) : num_leb (Fin x) (Fin y) = Z.leb x y.
Proof.
  unfold num_leb. simpl. destruct (Z.ltb_spec y x), (Z.leb_spec x y); try reflexivity; lia.
Qed.

Lemma span_eqb_eq (s t : Span) : span_eqb s t = true <-> s = t.
Proof.
  destruct s as [a b], t as [c d]. unfold span_eqb. simpl.
  rewrite andb_true_iff, !num_eqb_eq. split; [intros [-> ->]; reflexivity|].
  intros H. inversion H. auto.
Qed.

(** [Node_eq] is equality of the span and of the label: the weight plays
    no part. *)
Lemma Node_eq_iff (a b : Node) :
  Node_eq a b = true <-> span a = span b /\ name a = name b.
Proof.
  unfold Node_eq. rewrite andb_true_iff, span_eqb_eq, String.eqb_eq. tauto.
Qed.

Lemma Node_eq_refl (a : Node) : Node_eq a a = true.
Proof. apply Node_eq_iff. auto. Qed.

Lemma Node_eq_sym (a b : Node) : Node_eq a b = Node_eq b a.
Proof.
  destruct (Node_eq a b) eqn:H1, (Node_eq b a) eqn:H2; try reflexivity.
  - apply Node_eq_iff in H1. destruct H1 as [Hs Hn].
    assert (Node_eq b a = true) by (apply Node_eq_iff; auto). congruence.
  - apply Node_eq_iff in H2. destruct H2 as [Hs Hn].
    assert (Node_eq a b = true) by (apply Node_eq_iff; auto). congruence.
Qed.

Lemma Node_eq_trans (a b c : Node) :
  Node_eq a b = true -> Node_eq b c = true -> Node_eq a c = true.
Proof.
  rewrite !Node_eq_iff. intros [-> ->] [-> ->]. auto.
Qed.

(** ** Grouping and the nearest-candidate filter *)

Section GroupKeys.

Context {K : Type} (ltb eqb : K -> K -> bool).
Hypothesis eqb_eq : forall x y, eqb x y = true <-> x = y.

Lemma insert_key_In (x y : K) (l : list K) :
  In y (insert_key ltb eqb x l) <-> y = x \/ In y l.
Proof.
  induction l as [|z l IH]; simpl.
  - intuition.
  - destruct (ltb x z).
    + simpl. intuition.
    + destruct (eqb x z) eqn:E.
      * apply eqb_eq in E. subst. simpl. intuition.
      * simpl. rewrite IH. intuition.
Qed.

Lemma group_keys_In (x : K) (l : list K) :
  In x (group_keys ltb eqb l) <-> In x l.
Proof.
  unfold group_keys. induction l as [|y l IH]; simpl; [tauto|].
  rewrite insert_key_In, IH. intuition.
Qed.

Lemma groupby_In (col : DfRow -> K) (df : list DfRow) (k : K) (rs : list DfRow) :
  In (k, rs) (groupby ltb eqb col df) <->
  In k (map col df) /\ rs = filter (fun r => eqb (col r) k) df.
Proof.
  unfold groupby. rewrite in_map_iff. split.
  - intros [k' [Heq Hin]]. inversion Heq as [[Hk Hrs]]. rewrite <- Hk.
    apply -> group_keys_In in Hin. split; [assumption|reflexivity].
  - intros [Hin ->]. exists k. split; [reflexivity|]. apply group_keys_In. assumption.
Qed.

End GroupKeys.

Lemma num_min_spec (l : list num) (m : num) :
  num_min l = Some m ->
  In m l /\ forall x, In x l -> num_leb m x = true.
Proof.
  revert m. induction l as [|y l IH]; simpl; intros m H; [discriminate|].
  destruct (num_min l) as [m'|] eqn:E.
  - destruct (IH m' eq_refl) as [Hin Hle].
    destruct (num_ltb m' y) eqn:Hlt; inversion H; subst.
    + split; [auto|]. intros x [<-|Hx]; [apply num_ltb_leb; assumption|auto].
    + split; [auto|]. intros x [<-|Hx]; [apply num_leb_refl|].
      apply num_leb_trans with m'; [|auto].
      unfold num_leb. rewrite Hlt. reflexivity.
  - inversion H; subst. destruct l; [|simpl in E; destruct (num_min l); discriminate].
    split; [auto|]. intros x [<-|[]]. apply num_leb_refl.
Qed.

Lemma num_min_nonempty (l : list num) : l <> [] -> exists m, num_min l = Some m.
Proof.
  destruct l as [|y l]; [congruence|]. intros _. simpl.
  destruct (num_min l); eauto.
Qed.

Lemma keep_nearest_In (y : list DfRow) (r : DfRow) :
  In r (keep_nearest y) <->
  In r y /\ forall r', In r' y -> num_leb (col_s2 r) (col_e2 r') = true.
Proof.
  unfold keep_nearest. destruct (num_min (map col_e2 y)) as [m|] eqn:E.
  - destruct (num_min_spec _ _ E) as [Hin Hle]. rewrite filter_In. split.
    + intros [Hr Hs]. split; [assumption|]. intros r' Hr'.
      apply num_leb_trans with m; [assumption|]. apply Hle. apply in_map. assumption.
    + intros [Hr Hall]. split; [assumption|].
      apply in_map_iff in Hin. destruct Hin as [r' [<- Hr']]. auto.
  - destruct y as [|r0 y]; [simpl; tauto|].
    destruct (num_min_nonempty (map col_e2 (r0 :: y))) as [m Hm]; [discriminate|].
    congruence.
Qed.

Lemma filter_length_all {A : Type} (f : A -> bool) (l : list A) :
  length (filter f l) = length l <-> forall x, In x l -> f x = true.
Proof.
  induction l as [|y l IH]; cbn [filter length In]; [tauto|].
  destruct (f y) eqn:E; cbn [length].
  - split.
    + intros H x [<-|Hx]; [exact E|]. apply IH; [lia|exact Hx].
    + intros H. f_equal. apply IH. intros x Hx. apply H. right. exact Hx.
  - split.
    + intros H. pose proof (filter_length_le f (fun _ => true) l
                              (fun _ _ _ => eq_refl)) as Hle.
      assert (Hl : length (filter (fun _ : A => true) l) = length l).
      { clear. induction l as [|z l IHl]; [reflexivity|]. cbn. f_equal. exact IHl. }
      lia.
    + intros H. rewrite (H y (or_introl eq_refl)) in E. discriminate E.
Qed.

(** The filter keeps a whole group exactly when no record of the group
    starts after another one ends. *)
Lemma keep_nearest_all (y : list DfRow) :
  length (keep_nearest y) = length y <->
  forall r r', In r y -> In r' y -> num_leb (col_s2 r) (col_e2 r') = true.
Proof.
  split.
  - intros H r r' Hr Hr'.
    assert (Hin : In r (keep_nearest y)).
    { unfold keep_nearest in *. destruct (num_min (map col_e2 y)) as [m|].
      - apply filter_In. split; [exact Hr|].
        apply (proj1 (filter_length_all _ y) H r Hr).
      - destruct y; [destruct Hr|discriminate H]. }
    apply keep_nearest_In in Hin. destruct Hin as [_ Hall]. apply Hall, Hr'.
  - intros H. unfold keep_nearest.
    destruct (num_min (map col_e2 y)) as [m|] eqn:E.
    + apply filter_length_all. intros r Hr.
      destruct (num_min_spec _ _ E) as [Hin _]. apply in_map_iff in Hin.
      destruct Hin as [r' [<- Hr']]. apply H; assumption.
    + destruct y as [|r0 y]; [reflexivity|].
      destruct (num_min_nonempty (map col_e2 (r0 :: y))) as [m Hm]; [discriminate|].
      congruence.
Qed.

Lemma num_leb_false (a b : num) : num_leb a b = false <-> num_ltb b a = true.
Proof. unfold num_leb. apply negb_false_iff. Qed.

(** The inner apply is mutated exactly when a record of the group starts
    after a record with the same [n2] ends. *)
Lemma apply_n2_mutated (x : list DfRow) :
  mutated (apply_n2 x) = true <->
  exists r r', In r x /\ In r' x /\ col_n2 r' = col_n2 r /\
               num_ltb (col_e2 r') (col_s2 r) = true.
Proof.
  unfold apply_n2. cbv zeta.
  set (groups := groupby String.ltb String.eqb col_n2 x).
  destruct (existsb _ groups) eqn:E; cbn [mutated].
  - split; [intros _|reflexivity]. apply existsb_exists in E.
    destruct E as [[k y] [Hy Hlen]]. cbn [snd] in Hlen.
    apply (groupby_In String.ltb String.eqb String.eqb_eq) in Hy.
    destruct Hy as [_ Hy].
    apply negb_true_iff, Nat.eqb_neq in Hlen.
    destruct (existsb (fun r => existsb (fun r' => num_ltb (col_e2 r') (col_s2 r)) y) y)
      eqn:Ex.
    + apply existsb_exists in Ex. destruct Ex as [r [Hr Ex]].
      apply existsb_exists in Ex. destruct Ex as [r' [Hr' Hlt]].
      rewrite Hy in Hr, Hr'. apply filter_In in Hr, Hr'.
      destruct Hr as [Hr Hk]. destruct Hr' as [Hr' Hk'].
      apply String.eqb_eq in Hk, Hk'. exists r, r'. repeat split; congruence.
    + exfalso. apply Hlen. apply keep_nearest_all. intros r r' Hr Hr'.
      destruct (num_leb (col_s2 r) (col_e2 r')) eqn:El; [reflexivity|exfalso].
      apply num_leb_false in El.
      assert (Ht : existsb (fun r => existsb (fun r' => num_ltb (col_e2 r') (col_s2 r)) y) y
                   = true); [|congruence].
      apply existsb_exists. exists r. split; [exact Hr|].
      apply existsb_exists. exists r'. auto.
  - split; [discriminate|]. intros [r [r' [Hr [Hr' [Hn Hlt]]]]]. exfalso.
    assert (Ht : existsb (fun y : string * list DfRow =>
                   negb (Nat.eqb (length (keep_nearest (snd y))) (length (snd y))))
                   groups = true); [|congruence].
    apply existsb_exists.
    exists (col_n2 r, filter (fun r0 => String.eqb (col_n2 r0) (col_n2 r)) x).
    split.
    + apply (groupby_In String.ltb String.eqb String.eqb_eq).
      split; [apply in_map, Hr|reflexivity].
    + cbn [snd]. apply negb_true_iff, Nat.eqb_neq. intros Hlen.
      pose proof (proj1 (keep_nearest_all _) Hlen r r') as Hle.
      rewrite (proj2 (num_leb_false _ _) Hlt) in Hle.
      assert (true = false); [|discriminate]. symmetry. apply Hle.
      * apply filter_In. split; [exact Hr|apply String.eqb_refl].
      * apply filter_In. split; [exact Hr'|]. apply String.eqb_eq, Hn.
Qed.

Lemma apply_n2_records (x : list DfRow) (r : DfRow) :
  In r (records (apply_n2 x)) -> In r x.
Proof.
  unfold apply_n2. cbv zeta. destruct (existsb _ _); cbn [records]; [|tauto].
  intros H. apply in_flat_map in H. destruct H as [[k y] [Hy Hr]].
  apply (groupby_In String.ltb String.eqb String.eqb_eq) in Hy.
  destruct Hy as [_ ->]. cbn [snd] in Hr. apply keep_nearest_In in Hr.
  destruct Hr as [Hr _]. apply filter_In in Hr. tauto.
Qed.

(** The group of [e1] is mutated exactly when it holds a dropped record. *)
Lemma group_mutated (df : list DfRow) (k : num) :
  mutated (apply_n2 (filter (fun r => num_eqb (col_e1 r) k) df)) = true <->
  exists r, In r df /\ col_e1 r = k /\ dropped_in df r.
Proof.
  rewrite apply_n2_mutated. split.
  - intros [r [r' [Hr [Hr' [Hn Hlt]]]]]. apply filter_In in Hr, Hr'.
    destruct Hr as [Hr Hk]. destruct Hr' as [Hr' Hk'].
    apply num_eqb_eq in Hk, Hk'. exists r. split; [exact Hr|].
    split; [exact Hk|]. exists r'. repeat split; congruence.
  - intros [r [Hr [Hk [r' [Hr' [He [Hn Hlt]]]]]]]. exists r, r'.
    split; [apply filter_In; split; [exact Hr|apply num_eqb_eq, Hk]|].
    split; [apply filter_In; split; [exact Hr'|apply num_eqb_eq; congruence]|].
    auto.
Qed.

(** No record is dropped: [fixed] is the frame itself. *)
Lemma fixed_frame_all (df : list DfRow) :
  (forall r, In r df -> ~ dropped_in df r) -> fixed_frame df = Some df.
Proof.
  intros H. unfold fixed_frame. cbv zeta.
  rewrite (proj2 (forallb_forall _ _)); [reflexivity|].
  intros a Ha. apply in_map_iff in Ha. destruct Ha as [[k x] [<- Hx]].
  apply (groupby_In num_ltb num_eqb num_eqb_eq) in Hx. destruct Hx as [_ ->].
  cbn [snd]. apply negb_true_iff.
  destruct (mutated _) eqn:E; [exfalso|reflexivity].
  apply group_mutated in E. destruct E as [r [Hr [_ Hd]]]. exact (H r Hr Hd).
Qed.

(** A group with a dropped record beside a group without one: the
    concatenation raises. *)
Lemma fixed_frame_mixed (df : list DfRow) (r r0 : DfRow) :
  In r df -> dropped_in df r -> In r0 df ->
  (forall r1, In r1 df -> col_e1 r1 = col_e1 r0 -> ~ dropped_in df r1) ->
  fixed_frame df = None.
Proof.
  intros Hr Hd Hr0 Hkeep. unfold fixed_frame. cbv zeta.
  set (results := map _ _).
  assert (Hmut : In (apply_n2 (filter (fun r' => num_eqb (col_e1 r') (col_e1 r)) df))
                    results).
  { apply in_map_iff. exists (col_e1 r, filter (fun r' => num_eqb (col_e1 r') (col_e1 r)) df).
    split; [reflexivity|]. apply (groupby_In num_ltb num_eqb num_eqb_eq).
    split; [apply in_map, Hr|reflexivity]. }
  assert (Hnot : In (apply_n2 (filter (fun r' => num_eqb (col_e1 r') (col_e1 r0)) df))
                    results).
  { apply in_map_iff. exists (col_e1 r0, filter (fun r' => num_eqb (col_e1 r') (col_e1 r0)) df).
    split; [reflexivity|]. apply (groupby_In num_ltb num_eqb num_eqb_eq).
    split; [apply in_map, Hr0|reflexivity]. }
  assert (E1 : mutated (apply_n2 (filter (fun r' => num_eqb (col_e1 r') (col_e1 r)) df))
               = true).
  { apply group_mutated. exists r. auto. }
  assert (E0 : mutated (apply_n2 (filter (fun r' => num_eqb (col_e1 r') (col_e1 r0)) df))
               = false).
  { apply not_true_is_false. intros E.
    apply group_mutated in E. destruct E as [r1 [Hr1 [Hk Hd1]]].
    exact (Hkeep r1 Hr1 Hk Hd1). }
  destruct (forallb (fun a => negb (mutated a)) results) eqn:F1.
  - rewrite forallb_forall in F1. specialize (F1 _ Hmut). rewrite E1 in F1.
    discriminate F1.
  - destruct (forallb mutated results) eqn:F2; [|reflexivity].
    rewrite forallb_forall in F2. specialize (F2 _ Hnot). congruence.
Qed.

(** Whatever [fixed] holds is a record of the frame. *)
Lemma fixed_frame_incl (df fixed : list DfRow) (r : DfRow) :
  fixed_frame df = Some fixed -> In r fixed -> In r df.
Proof.
  unfold fixed_frame. cbv zeta.
  destruct (forallb _ _); [intros H; injection H as <-; tauto|].
  destruct (forallb mutated _); [|discriminate]. intros H. injection H as <-.
  intros Hr. apply in_flat_map in Hr. destruct Hr as [a [Ha Hr]].
  apply in_map_iff in Ha. destruct Ha as [[k x] [<- Hx]].
  apply (groupby_In num_ltb num_eqb num_eqb_eq) in Hx. destruct Hx as [_ ->].
  cbn [snd] in Hr. apply apply_n2_records in Hr. apply filter_In in Hr. tauto.
Qed.

(** ** From the matrix to the edge list *)

Lemma elementary_nodes_spans (rows : Document) :
  map span (get_elementary_nodes rows)
  = map (fun ab : Z * Z => (Fin (fst ab), Fin (snd ab))) (doc_spans rows).
Proof.
  unfold get_elementary_nodes, doc_spans.
  induction rows as [|[k v] rows IH]; simpl; [reflexivity|].
  rewrite !map_app, IH, map_map. reflexivity.
Qed.

Lemma elementary_nodes_length (rows : Document) :
  length (get_elementary_nodes rows) = length (doc_spans rows).
Proof.
  rewrite <- (length_map span), elementary_nodes_spans, length_map. reflexivity.
Qed.

Lemma elementary_nodes_nth (rows : Document) (i : nat) (A : Node) :
  nth_error (get_elementary_nodes rows) i = Some A ->
  exists s e, nth_error (doc_spans rows) i = Some (s, e) /\
              Node_start A = Fin s /\ Node_end A = Fin e.
Proof.
  intros H. apply (map_nth_error span) in H.
  rewrite elementary_nodes_spans, nth_error_map in H.
  destruct (nth_error (doc_spans rows) i) as [[s e]|]; [|discriminate].
  simpl in H. inversion H as [Hs]. exists s, e.
  unfold Node_start, Node_end. rewrite <- Hs. auto.
Qed.

Lemma np_where_In (row : list bool) (k : nat) :
  In k (np_where row) <-> (k < length row)%nat /\ nth k row false = true.
Proof.
  unfold np_where. rewrite filter_In, in_seq. intuition lia.
Qed.

Lemma np_where2_In (m : list (list bool)) (r c : nat) :
  In (r, c) (np_where2 m) <->
  (r < length m)%nat /\ (c < length (nth r m []))%nat /\ mget m r c = true.
Proof.
  unfold np_where2, mget. rewrite in_flat_map. split.
  - intros [r' [Hr Hc]]. apply in_map_iff in Hc. destruct Hc as [c' [Heq Hc]].
    inversion Heq; subst. apply in_seq in Hr. apply np_where_In in Hc. intuition lia.
  - intros [Hr [Hc Hm]]. exists r. split; [apply in_seq; lia|].
    apply in_map. apply np_where_In. auto.
Qed.

Lemma get_dense_matrix_dims (rows : Document) (res : list (list bool)) :
  spans_nonempty rows = true ->
  get_dense_matrix rows = Some res ->
  length res = length (doc_spans rows) /\
  forall r, (r < length res)%nat -> length (nth r res []) = length (doc_spans rows).
Proof.
  intros Hwf H. rewrite (get_dense_matrix_spec rows Hwf) in H.
  inversion H as [Hres]. clear H. split.
  - rewrite !length_map. reflexivity.
  - intros r Hr. rewrite !length_map in Hr.
    set (F := fun idx : nat => _).
    rewrite (nth_indep _ [] (F 0%nat)) by (rewrite !length_map; assumption).
    rewrite (map_nth F). unfold F. rewrite !length_map. reflexivity.
Qed.

(** The matrix entry for two elementary nodes, in terms of the nodes. *)
(** The entries of the matrix in terms of the spans of the document. *)
Lemma get_dense_matrix_entries (rows : Document) :
  spans_nonempty rows = true ->
  exists res, get_dense_matrix rows = Some res /\
    forall r c s1 e1 s2 e2,
      nth_error (doc_spans rows) r = Some (s1, e1) ->
      nth_error (doc_spans rows) c = Some (s2, e2) ->
      mget res r c = Z.leb e1 s2.
Proof.
  intros Hwf. eexists. split; [apply get_dense_matrix_spec; assumption|].
  intros r c s1 e1 s2 e2 Hr Hc.
  set (keys := sorted_set (doc_starts rows ++ doc_ends rows)).
  unfold mget.
  assert (Hrow : nth_error
            (map (fun idx => map (fun s => Nat.ltb idx s)
                     (map (fun ab : Z * Z => rank keys (fst ab)) (doc_spans rows)))
                 (map (fun ab : Z * Z => (rank keys (snd ab) - 1)%nat) (doc_spans rows))) r
          = Some (map (fun s => Nat.ltb (rank keys e1 - 1)%nat s)
                     (map (fun ab : Z * Z => rank keys (fst ab)) (doc_spans rows)))).
  { rewrite !nth_error_map, Hr. reflexivity. }
  rewrite (nth_error_nth _ _ _ Hrow).
  assert (Hcol : nth_error
            (map (fun s => Nat.ltb (rank keys e1 - 1)%nat s)
                 (map (fun ab : Z * Z => rank keys (fst ab)) (doc_spans rows))) c
          = Some (Nat.ltb (rank keys e1 - 1)%nat (rank keys s2))).
  { rewrite !nth_error_map, Hc. reflexivity. }
  rewrite (nth_error_nth _ _ _ Hcol).
  apply nth_error_In in Hr, Hc.
  destruct (doc_spans_keys rows s1 e1 Hr) as [Hs1 He1].
  destruct (doc_spans_keys rows s2 e2 Hc) as [Hs2 He2].
  fold keys in Hs1, He1, Hs2, He2.
  unfold spans_nonempty in Hwf. rewrite forallb_forall in Hwf.
  assert (H1 : s1 < e1) by (apply Z.ltb_lt; exact (Hwf _ Hr)).
  assert (Hpos := rank_lt keys s1 e1 Hs1 H1).
  assert (Hiff := rank_leb_iff keys e1 s2 Hs2).
  destruct (Z.leb_spec e1 s2), (Nat.ltb_spec (rank keys e1 - 1) (rank keys s2));
    try reflexivity; lia.
Qed.

Lemma dense_matrix_nodes (rows : Document) (res : list (list bool))
    (a b : nat) (A B : Node) :
  spans_nonempty rows = true ->
  get_dense_matrix rows = Some res ->
  nth_error (get_elementary_nodes rows) a = Some A ->
  nth_error (get_elementary_nodes rows) b = Some B ->
  mget res a b = num_leb (Node_end A) (Node_start B).
Proof.
  intros Hwf Hres HA HB.
  destruct (get_dense_matrix_entries rows Hwf) as [res' [Hres' Hc]].
  assert (res' = res) by congruence. subst res'.
  destruct (elementary_nodes_nth rows a A HA) as [s1 [e1 [H1 [_ ->]]]].
  destruct (elementary_nodes_nth rows b B HB) as [s2 [e2 [H2 [-> _]]]].
  rewrite num_leb_Fin. eapply Hc; eassumption.
Qed.

(** The record that [matrix_to_dataframe] writes for the index pair
    [(a, b)]. *)
Lemma matrix_to_dataframe_spec (res : list (list bool)) (items : list Node) :
  (forall a b, In (a, b) (np_where2 res) ->
               (a < length items)%nat /\ (b < length items)%nat) ->
  matrix_to_dataframe res items =
  Some (map (fun ab : nat * nat =>
               let A := nth (fst ab) items START in
               let B := nth (snd ab) items START in
               mkDfRow (name A) (Node_start A) (Node_end A)
                       (name B) (Node_start B) (Node_end B) (fst ab) (snd ab))
            (np_where2 res)).
Proof.
  intros Hdim. unfold matrix_to_dataframe. apply option_all_map.
  intros [a b] Hin. destruct (Hdim a b Hin) as [Ha Hb]. cbn [fst snd].
  rewrite (nth_error_nth' items START Ha), (nth_error_nth' items START Hb).
  reflexivity.
Qed.

Lemma edges_from_dataframe_spec (df fixed : list DfRow) (items : list Node) :
  fixed_frame df = Some fixed ->
  (forall r, In r df -> (col_a r < length items)%nat /\ (col_b r < length items)%nat) ->
  edges_from_dataframe df items =
  Some (map (fun r => (nth (col_a r) items START, nth (col_b r) items START))
            fixed).
Proof.
  intros Hfix Hdim. unfold edges_from_dataframe. rewrite Hfix.
  apply option_all_map. intros r Hr. apply (fixed_frame_incl df fixed r Hfix) in Hr.
  destruct (Hdim r Hr) as [Ha Hb].
  rewrite (nth_error_nth' items START Ha), (nth_error_nth' items START Hb).
  reflexivity.
Qed.

Lemma max_e1 (df : list DfRow) :
  df <> [] ->
  exists r0, In r0 df /\ forall r, In r df -> num_leb (col_e1 r) (col_e1 r0) = true.
Proof.
  induction df as [|x df IH]; [congruence|]. intros _.
  destruct df as [|y df].
  - exists x. split; [left; reflexivity|]. intros r [<-|[]]. apply num_leb_refl.
  - destruct IH as [r0 [Hr0 Hmax]]; [discriminate|].
    destruct (num_leb_total (col_e1 x) (col_e1 r0)) as [H|H].
    + exists r0. split; [right; exact Hr0|]. intros r [<-|Hr]; [exact H|auto].
    + exists x. split; [left; reflexivity|]. intros r [<-|Hr]; [apply num_leb_refl|].
      apply (num_leb_trans _ (col_e1 r0)); auto.
Qed.

Lemma elementary_nodes_offsets (rows : Document) (A : Node) :
  spans_nonempty rows = true -> In A (get_elementary_nodes rows) ->
  exists s e, Node_start A = Fin s /\ Node_end A = Fin e /\ s < e.
Proof.
  intros Hne Hn. apply In_nth_error in Hn. destruct Hn as [i Hi].
  destruct (elementary_nodes_nth rows i A Hi) as [s [e [Hse [Hs He]]]].
  exists s, e. split; [exact Hs|]. split; [exact He|].
  unfold spans_nonempty in Hne. rewrite forallb_forall in Hne.
  apply nth_error_In in Hse. apply Hne in Hse. cbn [fst snd] in Hse.
  apply Z.ltb_lt, Hse.
Qed.

Lemma crowded_iff (items : list Node) :
  crowded items = true <->
  exists A B C, In A items /\ In B items /\ In C items /\
    candidate A B = true /\ candidate A C = true /\ name C = name B /\
    num_ltb (Node_end C) (Node_start B) = true.
Proof.
  unfold crowded, overtaken. rewrite existsb_exists. split.
  - intros [A [HA H]]. apply existsb_exists in H. destruct H as [B [HB H]].
    apply andb_true_iff in H. destruct H as [Hc H].
    apply existsb_exists in H. destruct H as [C [HC H]].
    apply andb_true_iff in H. destruct H as [H H3].
    apply andb_true_iff in H. destruct H as [H1 H2]. apply String.eqb_eq in H2.
    exists A, B, C. auto 10.
  - intros [A [B [C [HA [HB [HC [H1 [H2 [H3 H4]]]]]]]]]. exists A.
    split; [exact HA|]. apply existsb_exists. exists B. split; [exact HB|].
    rewrite H1. cbn [andb]. apply existsb_exists. exists C. split; [exact HC|].
    rewrite H2, H4, (proj2 (String.eqb_eq _ _) H3). reflexivity.
Qed.

(** The candidate table of a document and what [edges_from_dataframe]
    makes of it. *)
Section CandidateTable.

Variable rows : Document.
Hypothesis Hne : spans_nonempty rows = true.

Let items : list Node := get_elementary_nodes rows.

Let mk (ab : nat * nat) : DfRow :=
  let A := nth (fst ab) items START in
  let B := nth (snd ab) items START in
  mkDfRow (name A) (Node_start A) (Node_end A)
          (name B) (Node_start B) (Node_end B) (fst ab) (snd ab).

Lemma candidate_table :
  exists res,
    get_dense_matrix rows = Some res /\
    matrix_to_dataframe res items = Some (map mk (np_where2 res)) /\
    (forall a b, In (a, b) (np_where2 res) ->
                 (a < length items)%nat /\ (b < length items)%nat) /\
    (forall a b, (a < length items)%nat -> (b < length items)%nat ->
       (In (a, b) (np_where2 res) <->
        candidate (nth a items START) (nth b items START) = true)).
Proof.
  destruct (get_dense_matrix_entries rows Hne) as [res [Hres _]].
  destruct (get_dense_matrix_dims rows res Hne Hres) as [Hlen Hrow].
  assert (Hitems : length items = length (doc_spans rows))
    by apply elementary_nodes_length.
  assert (Hdim : forall a b, In (a, b) (np_where2 res) ->
                   (a < length items)%nat /\ (b < length items)%nat).
  { intros a b Hin. apply np_where2_In in Hin. destruct Hin as [Ha [Hb _]].
    rewrite (Hrow a Ha) in Hb. lia. }
  exists res. split; [exact Hres|].
  split; [apply matrix_to_dataframe_spec; exact Hdim|]. split; [exact Hdim|].
  intros a b Ha Hb. rewrite np_where2_In. unfold candidate.
  rewrite (dense_matrix_nodes rows res a b _ _ Hne Hres
             (nth_error_nth' items START Ha) (nth_error_nth' items START Hb)).
  split; [tauto|]. intros H. split; [lia|]. split; [|assumption].
  rewrite Hrow by lia. lia.
Qed.

(** Every edge that [edges_from_dataframe] returns links an item to one
    of its candidate successors. *)
Lemma document_edges_forward (es : list (Node * Node)) :
  document_edges rows = Some es ->
  forall A B, In (A, B) es ->
    In A items /\ In B items /\ num_leb (Node_end A) (Node_start B) = true.
Proof.
  intros Hes. destruct candidate_table as [res [Hres [Hdf [Hdim Hentry]]]].
  unfold document_edges in Hes. fold items in Hes. rewrite Hres, Hdf in Hes.
  destruct (fixed_frame (map mk (np_where2 res))) as [fixed|] eqn:Hfix;
    [|unfold edges_from_dataframe in Hes; rewrite Hfix in Hes; discriminate Hes].
  rewrite (edges_from_dataframe_spec _ fixed items Hfix) in Hes.
  - injection Hes as <-. intros A B Hin. apply in_map_iff in Hin.
    destruct Hin as [r [Heq Hr]]. injection Heq as <- <-.
    apply (fixed_frame_incl _ fixed r Hfix) in Hr.
    apply in_map_iff in Hr. destruct Hr as [[a b] [<- Hin]].
    destruct (Hdim a b Hin) as [Ha Hb]. cbn [mk col_a col_b fst snd].
    split; [apply nth_In; assumption|]. split; [apply nth_In; assumption|].
    apply (Hentry a b Ha Hb), Hin.
  - intros r Hr. apply in_map_iff in Hr. destruct Hr as [[a b] [<- Hin]].
    cbn [mk col_a col_b fst snd]. apply Hdim, Hin.
Qed.

(** A candidate that the filter would drop makes the concatenation of
    pandas raise: the group of the greatest [e1] never loses a record. *)
Lemma document_edges_crowded :
  crowded items = true -> document_edges rows = None.
Proof.
  intros Hc. apply crowded_iff in Hc.
  destruct Hc as [A [B [C [HA [HB [HC [Hab [Hac [Hn Hlt]]]]]]]]].
  destruct candidate_table as [res [Hres [Hdf [Hdim Hentry]]]].
  unfold document_edges. fold items. rewrite Hres, Hdf.
  destruct (In_nth items A START HA) as [a [Ha HAa]].
  destruct (In_nth items B START HB) as [b [Hb HBb]].
  destruct (In_nth items C START HC) as [c [Hc HCc]]. subst A B C.
  set (df := map mk (np_where2 res)).
  assert (Hrab : In (mk (a, b)) df) by (apply in_map, Hentry; assumption).
  assert (Hrac : In (mk (a, c)) df) by (apply in_map, Hentry; assumption).
  destruct (max_e1 df) as [r0 [Hr0 Hmax]].
  { intros Hnil. rewrite Hnil in Hrab. destruct Hrab. }
  unfold edges_from_dataframe.
  rewrite (fixed_frame_mixed df (mk (a, b)) r0 Hrab); [reflexivity| |exact Hr0|].
  - exists (mk (a, c)). split; [exact Hrac|]. cbn [mk col_e1 col_n2 col_e2 col_s2 fst snd].
    auto.
  - intros r1 Hr1 He [r2 [Hr2 [He2 [Hn2 Hlt2]]]].
    apply in_map_iff in Hr1, Hr2.
    destruct Hr1 as [[a1 b1] [<- Hin1]]. destruct Hr2 as [[a2 b2] [<- Hin2]].
    destruct (Hdim a1 b1 Hin1) as [Ha1 Hb1]. destruct (Hdim a2 b2 Hin2) as [Ha2 Hb2].
    cbn [mk col_e1 col_n2 col_e2 col_s2 fst snd] in He, He2, Hn2, Hlt2.
    assert (Hcand : candidate (nth b2 items START) (nth b1 items START) = true).
    { unfold candidate. apply num_ltb_leb, Hlt2. }
    assert (Hrow : In (mk (b2, b1)) df) by (apply in_map, Hentry; assumption).
    specialize (Hmax _ Hrow). cbn [mk col_e1 fst snd] in Hmax.
    rewrite <- He, <- He2 in Hmax.
    apply (Hentry a2 b2 Ha2 Hb2) in Hin2. unfold candidate in Hin2.
    destruct (elementary_nodes_offsets rows (nth b2 items START) Hne
                (nth_In items START Hb2)) as [s [e [Hs [He' Hse]]]].
    rewrite Hs in Hin2. rewrite He' in Hmax.
    destruct (Node_end (nth a2 items START)) as [| x |];
      cbn in Hin2, Hmax; try discriminate.
    apply negb_true_iff, Z.ltb_ge in Hin2, Hmax. lia.
Qed.

(** Without such a candidate the frame is returned as it is, and every
    candidate pair becomes an edge. *)
Lemma document_edges_all :
  crowded items = false ->
  exists res,
    get_dense_matrix rows = Some res /\
    document_edges rows
    = Some (map (fun ab : nat * nat =>
                   (nth (fst ab) items START, nth (snd ab) items START))
                (np_where2 res)) /\
    forall A B,
      In (A, B) (map (fun ab : nat * nat =>
                        (nth (fst ab) items START, nth (snd ab) items START))
                     (np_where2 res)) <->
      In A items /\ In B items /\ candidate A B = true.
Proof.
  intros Hc. destruct candidate_table as [res [Hres [Hdf [Hdim Hentry]]]].
  exists res. split; [exact Hres|].
  set (df := map mk (np_where2 res)).
  assert (Hfix : fixed_frame df = Some df).
  { apply fixed_frame_all. intros r Hr [r' [Hr' [He [Hn Hlt]]]].
    apply in_map_iff in Hr, Hr'.
    destruct Hr as [[a b] [<- Hin]]. destruct Hr' as [[a' c] [<- Hin']].
    destruct (Hdim a b Hin) as [Ha Hb]. destruct (Hdim a' c Hin') as [Ha' Hc'].
    cbn [mk col_e1 col_n2 col_e2 col_s2 fst snd] in He, Hn, Hlt.
    assert (Ht : crowded items = true); [|congruence].
    apply crowded_iff.
    exists (nth a items START), (nth b items START), (nth c items START).
    split; [apply nth_In, Ha|]. split; [apply nth_In, Hb|].
    split; [apply nth_In, Hc'|]. split; [apply Hentry; assumption|].
    split; [|auto]. unfold candidate. rewrite <- He.
    apply (Hentry a' c Ha' Hc'), Hin'. }
  split.
  - unfold document_edges. fold items. rewrite Hres, Hdf. fold df.
    rewrite (edges_from_dataframe_spec df df items Hfix).
    + unfold df. rewrite map_map. reflexivity.
    + intros r Hr. apply in_map_iff in Hr. destruct Hr as [[a b] [<- Hin]].
      cbn [mk col_a col_b fst snd]. apply Hdim, Hin.
  - intros A B. rewrite in_map_iff. split.
    + intros [[a b] [Heq Hin]]. cbn [fst snd] in Heq. injection Heq as <- <-.
      destruct (Hdim a b Hin) as [Ha Hb].
      split; [apply nth_In, Ha|]. split; [apply nth_In, Hb|].
      apply Hentry; assumption.
    + intros [HA [HB Hcand]].
      destruct (In_nth items A START HA) as [a [Ha HAa]].
      destruct (In_nth items B START HB) as [b [Hb HBb]]. subst A B.
      exists (a, b). split; [reflexivity|]. apply Hentry; assumption.
Qed.

End CandidateTable.




(** Where the filter would drop a record, the function raises: B@(5,6)
    starts after B@(2,3), a candidate successor of A@(0,1) with the same
    label, has ended. *)
Lemma overtaken_candidate_raises :
  crowded (get_elementary_nodes gap_doc) = true /\
  document_edges gap_doc = None /\ graph_from_document gap_doc = None.
Proof. repeat apply conj; vm_compute; reflexivity. Qed.

(** ** Matrices given by their entries *)

Lemma tabulate_length {T : Type} (n : nat) (f : nat -> nat -> T) :
  length (tabulate n f) = n.
Proof. unfold tabulate. rewrite length_map, length_seq. reflexivity. Qed.

Lemma tabulate_row {T : Type} (n : nat) (f : nat -> nat -> T) (r : nat) :
  (r < n)%nat -> nth r (tabulate n f) [] = map (fun j => f r j) (seq 0 n).
Proof.
  intros H. unfold tabulate.
  apply (nth_map_seq (fun i => map (fun j => f i j) (seq 0 n))). assumption.
Qed.

Lemma tabulate_nth {T : Type} (n : nat) (f : nat -> nat -> T) (r c : nat) (d : T) :
  (r < n)%nat -> (c < n)%nat -> nth c (nth r (tabulate n f) []) d = f r c.
Proof.
  intros Hr Hc. rewrite tabulate_row by assumption.
  apply (nth_map_seq (fun j => f r j)). assumption.
Qed.

Lemma mget_tabulate (n : nat) (f : nat -> nat -> bool) (r c : nat) :
  (r < n)%nat -> (c < n)%nat -> mget (tabulate n f) r c = f r c.
Proof. apply tabulate_nth. Qed.

Lemma dget_tabulate (n : nat) (f : nat -> nat -> dist) (r c : nat) :
  (r < n)%nat -> (c < n)%nat -> dget (tabulate n f) r c = f r c.
Proof. apply tabulate_nth. Qed.

Lemma np_where2_tabulate (n : nat) (f : nat -> nat -> bool) (r c : nat) :
  In (r, c) (np_where2 (tabulate n f)) <->
  (r < n)%nat /\ (c < n)%nat /\ f r c = true.
Proof.
  rewrite np_where2_In, tabulate_length. split.
  - intros [Hr [Hc Hm]]. rewrite tabulate_row, length_map, length_seq in Hc by assumption.
    rewrite mget_tabulate in Hm by assumption. auto.
  - intros [Hr [Hc Hm]]. rewrite tabulate_row, length_map, length_seq by assumption.
    rewrite mget_tabulate by assumption. auto.
Qed.

(** ** Floyd-Warshall distances equal to one are the edges *)

(** A distance that is infinite or at least [k]. *)
Definition dist_ge (k : nat) (d : dist) : Prop :=
  d = None \/ exists m, d = Some m /\ (k <= m)%nat.

Lemma dist_add_ge (d1 d2 : dist) :
  dist_ge 1 d1 -> dist_ge 1 d2 -> dist_ge 2 (dist_add d1 d2).
Proof.
  intros [->|[m1 [-> H1]]] [->|[m2 [-> H2]]]; simpl;
    try (left; reflexivity).
  right. eexists. split; [reflexivity|lia].
Qed.

Lemma dist_min_one (s : dist) : dist_ge 2 s -> dist_min (Some 1%nat) s = Some 1%nat.
Proof.
  intros [->|[m [-> H]]]; unfold dist_min; [reflexivity|]. f_equal. lia.
Qed.

Lemma dist_min_ge (d s : dist) : dist_ge 2 d -> dist_ge 2 s -> dist_ge 2 (dist_min d s).
Proof.
  intros [->|[m1 [-> H1]]] [->|[m2 [-> H2]]]; unfold dist_min.
  - left. reflexivity.
  - right. eexists. split; [reflexivity|assumption].
  - right. eexists. split; [reflexivity|assumption].
  - right. eexists. split; [reflexivity|lia].
Qed.

Section FloydWarshall.

Variable g : DiGraph.
Variable nodelist : list Node.

Let n := length nodelist.
Let adj (r c : nat) : bool :=
  has_edge g (nth r nodelist START) (nth c nodelist START).

(** The distance stored for [(r, c)]: zero on the diagonal, one on an
    edge, and otherwise infinite or at least two. *)
Definition fw_entry_ok (has : bool) (r c : nat) (d : dist) : Prop :=
  (r = c -> d = Some 0%nat) /\
  (r <> c -> if has then d = Some 1%nat else dist_ge 2 d).

Definition fw_ok (A : list (list dist)) : Prop :=
  forall r c, (r < n)%nat -> (c < n)%nat -> fw_entry_ok (adj r c) r c (dget A r c).

Lemma fw_off_diagonal {has : bool} {r c : nat} {d : dist} :
  fw_entry_ok has r c d -> r <> c -> dist_ge 1 d.
Proof.
  intros [_ H] Hne. specialize (H Hne). destruct has.
  - right. exists 1%nat. auto.
  - destruct H as [H|[k [H Hk]]]; [left; assumption|].
    right. exists k. split; [assumption|lia].
Qed.

Lemma fw_step_ok (A : list (list dist)) (i : nat) :
  (i < n)%nat -> fw_ok A ->
  fw_ok (tabulate n (fun r c => dist_min (dget A r c)
                                  (dist_add (dget A i c) (dget A r i)))).
Proof.
  intros Hi HA r c Hr Hc. rewrite dget_tabulate by assumption.
  assert (Hrc := HA r c Hr Hc). assert (Hic := HA i c Hi Hc).
  assert (Hri := HA r i Hr Hi).
  destruct (Nat.eq_dec r c) as [->|Hne].
  - destruct Hrc as [Hd _]. rewrite (Hd eq_refl). split; [|congruence].
    intros _. destruct (dist_add (dget A i c) (dget A c i)); simpl; reflexivity.
  - split; [congruence|]. intros _.
    destruct (Nat.eq_dec i r) as [->|Hir].
    + destruct (HA r r Hr Hr) as [Hd _]. rewrite (Hd eq_refl).
      destruct Hrc as [_ Hrc]. specialize (Hrc Hne).
      replace (dist_min (dget A r c) (dist_add (dget A r c) (Some 0%nat)))
        with (dget A r c); [assumption|].
      destruct (dget A r c) as [k|]; simpl; [|reflexivity].
      rewrite Nat.add_0_r, Nat.min_id. reflexivity.
    + destruct (Nat.eq_dec i c) as [->|Hic'].
      * destruct (HA c c Hc Hc) as [Hd _]. rewrite (Hd eq_refl).
        destruct Hrc as [_ Hrc]. specialize (Hrc Hne).
        replace (dist_min (dget A r c) (dist_add (Some 0%nat) (dget A r c)))
          with (dget A r c); [assumption|].
        destruct (dget A r c) as [k|]; simpl; [|reflexivity].
        rewrite Nat.min_id. reflexivity.
      * assert (Hs := dist_add_ge _ _ (fw_off_diagonal Hic Hic')
                                      (fw_off_diagonal Hri (not_eq_sym Hir))).
        destruct Hrc as [_ Hrc]. specialize (Hrc Hne). destruct (adj r c).
        -- rewrite Hrc. apply dist_min_one. assumption.
        -- apply dist_min_ge; assumption.
Qed.

Lemma fw_init_ok :
  fw_ok (tabulate n (fun r c => if Nat.eqb r c then Some 0%nat
                                else dget (to_numpy_matrix g nodelist None) r c)).
Proof.
  intros r c Hr Hc. rewrite dget_tabulate by assumption.
  unfold to_numpy_matrix. fold n. rewrite dget_tabulate by assumption.
  fold (adj r c). destruct (Nat.eqb_spec r c) as [->|Hne].
  - split; [reflexivity|congruence].
  - split; [congruence|]. intros _. destruct (adj r c); [reflexivity|left; reflexivity].
Qed.

Lemma fw_fold_ok (l : list nat) (A : list (list dist)) :
  (forall i, In i l -> (i < n)%nat) -> fw_ok A ->
  fw_ok (fold_left
           (fun A i => tabulate n (fun r c => dist_min (dget A r c)
                                                (dist_add (dget A i c) (dget A r i))))
           l A).
Proof.
  revert A. induction l as [|i l IH]; intros A Hl HA; simpl; [assumption|].
  apply IH.
  - intros j Hj. apply Hl. right. assumption.
  - apply fw_step_ok; [apply Hl; left; reflexivity|assumption].
Qed.

Lemma floyd_warshall_ok : fw_ok (floyd_warshall_numpy g nodelist).
Proof.
  unfold floyd_warshall_numpy. fold n. apply fw_fold_ok.
  - intros i Hi. apply in_seq in Hi. lia.
  - apply fw_init_ok.
Qed.

(** [floyd_warshall_numpy(graph) == 1] is true exactly on the edges
    between two different positions of the node list: it is the adjacency
    matrix, not the reachability matrix. *)
Lemma reachability_matrix_entry (r c : nat) :
  (r < n)%nat -> (c < n)%nat ->
  mget (mat_is_one n (floyd_warshall_numpy g nodelist)) r c
  = negb (Nat.eqb r c) && adj r c.
Proof.
  intros Hr Hc. unfold mat_is_one. rewrite mget_tabulate by assumption.
  destruct (floyd_warshall_ok r c Hr Hc) as [Hd Ho].
  destruct (Nat.eqb_spec r c) as [->|Hne].
  - rewrite (Hd eq_refl). reflexivity.
  - specialize (Ho Hne). simpl. destruct (adj r c).
    + rewrite Ho. reflexivity.
    + destruct Ho as [Ho|[k [Ho Hk]]]; rewrite Ho; [reflexivity|].
      simpl. destruct k as [|[|k]]; first [lia | reflexivity].
Qed.

Lemma adjacency_matrix_entry (r c : nat) :
  (r < n)%nat -> (c < n)%nat ->
  mget (mat_is_one n (to_numpy_matrix g nodelist (Some 0%nat))) r c = adj r c.
Proof.
  intros Hr Hc. unfold mat_is_one. rewrite mget_tabulate by assumption.
  unfold to_numpy_matrix. fold n. rewrite dget_tabulate by assumption.
  fold (adj r c). destruct (adj r c); reflexivity.
Qed.

End FloydWarshall.

(** ** Edges and node lists up to [Node_eq] *)

Lemma bool_eq_iff (a b : bool) : (a = true <-> b = true) -> a = b.
Proof. destruct a, b; intuition congruence. Qed.

Lemma Node_eq_key (a b : Node) : Node_eq a b = true <-> Node_key a = Node_key b.
Proof.
  rewrite Node_eq_iff. unfold Node_key. split.
  - intros [-> ->]. reflexivity.
  - intros H. inversion H. auto.
Qed.

Lemma Node_eq_l (a a' b : Node) :
  Node_eq a a' = true -> Node_eq a b = Node_eq a' b.
Proof.
  intros H. apply bool_eq_iff. rewrite !Node_eq_key.
  apply Node_eq_key in H. rewrite H. tauto.
Qed.

Lemma Node_eq_r (a b b' : Node) :
  Node_eq b b' = true -> Node_eq a b = Node_eq a b'.
Proof.
  intros H. rewrite (Node_eq_sym a b), (Node_eq_sym a b'). apply Node_eq_l. assumption.
Qed.

Lemma has_edge_iff (g : DiGraph) (u v : Node) :
  has_edge g u v = true <->
  exists e, In e (edges g) /\ Node_eq u (fst e) = true /\ Node_eq v (snd e) = true.
Proof.
  unfold has_edge. rewrite existsb_exists. unfold edge_eq. simpl.
  split; intros [e [Hin H]]; exists e; split; try assumption.
  - apply andb_true_iff in H. assumption.
  - apply andb_true_iff. assumption.
Qed.

Lemma has_edge_respects (g : DiGraph) (u u' v v' : Node) :
  Node_eq u u' = true -> Node_eq v v' = true ->
  has_edge g u v = has_edge g u' v'.
Proof.
  intros Hu Hv. apply bool_eq_iff. rewrite !has_edge_iff.
  split; intros [e [Hin [H1 H2]]]; exists e; split; try assumption.
  - rewrite <- (Node_eq_l u u' (fst e) Hu), <- (Node_eq_l v v' (snd e) Hv). auto.
  - rewrite (Node_eq_l u u' (fst e) Hu), (Node_eq_l v v' (snd e) Hv). auto.
Qed.

Lemma has_edge_In (g : DiGraph) (e : Node * Node) :
  In e (edges g) -> has_edge g (fst e) (snd e) = true.
Proof.
  intros H. apply has_edge_iff. exists e. split; [assumption|].
  split; apply Node_eq_refl.
Qed.

Lemma node_mem_iff (x : Node) (l : list Node) :
  node_mem x l = true <-> exists y, In y l /\ Node_eq x y = true.
Proof. unfold node_mem. apply existsb_exists. Qed.

Lemma node_mem_nth (x : Node) (l : list Node) :
  node_mem x l = true ->
  exists i, (i < length l)%nat /\ Node_eq x (nth i l START) = true.
Proof.
  intros H. apply node_mem_iff in H. destruct H as [y [Hin Heq]].
  destruct (In_nth l y START Hin) as [i [Hi Hy]]. exists i. subst y. auto.
Qed.

Lemma nodes_distinct_nth (l : list Node) (i j : nat) :
  nodes_distinct l = true ->
  (i < length l)%nat -> (j < length l)%nat ->
  Node_eq (nth i l START) (nth j l START) = true -> i = j.
Proof.
  revert i j. induction l as [|x l IH]; intros i j Hd Hi Hj Heq; simpl in *; [lia|].
  apply andb_true_iff in Hd. destruct Hd as [Hx Hd]. apply negb_true_iff in Hx.
  destruct i as [|i], j as [|j]; [reflexivity| | |].
  - exfalso. assert (node_mem x l = true); [|congruence].
    apply node_mem_iff. exists (nth j l START). split; [apply nth_In; lia|assumption].
  - exfalso. assert (node_mem x l = true); [|congruence].
    apply node_mem_iff. exists (nth i l START). split; [apply nth_In; lia|].
    rewrite Node_eq_sym. assumption.
  - f_equal. apply IH; try assumption; lia.
Qed.

Lemma existsb_nth_seq {A : Type} (F : A -> bool) (l : list A) (d : A) :
  existsb (fun k => F (nth k l d)) (seq 0 (length l)) = existsb F l.
Proof.
  apply bool_eq_iff. rewrite !existsb_exists. split.
  - intros [k [Hk HF]]. apply in_seq in Hk. exists (nth k l d).
    split; [apply nth_In; lia|assumption].
  - intros [x [Hx HF]]. destruct (In_nth l x d Hx) as [k [Hk Hn]].
    exists k. split; [apply in_seq; lia|]. rewrite Hn. assumption.
Qed.

Lemma existsb_pointwise {A : Type} (f h : A -> bool) (l : list A) :
  (forall x, f x = h x) -> existsb f l = existsb h l.
Proof.
  intros H. induction l as [|x l IH]; simpl; [reflexivity|]. rewrite H, IH. reflexivity.
Qed.

Lemma is_shortcut_respects (g : DiGraph) (u u' v v' : Node) :
  Node_eq u u' = true -> Node_eq v v' = true ->
  is_shortcut g u v = is_shortcut g u' v'.
Proof.
  intros Hu Hv. unfold is_shortcut. apply existsb_pointwise. intros x.
  rewrite (has_edge_respects g u u' x x Hu (Node_eq_refl x)).
  rewrite (has_edge_respects g x x v v' (Node_eq_refl x) Hv).
  rewrite (Node_eq_r x v v' Hv). reflexivity.
Qed.

(** ** The matrix [to_remove] marks the shortcut edges *)

Lemma shortcut_matrix_entry (g : DiGraph) (r c : nat) :
  nodes_distinct (nodes g) = true ->
  (r < length (nodes g))%nat -> (c < length (nodes g))%nat ->
  mget (shortcut_matrix g) r c
  = has_edge g (nth r (nodes g) START) (nth c (nodes g) START)
    && is_shortcut g (nth r (nodes g) START) (nth c (nodes g) START).
Proof.
  intros Hd Hr Hc. unfold shortcut_matrix.
  set (adjm := mat_is_one (length (nodes g)) (to_numpy_matrix g (nodes g) (Some 0%nat))).
  set (reachm := mat_is_one (length (nodes g)) (floyd_warshall_numpy g (nodes g))).
  unfold mat_xor. rewrite mget_tabulate by assumption.
  unfold mat_and. rewrite mget_tabulate by assumption.
  unfold mat_not. rewrite mget_tabulate by assumption.
  unfold mat_mul. rewrite mget_tabulate by assumption.
  unfold adjm at 1 2. rewrite adjacency_matrix_entry by assumption.
  assert (Hmul : existsb (fun k => mget adjm r k && mget reachm k c) (seq 0 (length (nodes g)))
                 = is_shortcut g (nth r (nodes g) START) (nth c (nodes g) START)).
  { unfold is_shortcut.
    rewrite <- (existsb_nth_seq _ (nodes g) START).
    apply bool_eq_iff. rewrite !existsb_exists.
    split; intros [k [Hk H]]; exists k; (split; [assumption|]);
      assert (Hkn : (k < length (nodes g))%nat) by (apply in_seq in Hk; lia).
    - unfold adjm, reachm in H.
      rewrite adjacency_matrix_entry, reachability_matrix_entry in H by assumption.
      apply andb_true_iff in H. destruct H as [H1 H2].
      apply andb_true_iff in H2. destruct H2 as [H2 H3].
      rewrite H1, H3. simpl. rewrite andb_true_r.
      apply negb_true_iff. apply negb_true_iff in H2.
      destruct (Node_eq (nth k (nodes g) START) (nth c (nodes g) START)) eqn:E;
        [|reflexivity].
      apply (nodes_distinct_nth (nodes g) k c Hd Hkn Hc) in E.
      apply Nat.eqb_neq in H2. congruence.
    - unfold adjm, reachm.
      rewrite adjacency_matrix_entry, reachability_matrix_entry by assumption.
      apply andb_true_iff in H. destruct H as [H1 H2].
      apply andb_true_iff in H2. destruct H2 as [H2 H3].
      rewrite H1, H3. simpl. rewrite andb_true_r.
      apply negb_true_iff. apply Nat.eqb_neq. intros ->.
      rewrite Node_eq_refl in H2. discriminate. }
  rewrite Hmul.
  destruct (has_edge g (nth r (nodes g) START) (nth c (nodes g) START)),
           (is_shortcut g (nth r (nodes g) START) (nth c (nodes g) START));
    reflexivity.
Qed.

(** ** What [remove_shortcuts] leaves *)

Lemma filter_filter {A : Type} (f h : A -> bool) (l : list A) :
  filter f (filter h l) = filter (fun x => h x && f x) l.
Proof.
  induction l as [|x l IH]; simpl; [reflexivity|].
  destruct (h x); simpl; [destruct (f x)|]; rewrite IH; reflexivity.
Qed.

Lemma filter_all {A : Type} (f : A -> bool) (l : list A) :
  (forall x, In x l -> f x = true) -> filter f l = l.
Proof.
  induction l as [|x l IH]; simpl; intros H; [reflexivity|].
  rewrite (H x (or_introl eq_refl)), IH; [reflexivity|].
  intros y Hy. apply H. right. assumption.
Qed.

Lemma edge_eq_iff (p q : Node * Node) :
  edge_eq p q = true <->
  Node_eq (fst p) (fst q) = true /\ Node_eq (snd p) (snd q) = true.
Proof. unfold edge_eq. apply andb_true_iff. Qed.

Lemma NoDup_np_where2 (m : list (list bool)) : NoDup (np_where2 m).
Proof.
  unfold np_where2.
  assert (H : forall l : list nat, NoDup l ->
            NoDup (flat_map (fun r => map (fun c => (r, c)) (np_where (nth r m []))) l)).
  { induction l as [|r l IH]; intros Hl; simpl; [constructor|].
    inversion Hl as [|? ? Hnotin Hl']; subst.
    apply NoDup_app.
    - apply Finite.Injective_map_NoDup.
      + intros c1 c2 Heq. inversion Heq. reflexivity.
      + unfold np_where. apply NoDup_filter. apply seq_NoDup.
    - apply IH. assumption.
    - intros [r' c'] H1 H2. apply in_map_iff in H1. destruct H1 as [c [Heq _]].
      inversion Heq; subst. apply in_flat_map in H2. destruct H2 as [r2 [Hr2 Hc2]].
      apply in_map_iff in Hc2. destruct Hc2 as [c2 [Heq2 _]]. inversion Heq2; subst.
      contradiction. }
  apply H. apply seq_NoDup.
Qed.

Section RemovePairs.

Variable nodelist : list Node.
Hypothesis Hdistinct : nodes_distinct nodelist = true.

Let nd (i : nat) : Node := nth i nodelist START.
Let pair_of (ab : nat * nat) : Node * Node := (nd (fst ab), nd (snd ab)).

Lemma remove_pairs (L : list (nat * nat)) :
  forall g0 : DiGraph,
  NoDup L ->
  (forall a b, In (a, b) L ->
     (a < length nodelist)%nat /\ (b < length nodelist)%nat /\
     has_edge g0 (nd a) (nd b) = true) ->
  fold_left
    (fun (og : option DiGraph) (ab : nat * nat) =>
       g' <- og ;; remove_edge g' (nd (fst ab)) (nd (snd ab)))
    L (Some g0)
  = Some (mkDiGraph (nodes g0)
            (filter (fun e => negb (existsb (fun ab => edge_eq (pair_of ab) e) L))
                    (edges g0))).
Proof.
  induction L as [|[a b] L IH]; intros g0 Hnd Hall.
  - simpl. rewrite filter_all by reflexivity. destruct g0; reflexivity.
  - cbn [fold_left fst snd]. unfold remove_edge at 2.
    destruct (Hall a b (or_introl eq_refl)) as [Ha [Hb Hab]].
    rewrite Hab.
    inversion Hnd as [|? ? Hnotin Hnd']; subst.
    rewrite IH; [| assumption |].
    + cbn [nodes edges]. rewrite filter_filter. f_equal. f_equal.
      apply filter_ext. intros e. cbn [existsb]. rewrite negb_orb. reflexivity.
    + intros a' b' Hin'.
      destruct (Hall a' b' (or_intror Hin')) as [Ha' [Hb' Hab']].
      split; [assumption|]. split; [assumption|].
      apply has_edge_iff in Hab'. destruct Hab' as [e [He [H1 H2]]].
      apply has_edge_iff. exists e. cbn [edges]. split; [|auto].
      apply filter_In. split; [assumption|]. apply negb_true_iff.
      destruct (edge_eq (nd a, nd b) e) eqn:E; [|reflexivity].
      exfalso. apply edge_eq_iff in E. destruct E as [E1 E2]. cbn [fst snd] in E1, E2.
      assert (Haa : Node_eq (nd a) (nd a') = true).
      { rewrite (Node_eq_r (nd a) (nd a') (fst e) H1). assumption. }
      assert (Hbb : Node_eq (nd b) (nd b') = true).
      { rewrite (Node_eq_r (nd b) (nd b') (snd e) H2). assumption. }
      apply (nodes_distinct_nth nodelist a a' Hdistinct Ha Ha') in Haa.
      apply (nodes_distinct_nth nodelist b b' Hdistinct Hb Hb') in Hbb.
      subst. contradiction.
Qed.

End RemovePairs.

Lemma wf_graph_iff (g : DiGraph) :
  wf_graph g = true <->
  nodes_distinct (nodes g) = true /\
  forall e, In e (edges g) -> has_node g (fst e) = true /\ has_node g (snd e) = true.
Proof.
  unfold wf_graph. rewrite andb_true_iff, forallb_forall.
  split; intros [H1 H2]; (split; [assumption|]); intros e He; specialize (H2 e He).
  - apply andb_true_iff in H2. assumption.
  - apply andb_true_iff. assumption.
Qed.

(** [remove_shortcuts] never fails on a well-formed graph; it keeps the
    nodes and exactly the edges that are not doubled by a two-edge path. *)
Lemma remove_shortcuts_spec (g : DiGraph) :
  wf_graph g = true ->
  remove_shortcuts g
  = Some (mkDiGraph (nodes g)
            (filter (fun e => negb (is_shortcut g (fst e) (snd e))) (edges g))).
Proof.
  intros Hwf. apply wf_graph_iff in Hwf. destruct Hwf as [Hd Hends].
  unfold remove_shortcuts.
  rewrite (remove_pairs (nodes g) Hd (np_where2 (shortcut_matrix g)) g
                        (NoDup_np_where2 _)).
  - f_equal. f_equal. apply filter_ext_in. intros e He. f_equal.
    apply bool_eq_iff. rewrite existsb_exists. split.
    + intros [[a b] [Hin Heq]]. unfold shortcut_matrix in Hin.
      fold (shortcut_matrix g) in Hin.
      assert (Hdim : (a < length (nodes g))%nat /\ (b < length (nodes g))%nat /\
                     mget (shortcut_matrix g) a b = true).
      { unfold shortcut_matrix, mat_xor in *.
        apply np_where2_tabulate in Hin. destruct Hin as [Ha [Hb Hm]].
        rewrite mget_tabulate by assumption. auto. }
      destruct Hdim as [Ha [Hb Hm]].
      rewrite shortcut_matrix_entry in Hm by assumption.
      apply andb_true_iff in Hm. destruct Hm as [_ Hs].
      apply edge_eq_iff in Heq. cbn [fst snd] in Heq. destruct Heq as [H1 H2].
      rewrite <- (is_shortcut_respects g _ _ _ _ H1 H2). assumption.
    + intros Hs. destruct (Hends e He) as [Hu Hv].
      apply node_mem_nth in Hu, Hv.
      destruct Hu as [a [Ha Hu]]. destruct Hv as [b [Hb Hv]].
      exists (a, b). cbn [fst snd]. split.
      * unfold shortcut_matrix, mat_xor.
        apply np_where2_tabulate. split; [assumption|]. split; [assumption|].
        assert (Hm := shortcut_matrix_entry g a b Hd Ha Hb).
        unfold shortcut_matrix, mat_xor in Hm.
        rewrite mget_tabulate in Hm by assumption. rewrite Hm.
        rewrite <- (has_edge_respects g _ _ _ _ Hu Hv).
        rewrite <- (is_shortcut_respects g _ _ _ _ Hu Hv).
        rewrite (has_edge_In g e He), Hs. reflexivity.
      * apply edge_eq_iff. cbn [fst snd].
        rewrite (Node_eq_sym _ (fst e)), (Node_eq_sym _ (snd e)). auto.
  - intros a b Hin. unfold shortcut_matrix, mat_xor in Hin.
    apply np_where2_tabulate in Hin. destruct Hin as [Ha [Hb Hm]].
    split; [assumption|]. split; [assumption|].
    assert (Hm' := shortcut_matrix_entry g a b Hd Ha Hb).
    unfold shortcut_matrix, mat_xor in Hm'.
    rewrite mget_tabulate in Hm' by assumption. rewrite Hm' in Hm.
    apply andb_true_iff in Hm. tauto.
Qed.

(** ** Reachability *)

Lemma has_edge_nodes (g : DiGraph) (u v : Node) :
  wf_graph g = true -> has_edge g u v = true ->
  has_node g u = true /\ has_node g v = true.
Proof.
  intros Hwf H. apply wf_graph_iff in Hwf. destruct Hwf as [_ Hends].
  apply has_edge_iff in H. destruct H as [e [He [H1 H2]]].
  destruct (Hends e He) as [Hu Hv]. unfold has_node in *.
  rewrite (existsb_pointwise (Node_eq u) (Node_eq (fst e))) by (intros; apply Node_eq_l; assumption).
  rewrite (existsb_pointwise (Node_eq v) (Node_eq (snd e))) by (intros; apply Node_eq_l; assumption).
  auto.
Qed.

Lemma reachable_respects_r (g : DiGraph) (x y y' : Node) :
  reachable g x y -> Node_eq y y' = true -> reachable g x y'.
Proof.
  unfold reachable. intros H. apply clos_trans_tn1 in H.
  induction H as [y Hxy | y z Hyz Hxy IH]; intros Heq.
  - apply t_step. unfold edge in *.
    rewrite <- (has_edge_respects g x x y y' (Node_eq_refl x) Heq). assumption.
  - apply t_trans with y.
    + apply clos_tn1_trans. assumption.
    + apply t_step. unfold edge in *.
      rewrite <- (has_edge_respects g y y z y' (Node_eq_refl y) Heq). assumption.
Qed.

Lemma reachable_mono (g g' : DiGraph) :
  (forall u v, edge g u v -> edge g' u v) ->
  forall a b, reachable g a b -> reachable g' a b.
Proof.
  intros Hsub a b H. induction H as [a b H | a b c _ IH1 _ IH2].
  - apply t_step. auto.
  - apply t_trans with b; assumption.
Qed.

(** A ranking that grows along every edge rules cycles out. *)
Lemma ranked_acyclic (g : DiGraph) (f : Node -> Z) :
  (forall a b, Node_eq a b = true -> f a = f b) ->
  forallb (fun e => Z.ltb (f (fst e)) (f (snd e))) (edges g) = true ->
  acyclic g.
Proof.
  intros Hf Hrank. rewrite forallb_forall in Hrank.
  assert (Hedge : forall u v, edge g u v -> f u < f v).
  { intros u v H. apply has_edge_iff in H. destruct H as [e [He [H1 H2]]].
    rewrite (Hf u _ H1), (Hf v _ H2). apply Z.ltb_lt. auto. }
  assert (Hreach : forall u v, reachable g u v -> f u < f v).
  { intros u v H. induction H as [u v H | u v w _ IH1 _ IH2]; [auto|lia]. }
  intros x Hx. specialize (Hreach x x Hx). lia.
Qed.

(** ** Walks in an acyclic graph are short *)

Lemma walk_tail (g : DiGraph) (x : Node) (w : list Node) :
  is_walk g (x :: w) -> is_walk g w.
Proof. destruct w as [|y w]; simpl; tauto. Qed.

Lemma walk_app_r (g : DiGraph) (w1 w2 : list Node) :
  is_walk g (w1 ++ w2) -> is_walk g w2.
Proof.
  induction w1 as [|x w1 IH]; simpl app; [tauto|].
  intros H. apply IH. exact (walk_tail g x _ H).
Qed.

Lemma walk_reach (g : DiGraph) (l : list Node) :
  forall x y, is_walk g (x :: l ++ [y]) -> reachable g x y.
Proof.
  induction l as [|z l IH]; intros x y H.
  - simpl in H. apply t_step. tauto.
  - simpl app in H. destruct H as [Hxz H].
    apply t_trans with z; [apply t_step; assumption|]. apply IH. assumption.
Qed.

Lemma walk_keys_NoDup (g : DiGraph) (w : list Node) :
  acyclic g -> is_walk g w -> NoDup (map Node_key w).
Proof.
  intros Hac. induction w as [|x w IH]; intros Hw; simpl; constructor.
  - intros Hin. apply in_map_iff in Hin. destruct Hin as [y [Hkey Hy]].
    apply in_split in Hy. destruct Hy as [l1 [l2 ->]].
    assert (Hxy : reachable g x y).
    { apply (walk_reach g l1). 
      assert (H : is_walk g ((x :: l1 ++ [y]) ++ l2))
        by (simpl; rewrite <- app_assoc; exact Hw).
      clear -H. revert H. generalize (x :: l1 ++ [y]) as u. intros u.
      revert l2. induction u as [|a u IHu]; intros l2 H; [exact I|].
      destruct u as [|b u]; [exact I|].
      simpl in H. simpl. destruct H as [Hab H]. split; [assumption|].
      apply (IHu l2). exact H. }
    apply (Hac x). apply reachable_respects_r with y; [assumption|].
    apply Node_eq_key. assumption.
  - apply IH. exact (walk_tail g x w Hw).
Qed.

Lemma walk_nodes (g : DiGraph) (w : list Node) :
  wf_graph g = true -> is_walk g w -> (2 <= length w)%nat ->
  forall x, In x w -> has_node g x = true.
Proof.
  intros Hwf. induction w as [|a w IH]; intros Hw Hlen x Hx; [destruct Hx|].
  destruct w as [|b w]; [simpl in Hlen; lia|].
  destruct Hw as [Hab Hw].
  destruct (has_edge_nodes g a b Hwf Hab) as [Ha Hb].
  destruct Hx as [<-|Hx]; [assumption|].
  destruct w as [|c w].
  - destruct Hx as [<-|[]]. assumption.
  - apply IH; [assumption|simpl; lia|assumption].
Qed.

Lemma walk_length_bound (g : DiGraph) (w : list Node) :
  wf_graph g = true -> acyclic g -> is_walk g w -> (2 <= length w)%nat ->
  (length w <= length (nodes g))%nat.
Proof.
  intros Hwf Hac Hw Hlen.
  rewrite <- (length_map Node_key w), <- (length_map Node_key (nodes g)).
  apply NoDup_incl_length; [apply (walk_keys_NoDup g w Hac Hw)|].
  intros k Hk. apply in_map_iff in Hk. destruct Hk as [x [<- Hx]].
  assert (Hn := walk_nodes g w Hwf Hw Hlen x Hx).
  unfold has_node in Hn. apply existsb_exists in Hn. destruct Hn as [y [Hy Heq]].
  apply Node_eq_key in Heq. rewrite Heq. apply in_map. assumption.
Qed.

Lemma walk_insert (g : DiGraph) (w1 w2 : list Node) (a y b : Node) :
  is_walk g (w1 ++ a :: b :: w2) -> edge g a y -> edge g y b ->
  is_walk g (w1 ++ a :: y :: b :: w2).
Proof.
  intros H Hay Hyb. induction w1 as [|x w1 IH].
  - simpl in *. destruct H as [_ H]. auto.
  - destruct w1 as [|x' w1].
    + simpl in *. destruct H as [Hxa [_ H]]. auto.
    + simpl in H. destruct H as [Hxx H]. split; [assumption|]. apply IH. exact H.
Qed.

(** ** Idempotence and reachability of the reduction *)

Section Reduction.

Variable g : DiGraph.
Hypothesis Hwf : wf_graph g = true.

Let g1 : DiGraph :=
  mkDiGraph (nodes g)
            (filter (fun e => negb (is_shortcut g (fst e) (snd e))) (edges g)).

Lemma reduced_edge_sub (u v : Node) : edge g1 u v -> edge g u v.
Proof.
  unfold edge. rewrite !has_edge_iff. intros [e [He H]]. exists e.
  split; [|assumption]. cbn [g1 edges] in He. apply filter_In in He. tauto.
Qed.

Lemma reduced_edge_iff (u v : Node) :
  edge g1 u v <-> edge g u v /\ is_shortcut g u v = false.
Proof.
  split.
  - intros H. split; [apply reduced_edge_sub; assumption|].
    unfold edge in H. apply has_edge_iff in H. destruct H as [e [He [H1 H2]]].
    cbn [g1 edges] in He. apply filter_In in He. destruct He as [_ Hs].
    apply negb_true_iff in Hs. rewrite (is_shortcut_respects g u _ v _ H1 H2). assumption.
  - intros [H Hs]. unfold edge in *. apply has_edge_iff in H.
    destruct H as [e [He [H1 H2]]]. apply has_edge_iff. exists e.
    split; [|auto]. cbn [g1 edges]. apply filter_In. split; [assumption|].
    apply negb_true_iff. rewrite <- (is_shortcut_respects g u _ v _ H1 H2). assumption.
Qed.

Lemma reduced_wf : wf_graph g1 = true.
Proof.
  apply wf_graph_iff. apply wf_graph_iff in Hwf. destruct Hwf as [Hd Hends].
  split; [exact Hd|]. intros e He. cbn [g1 edges] in He. apply filter_In in He.
  destruct He as [He _]. exact (Hends e He).
Qed.

Lemma reduced_no_shortcut (u v : Node) :
  edge g1 u v -> is_shortcut g1 u v = false.
Proof.
  intros H. apply reduced_edge_iff in H. destruct H as [_ Hs].
  destruct (is_shortcut g1 u v) eqn:E; [|reflexivity].
  rewrite <- Hs. symmetry. unfold is_shortcut in *.
  apply existsb_exists in E. destruct E as [x [Hx E]].
  apply existsb_exists. exists x. split; [exact Hx|].
  apply andb_true_iff in E. destruct E as [E1 E2].
  apply andb_true_iff in E2. destruct E2 as [E2 E3].
  rewrite (reduced_edge_sub u x E1), E2, (reduced_edge_sub x v E3). reflexivity.
Qed.

Lemma reduced_fixpoint : remove_shortcuts g1 = Some g1.
Proof.
  rewrite (remove_shortcuts_spec g1 reduced_wf).
  rewrite filter_all; [reflexivity|].
  intros e He. apply negb_true_iff. apply reduced_no_shortcut.
  apply has_edge_In. assumption.
Qed.

Hypothesis Hacyclic : acyclic g.

(** Every edge on a walk of [g] is still connected after the reduction:
    a shortcut edge is replaced by its two-edge path, which makes the walk
    longer, and a walk cannot outgrow the node list. *)
Lemma walk_edge_reduced (d : nat) :
  forall (w1 w2 : list Node) (a b : Node),
  is_walk g (w1 ++ a :: b :: w2) ->
  (length (nodes g) <= length (w1 ++ a :: b :: w2) + d)%nat ->
  reachable g1 a b.
Proof.
  induction d as [|d IH]; intros w1 w2 a b Hw Hlen.
  - assert (Hab : edge g a b).
    { apply walk_app_r in Hw. simpl in Hw. tauto. }
    destruct (is_shortcut g a b) eqn:Hs.
    + exfalso. unfold is_shortcut in Hs. apply existsb_exists in Hs.
      destruct Hs as [y [_ Hy]]. apply andb_true_iff in Hy. destruct Hy as [Hay Hy].
      apply andb_true_iff in Hy. destruct Hy as [_ Hyb].
      assert (Hw' := walk_insert g w1 w2 a y b Hw Hay Hyb).
      assert (Hb := walk_length_bound g _ Hwf Hacyclic Hw').
      rewrite !length_app in *. simpl in *. lia.
    + apply t_step. apply reduced_edge_iff. auto.
  - assert (Hab : edge g a b).
    { apply walk_app_r in Hw. simpl in Hw. tauto. }
    destruct (is_shortcut g a b) eqn:Hs.
    + unfold is_shortcut in Hs. apply existsb_exists in Hs.
      destruct Hs as [y [_ Hy]]. apply andb_true_iff in Hy. destruct Hy as [Hay Hy].
      apply andb_true_iff in Hy. destruct Hy as [_ Hyb].
      assert (Hw' := walk_insert g w1 w2 a y b Hw Hay Hyb).
      apply t_trans with y.
      * apply (IH w1 (b :: w2) a y Hw').
        rewrite !length_app in *. simpl in *. lia.
      * apply (IH (w1 ++ [a]) w2 y b).
        -- rewrite <- app_assoc. exact Hw'.
        -- rewrite <- app_assoc. rewrite !length_app in *. simpl in *. lia.
    + apply t_step. apply reduced_edge_iff. auto.
Qed.

Lemma edge_reduced (a b : Node) : edge g a b -> reachable g1 a b.
Proof.
  intros H. apply (walk_edge_reduced (length (nodes g)) [] [] a b).
  - simpl. auto.
  - simpl. lia.
Qed.

Lemma reduced_reachable (a b : Node) : reachable g1 a b <-> reachable g a b.
Proof.
  split.
  - apply reachable_mono. exact reduced_edge_sub.
  - intros H. induction H as [a b H | a b c _ IH1 _ IH2].
    + apply edge_reduced. assumption.
    + apply t_trans with b; assumption.
Qed.

End Reduction.

(** C8: on a well-formed acyclic graph [remove_shortcuts] returns a graph
    on which a second run changes nothing, and in which a node is
    reachable from another exactly when it was before the reduction. *)
Theorem remove_shortcuts_idempotent_reachability (g : DiGraph) :
  wf_graph g = true -> acyclic g ->
  exists g1,
    remove_shortcuts g = Some g1 /\
    remove_shortcuts g1 = Some g1 /\
    forall a b, reachable g1 a b <-> reachable g a b.
Proof.
  intros Hwf Hac. eexists. split; [apply remove_shortcuts_spec; assumption|].
  split.
  - apply reduced_fixpoint. assumption.
  - apply reduced_reachable; assumption.
Qed.

Lemma start_rank_respects (a b : Node) : Node_eq a b = true -> start_rank a = start_rank b.
Proof.
  intros H. apply Node_eq_iff in H. destruct H as [Hs _].
  unfold start_rank, Node_start. rewrite Hs. reflexivity.
Qed.

Lemma example_raw_graph_acyclic : acyclic example_raw_graph.
Proof.
  apply (ranked_acyclic example_raw_graph start_rank start_rank_respects).
  reflexivity.
Qed.

(** C8, witness: the graph of the example before its first reduction. *)
Lemma remove_shortcuts_idempotent_reachability_witness :
  wf_graph example_raw_graph = true /\
  acyclic example_raw_graph /\
  exists g1,
    remove_shortcuts example_raw_graph = Some g1 /\
    remove_shortcuts g1 = Some g1 /\
    forall a b, reachable g1 a b <-> reachable example_raw_graph a b.
Proof.
  split; [reflexivity|]. split; [exact example_raw_graph_acyclic|].
  apply (remove_shortcuts_idempotent_reachability example_raw_graph);
    [reflexivity | exact example_raw_graph_acyclic].
Defined.

(** ** The reduction stops at paths of length two *)

(** C4, at the example: START reaches NOUN@(0,5), which reaches END, and
    still the reduced graph keeps the direct edge START -> END, because no
    single node lies between them.  The first reduction of the pipeline
    returns the base graph, and a further run leaves it as it is. *)
Theorem remove_shortcuts_keeps_long_shortcut :
  remove_shortcuts example_raw_graph = Some example_base_graph /\
  graph_from_document example_doc = Some example_base_graph /\
  remove_shortcuts example_base_graph = Some example_base_graph /\
  has_edge example_base_graph START END = true /\
  reachable example_base_graph START noun_0_5 /\
  reachable example_base_graph noun_0_5 END.
Proof.
  repeat apply conj; try (vm_compute; reflexivity).
  - apply t_step. vm_compute. reflexivity.
  - apply t_trans with verb_5_9; [apply t_step; vm_compute; reflexivity|].
    apply t_trans with noun_9_14; apply t_step; vm_compute; reflexivity.
Qed.

(** ** Sets of strings *)

Lemma str_mem_In (x : string) (l : list string) : str_mem x l = true <-> In x l.
Proof.
  unfold str_mem. rewrite existsb_exists. split.
  - intros [y [Hy Heq]]. apply String.eqb_eq in Heq. subst. assumption.
  - intros H. exists x. split; [assumption|apply String.eqb_refl].
Qed.

Lemma str_mem_false (x : string) (l : list string) : str_mem x l = false <-> ~ In x l.
Proof.
  rewrite <- str_mem_In. destruct (str_mem x l); split; intros H; congruence.
Qed.

Lemma str_diff_In (x : string) (s t : list string) :
  In x (str_diff s t) <-> In x s /\ ~ In x t.
Proof.
  unfold str_diff. rewrite filter_In, negb_true_iff, str_mem_false. tauto.
Qed.

Lemma str_set_In (x : string) (l : list string) : In x (str_set l) <-> In x l.
Proof.
  induction l as [|y l IH]; simpl; [tauto|].
  rewrite filter_In, IH, negb_true_iff, String.eqb_neq.
  destruct (string_dec y x); intuition congruence.
Qed.

Lemma str_set_NoDup (l : list string) : NoDup (str_set l).
Proof.
  induction l as [|y l IH]; simpl; constructor.
  - rewrite filter_In, negb_true_iff, String.eqb_neq. intros [_ H]. congruence.
  - apply NoDup_filter. assumption.
Qed.

(** ** Chains of a relation without cycles *)

Section Chains.

Context {A : Type} (R : A -> A -> Prop).
Hypothesis Hacyclic : forall x, ~ clos_trans A R x x.

Lemma chain_tail (x : A) (l : list A) : chain R (x :: l) -> chain R l.
Proof. destruct l; simpl; tauto. Qed.

Lemma chain_reach (l : list A) :
  forall x y l2, chain R (x :: l ++ y :: l2) -> clos_trans A R x y.
Proof.
  induction l as [|z l IH]; intros x y l2 H.
  - simpl in H. apply t_step. tauto.
  - simpl app in H. destruct H as [Hxz H].
    apply t_trans with z; [apply t_step; assumption|]. apply (IH z y l2). assumption.
Qed.

Lemma chain_NoDup (l : list A) : chain R l -> NoDup l.
Proof.
  induction l as [|x l IH]; intros H; constructor.
  - intros Hin. apply in_split in Hin. destruct Hin as [l1 [l2 ->]].
    apply (Hacyclic x). apply (chain_reach l1 x x l2). assumption.
  - apply IH. exact (chain_tail x l H).
Qed.

(** In a finite set closed under a relation without cycles, every
    non-empty part [S] has an element all of whose successors lie outside
    [S]. *)
Lemma minimal_element (keys : list A) (S : A -> Prop) (next : A -> option A) :
  (forall k, S k -> In k keys) ->
  (forall k d, S k -> next k = Some d -> R k d /\ S d) ->
  forall k0, S k0 -> exists k, S k /\ next k = None.
Proof.
  intros Hkeys Hnext.
  assert (Hext : forall m k, S k ->
            (exists k', S k' /\ next k' = None) \/
            (exists l, chain R (k :: l) /\ length l = m /\ forall x, In x (k :: l) -> S x)).
  { induction m as [|m IH]; intros k Hk.
    - right. exists []. simpl. split; [exact I|]. split; [reflexivity|].
      intros x [<-|[]]. assumption.
    - destruct (next k) as [d|] eqn:E.
      + destruct (Hnext k d Hk E) as [Hkd Hd].
        destruct (IH d Hd) as [Hmin|[l [Hc [Hlen Hall]]]]; [left; assumption|].
        right. exists (d :: l). split; [split; assumption|].
        split; [simpl; lia|]. intros x [<-|Hx]; [assumption|auto].
      + left. exists k. auto. }
  intros k0 Hk0.
  destruct (Hext (length keys) k0 Hk0) as [Hmin|[l [Hc [Hlen Hall]]]]; [assumption|].
  exfalso.
  assert (Hle : (length (k0 :: l) <= length keys)%nat).
  { apply NoDup_incl_length; [apply chain_NoDup; assumption|].
    intros x Hx. apply Hkeys. apply Hall. assumption. }
  simpl in Hle. lia.
Qed.

End Chains.

(** ** One run of the [for] loop of [get_rule_application_order] *)

Lemma Forall2_refl_on {A : Type} (P : A -> A -> Prop) (l : list A) :
  (forall x, P x x) -> Forall2 P l l.
Proof. intros H. induction l; constructor; auto. Qed.

Lemma Forall2_compose {A B C : Type} (P : A -> B -> Prop) (Q : B -> C -> Prop)
    (S : A -> C -> Prop) (l1 : list A) (l2 : list B) (l3 : list C) :
  (forall a b c, P a b -> Q b c -> S a c) ->
  Forall2 P l1 l2 -> Forall2 Q l2 l3 -> Forall2 S l1 l3.
Proof.
  intros H H1. revert l3. induction H1 as [|a b l1 l2 Hab _ IH]; intros l3 H2.
  - inversion H2. constructor.
  - inversion H2 as [|? c ? l3' Hbc H2']; subst. constructor; eauto.
Qed.

Lemma Forall2_In_l {A B : Type} (P : A -> B -> Prop) (l1 : list A) (l2 : list B) (x : A) :
  Forall2 P l1 l2 -> In x l1 -> exists y, In y l2 /\ P x y.
Proof.
  induction 1 as [|a b l1 l2 Hab _ IH]; intros Hin; [destruct Hin|].
  destruct Hin as [<-|Hin].
  - exists b. split; [left; reflexivity|assumption].
  - destruct (IH Hin) as [y [Hy HP]]. exists y. split; [right; assumption|assumption].
Qed.

Lemma Forall2_In_r {A B : Type} (P : A -> B -> Prop) (l1 : list A) (l2 : list B) (y : B) :
  Forall2 P l1 l2 -> In y l2 -> exists x, In x l1 /\ P x y.
Proof.
  induction 1 as [|a b l1 l2 Hab _ IH]; intros Hin; [destruct Hin|].
  destruct Hin as [<-|Hin].
  - exists a. split; [left; reflexivity|assumption].
  - destruct (IH Hin) as [x [Hx HP]]. exists x. split; [right; assumption|assumption].
Qed.

(** An entry after the run is the entry before it, or that entry without
    the elements of [order]. *)
Definition step_rel (order : list string) (o c : string * list string) : Prop :=
  fst o = fst c /\ (snd c = snd o \/ snd c = str_diff (snd o) order).

Lemma deps_update_cases (order v : list string) :
  deps_update order v = v \/ deps_update order v = str_diff v order.
Proof. destruct order; simpl; auto. Qed.

Lemma order_pass_spec (order : list string) (todo : list (string * list string)) :
  forall done,
  exists X order',
    order_pass todo done order = (done ++ X, order') /\
    Forall2 (step_rel order) todo X /\
    ((pass_finds todo order = true /\
      exists k, order' = order ++ [k] /\ In (k, []) todo /\ ~ In k order) \/
     (pass_finds todo order = false /\ order' = order /\
      X = map (fun kv => (fst kv, deps_update order (snd kv))) todo)).
Proof.
  induction todo as [|[k v] todo IH]; intros done.
  - exists [], order. simpl. rewrite app_nil_r. split; [reflexivity|].
    split; [constructor|]. right. auto.
  - assert (Hrec : exists X order',
              order_pass todo (done ++ [(k, deps_update order v)]) order
                = (done ++ X, order') /\
              Forall2 (step_rel order) ((k, v) :: todo) X /\
              ((pass_finds todo order = true /\
                exists k0, order' = order ++ [k0] /\ In (k0, []) ((k, v) :: todo)
                           /\ ~ In k0 order) \/
               (pass_finds todo order = false /\ order' = order /\
                X = map (fun kv => (fst kv, deps_update order (snd kv)))
                        ((k, v) :: todo)))).
    { destruct (IH (done ++ [(k, deps_update order v)])) as [X [order' [Heq [HF Hcase]]]].
      exists ((k, deps_update order v) :: X), order'.
      split; [rewrite Heq, <- app_assoc; reflexivity|].
      split.
      - constructor; [|assumption]. split; [reflexivity|]. apply deps_update_cases.
      - destruct Hcase as [[Hf [k0 [H1 [H2 H3]]]]|[Hf [H1 H2]]].
        + left. split; [assumption|]. exists k0. simpl. auto.
        + right. split; [assumption|]. split; [assumption|]. simpl. rewrite H2. reflexivity. }
    cbn [order_pass]. destruct v as [|d v'].
    + destruct (str_mem k order) eqn:E; cbn [negb].
      * destruct Hrec as [X [order' [Heq [HF Hcase]]]]. exists X, order'.
        split; [assumption|]. split; [assumption|].
        unfold pass_finds. cbn [existsb fst snd]. rewrite E. cbn [negb orb].
        exact Hcase.
      * exists ((k, []) :: todo), (order ++ [k]). split; [reflexivity|].
        split; [apply Forall2_refl_on; intros x; split; auto|].
        left. unfold pass_finds. cbn [existsb fst snd]. rewrite E. cbn [negb orb].
        split; [reflexivity|]. exists k. split; [reflexivity|].
        split; [left; reflexivity|]. apply str_mem_false. assumption.
    + destruct Hrec as [X [order' [Heq [HF Hcase]]]]. exists X, order'.
      split; [assumption|]. split; [assumption|].
      unfold pass_finds. cbn [existsb fst snd orb]. exact Hcase.
Qed.

(** ** The [while] loop of [get_rule_application_order] *)

Section OrderLoop.

(** The dependency table the loop starts from. *)
Variable D0 : list (string * list string).
Hypothesis keys_NoDup : NoDup (map fst D0).
Hypothesis deps_closed :
  forall k v d, In (k, v) D0 -> In d v -> In d (map fst D0).

Let keys : list string := map fst D0.
Let R (k d : string) : Prop := exists v, In (k, v) D0 /\ In d v.

(** A current entry against the original one: nothing is added, and only
    elements of [order] are ever dropped. *)
Definition entry_rel (order : list string) (o c : string * list string) : Prop :=
  fst o = fst c /\ incl (snd c) (snd o) /\
  forall d, In d (snd o) -> ~ In d order -> In d (snd c).

Definition order_inv (deps : list (string * list string)) (order : list string)
  : Prop :=
  Forall2 (entry_rel order) D0 deps /\
  NoDup order /\ incl order keys /\
  forall k d, In k order -> R k d -> before d k order.

(** No current entry mentions an element of [order]. *)
Definition deps_clean (deps : list (string * list string)) (order : list string)
  : Prop :=
  forall c d, In c deps -> In d (snd c) -> ~ In d order.

Lemma entry_unique (k : string) (v v' : list string) :
  In (k, v) D0 -> In (k, v') D0 -> v = v'.
Proof.
  clear deps_closed. revert keys_NoDup. induction D0 as [|[k0 v0] l IH]; intros Hnd H1 H2.
  - destruct H1.
  - simpl in Hnd. inversion Hnd as [|? ? Hnotin Hnd']; subst.
    destruct H1 as [H1|H1], H2 as [H2|H2].
    + congruence.
    + inversion H1; subst. exfalso. apply Hnotin. apply (in_map fst) in H2. exact H2.
    + inversion H2; subst. exfalso. apply Hnotin. apply (in_map fst) in H1. exact H1.
    + apply IH; assumption.
Qed.

Lemma order_inv_init : order_inv D0 [].
Proof.
  split; [|split; [constructor|split; [intros x []|intros k d []]]].
  apply Forall2_refl_on. intros x. split; [reflexivity|].
  split; [apply incl_refl|auto].
Qed.

(** The entry found empty by the loop has all its dependencies in
    [order]. *)
Lemma empty_entry_ready (deps : list (string * list string)) (order : list string)
    (k : string) :
  Forall2 (entry_rel order) D0 deps -> In (k, []) deps ->
  In k keys /\ forall d, R k d -> In d order.
Proof.
  intros HF Hin. destruct (Forall2_In_r _ _ _ _ HF Hin) as [[k0 v0] [H0 [Hk [_ Hkeep]]]].
  simpl in Hk, Hkeep. subst k0. split.
  - unfold keys. apply (in_map fst) in H0. exact H0.
  - intros d [v [Hv Hd]]. rewrite (entry_unique k v v0 Hv H0) in Hd.
    destruct (in_dec string_dec d order) as [Hyes|Hno]; [assumption|].
    destruct (Hkeep d Hd Hno).
Qed.

Lemma before_app (d k x : string) (order : list string) :
  before d k order -> before d k (order ++ [x]).
Proof.
  intros [o1 [o2 [-> Hd]]]. exists o1, (o2 ++ [x]).
  split; [rewrite <- app_assoc; reflexivity|assumption].
Qed.

Lemma order_inv_pass (deps deps' : list (string * list string))
    (order order' : list string) :
  order_inv deps order ->
  order_pass deps [] order = (deps', order') ->
  order_inv deps' order'.
Proof.
  intros [HF [Hnd [Hincl Hbefore]]] Hpass.
  destruct (order_pass_spec order deps []) as [X [o' [Heq [HX Hcase]]]].
  rewrite Hpass in Heq. simpl in Heq. inversion Heq; subst X o'. clear Heq.
  assert (Hsub : incl order order').
  { destruct Hcase as [[_ [k [-> _]]]|[_ [-> _]]];
      [apply incl_appl|]; apply incl_refl. }
  split.
  - apply (Forall2_compose (entry_rel order) (step_rel order) (entry_rel order')
             D0 deps deps'); [|assumption|assumption].
    intros o c c' [H1 [H2 H3]] [H4 H5]. split; [congruence|]. split.
    + destruct H5 as [->| ->]; [assumption|].
      intros d Hd. apply str_diff_In in Hd. apply H2. tauto.
    + intros d Hd Hno. assert (Hno' : ~ In d order) by (intros H; apply Hno, Hsub, H).
      specialize (H3 d Hd Hno'). destruct H5 as [->| ->]; [assumption|].
      apply str_diff_In. auto.
  - destruct Hcase as [[_ [k [-> [Hk Hnotin]]]]|[_ [-> _]]].
    + destruct (empty_entry_ready deps order k HF Hk) as [Hkeys Hready].
      split; [|split].
      * apply NoDup_app; [assumption|constructor; [intros []|constructor]|].
        intros x Hx [<-|[]]. contradiction.
      * apply incl_app; [assumption|]. intros x [<-|[]]. assumption.
      * intros k' d Hk' HR. apply in_app_iff in Hk'. destruct Hk' as [Hk'|[<-|[]]].
        -- apply before_app. auto.
        -- exists order, []. split; [reflexivity|]. apply Hready. assumption.
    + auto.
Qed.

Lemma pass_clean (deps deps' : list (string * list string)) (order order' : list string) :
  order_pass deps [] order = (deps', order') ->
  pass_finds deps order = false ->
  order' = order /\ deps_clean deps' order.
Proof.
  intros Hpass Hf.
  destruct (order_pass_spec order deps []) as [X [o' [Heq [_ Hcase]]]].
  rewrite Hpass in Heq. simpl in Heq. inversion Heq; subst X o'. clear Heq.
  destruct Hcase as [[Hf' _]|[_ [-> ->]]]; [congruence|].
  split; [reflexivity|]. intros c d Hc Hd. apply in_map_iff in Hc.
  destruct Hc as [[k v] [<- _]]. simpl in Hd. destruct order as [|x order]; [intros []|].
  simpl in Hd. apply str_diff_In in Hd. tauto.
Qed.

Lemma pass_append (deps deps' : list (string * list string)) (order order' : list string) :
  order_pass deps [] order = (deps', order') ->
  pass_finds deps order = true ->
  exists k, order' = order ++ [k] /\ In (k, []) deps /\ ~ In k order.
Proof.
  intros Hpass Hf.
  destruct (order_pass_spec order deps []) as [X [o' [Heq [_ Hcase]]]].
  rewrite Hpass in Heq. simpl in Heq. inversion Heq; subst X o'. clear Heq.
  destruct Hcase as [[_ H]|[Hf' _]]; [assumption|congruence].
Qed.

Lemma order_short (order : list string) (k : string) :
  NoDup order -> incl order keys -> In k keys -> ~ In k order ->
  (length order < length D0)%nat.
Proof.
  intros Hnd Hincl Hk Hnotin.
  assert (H : (length (k :: order) <= length keys)%nat).
  { apply NoDup_incl_length; [constructor; assumption|].
    intros x [<-|Hx]; auto. }
  unfold keys in H. rewrite length_map in H. simpl in H. lia.
Qed.

End OrderLoop.

Section OrderLoopRuns.

Variable D0 : list (string * list string).
Hypothesis keys_NoDup : NoDup (map fst D0).
Hypothesis deps_closed :
  forall k v d, In (k, v) D0 -> In d v -> In d (map fst D0).

Let R (k d : string) : Prop := exists v, In (k, v) D0 /\ In d v.

Lemma deps_get_In (l : list (string * list string)) (k : string) (v : list string) :
  deps_get l k = Some v -> In (k, v) l.
Proof.
  induction l as [|[k' v'] l IH]; simpl; [discriminate|].
  destruct (String.eqb_spec k k') as [->|Hne].
  - intros H. inversion H. left. reflexivity.
  - intros H. right. auto.
Qed.

Lemma deps_get_None (l : list (string * list string)) (k : string) :
  deps_get l k = None -> ~ In k (map fst l).
Proof.
  induction l as [|[k' v'] l IH]; simpl; [tauto|].
  destruct (String.eqb_spec k k') as [->|Hne]; [discriminate|].
  intros H [Heq|Hin]; [congruence|]. exact (IH H Hin).
Qed.

(** Without a cycle, a clean table shows an empty entry outside [order]
    as long as [order] is incomplete. *)
Lemma acyclic_progress (deps : list (string * list string)) (order : list string) :
  (forall x, ~ clos_trans string R x x) ->
  order_inv D0 deps order -> deps_clean deps order ->
  length order <> length D0 ->
  pass_finds deps order = true.
Proof.
  intros Hac [HF [Hnd [Hincl _]]] Hclean Hlen.
  set (S := fun k => In k (map fst D0) /\ ~ In k order).
  set (next := fun k =>
                 match deps_get D0 k with
                 | Some v => find (fun d => negb (str_mem d order)) v
                 | None => None
                 end).
  assert (Hnext : forall k d, S k -> next k = Some d -> R k d /\ S d).
  { intros k d _ H. unfold next in H. destruct (deps_get D0 k) as [v|] eqn:E; [|discriminate].
    apply deps_get_In in E. apply find_some in H. destruct H as [Hd Hno].
    apply negb_true_iff, str_mem_false in Hno.
    split; [exists v; auto|]. split; [|assumption]. exact (deps_closed k v d E Hd). }
  assert (Hk0 : exists k0, S k0).
  { destruct (find (fun k => negb (str_mem k order)) (map fst D0)) as [k0|] eqn:E.
    - apply find_some in E. destruct E as [Hk Hno].
      apply negb_true_iff, str_mem_false in Hno. exists k0. split; assumption.
    - exfalso. apply Hlen.
      assert (Hall : incl (map fst D0) order).
      { intros k Hk. assert (H := find_none _ _ E k Hk).
        apply negb_false_iff, str_mem_In in H. assumption. }
      assert (H1 := NoDup_incl_length keys_NoDup Hall).
      assert (H2 := NoDup_incl_length Hnd Hincl).
      rewrite length_map in H1, H2. lia. }
  destruct Hk0 as [k0 Hk0].
  destruct (minimal_element R Hac (map fst D0) S next (fun k H => proj1 H) Hnext k0 Hk0)
    as [k [[Hk Hnotin] Hmin]].
  apply in_map_iff in Hk. destruct Hk as [[k' v] [Hfst Hkv]]. simpl in Hfst. subst k'.
  destruct (Forall2_In_l _ _ _ _ HF Hkv) as [[k' c] [Hc [Hfst [Hsub _]]]].
  simpl in Hfst, Hsub. subst k'.
  assert (Hv : forall d, In d v -> In d order).
  { intros d Hd. unfold next in Hmin.
    destruct (deps_get D0 k) as [v'|] eqn:E.
    - apply deps_get_In in E. rewrite (entry_unique D0 keys_NoDup k v v' Hkv E) in Hd.
      assert (H := find_none _ _ Hmin d Hd). apply negb_false_iff, str_mem_In in H.
      assumption.
    - exfalso. apply (deps_get_None D0 k E). apply (in_map fst) in Hkv. exact Hkv. }
  assert (Hnil : c = []).
  { destruct c as [|d c]; [reflexivity|]. exfalso.
    apply (Hclean (k, d :: c) d Hc); [left; reflexivity|].
    apply Hv. apply Hsub. left. reflexivity. }
  subst c. unfold pass_finds. apply existsb_exists. exists (k, []).
  split; [assumption|]. simpl. apply negb_true_iff, str_mem_false. assumption.
Qed.

(** Without a cycle the loop ends within two runs per nonterminal, with
    an order that lists every key once and every dependency before its
    dependant. *)
Lemma order_loop_acyclic :
  (forall x, ~ clos_trans string R x x) ->
  forall fuel deps order,
  order_inv D0 deps order ->
  (2 * (length D0 - length order) <= fuel \/
   (deps_clean deps order /\ 2 * (length D0 - length order) <= fuel + 1))%nat ->
  exists o,
    order_loop fuel (length D0) deps order = Some o /\
    NoDup o /\ (forall k, In k o <-> In k (map fst D0)) /\
    forall k d, In k o -> R k d -> before d k o.
Proof.
  intros Hac. induction fuel as [|fuel IH]; intros deps order Hinv Hfuel.
  - assert (Hlen : length order = length D0 \/ length order <> length D0) by lia.
    destruct Hlen as [Hlen|Hlen].
    + exists order. simpl. rewrite Hlen, Nat.eqb_refl.
      destruct Hinv as [_ [Hnd [Hincl Hbefore]]].
      split; [reflexivity|]. split; [assumption|]. split; [|assumption].
      intros k. split; [apply Hincl|].
      apply NoDup_length_incl; [assumption|rewrite length_map; lia|assumption].
    + exfalso. destruct Hfuel as [Hfuel|[Hclean Hfuel]].
      * destruct Hinv as [_ [Hnd [Hincl _]]].
        assert (H2 := NoDup_incl_length Hnd Hincl). rewrite length_map in H2. lia.
      * assert (Hf := acyclic_progress deps order Hac Hinv Hclean Hlen).
        destruct Hinv as [_ [Hnd [Hincl _]]].
        assert (H2 := NoDup_incl_length Hnd Hincl). rewrite length_map in H2. lia.
  - assert (Hlen : length order = length D0 \/ length order <> length D0) by lia.
    destruct Hlen as [Hlen|Hlen].
    + exists order. simpl. rewrite Hlen, Nat.eqb_refl.
      destruct Hinv as [_ [Hnd [Hincl Hbefore]]].
      split; [reflexivity|]. split; [assumption|]. split; [|assumption].
      intros k. split; [apply Hincl|].
      apply NoDup_length_incl; [assumption|rewrite length_map; lia|assumption].
    + cbn [order_loop]. destruct (Nat.eqb_spec (length order) (length D0)); [contradiction|].
      destruct (order_pass deps [] order) as [deps' order'] eqn:Hpass.
      assert (Hinv' := order_inv_pass D0 keys_NoDup deps deps' order order' Hinv Hpass).
      destruct (pass_finds deps order) eqn:Hf.
      * destruct (pass_append deps deps' order order' Hpass Hf) as [k [-> _]].
        apply IH; [assumption|]. left. rewrite length_app. simpl.
        destruct Hfuel as [Hfuel|[_ Hfuel]]; lia.
      * destruct (pass_clean D0 deps deps' order order' Hpass Hf) as [-> Hclean].
        apply IH; [assumption|]. right. split; [assumption|].
        destruct Hfuel as [Hfuel|[Hclean0 Hfuel]]; [lia|].
        rewrite (acyclic_progress deps order Hac Hinv Hclean0 Hlen) in Hf. discriminate.
Qed.

(** With a cycle the loop never ends: no key on a cycle is ever put into
    [order], so [order] never reaches its full length. *)
Lemma order_loop_cyclic (c : string) :
  clos_trans string R c c ->
  forall fuel deps order,
  order_inv D0 deps order ->
  (forall x, In x order -> ~ clos_trans string R x x) ->
  order_loop fuel (length D0) deps order = None.
Proof.
  intros Hc.
  assert (Hckey : In c (map fst D0)).
  { assert (H : forall x y, clos_trans string R x y -> In x (map fst D0)).
    { intros x y Hxy. induction Hxy as [x y [v [Hv _]] | x y z _ IH1 _ _]; [|exact IH1].
      apply (in_map fst) in Hv. exact Hv. }
    exact (H c c Hc). }
  induction fuel as [|fuel IH]; intros deps order Hinv Hfree.
  - simpl. destruct (Nat.eqb_spec (length order) (length D0)) as [Heq|]; [|reflexivity].
    exfalso. destruct Hinv as [_ [Hnd [Hincl _]]].
    assert (Hno : ~ In c order) by (intros H; exact (Hfree c H Hc)).
    assert (H := order_short D0 order c Hnd Hincl Hckey Hno). lia.
  - cbn [order_loop]. destruct (Nat.eqb_spec (length order) (length D0)) as [Heq|].
    + exfalso. destruct Hinv as [_ [Hnd [Hincl _]]].
      assert (Hno : ~ In c order) by (intros H; exact (Hfree c H Hc)).
      assert (H := order_short D0 order c Hnd Hincl Hckey Hno). lia.
    + destruct (order_pass deps [] order) as [deps' order'] eqn:Hpass.
      assert (Hinv' := order_inv_pass D0 keys_NoDup deps deps' order order' Hinv Hpass).
      apply IH; [assumption|].
      destruct (pass_finds deps order) eqn:Hf.
      * destruct (pass_append deps deps' order order' Hpass Hf) as [k [-> [Hk Hkno]]].
        intros x Hx Hcyc. apply in_app_iff in Hx. destruct Hx as [Hx|[<-|[]]].
        -- exact (Hfree x Hx Hcyc).
        -- destruct Hinv as [HF _].
           destruct (empty_entry_ready D0 keys_NoDup deps order k HF Hk) as [_ Hready].
           apply clos_trans_t1n in Hcyc.
           inversion Hcyc as [y Hky | y z Hky Hrest]; subst.
           ++ exact (Hkno (Hready k Hky)).
           ++ apply (Hfree y (Hready y Hky)).
              apply clos_t1n_trans in Hrest.
              apply t_trans with k; [assumption|apply t_step; assumption].
      * destruct (pass_clean D0 deps deps' order order' Hpass Hf) as [-> _]. assumption.
Qed.

End OrderLoopRuns.

(** ** The dependency table of a rule list *)

Lemma rules_deps_keys (rules : list Rule) :
  map fst (rules_deps rules) = Grammar_nonterminals rules.
Proof.
  unfold rules_deps, groupby_lhs, Grammar_nonterminals.
  rewrite !map_map. simpl. apply map_id.
Qed.

Lemma terminals_In (rules : list Rule) (d : string) :
  In d (Grammar_terminals rules) <->
  In d (flat_map rhs rules) /\ ~ In d (map lhs rules).
Proof.
  unfold Grammar_terminals, Grammar_nonterminals.
  rewrite str_diff_In, !str_set_In. tauto.
Qed.

Lemma rules_deps_depends (rules : list Rule) (k d : string) :
  (exists v, In (k, v) (rules_deps rules) /\ In d v) <-> depends rules k d.
Proof.
  unfold rules_deps, groupby_lhs, depends. split.
  - intros [v [Hkv Hd]]. apply in_map_iff in Hkv. destruct Hkv as [[k' rs] [Heq Hin]].
    simpl in Heq. inversion Heq; subst k' v. clear Heq.
    apply in_map_iff in Hin. destruct Hin as [k' [Heq _]]. inversion Heq; subst k' rs.
    apply str_diff_In in Hd. destruct Hd as [Hd Hnt]. rewrite str_set_In in Hd.
    apply in_flat_map in Hd. destruct Hd as [r [Hr Hdr]]. apply filter_In in Hr.
    destruct Hr as [Hr Hlhs]. apply String.eqb_eq in Hlhs.
    exists r. repeat split; try assumption.
    destruct (in_dec string_dec d (map lhs rules)) as [Hyes|Hno]; [assumption|].
    exfalso. apply Hnt. apply terminals_In. split; [|assumption].
    apply in_flat_map. exists r. auto.
  - intros [r [Hr [Hlhs [Hd Hnt]]]].
    exists (str_diff (str_set (flat_map rhs (filter (fun r => String.eqb (lhs r) k) rules)))
                     (Grammar_terminals rules)).
    split.
    + apply in_map_iff.
      exists (k, filter (fun r => String.eqb (lhs r) k) rules). split; [reflexivity|].
      apply in_map_iff. exists k. split; [reflexivity|].
      apply str_set_In. rewrite <- Hlhs. apply in_map. assumption.
    + apply str_diff_In. split.
      * apply str_set_In. apply in_flat_map. exists r. split; [|assumption].
        apply filter_In. split; [assumption|]. apply String.eqb_eq. assumption.
      * rewrite terminals_In. tauto.
Qed.

Lemma clos_trans_ext {A : Type} (R S : A -> A -> Prop) :
  (forall x y, R x y -> S x y) ->
  forall x y, clos_trans A R x y -> clos_trans A S x y.
Proof.
  intros H x y Hxy. induction Hxy as [x y Hxy | x y z _ IH1 _ IH2].
  - apply t_step. auto.
  - apply t_trans with y; assumption.
Qed.

Lemma rules_deps_NoDup (rules : list Rule) : NoDup (map fst (rules_deps rules)).
Proof. rewrite rules_deps_keys. apply str_set_NoDup. Qed.

Lemma rules_deps_closed (rules : list Rule) (k : string) (v : list string) (d : string) :
  In (k, v) (rules_deps rules) -> In d v -> In d (map fst (rules_deps rules)).
Proof.
  intros Hkv Hd.
  assert (H : depends rules k d) by (apply rules_deps_depends; exists v; auto).
  destruct H as [r [_ [_ [_ Hnt]]]].
  rewrite rules_deps_keys. apply str_set_In. assumption.
Qed.

(** The result of the loop does not depend on the fuel left over. *)
Lemma order_loop_fuel (f1 f2 n : nat) (deps : list (string * list string))
    (order o1 o2 : list string) :
  order_loop f1 n deps order = Some o1 ->
  order_loop f2 n deps order = Some o2 -> o1 = o2.
Proof.
  revert f2 deps order. induction f1 as [|f1 IH]; intros f2 deps order H1 H2.
  - simpl in H1. destruct (Nat.eqb (length order) n) eqn:E; [|discriminate].
    destruct f2; simpl in H2; rewrite E in H2; congruence.
  - cbn [order_loop] in H1. destruct (Nat.eqb (length order) n) eqn:E.
    + destruct f2; simpl in H2; rewrite E in H2; congruence.
    + destruct f2 as [|f2]; simpl in H2; rewrite E in H2; [discriminate|].
      destruct (order_pass deps [] order) as [deps' order'].
      exact (IH f2 deps' order' H1 H2).
Qed.

(** With a cyclic dependency the order is never returned, whatever the
    fuel: the [while] loop does not end. *)
Lemma application_order_cyclic (rules : list Rule) (k : string) :
  clos_trans string (depends rules) k k ->
  forall fuel, get_rule_application_order fuel rules = None.
Proof.
  intros Hk fuel. unfold get_rule_application_order.
  rewrite <- rules_deps_keys, length_map.
  apply (order_loop_cyclic (rules_deps rules) (rules_deps_NoDup rules) k).
  - apply (clos_trans_ext (depends rules)); [|assumption].
    intros x y H. apply rules_deps_depends. assumption.
  - apply order_inv_init.
  - intros x [].
Qed.

(** Without one, two rounds per nonterminal are enough. *)
Lemma application_order_acyclic (rules : list Rule) :
  (forall k, ~ clos_trans string (depends rules) k k) ->
  exists order,
    (forall fuel, (2 * length (Grammar_nonterminals rules) <= fuel)%nat ->
                  get_rule_application_order fuel rules = Some order) /\
    NoDup order /\
    (forall k, In k order <-> In k (map lhs rules)) /\
    forall k d, In k order -> depends rules k d -> before d k order.
Proof.
  intros Hac.
  assert (Hac' : forall x, ~ clos_trans string
                   (fun k d => exists v, In (k, v) (rules_deps rules) /\ In d v) x x).
  { intros x H. apply (Hac x). apply (clos_trans_ext _ (depends rules)) in H; [assumption|].
    intros a b Hab. apply rules_deps_depends. assumption. }
  assert (Hlen : length (rules_deps rules) = length (Grammar_nonterminals rules)).
  { rewrite <- rules_deps_keys, length_map. reflexivity. }
  destruct (order_loop_acyclic (rules_deps rules) (rules_deps_NoDup rules)
              (rules_deps_closed rules) Hac'
              (2 * length (rules_deps rules))%nat (rules_deps rules) []
              (order_inv_init (rules_deps rules)))
    as [o [Ho [Hnd [Hall Hbefore]]]].
  { left. simpl. lia. }
  exists o. split; [|split; [assumption|split]].
  - intros fuel Hfuel.
    destruct (order_loop_acyclic (rules_deps rules) (rules_deps_NoDup rules)
                (rules_deps_closed rules) Hac' fuel (rules_deps rules) []
                (order_inv_init (rules_deps rules)))
      as [o' [Ho' _]].
    { left. simpl. lia. }
    unfold get_rule_application_order. rewrite <- Hlen, Ho'. f_equal.
    exact (order_loop_fuel _ _ _ _ _ _ _ Ho' Ho).
  - intros k. rewrite Hall, rules_deps_keys. unfold Grammar_nonterminals.
    apply str_set_In.
  - intros k d Hk Hd. apply Hbefore; [assumption|]. apply rules_deps_depends. assumption.
Qed.

(** C3 (as the code has it): a rule list whose dependency relation has a
    cycle makes the construction of the grammar run forever (no result for
    any amount of fuel, and the loop has no branch that reports an
    error); a rule list without a cycle yields, within two rounds per
    nonterminal, a grammar whose order lists every nonterminal once and
    every nonterminal before the nonterminals that depend on it. *)
Theorem rule_application_order_spec (rules : list Rule) :
  ((exists k, clos_trans string (depends rules) k k) ->
   forall fuel start, Grammar_init fuel start rules = None) /\
  ((forall k, ~ clos_trans string (depends rules) k k) ->
   exists order,
     (forall fuel start,
        (2 * length (Grammar_nonterminals rules) <= fuel)%nat ->
        Grammar_init fuel start rules
        = Some (mkGrammar rules start (Grammar_nonterminals rules)
                          (Grammar_terminals rules) order)) /\
     NoDup order /\
     (forall k, In k order <-> In k (map lhs rules)) /\
     forall k d, In k order -> depends rules k d -> before d k order).
Proof.
  split.
  - intros [k Hk] fuel start. unfold Grammar_init.
    rewrite (application_order_cyclic rules k Hk fuel). reflexivity.
  - intros Hac. destruct (application_order_acyclic rules Hac)
      as [order [Hrun [Hnd [Hall Hbefore]]]].
    exists order. split; [|auto]. intros fuel start Hfuel. unfold Grammar_init.
    rewrite (Hrun fuel Hfuel). reflexivity.
Qed.

Lemma depends_ranked_acyclic (rules : list Rule) (f : string -> Z) :
  (forall r d, In r rules -> In d (rhs r) -> In d (map lhs rules) -> f d < f (lhs r)) ->
  forall k, ~ clos_trans string (depends rules) k k.
Proof.
  intros Hf.
  assert (H : forall x y, clos_trans string (depends rules) x y -> f y < f x).
  { intros x y Hxy. induction Hxy as [x y [r [Hr [<- [Hd Hnt]]]] | x y z _ IH1 _ IH2].
    - exact (Hf r y Hr Hd Hnt).
    - lia. }
  intros k Hk. specialize (H k k Hk). lia.
Qed.

Lemma cyclic_rules_cycle : clos_trans string (depends cyclic_rules) "A"%string "A"%string.
Proof.
  apply t_trans with "B"%string; apply t_step.
  - exists (mkRule "A" ["B"; "x"]%string 2). simpl. auto 10.
  - exists (mkRule "B" ["A"]%string 1). simpl. auto 10.
Qed.

Lemma layered_rules_acyclic :
  forall k, ~ clos_trans string (depends layered_rules) k k.
Proof.
  apply (depends_ranked_acyclic layered_rules layered_rank).
  intros r d Hr Hd Hnt. simpl in Hr, Hnt.
  destruct Hr as [<-|[<-|[]]]; destruct Hnt as [<-|[<-|[]]]; simpl in Hd;
    repeat (destruct Hd as [Hd|Hd]; try discriminate Hd); try destruct Hd;
    vm_compute; reflexivity.
Qed.

(** C3, witness: the two halves of the theorem at a cyclic and at a
    layered rule list. *)
Lemma rule_application_order_spec_witness :
  (clos_trans string (depends cyclic_rules) "A"%string "A"%string /\
   forall fuel start, Grammar_init fuel start cyclic_rules = None) /\
  ((forall k, ~ clos_trans string (depends layered_rules) k k) /\
   exists order,
     (forall fuel start,
        (2 * length (Grammar_nonterminals layered_rules) <= fuel)%nat ->
        Grammar_init fuel start layered_rules
        = Some (mkGrammar layered_rules start (Grammar_nonterminals layered_rules)
                          (Grammar_terminals layered_rules) order)) /\
     NoDup order /\
     (forall k, In k order <-> In k (map lhs layered_rules)) /\
     forall k d, In k order -> depends layered_rules k d -> before d k order).
Proof.
  split.
  - split; [exact cyclic_rules_cycle|].
    apply (proj1 (rule_application_order_spec cyclic_rules)).
    exists "A"%string. exact cyclic_rules_cycle.
  - split; [exact layered_rules_acyclic|].
    apply (proj2 (rule_application_order_spec layered_rules)).
    exact layered_rules_acyclic.
Defined.

(** C3 as stated fails: for the rules [A -> B x] and [B -> A] the loop
    state is the same after any number of rounds, with an empty order
    where two nonterminals are awaited, so the construction neither ends
    nor reports an error. *)
Lemma cyclic_grammar_never_built :
  clos_trans string (depends cyclic_rules) "A"%string "A"%string /\
  length (Grammar_nonterminals cyclic_rules) = 2%nat /\
  (forall k, order_rounds k (rules_deps cyclic_rules, [])
             = (rules_deps cyclic_rules, [])) /\
  forall fuel start, Grammar_init fuel start cyclic_rules = None.
Proof.
  split; [exact cyclic_rules_cycle|]. split; [reflexivity|]. split.
  - induction k as [|k IH]; [reflexivity|]. exact IH.
  - intros fuel start. unfold Grammar_init.
    rewrite (application_order_cyclic cyclic_rules "A" cyclic_rules_cycle fuel).
    reflexivity.
Qed.

(** ** The candidate map keeps the first weight *)

Lemma nodes_distinct_app (l : list Node) (x : Node) :
  nodes_distinct l = true -> existsb (fun k => Node_eq k x) l = false ->
  nodes_distinct (l ++ [x]) = true.
Proof.
  induction l as [|y l IH]; simpl; intros Hd Hx; [reflexivity|].
  apply andb_true_iff in Hd. destruct Hd as [Hy Hd].
  apply orb_false_iff in Hx. destruct Hx as [Hyx Hx].
  apply andb_true_iff. split; [|auto].
  apply negb_true_iff. apply negb_true_iff in Hy. unfold node_mem in *.
  rewrite existsb_app. simpl. rewrite Hy, Hyx. reflexivity.
Qed.

Lemma cm_append_keys (cm : CandidateMap) (node : Node) (d : Rule * list Node) :
  map fst (cm_append cm node d)
  = if existsb (fun k => Node_eq k node) (map fst cm) then map fst cm
    else map fst cm ++ [node].
Proof.
  induction cm as [|[k ds] cm IH]; simpl; [reflexivity|].
  destruct (Node_eq k node) eqn:E; simpl; [reflexivity|].
  rewrite IH. destruct (existsb _ (map fst cm)); reflexivity.
Qed.

Lemma cm_append_In (cm : CandidateMap) (node : Node) (d : Rule * list Node)
    (k : Node) (ds : list (Rule * list Node)) :
  In (k, ds) (cm_append cm node d) ->
  In (k, ds) cm \/
  (exists ds0, In (k, ds0) cm /\ ds = ds0 ++ [d]) \/
  (k = node /\ ds = [d]).
Proof.
  induction cm as [|[k0 ds0] cm IH]; simpl.
  - intros [H|[]]. inversion H. auto.
  - destruct (Node_eq k0 node) eqn:E; simpl.
    + intros [H|H]; [|auto]. inversion H; subst. right. left. exists ds0. auto.
    + intros [H|H]; [auto|]. destruct (IH H) as [H1|[[ds1 [H1 H2]]|H1]]; auto.
      right. left. exists ds1. auto.
Qed.

(** Appending under a key that is already there leaves every key as it
    is, weight included, and puts the derivation at the end of its list. *)
Lemma cm_append_existing (cm : CandidateMap) (node : Node) (d : Rule * list Node)
    (k : Node) (ds : list (Rule * list Node)) :
  nodes_distinct (map fst cm) = true ->
  In (k, ds) cm -> Node_eq k node = true ->
  map fst (cm_append cm node d) = map fst cm /\
  cm_get (cm_append cm node d) node = ds ++ [d].
Proof.
  induction cm as [|[k0 ds0] cm IH]; intros Hd Hin Heq; [destruct Hin|].
  simpl in Hd. apply andb_true_iff in Hd. destruct Hd as [Hk0 Hd].
  apply negb_true_iff in Hk0. simpl.
  destruct Hin as [Hin|Hin].
  - inversion Hin; subst. rewrite Heq. simpl. rewrite Heq. auto.
  - destruct (Node_eq k0 node) eqn:E.
    + exfalso. assert (H : node_mem k0 (map fst cm) = true); [|congruence].
      apply node_mem_iff. exists k. split; [apply (in_map fst) in Hin; exact Hin|].
      rewrite (Node_eq_r k0 k node Heq). assumption.
    + simpl. rewrite E. destruct (IH Hd Hin Heq) as [H1 H2]. rewrite H1. auto.
Qed.

Lemma first_weight_append (cm : CandidateMap) (node : Node) (rule : Rule)
    (path : list Node) :
  first_weight_inv cm -> weight node = rule_weight rule ->
  first_weight_inv (cm_append cm node (rule, path)).
Proof.
  intros [Hd Hall] Hw. split.
  - rewrite cm_append_keys.
    destruct (existsb (fun k => Node_eq k node) (map fst cm)) eqn:E; [assumption|].
    apply nodes_distinct_app; assumption.
  - intros k ds Hin. apply cm_append_In in Hin.
    destruct Hin as [Hin|[[ds0 [Hin ->]]|[-> ->]]].
    + exact (Hall k ds Hin).
    + destruct (Hall k ds0 Hin) as [r [p [ds' [-> Hk]]]].
      exists r, p, (ds' ++ [(rule, path)]). auto.
    + exists rule, path, []. auto.
Qed.

Lemma fold_left_option_inv {S X : Type} (P : S -> Prop)
    (f : option S -> X -> option S) (l : list X) :
  (forall s x s', P s -> f (Some s) x = Some s' -> P s') ->
  (forall x, f None x = None) ->
  forall s s', P s -> fold_left f l (Some s) = Some s' -> P s'.
Proof.
  intros Hstep Hnone. induction l as [|x l IH]; intros s s' Hs H; simpl in H.
  - inversion H; subst. assumption.
  - destruct (f (Some s) x) as [s1|] eqn:E.
    + exact (IH s1 s' (Hstep s x s1 Hs E) H).
    + exfalso. clear -H Hnone. induction l as [|y l IHl]; simpl in H; [discriminate|].
      rewrite Hnone in H. auto.
Qed.

Lemma resolve_path_inv (nonterminal : string) (rule : Rule)
    (s s' : DiGraph * CandidateMap) (path : list Node) :
  first_weight_inv (snd s) ->
  resolve_path nonterminal rule (Some s) path = Some s' ->
  first_weight_inv (snd s').
Proof.
  intros Hinv H. unfold resolve_path in H. destruct s as [g2 cm].
  destruct path as [|first path]; [discriminate|].
  inversion H; subst. simpl. apply first_weight_append; [assumption|reflexivity].
Qed.

Lemma resolve_rule_inv (fuel : nat) (nonterminal : string)
    (s s' : DiGraph * CandidateMap) (rule : Rule) :
  first_weight_inv (snd s) ->
  resolve_rule fuel nonterminal (Some s) rule = Some s' ->
  first_weight_inv (snd s').
Proof.
  intros Hinv H. unfold resolve_rule in H.
  destruct (get_valid_paths fuel (fst s) rule) as [paths|]; [|discriminate].
  revert H. apply (fold_left_option_inv (fun s => first_weight_inv (snd s))); auto.
  intros s0 x s1. apply resolve_path_inv.
Qed.

Lemma resolve_nonterminal_inv (fuel : nat) (grammar : Grammar)
    (s s' : DiGraph * CandidateMap) (nonterminal : string) :
  first_weight_inv (snd s) ->
  resolve_nonterminal fuel grammar (Some s) nonterminal = Some s' ->
  first_weight_inv (snd s').
Proof.
  intros Hinv H. unfold resolve_nonterminal in H.
  destruct (Grammar_getitem grammar nonterminal) as [rs|]; [|discriminate].
  revert H. apply (fold_left_option_inv (fun s => first_weight_inv (snd s))); auto.
  intros s0 x s1. apply resolve_rule_inv.
Qed.

Lemma get_nonterminal_nodes_inv (fuel : nat) (graph : DiGraph) (grammar : Grammar)
    (cm : CandidateMap) :
  get_nonterminal_nodes fuel graph grammar = Some cm -> first_weight_inv cm.
Proof.
  unfold get_nonterminal_nodes.
  destruct (fold_left (resolve_nonterminal fuel grammar)
              (nonterminal_dependency_order grammar) (Some (graph, [])))
    as [s|] eqn:E; [|discriminate].
  intros H. inversion H; subst.
  revert E. apply (fold_left_option_inv (fun s => first_weight_inv (snd s))).
  - intros s0 x s1. apply resolve_nonterminal_inv.
  - reflexivity.
  - split; [reflexivity|]. intros k ds [].
Qed.

(** [max(..., key=lambda x: x.weight)] returns an element of greatest
    weight. *)
Lemma py_max_weight (x : Node) (l : list Node) :
  let m := py_max (fun a b => Z.ltb (weight b) (weight a)) x l in
  In m (x :: l) /\ forall y, In y (x :: l) -> weight y <= weight m.
Proof.
  unfold py_max. revert x. induction l as [|z l IH]; intros x; simpl.
  - split; [auto|]. intros y [<-|[]]. lia.
  - destruct (Z.ltb_spec (weight x) (weight z)) as [Hlt|Hge].
    + destruct (IH z) as [Hin Hmax]. split.
      * simpl in Hin. tauto.
      * intros y [<-|Hy]; [|auto]. specialize (Hmax z (or_introl eq_refl)). lia.
    + destruct (IH x) as [Hin Hmax]. split.
      * simpl in Hin. tauto.
      * intros y [<-|[<-|Hy]]; [apply Hmax; left; reflexivity| |apply Hmax; right; assumption].
        specialize (Hmax x (or_introl eq_refl)). lia.
Qed.

Lemma choose_root_spec (cm : CandidateMap) (grammar : Grammar) (root : Node) :
  choose_root cm grammar = Some root ->
  In root (map fst cm) /\ name root = start_symbol grammar /\
  forall k, In k (map fst cm) -> name k = start_symbol grammar ->
            weight k <= weight root.
Proof.
  unfold choose_root.
  destruct (filter (fun i => String.eqb (name i) (start_symbol grammar)) (map fst cm))
    as [|i l] eqn:E; [discriminate|].
  intros H. inversion H as [Hroot]. clear H.
  destruct (py_max_weight i l) as [Hin Hmax].
  assert (Hf : forall k, In k (i :: l) <->
                 In k (map fst cm) /\ name k = start_symbol grammar).
  { intros k. rewrite <- E, filter_In, String.eqb_eq. tauto. }
  apply Hf in Hin. destruct Hin as [Hin Hname].
  split; [assumption|]. split; [assumption|].
  intros k Hk Hkn. apply Hmax. apply Hf. auto.
Qed.

(** C10: node equality ignores the weight; a derivation appended under
    an existing key leaves the key and its weight alone; every key of the
    candidate map that chart resolution returns carries the weight of the
    rule of its first derivation; and the tree selector picks its root by
    the weights stored in the keys. *)
Theorem candidate_map_first_weight :
  (forall s l w1 w2, Node_eq (mkNode s l w1) (mkNode s l w2) = true) /\
  (forall a b, Node_eq a b = true <-> span a = span b /\ name a = name b) /\
  (forall cm node d k ds,
     nodes_distinct (map fst cm) = true ->
     In (k, ds) cm -> Node_eq k node = true ->
     map fst (cm_append cm node d) = map fst cm /\
     cm_get (cm_append cm node d) node = ds ++ [d]) /\
  (forall fuel graph grammar cm,
     get_nonterminal_nodes fuel graph grammar = Some cm ->
     nodes_distinct (map fst cm) = true /\
     forall k ds, In (k, ds) cm ->
       exists r p ds', ds = (r, p) :: ds' /\ weight k = rule_weight r) /\
  (forall cm grammar root,
     choose_root cm grammar = Some root ->
     In root (map fst cm) /\ name root = start_symbol grammar /\
     forall k, In k (map fst cm) -> name k = start_symbol grammar ->
               weight k <= weight root).
Proof.
  split; [|split; [|split; [|split]]].
  - intros s l w1 w2. apply Node_eq_iff. auto.
  - exact Node_eq_iff.
  - intros cm node d k ds. apply cm_append_existing.
  - intros fuel graph grammar cm H. exact (get_nonterminal_nodes_inv fuel graph grammar cm H).
  - exact choose_root_spec.
Qed.

(** C10, witness: rules of weight 5 and of weight 9 both produce
    S@(0,14); its key keeps weight 5 and holds both derivations; the
    selector compares that 5 with the 7 of S@(0,9) and roots the tree at
    S@(0,9), although a rule of weight 9 derived S@(0,14). *)
Lemma candidate_map_first_weight_witness :
  get_nonterminal_nodes 10 example_base_graph weights_grammar
    = Some [(s_0_14, [(rule_s5, [noun_0_5; verb_5_9; noun_9_14]);
                      (rule_s9, [noun_0_5; verb_5_9; noun_9_14])]);
            (s_0_9, [(rule_s7, [noun_0_5; verb_5_9])])] /\
  weight s_0_14 = rule_weight rule_s5 /\
  choose_root [(s_0_14, [(rule_s5, [noun_0_5; verb_5_9; noun_9_14]);
                         (rule_s9, [noun_0_5; verb_5_9; noun_9_14])]);
               (s_0_9, [(rule_s7, [noun_0_5; verb_5_9])])] weights_grammar
    = Some s_0_9 /\
  (nodes_distinct [s_0_14; s_0_9] = true /\
   forall k ds,
     In (k, ds) [(s_0_14, [(rule_s5, [noun_0_5; verb_5_9; noun_9_14]);
                           (rule_s9, [noun_0_5; verb_5_9; noun_9_14])]);
                 (s_0_9, [(rule_s7, [noun_0_5; verb_5_9])])] ->
     exists r p ds', ds = (r, p) :: ds' /\ weight k = rule_weight r).
Proof.
  assert (H : get_nonterminal_nodes 10 example_base_graph weights_grammar
    = Some [(s_0_14, [(rule_s5, [noun_0_5; verb_5_9; noun_9_14]);
                      (rule_s9, [noun_0_5; verb_5_9; noun_9_14])]);
            (s_0_9, [(rule_s7, [noun_0_5; verb_5_9])])])
    by (vm_compute; reflexivity).
  split; [exact H|]. split; [reflexivity|]. split; [vm_compute; reflexivity|].
  exact (proj1 (proj2 (proj2 (proj2 candidate_map_first_weight))) _ _ _ _ H).
Defined.

(** ** The selected tree *)

Lemma add_node_nodes (g : DiGraph) (n : Node) :
  exists extra, nodes (add_node g n) = nodes g ++ extra.
Proof.
  unfold add_node. destruct (has_node g n).
  - exists []. rewrite app_nil_r. reflexivity.
  - exists [n]. reflexivity.
Qed.

Lemma add_node_edges (g : DiGraph) (n : Node) : edges (add_node g n) = edges g.
Proof. unfold add_node. destruct (has_node g n); reflexivity. Qed.

Lemma add_edge_nodes (g : DiGraph) (u v : Node) :
  exists extra, nodes (add_edge g u v) = nodes g ++ extra.
Proof.
  unfold add_edge.
  destruct (add_node_nodes g u) as [e1 H1].
  destruct (add_node_nodes (add_node g u) v) as [e2 H2].
  exists (e1 ++ e2).
  destruct (has_edge (add_node (add_node g u) v) u v); simpl;
    rewrite H2, H1, app_assoc; reflexivity.
Qed.

Lemma add_edge_edges (g : DiGraph) (u v : Node) (e : Node * Node) :
  In e (edges (add_edge g u v)) -> In e (edges g) \/ e = (u, v).
Proof.
  unfold add_edge.
  destruct (has_edge (add_node (add_node g u) v) u v); simpl.
  - rewrite !add_node_edges. auto.
  - rewrite in_app_iff, !add_node_edges. simpl. intuition.
Qed.

Lemma add_edges_from_nodes (l : list (Node * Node)) :
  forall g, exists extra, nodes (add_edges_from g l) = nodes g ++ extra.
Proof.
  unfold add_edges_from. induction l as [|[u v] l IH]; intros g; simpl.
  - exists []. rewrite app_nil_r. reflexivity.
  - destruct (IH (add_edge g u v)) as [e2 H2].
    destruct (add_edge_nodes g u v) as [e1 H1].
    exists (e1 ++ e2). rewrite H2, H1, app_assoc. reflexivity.
Qed.

Lemma add_edges_from_edges (l : list (Node * Node)) :
  forall g e, In e (edges (add_edges_from g l)) -> In e (edges g) \/ In e l.
Proof.
  unfold add_edges_from. induction l as [|[u v] l IH]; intros g e H; simpl in *.
  - auto.
  - destruct (IH _ e H) as [H1|H1]; [|auto].
    destruct (add_edge_edges g u v e H1) as [H2|H2]; auto.
Qed.

(** The loop only appends nodes, and every edge it adds leads from a node
    to a child of that node's chosen derivation. *)
Lemma parse_tree_loop_inv (cm : CandidateMap) (fuel : nat) :
  forall stack graph tree,
  parse_tree_loop fuel cm stack graph = Some tree ->
  (forall u v, In (u, v) (edges graph) -> derivation_edge cm u v) ->
  (exists extra, nodes tree = nodes graph ++ extra) /\
  (forall u v, In (u, v) (edges tree) -> derivation_edge cm u v).
Proof.
  induction fuel as [|fuel IH]; intros stack graph tree H Hedges.
  - destruct stack; simpl in H; [|discriminate]. inversion H; subst.
    split; [exists []; rewrite app_nil_r; reflexivity|assumption].
  - destruct stack as [|node stack]; simpl in H.
    + inversion H; subst.
      split; [exists []; rewrite app_nil_r; reflexivity|assumption].
    + destruct (add_node_nodes graph node) as [e1 H1].
      destruct (chosen_children cm node) as [children|] eqn:E.
      * destruct (add_edges_from_nodes (map (fun i => (node, i)) children)
                    (add_node graph node)) as [e2 H2].
        destruct (IH _ _ _ H) as [[e3 H3] Hall].
        -- intros u v Huv. apply add_edges_from_edges in Huv.
           rewrite add_node_edges in Huv. destruct Huv as [Huv|Huv]; [auto|].
           apply in_map_iff in Huv. destruct Huv as [i [Heq Hi]].
           inversion Heq; subst. exists children. auto.
        -- split; [|assumption]. exists (e1 ++ e2 ++ e3).
           rewrite H3, H2, H1, !app_assoc. reflexivity.
      * destruct (IH _ _ _ H) as [[e3 H3] Hall].
        -- intros u v Huv. rewrite add_node_edges in Huv. auto.
        -- split; [|assumption]. exists (e1 ++ e3).
           rewrite H3, H1, !app_assoc. reflexivity.
Qed.

(** When selection succeeds, the first node of the tree, its root, is a
    key of the candidate map labelled with the start symbol, and every
    edge leads from a node to a child of the derivation chosen for that
    node. *)
Lemma choose_parse_tree_root (fuel : nat) (cm : CandidateMap)
    (grammar : Grammar) (tree : DiGraph) :
  choose_parse_tree fuel cm grammar = Some tree ->
  (exists root rest,
     nodes tree = root :: rest /\ In root (map fst cm) /\
     name root = start_symbol grammar) /\
  (forall u v, In (u, v) (edges tree) -> derivation_edge cm u v).
Proof.
  unfold choose_parse_tree. intros H.
  destruct (choose_root cm grammar) as [root|] eqn:Hroot; [|discriminate].
  destruct (choose_root_spec cm grammar root Hroot) as [Hin [Hname _]].
  destruct fuel as [|fuel]; [discriminate|].
  assert (Hloop : exists stack graph,
            parse_tree_loop fuel cm stack graph = Some tree /\
            (exists extra, nodes graph = root :: extra) /\
            forall u v, In (u, v) (edges graph) -> derivation_edge cm u v).
  { simpl in H. change (add_node empty_graph root) with (mkDiGraph [root] []) in H.
    destruct (chosen_children cm root) as [children|] eqn:E.
    - exists ([] ++ children), (add_edges_from (mkDiGraph [root] [])
                                  (map (fun i => (root, i)) children)).
      split; [exact H|]. split.
      + destruct (add_edges_from_nodes (map (fun i => (root, i)) children)
                    (mkDiGraph [root] [])) as [e He].
        exists e. rewrite He. reflexivity.
      + intros u v Huv. apply add_edges_from_edges in Huv.
        destruct Huv as [[]|Huv]. apply in_map_iff in Huv.
        destruct Huv as [i [Heq Hi]]. inversion Heq; subst. exists children. auto.
    - exists [], (mkDiGraph [root] []). split; [exact H|].
      split; [exists []; reflexivity|]. intros u v []. }
  destruct Hloop as [stack [graph [Hrun [[extra Hnodes] Hedges]]]].
  destruct (parse_tree_loop_inv cm fuel stack graph tree Hrun Hedges) as [[e He] Hall].
  split.
  - exists root, (extra ++ e). rewrite He, Hnodes. auto.
  - exact Hall.
Qed.

(** The loop of [choose_parse_tree] keeps no record of the nodes it has
    visited.  On a candidate map that chart resolution cannot produce,
    with A and B over one span and both derived from the leaf x,
    selection succeeds and x ends up as a child of both A and B: that a
    selected tree has no such node is owed to the candidate maps of
    chart resolution. *)
Lemma shared_child_has_two_parents :
  choose_parse_tree 5 shared_map shared_grammar
    = Some (mkDiGraph [node_s; node_a; node_b; leaf_x]
              [(node_s, node_a); (node_s, node_b);
               (node_a, leaf_x); (node_b, leaf_x)]) /\
  name node_s = start_symbol shared_grammar /\
  predecessors (mkDiGraph [node_s; node_a; node_b; leaf_x]
                  [(node_s, node_a); (node_s, node_b);
                   (node_a, leaf_x); (node_b, leaf_x)]) leaf_x
    = [node_a; node_b] /\
  Node_eq node_a node_b = false.
Proof. repeat apply conj; vm_compute; reflexivity. Qed.

(** ** Compiling [X -> a?] *)

(** C9: the line [X -> a?] expands to one alternation between the empty
    branch and the branch [a]; the graph gets an epsilon node for the
    empty branch; its two paths from START to END carry no label and the
    label [a]; and [get_rhs_set] returns the two strings [''] and ['a']. *)
Theorem optional_compiles_to_two_sequences :
  expand_line "X -> a?" = Some [UOrr [[]; [UTok tok_a]]] /\
  all_simple_paths (rhs_graph [UOrr [[]; [UTok tok_a]]]) GStart GEnd
    = [[GStart; GOr 0 0 0; GEps 1 2; GEndOr 0 0 1; GEnd];
       [GStart; GOr 0 0 0; GTok tok_a 1 0 3; GEndOr 0 0 1; GEnd]] /\
  map path_labels (all_simple_paths (rhs_graph [UOrr [[]; [UTok tok_a]]]) GStart GEnd)
    = [[]; ["a"%string]] /\
  get_rhs_set "X -> a?" = Some [""%string; "a"%string].
Proof. repeat apply conj; vm_compute; reflexivity. Qed.

(** ** The branching graph *)

Lemma Token_eqb_eq (s t : Token) : Token_eqb s t = true <-> s = t.
Proof.
  destruct s as [a b], t as [c d]. unfold Token_eqb. simpl.
  rewrite andb_true_iff, !String.eqb_eq. split.
  - intros [-> ->]. reflexivity.
  - intros H. inversion H. auto.
Qed.

Lemma gnode_eqb_eq (a b : gnode) : gnode_eqb a b = true <-> a = b.
Proof.
  destruct a, b; simpl; try (split; [discriminate|intros H; discriminate H]);
    try (split; reflexivity);
    rewrite ?andb_true_iff, ?Nat.eqb_eq, ?Token_eqb_eq;
    (split; [intros H; decompose [and] H; subst; reflexivity
            |intros H; inversion H; auto]).
Qed.

Lemma gnode_eqb_refl (a : gnode) : gnode_eqb a a = true.
Proof. apply gnode_eqb_eq. reflexivity. Qed.

Lemma gnode_eqb_neq (a b : gnode) : gnode_eqb a b = false <-> a <> b.
Proof.
  rewrite <- gnode_eqb_eq. destruct (gnode_eqb a b); split; congruence.
Qed.

Lemma gmem_In (n : gnode) (l : list gnode) : gmem n l = true <-> In n l.
Proof.
  unfold gmem. rewrite existsb_exists. split.
  - intros [x [Hx Heq]]. apply gnode_eqb_eq in Heq. subst. assumption.
  - intros H. exists n. split; [assumption|apply gnode_eqb_refl].
Qed.

Lemma radd_node_nodes (g : RGraph) (n x : gnode) :
  In x (rnodes (radd_node g n)) <-> In x (rnodes g) \/ x = n.
Proof.
  unfold radd_node. destruct (gmem n (rnodes g)) eqn:E.
  - apply gmem_In in E. split; [auto|]. intros [H| ->]; assumption.
  - simpl. rewrite in_app_iff. simpl. intuition.
Qed.

Lemma radd_node_edges (g : RGraph) (n : gnode) : redges (radd_node g n) = redges g.
Proof. unfold radd_node. destruct (gmem n (rnodes g)); reflexivity. Qed.

Lemma radd_edge_edges (g : RGraph) (u v : gnode) (e : gnode * gnode) :
  In e (redges (radd_edge g u v)) <-> In e (redges g) \/ e = (u, v).
Proof.
  unfold radd_edge.
  destruct (existsb _ (redges (radd_node (radd_node g u) v))) eqn:E.
  - rewrite !radd_node_edges in *. split; [auto|]. intros [H| ->]; [assumption|].
    apply existsb_exists in E. destruct E as [[a b] [Hin Heq]]. simpl in Heq.
    apply andb_true_iff in Heq. destruct Heq as [H1 H2].
    apply gnode_eqb_eq in H1, H2. subst. assumption.
  - simpl. rewrite in_app_iff, !radd_node_edges. simpl. intuition.
Qed.

Lemma radd_edge_nodes (g : RGraph) (u v x : gnode) :
  In x (rnodes (radd_edge g u v)) <-> In x (rnodes g) \/ x = u \/ x = v.
Proof.
  unfold radd_edge.
  destruct (existsb _ (redges (radd_node (radd_node g u) v))); simpl;
    rewrite !radd_node_nodes; tauto.
Qed.

Lemma rwf_radd_node (g : RGraph) (n : gnode) : rwf g -> rwf (radd_node g n).
Proof.
  intros H u v Huv. rewrite radd_node_edges in Huv. rewrite !radd_node_nodes.
  destruct (H u v Huv). auto.
Qed.

Lemma rwf_radd_edge (g : RGraph) (a b : gnode) : rwf g -> rwf (radd_edge g a b).
Proof.
  intros H u v Huv. rewrite radd_edge_edges in Huv. rewrite !radd_edge_nodes.
  destruct Huv as [Huv|Huv].
  - destruct (H u v Huv). auto.
  - inversion Huv; subst. auto.
Qed.

Lemma rsuccessors_In (g : RGraph) (cur c : gnode) :
  In c (rsuccessors g cur) <-> In (cur, c) (redges g).
Proof.
  unfold rsuccessors. rewrite in_map_iff. split.
  - intros [[a b] [Heq Hin]]. simpl in Heq. subst b. apply filter_In in Hin.
    destruct Hin as [Hin Ha]. simpl in Ha. apply gnode_eqb_eq in Ha. subst. assumption.
  - intros H. exists (cur, c). split; [reflexivity|]. apply filter_In.
    split; [assumption|apply gnode_eqb_refl].
Qed.

(** ** The enumeration of simple paths *)

Lemma simple_paths_sound (g : RGraph) (target : gnode) (fuel : nat) :
  forall visited cur q,
  In q (simple_paths_from fuel g target visited cur) ->
  exists p, q = visited ++ p /\ rwalk g target cur p.
Proof.
  induction fuel as [|fuel IH]; intros visited cur q H; [destruct H|].
  simpl in H. apply in_flat_map in H. destruct H as [child [Hc Hq]].
  apply rsuccessors_In in Hc.
  destruct (gnode_eqb child target) eqn:E.
  - apply gnode_eqb_eq in E. subst child. destruct Hq as [<-|[]].
    exists [target]. split; [reflexivity|]. apply rwalk_end. assumption.
  - apply gnode_eqb_neq in E. destruct (gmem child visited); [destruct Hq|].
    destruct (IH _ _ _ Hq) as [p [-> Hp]]. exists (child :: p).
    split; [rewrite <- app_assoc; reflexivity|].
    apply rwalk_step; assumption.
Qed.

Lemma simple_paths_complete (g : RGraph) (target cur : gnode) (p : list gnode) :
  rwalk g target cur p ->
  forall fuel visited,
  (length p <= fuel)%nat ->
  (forall x, In x (removelast p) -> ~ In x visited) ->
  NoDup (removelast p) ->
  In (visited ++ p) (simple_paths_from fuel g target visited cur).
Proof.
  induction 1 as [cur Hedge | cur c p Hedge Hne Hwalk IH];
    intros fuel visited Hlen Hfresh Hnd.
  - destruct fuel as [|fuel]; [simpl in Hlen; lia|]. simpl.
    apply in_flat_map. exists target. split; [apply rsuccessors_In; assumption|].
    rewrite gnode_eqb_refl. left. reflexivity.
  - destruct fuel as [|fuel]; [simpl in Hlen; lia|]. simpl.
    apply in_flat_map. exists c. split; [apply rsuccessors_In; assumption|].
    assert (Hp : p <> []) by (inversion Hwalk; discriminate).
    assert (Hrl : removelast (c :: p) = c :: removelast p).
    { destruct p; [congruence|reflexivity]. }
    rewrite Hrl in Hfresh, Hnd.
    destruct (gnode_eqb c target) eqn:E; [apply gnode_eqb_eq in E; contradiction|].
    destruct (gmem c visited) eqn:Ev.
    + apply gmem_In in Ev. exfalso. apply (Hfresh c); [left; reflexivity|assumption].
    + replace (visited ++ c :: p) with ((visited ++ [c]) ++ p)
        by (rewrite <- app_assoc; reflexivity).
      inversion Hnd as [|? ? Hnotin Hnd']; subst.
      apply IH; [simpl in Hlen; lia| |assumption].
      intros x Hx Hin. apply in_app_iff in Hin. destruct Hin as [Hin|[<-|[]]].
      * apply (Hfresh x); [right; assumption|assumption].
      * contradiction.
Qed.

(** ** The graph of an alternation of token branches *)

Lemma fixup_seq_tokens (ts : list Token) :
  forall lvl idx f pre g c,
  exists g',
    fixup_seq fixup_elem (map UTok ts) lvl idx f pre (g, c)
    = (match f with Some x => Some x | None => hd_error (tok_nodes lvl idx c ts) end,
       match tok_nodes lvl idx c ts with
       | [] => pre
       | l => Some (last l GStart)
       end,
       (g', (c + length ts)%nat)) /\
    (forall e, In e (redges g') <->
               In e (redges g) \/
               In e (chain_edges (opt_list pre ++ tok_nodes lvl idx c ts))) /\
    (rwf g -> rwf g').
Proof.
  induction ts as [|t ts IH]; intros lvl idx f pre g c.
  - exists g. simpl. rewrite Nat.add_0_r, app_nil_r. split.
    + destruct f; reflexivity.
    + split; [|auto]. intros e. destruct pre; simpl; tauto.
  - cbn [map fixup_seq fixup_elem].
    set (new := GTok t lvl idx c).
    set (g1 := match pre with
               | Some p => radd_edge (radd_node g new) p new
               | None => radd_node g new
               end).
    destruct (IH lvl (S idx) (match f with Some x => Some x | None => Some new end)
                 (Some new) g1 (S c)) as [g' [Heq [Hedges Hwf]]].
    exists g'. split; [|split].
    + rewrite Heq. cbn [tok_nodes hd_error length]. fold new.
      replace (S c + length ts)%nat with (c + S (length ts))%nat by lia.
      f_equal. f_equal.
      * destruct f; reflexivity.
      * destruct (tok_nodes lvl (S idx) (S c) ts) eqn:E; reflexivity.
    + intros e. rewrite Hedges. cbn [tok_nodes opt_list app]. fold new.
      unfold g1. destruct pre as [p|]; cbn [opt_list app chain_edges].
      * rewrite radd_edge_edges, radd_node_edges. simpl. intuition.
      * rewrite radd_node_edges. tauto.
    + intros H. apply Hwf. unfold g1. destruct pre.
      * apply rwf_radd_edge, rwf_radd_node. assumption.
      * apply rwf_radd_node. assumption.
Qed.

Lemma length_tok_nodes (lvl idx c : nat) (ts : list Token) :
  length (tok_nodes lvl idx c ts) = length ts.
Proof.
  revert idx c. induction ts as [|t ts IH]; intros idx c; simpl; [reflexivity|].
  rewrite IH. reflexivity.
Qed.

Lemma fixup_list_tokens (ts : list Token) (g : RGraph) (c : nat) :
  exists g',
    fixup_list fixup_elem (map UTok ts) 1 (g, c)
    = (hd GStart (alt_nodes c ts), last (alt_nodes c ts) GStart,
       (g', (c + length (alt_nodes c ts))%nat)) /\
    (forall e, In e (redges g') <->
               In e (redges g) \/ In e (chain_edges (alt_nodes c ts))) /\
    (rwf g -> rwf g').
Proof.
  destruct ts as [|t ts].
  - exists g. simpl. rewrite Nat.add_1_r. split; [reflexivity|].
    split; [tauto|auto].
  - destruct (fixup_seq_tokens (t :: ts) 1 0 None None g c) as [g' [Heq [Hedges Hwf]]].
    exists g'. split; [|split; [exact Hedges|exact Hwf]].
    unfold fixup_list. cbn [map] in *. rewrite Heq. cbn [alt_nodes tok_nodes hd_error hd].
    change (GTok t 1 0 c :: tok_nodes 1 1 (S c) ts) with (tok_nodes 1 0 c (t :: ts)).
    rewrite length_tok_nodes. reflexivity.
Qed.

Lemma fixup_branches_tokens (new endor : gnode) (talts : list (list Token)) :
  forall g c,
  exists g' c',
    fixup_branches fixup_elem new endor 1 (map (map UTok) talts) (g, c) = (g', c') /\
    (forall e, In e (redges g') <->
               In e (redges g) \/
               exists s ts, In (s, ts) (alt_starts c talts) /\
                            branch_edge new endor s ts e) /\
    (rwf g -> rwf g').
Proof.
  induction talts as [|ts talts IH]; intros g c.
  - exists g, c. simpl. split; [reflexivity|]. split; [|auto].
    intros e. split; [auto|]. intros [H|[s [ts [[] _]]]]. assumption.
  - cbn [map fixup_branches].
    destruct (fixup_list_tokens ts g c) as [g1 [Heq [Hedges Hwf]]].
    rewrite Heq.
    set (g2 := radd_edge (radd_edge g1 (last (alt_nodes c ts) GStart) endor)
                         new (hd GStart (alt_nodes c ts))).
    destruct (IH g2 (c + length (alt_nodes c ts))%nat)
      as [g' [c' [Heq' [Hedges' Hwf']]]].
    exists g', c'. split; [exact Heq'|]. split.
    + intros e. rewrite Hedges'. unfold g2. rewrite !radd_edge_edges, Hedges.
      cbn [alt_starts]. unfold branch_edge. split.
      * intros [[[[H|H]|H]|H]|[s [ts' [Hin Hb]]]].
        -- left; assumption.
        -- right. exists c, ts. split; [left; reflexivity|]. left. assumption.
        -- right. exists c, ts. split; [left; reflexivity|]. right. left. assumption.
        -- right. exists c, ts. split; [left; reflexivity|]. right. right. assumption.
        -- right. exists s, ts'. split; [right; assumption|assumption].
      * intros [H|[s [ts' [[Hin|Hin] Hb]]]].
        -- left. left. left. left. assumption.
        -- inversion Hin; subst. left. tauto.
        -- right. exists s, ts'. split; assumption.
    + intros H. apply Hwf'. unfold g2. apply rwf_radd_edge, rwf_radd_edge, Hwf, H.
Qed.

Lemma rhs_graph_flat_orr (talts : list (list Token)) :
  rwf (rhs_graph [flat_orr talts]) /\
  forall e, In e (redges (rhs_graph [flat_orr talts])) <->
            e = (GStart, orr_new) \/ e = (orr_end, GEnd) \/
            exists s ts, In (s, ts) (alt_starts 2 talts) /\
                         branch_edge orr_new orr_end s ts e.
Proof.
  unfold rhs_graph, fixup, fixup_list, flat_orr. cbn [fixup_seq fixup_elem].
  fold orr_new. fold orr_end.
  set (g0 := radd_node (radd_node (mkRGraph [] []) orr_new) orr_end).
  destruct (fixup_branches_tokens orr_new orr_end talts g0 2)
    as [g' [c' [Heq [Hedges Hwf]]]].
  rewrite Heq. split.
  - apply rwf_radd_edge, rwf_radd_edge, Hwf. unfold g0.
    apply rwf_radd_node, rwf_radd_node. intros u v [].
  - intros e. rewrite !radd_edge_edges, Hedges. unfold g0.
    rewrite !radd_node_edges. simpl. tauto.
Qed.

(** ** The layout of the branches: random values tell the nodes apart *)

Lemma tok_nodes_In (lvl : nat) (ts : list Token) :
  forall idx c x,
  In x (tok_nodes lvl idx c ts) ->
  (c <= gid x < c + length ts)%nat /\ is_branch_node x = true.
Proof.
  induction ts as [|t ts IH]; intros idx c x H; [destruct H|].
  simpl in H. destruct H as [<-|H].
  - simpl. split; [lia|reflexivity].
  - apply IH in H. simpl. split; [lia|tauto].
Qed.

Lemma tok_nodes_NoDup (lvl : nat) (ts : list Token) :
  forall idx c, NoDup (tok_nodes lvl idx c ts).
Proof.
  induction ts as [|t ts IH]; intros idx c; simpl; constructor.
  - intros H. apply tok_nodes_In in H. simpl in H. lia.
  - apply IH.
Qed.

Lemma alt_nodes_In (s : nat) (ts : list Token) (x : gnode) :
  In x (alt_nodes s ts) ->
  (s <= gid x < s + length (alt_nodes s ts))%nat /\ is_branch_node x = true.
Proof.
  destruct ts as [|t ts]; unfold alt_nodes.
  - intros [<-|[]]. simpl. split; [lia|reflexivity].
  - intros H. rewrite length_tok_nodes. apply (tok_nodes_In _ _ _ _ _ H).
Qed.

Lemma alt_nodes_NoDup (s : nat) (ts : list Token) : NoDup (alt_nodes s ts).
Proof.
  destruct ts as [|t ts]; unfold alt_nodes.
  - constructor; [intros []|constructor].
  - apply tok_nodes_NoDup.
Qed.

Lemma alt_nodes_nonempty (s : nat) (ts : list Token) : alt_nodes s ts <> [].
Proof. destruct ts; discriminate. Qed.

Lemma alt_starts_ge (talts : list (list Token)) :
  forall c s ts, In (s, ts) (alt_starts c talts) -> (c <= s)%nat.
Proof.
  induction talts as [|ts0 talts IH]; intros c s ts H; [destruct H|].
  simpl in H. destruct H as [H|H].
  - inversion H. lia.
  - apply IH in H. lia.
Qed.

Lemma alt_starts_unique (talts : list (list Token)) :
  forall c s ts s' ts' k,
  In (s, ts) (alt_starts c talts) -> In (s', ts') (alt_starts c talts) ->
  (s <= k < s + length (alt_nodes s ts))%nat ->
  (s' <= k < s' + length (alt_nodes s' ts'))%nat ->
  (s, ts) = (s', ts').
Proof.
  induction talts as [|ts0 talts IH]; intros c s ts s' ts' k H H' Hk Hk';
    [destruct H|].
  simpl in H, H'. destruct H as [H|H], H' as [H'|H'].
  - congruence.
  - inversion H; subst. apply alt_starts_ge in H'. lia.
  - inversion H'; subst. apply alt_starts_ge in H. lia.
  - apply (IH _ _ _ _ _ k H H' Hk Hk').
Qed.

Lemma alt_starts_snd (talts : list (list Token)) :
  forall c, map snd (alt_starts c talts) = talts.
Proof.
  induction talts as [|ts talts IH]; intros c; simpl; [reflexivity|].
  rewrite IH. reflexivity.
Qed.

(** ** Chains *)

Lemma chain_edges_In (l : list gnode) (a b : gnode) :
  In (a, b) (chain_edges l) -> In a l /\ In b l.
Proof.
  induction l as [|x l IH]; [intros []|].
  destruct l as [|y l]; [intros []|].
  intros [H|H].
  - inversion H; subst. split; [left; reflexivity|right; left; reflexivity].
  - apply IH in H. split; right; tauto.
Qed.

Lemma chain_edges_mid (pre post : list gnode) (x y : gnode) :
  In (x, y) (chain_edges (pre ++ x :: y :: post)).
Proof.
  induction pre as [|p pre IH].
  - left. reflexivity.
  - cbn [app]. destruct pre as [|q pre]; right; exact IH.
Qed.

Lemma chain_edges_next (pre post : list gnode) (x y : gnode) :
  NoDup (pre ++ x :: post) ->
  In (x, y) (chain_edges (pre ++ x :: post)) ->
  exists post', post = y :: post'.
Proof.
  induction pre as [|p pre IH]; intros Hnd H.
  - cbn [app] in *. destruct post as [|y0 post]; [destruct H|].
    destruct H as [H|H].
    + inversion H; subst. exists post. reflexivity.
    + apply chain_edges_In in H. inversion Hnd; subst. tauto.
  - cbn [app] in *. inversion Hnd as [|? ? Hnotin Hnd']; subst.
    assert (Hx : In x (pre ++ x :: post)) by (apply in_elt).
    destruct pre as [|q pre]; cbn [app chain_edges] in H.
    + destruct H as [H|H]; [inversion H; subst; tauto|].
      apply (IH Hnd' H).
    + destruct H as [H|H]; [inversion H; subst; tauto|].
      apply (IH Hnd' H).
Qed.

Lemma last_app_cons (l l' : list gnode) (x d : gnode) :
  last (l ++ x :: l') d = last (x :: l') d.
Proof.
  induction l as [|a l IH]; [reflexivity|].
  change ((a :: l) ++ x :: l') with (a :: (l ++ x :: l')).
  destruct (l ++ x :: l') eqn:E.
  - destruct l; discriminate.
  - exact IH.
Qed.

Lemma last_In (l : list gnode) (x d : gnode) : In (last (x :: l) d) (x :: l).
Proof.
  revert x. induction l as [|y l IH]; intros x.
  - left. reflexivity.
  - right. apply IH.
Qed.

Lemma last_NoDup (pre post : list gnode) (x d : gnode) :
  NoDup (pre ++ x :: post) -> x = last (pre ++ x :: post) d -> post = [].
Proof.
  intros Hnd H. destruct post as [|y post]; [reflexivity|exfalso].
  rewrite last_app_cons in H.
  apply NoDup_remove_2 in Hnd. apply Hnd. apply in_or_app. right.
  rewrite H. apply (last_In post y d).
Qed.

(** ** The walks of the graph of an alternation of token branches *)

Section FlatOrr.

Variable talts : list (list Token).

Let G : RGraph := rhs_graph [flat_orr talts].

Lemma flat_edges (e : gnode * gnode) :
  In e (redges G) <->
  e = (GStart, orr_new) \/ e = (orr_end, GEnd) \/
  exists s ts, In (s, ts) (alt_starts 2 talts) /\ branch_edge orr_new orr_end s ts e.
Proof. apply (rhs_graph_flat_orr talts). Qed.

Lemma flat_rwf : rwf G.
Proof. apply (rhs_graph_flat_orr talts). Qed.

Lemma hd_alt_nodes_In (s : nat) (ts : list Token) :
  In (hd GStart (alt_nodes s ts)) (alt_nodes s ts).
Proof.
  destruct (alt_nodes s ts) eqn:E; [destruct (alt_nodes_nonempty _ _ E)|].
  left. reflexivity.
Qed.

Lemma last_alt_nodes_In (s : nat) (ts : list Token) :
  In (last (alt_nodes s ts) GStart) (alt_nodes s ts).
Proof.
  destruct (alt_nodes s ts) eqn:E; [destruct (alt_nodes_nonempty _ _ E)|].
  apply last_In.
Qed.

Lemma same_branch (s s' : nat) (ts ts' : list Token) (x : gnode) :
  In (s, ts) (alt_starts 2 talts) -> In (s', ts') (alt_starts 2 talts) ->
  In x (alt_nodes s ts) -> In x (alt_nodes s' ts') -> (s', ts') = (s, ts).
Proof.
  intros H H' Hx Hx'. apply alt_nodes_In in Hx, Hx'.
  apply (alt_starts_unique talts 2 s' ts' s ts (gid x)); tauto.
Qed.

Lemma start_step (c : gnode) : In (GStart, c) (redges G) -> c = orr_new.
Proof.
  intros H. apply flat_edges in H.
  destruct H as [H|[H|[s [ts [Hin [H|[H|H]]]]]]].
  - inversion H. reflexivity.
  - discriminate H.
  - apply chain_edges_In in H. destruct H as [H _].
    apply alt_nodes_In in H. destruct H as [_ H]. discriminate H.
  - pose proof (last_alt_nodes_In s ts) as Hl. inversion H as [[H1 H2]].
    rewrite <- H1 in Hl. apply alt_nodes_In in Hl. destruct Hl as [_ Hl].
    discriminate Hl.
  - discriminate H.
Qed.

Lemma new_step (c : gnode) :
  In (orr_new, c) (redges G) ->
  exists s ts, In (s, ts) (alt_starts 2 talts) /\ c = hd GStart (alt_nodes s ts).
Proof.
  intros H. apply flat_edges in H.
  destruct H as [H|[H|[s [ts [Hin [H|[H|H]]]]]]].
  - discriminate H.
  - discriminate H.
  - apply chain_edges_In in H. destruct H as [H _].
    apply alt_nodes_In in H. destruct H as [_ H]. discriminate H.
  - pose proof (last_alt_nodes_In s ts) as Hl. inversion H as [[H1 H2]].
    rewrite <- H1 in Hl. apply alt_nodes_In in Hl. destruct Hl as [_ Hl].
    discriminate Hl.
  - inversion H. exists s, ts. split; [assumption|reflexivity].
Qed.

Lemma endor_step (c : gnode) : In (orr_end, c) (redges G) -> c = GEnd.
Proof.
  intros H. apply flat_edges in H.
  destruct H as [H|[H|[s [ts [Hin [H|[H|H]]]]]]].
  - discriminate H.
  - inversion H. reflexivity.
  - apply chain_edges_In in H. destruct H as [H _].
    apply alt_nodes_In in H. destruct H as [_ H]. discriminate H.
  - pose proof (last_alt_nodes_In s ts) as Hl. inversion H as [[H1 H2]].
    rewrite <- H1 in Hl. apply alt_nodes_In in Hl. destruct Hl as [_ Hl].
    discriminate Hl.
  - discriminate H.
Qed.

Lemma branch_step (s : nat) (ts : list Token) (pre post : list gnode) (x c : gnode) :
  In (s, ts) (alt_starts 2 talts) ->
  alt_nodes s ts = pre ++ x :: post ->
  In (x, c) (redges G) ->
  (post = [] /\ c = orr_end) \/ (exists post', post = c :: post').
Proof.
  intros Hin HL H.
  assert (Hx : In x (alt_nodes s ts)) by (rewrite HL; apply in_elt).
  assert (Hb : is_branch_node x = true) by (apply (alt_nodes_In _ _ _ Hx)).
  pose proof (alt_nodes_NoDup s ts) as Hnd. rewrite HL in Hnd.
  apply flat_edges in H.
  destruct H as [H|[H|[s' [ts' [Hin' [H|[H|H]]]]]]].
  - inversion H; subst. discriminate Hb.
  - inversion H; subst. discriminate Hb.
  - right. pose proof (chain_edges_In _ _ _ H) as [Hx' _].
    pose proof (same_branch _ _ _ _ _ Hin Hin' Hx Hx') as Heq.
    inversion Heq; subst. rewrite HL in H.
    apply (chain_edges_next _ _ _ _ Hnd H).
  - left. inversion H as [[H1 H2]].
    pose proof (last_alt_nodes_In s' ts') as Hx'. rewrite <- H1 in Hx'.
    pose proof (same_branch _ _ _ _ _ Hin Hin' Hx Hx') as Heq.
    inversion Heq; subst s' ts'. rewrite HL in H1.
    split; [|reflexivity]. apply (last_NoDup _ _ _ _ Hnd H1).
  - inversion H; subst. discriminate Hb.
Qed.

Lemma endor_walk (p : list gnode) : rwalk G GEnd orr_end p -> p = [GEnd].
Proof.
  intros H. inversion H as [? He|? c p' He Hne Hw]; subst; [reflexivity|].
  apply endor_step in He. contradiction.
Qed.

Lemma branch_walk_inv (s : nat) (ts : list Token) :
  In (s, ts) (alt_starts 2 talts) ->
  forall post pre x p,
  alt_nodes s ts = pre ++ x :: post ->
  rwalk G GEnd x p -> p = post ++ [orr_end; GEnd].
Proof.
  intros Hin. induction post as [|y post IH]; intros pre x p HL Hw.
  - inversion Hw as [? He|? c p' He Hne Hw']; subst.
    + destruct (branch_step _ _ _ _ _ _ Hin HL He) as [[_ H]|[post' H]];
        discriminate H.
    + destruct (branch_step _ _ _ _ _ _ Hin HL He) as [[_ H]|[post' H]];
        [|discriminate H].
      subst c. apply endor_walk in Hw'. subst p'. reflexivity.
  - assert (Hy : In y (alt_nodes s ts)).
    { rewrite HL. apply in_or_app. right. right. left. reflexivity. }
    apply alt_nodes_In in Hy. destruct Hy as [_ Hy].
    inversion Hw as [? He|? c p' He Hne Hw']; subst.
    + destruct (branch_step _ _ _ _ _ _ Hin HL He) as [[H _]|[post' H]];
        [discriminate H|].
      inversion H; subst. discriminate Hy.
    + destruct (branch_step _ _ _ _ _ _ Hin HL He) as [[H _]|[post' H]];
        [discriminate H|].
      inversion H; subst. rewrite <- app_comm_cons. f_equal.
      apply (IH (pre ++ [x]) c p'); [|assumption].
      rewrite HL, <- app_assoc. reflexivity.
Qed.

Lemma start_walk_inv (p : list gnode) :
  rwalk G GEnd GStart p ->
  exists s ts, In (s, ts) (alt_starts 2 talts) /\
               p = orr_new :: alt_nodes s ts ++ [orr_end; GEnd].
Proof.
  intros H. inversion H as [? He|? c p' He Hne Hw]; subst.
  - apply start_step in He. discriminate He.
  - apply start_step in He. subst c.
    inversion Hw as [? He|? c p He Hne' Hw']; subst.
    + apply new_step in He. destruct He as [s [ts [Hin He]]].
      pose proof (hd_alt_nodes_In s ts) as Hh. rewrite <- He in Hh.
      apply alt_nodes_In in Hh. destruct Hh as [_ Hh]. discriminate Hh.
    + apply new_step in He. destruct He as [s [ts [Hin He]]].
      exists s, ts. split; [assumption|]. f_equal.
      destruct (alt_nodes s ts) as [|x post] eqn:E;
        [destruct (alt_nodes_nonempty _ _ E)|].
      simpl in He. subst c. rewrite <- app_comm_cons. f_equal.
      apply (branch_walk_inv s ts Hin post [] x p); [exact E|assumption].
Qed.

Lemma branch_walk (s : nat) (ts : list Token) :
  In (s, ts) (alt_starts 2 talts) ->
  forall post pre x,
  alt_nodes s ts = pre ++ x :: post ->
  rwalk G GEnd x (post ++ [orr_end; GEnd]).
Proof.
  intros Hin. induction post as [|y post IH]; intros pre x HL.
  - cbn [app]. apply rwalk_step.
    + apply flat_edges. right. right. exists s, ts. split; [assumption|].
      right. left. rewrite HL, last_app_cons. reflexivity.
    + discriminate.
    + apply rwalk_end. apply flat_edges. right. left. reflexivity.
  - cbn [app]. apply rwalk_step.
    + apply flat_edges. right. right. exists s, ts. split; [assumption|].
      left. rewrite HL. apply chain_edges_mid.
    + assert (Hy : In y (alt_nodes s ts)).
      { rewrite HL. apply in_or_app. right. right. left. reflexivity. }
      apply alt_nodes_In in Hy. destruct Hy as [_ Hy].
      intros ->. discriminate Hy.
    + apply (IH (pre ++ [x])). rewrite HL, <- app_assoc. reflexivity.
Qed.

Lemma start_walk (s : nat) (ts : list Token) :
  In (s, ts) (alt_starts 2 talts) ->
  rwalk G GEnd GStart (orr_new :: alt_nodes s ts ++ [orr_end; GEnd]).
Proof.
  intros Hin. apply rwalk_step.
  - apply flat_edges. left. reflexivity.
  - discriminate.
  - destruct (alt_nodes s ts) as [|x post] eqn:E;
      [destruct (alt_nodes_nonempty _ _ E)|].
    cbn [app]. apply rwalk_step.
    + apply flat_edges. right. right. exists s, ts. split; [assumption|].
      right. right. rewrite E. reflexivity.
    + assert (Hx : In x (alt_nodes s ts)) by (rewrite E; left; reflexivity).
      apply alt_nodes_In in Hx. destruct Hx as [_ Hx].
      intros ->. discriminate Hx.
    + apply (branch_walk s ts Hin post [] x). exact E.
Qed.

End FlatOrr.

(** ** The simple paths and the strings of an alternation of token branches *)

Lemma rwalk_nodes (g : RGraph) (target cur : gnode) (p : list gnode) :
  rwf g -> rwalk g target cur p ->
  In cur (rnodes g) /\ forall x, In x p -> In x (rnodes g).
Proof.
  intros Hwf H. induction H as [cur He|cur c p He Hne Hw [IH1 IH2]].
  - destruct (Hwf _ _ He) as [H1 H2]. split; [assumption|].
    intros x [<-|[]]. assumption.
  - destruct (Hwf _ _ He) as [H1 H2]. split; [assumption|].
    intros x [<-|Hx]; [assumption|apply IH2; assumption].
Qed.

Lemma branch_path_NoDup (L : list gnode) :
  NoDup L -> (forall x, In x L -> is_branch_node x = true) ->
  NoDup (GStart :: orr_new :: L ++ [orr_end; GEnd]).
Proof.
  intros Hnd Hb.
  assert (Hout : forall x, is_branch_node x = false ->
                           In x (L ++ [orr_end; GEnd]) -> x = orr_end \/ x = GEnd).
  { intros x Hx Hin. apply in_app_iff in Hin. destruct Hin as [Hin|[<-|[<-|[]]]].
    - apply Hb in Hin. congruence.
    - left. reflexivity.
    - right. reflexivity. }
  constructor.
  - intros [H|H]; [discriminate H|].
    destruct (Hout GStart eq_refl H) as [E|E]; discriminate E.
  - constructor.
    + intros H. destruct (Hout orr_new eq_refl H) as [E|E]; discriminate E.
    + clear Hout. induction L as [|a L IH].
      * simpl. constructor; [intros [H|[]]; discriminate H|].
        constructor; [intros []|constructor].
      * cbn [app]. inversion Hnd as [|? ? Hnotin Hnd']; subst. constructor.
        -- intros H. apply in_app_iff in H. destruct H as [H|[<-|[<-|[]]]].
           ++ contradiction.
           ++ specialize (Hb orr_end (or_introl eq_refl)). discriminate Hb.
           ++ specialize (Hb GEnd (or_introl eq_refl)). discriminate Hb.
        -- apply IH; [assumption|]. intros x Hx. apply Hb. right. assumption.
Qed.

Lemma path_labels_app (p q : list gnode) :
  path_labels (p ++ q) = path_labels p ++ path_labels q.
Proof. unfold path_labels. apply flat_map_app. Qed.

Lemma path_labels_tok_nodes (lvl : nat) (ts : list Token) :
  forall idx c, path_labels (tok_nodes lvl idx c ts) = map value ts.
Proof.
  induction ts as [|t ts IH]; intros idx c; [reflexivity|].
  cbn [tok_nodes map]. change (path_labels (GTok t lvl idx c :: tok_nodes lvl (S idx) (S c) ts))
    with (value t :: path_labels (tok_nodes lvl (S idx) (S c) ts)).
  rewrite IH. reflexivity.
Qed.

Lemma path_labels_alt_nodes (s : nat) (ts : list Token) :
  path_labels (alt_nodes s ts) = map value ts.
Proof.
  destruct ts as [|t ts]; [reflexivity|]. unfold alt_nodes.
  apply path_labels_tok_nodes.
Qed.

Lemma flat_orr_paths (talts : list (list Token)) (q : list gnode) :
  In q (all_simple_paths (rhs_graph [flat_orr talts]) GStart GEnd) <->
  exists s ts, In (s, ts) (alt_starts 2 talts) /\
               q = GStart :: orr_new :: alt_nodes s ts ++ [orr_end; GEnd].
Proof.
  unfold all_simple_paths. split.
  - intros H. apply simple_paths_sound in H. destruct H as [p [-> Hw]].
    apply start_walk_inv in Hw. destruct Hw as [s [ts [Hin ->]]].
    exists s, ts. split; [assumption|reflexivity].
  - intros [s [ts [Hin ->]]].
    pose proof (start_walk talts s ts Hin) as Hw.
    pose proof (branch_path_NoDup (alt_nodes s ts) (alt_nodes_NoDup s ts)
                  (fun x Hx => proj2 (alt_nodes_In s ts x Hx))) as Hnd.
    set (p := orr_new :: alt_nodes s ts ++ [orr_end; GEnd]) in *.
    assert (Hp : p = (orr_new :: alt_nodes s ts ++ [orr_end]) ++ [GEnd]).
    { unfold p.
      change (orr_new :: alt_nodes s ts ++ [orr_end; GEnd]
              = orr_new :: ((alt_nodes s ts ++ [orr_end]) ++ [GEnd])).
      rewrite <- app_assoc. reflexivity. }
    assert (Hrl : removelast p = orr_new :: alt_nodes s ts ++ [orr_end]).
    { rewrite Hp. apply removelast_last. }
    change (GStart :: p) with ([GStart] ++ p).
    apply simple_paths_complete.
    + exact Hw.
    + pose proof (rwalk_nodes _ _ _ _ (flat_rwf talts) Hw) as [Hs Hall].
      assert (Hincl : incl (GStart :: p) (rnodes (rhs_graph [flat_orr talts]))).
      { intros x [<-|Hx]; [assumption|apply Hall; assumption]. }
      pose proof (NoDup_incl_length Hnd Hincl) as Hlen.
      change (length (GStart :: p)) with (S (length p)) in Hlen. lia.
    + intros x Hx [<-|[]]. rewrite Hrl in Hx.
      inversion Hnd as [|? ? Hnotin _]; subst. apply Hnotin.
      rewrite Hp. apply in_or_app. left. assumption.
    + rewrite Hrl. inversion Hnd as [|? ? _ Hnd']; subst.
      rewrite Hp in Hnd'. apply NoDup_remove_1 in Hnd'.
      rewrite app_nil_r in Hnd'. exact Hnd'.
Qed.

(** The strings of an alternation whose branches are lists of tokens: one
    string for every branch, the values of its tokens joined by blanks. *)
Lemma flat_orr_rhs (talts : list (list Token)) (s : string) :
  In s (rhs_of_paths (rhs_graph [flat_orr talts])) <->
  exists ts, In ts talts /\ s = String.concat " " (map value ts).
Proof.
  unfold rhs_of_paths. rewrite str_set_In, in_map_iff. split.
  - intros [q [<- Hq]]. apply flat_orr_paths in Hq.
    destruct Hq as [c [ts [Hin ->]]]. exists ts. split.
    + rewrite <- (alt_starts_snd talts 2). apply in_map_iff.
      exists (c, ts). split; [reflexivity|assumption].
    + change (GStart :: orr_new :: alt_nodes c ts ++ [orr_end; GEnd])
        with ([GStart; orr_new] ++ alt_nodes c ts ++ [orr_end; GEnd]).
      rewrite !path_labels_app, path_labels_alt_nodes.
      change (path_labels [GStart; orr_new]) with (@nil string).
      change (path_labels [orr_end; GEnd]) with (@nil string).
      rewrite app_nil_r. reflexivity.
  - intros [ts [Hin ->]]. rewrite <- (alt_starts_snd talts 2) in Hin.
    apply in_map_iff in Hin. destruct Hin as [[c ts'] [Heq Hin]].
    simpl in Heq. subst ts'.
    exists (GStart :: orr_new :: alt_nodes c ts ++ [orr_end; GEnd]). split.
    + change (GStart :: orr_new :: alt_nodes c ts ++ [orr_end; GEnd])
        with ([GStart; orr_new] ++ alt_nodes c ts ++ [orr_end; GEnd]).
      rewrite !path_labels_app, path_labels_alt_nodes.
      change (path_labels [GStart; orr_new]) with (@nil string).
      change (path_labels [orr_end; GEnd]) with (@nil string).
      rewrite app_nil_r. reflexivity.
    + apply flat_orr_paths. exists c, ts. split; [assumption|reflexivity].
Qed.

(** ** The lexer *)

Lemma append_nil_r (s : string) : (s ++ "")%string = s.
Proof. induction s as [|c s IH]; simpl; [reflexivity|rewrite IH; reflexivity]. Qed.

Lemma append_assoc (a b c : string) : ((a ++ b) ++ c)%string = (a ++ b ++ c)%string.
Proof. induction a as [|x a IH]; simpl; [reflexivity|rewrite IH; reflexivity]. Qed.

Ltac string_assoc :=
  repeat (progress (cbn [append]; rewrite ?append_assoc)); reflexivity.

Lemma length_append (a b : string) :
  String.length (a ++ b) = (String.length a + String.length b)%nat.
Proof. induction a as [|x a IH]; simpl; [reflexivity|rewrite IH; reflexivity]. Qed.

Lemma all_chars_append (p : ascii -> bool) (a b : string) :
  all_chars p (a ++ b) = all_chars p a && all_chars p b.
Proof.
  induction a as [|x a IH]; simpl; [reflexivity|].
  rewrite IH, andb_assoc. reflexivity.
Qed.

Lemma all_chars_impl (p q : ascii -> bool) (s : string) :
  (forall c, p c = true -> q c = true) ->
  all_chars p s = true -> all_chars q s = true.
Proof.
  intros Hpq. induction s as [|c s IH]; simpl; [reflexivity|].
  rewrite !andb_true_iff. intros [H1 H2]. split; [apply Hpq, H1|apply IH, H2].
Qed.

Lemma keep_chars_append (p : ascii -> bool) (a b : string) :
  keep_chars p (a ++ b) = (keep_chars p a ++ keep_chars p b)%string.
Proof.
  induction a as [|x a IH]; simpl; [reflexivity|].
  destruct (p x); simpl; rewrite IH; reflexivity.
Qed.

Lemma keep_chars_none (p q : ascii -> bool) (s : string) :
  (forall c, p c = true -> q c = false) ->
  all_chars p s = true -> keep_chars q s = EmptyString.
Proof.
  intros Hpq. induction s as [|c s IH]; simpl; [reflexivity|].
  rewrite andb_true_iff. intros [H1 H2]. rewrite (Hpq _ H1). apply IH, H2.
Qed.

Lemma take_while_split (p : ascii -> bool) (s a b : string) :
  take_while p s = (a, b) ->
  s = (a ++ b)%string /\ all_chars p a = true /\ stops p b = true.
Proof.
  revert a b. induction s as [|c s IH]; intros a b H; simpl in H.
  - inversion H. repeat split.
  - destruct (p c) eqn:E.
    + destruct (take_while p s) as [a' b'] eqn:E'. inversion H; subst.
      destruct (IH a' b eq_refl) as [H1 [H2 H3]]. simpl. rewrite E, H2.
      repeat split; [rewrite H1 at 1; reflexivity|assumption].
    + inversion H; subst. simpl. rewrite E. repeat split.
Qed.

Lemma take_while_append (p : ascii -> bool) (a b : string) :
  all_chars p a = true -> stops p b = true -> take_while p (a ++ b) = (a, b).
Proof.
  intros Ha Hb. induction a as [|c a IH]; simpl in *.
  - destruct b as [|x b]; [reflexivity|]. simpl in *.
    destruct (p x); [discriminate Hb|reflexivity].
  - apply andb_true_iff in Ha. destruct Ha as [H1 H2].
    rewrite H1, (IH H2). reflexivity.
Qed.

Lemma take_while_length (p : ascii -> bool) (s a b : string) :
  take_while p s = (a, b) -> (String.length b <= String.length s)%nat.
Proof.
  intros H. apply take_while_split in H. destruct H as [-> _].
  rewrite length_append. lia.
Qed.

Lemma digits_in_alphabet (s : string) :
  all_chars is_digit s = true -> all_chars in_alphabet s = true.
Proof.
  apply all_chars_impl. intros c Hc. unfold in_alphabet, is_name_char.
  rewrite Hc, orb_true_r. reflexivity.
Qed.

Lemma blanks_in_alphabet (s : string) :
  all_chars (fun c => Ascii.eqb c " ") s = true -> all_chars in_alphabet s = true.
Proof.
  apply all_chars_impl. intros c Hc. apply Ascii.eqb_eq in Hc. subst. reflexivity.
Qed.

Lemma match_brackets_split (s text rest : string) :
  match_brackets s = Some (text, rest) ->
  s = (text ++ rest)%string /\ all_chars in_alphabet text = true.
Proof.
  unfold match_brackets. intros H.
  destruct (take_while is_digit s) as [d1 s1] eqn:E1.
  destruct d1 as [|c1 d1]; [discriminate H|].
  destruct s1 as [|x s2]; [discriminate H|].
  destruct x as [[] [] [] [] [] [] [] []]; try discriminate H.
  destruct (take_while (fun c => Ascii.eqb c " ") s2) as [sp s3] eqn:E2.
  destruct (take_while is_digit s3) as [d2 s4] eqn:E3.
  destruct d2 as [|c2 d2]; [discriminate H|].
  destruct s4 as [|y s5]; [discriminate H|].
  destruct y as [[] [] [] [] [] [] [] []]; try discriminate H.
  injection H as Ht Hr. subst text rest.
  apply take_while_split in E1, E2, E3.
  destruct E1 as [-> [A1 _]], E2 as [-> [A2 _]], E3 as [-> [A3 _]].
  split.
  - string_assoc.
  - change (String c1 (d1 ++ String "," (sp ++ String c2 (d2 ++ "}"))))%string
      with (String c1 d1 ++ "," ++ sp ++ String c2 d2 ++ "}")%string.
    rewrite !all_chars_append.
    rewrite (digits_in_alphabet _ A1), (digits_in_alphabet _ A3),
      (blanks_in_alphabet _ A2). reflexivity.
Qed.

Lemma name_chars_in_alphabet (s : string) :
  all_chars is_name_char s = true -> all_chars in_alphabet s = true.
Proof.
  apply all_chars_impl. intros c Hc. unfold in_alphabet. rewrite Hc. reflexivity.
Qed.

Lemma spaces_in_alphabet (s : string) :
  all_chars is_space s = true -> all_chars in_alphabet s = true.
Proof.
  apply all_chars_impl. intros c Hc. unfold in_alphabet.
  rewrite Hc, !orb_true_r. reflexivity.
Qed.

(** What one match says about the input: the matched text is a prefix
    of the input, it is not empty, its characters are characters of the
    notation, and its category is one of the token categories unless it
    is a run of blanks of category [SKIP]. *)
Lemma get_token_split (s ty val rest : string) :
  get_token s = Some (ty, val, rest) ->
  s = (val ++ rest)%string /\ val <> EmptyString /\
  all_chars in_alphabet val = true /\
  ((ty = "SKIP"%string /\ all_chars is_space val = true) \/
   (In ty token_types /\ String.eqb ty "SKIP" = false)).
Proof.
  unfold get_token. destruct s as [|c s]; [discriminate|].
  destruct (is_alpha c || is_underscore c) eqn:E1.
  { destruct (take_while _ s) as [a b] eqn:Et. intros H.
    injection H as <- <- <-.
    apply take_while_split in Et. destruct Et as [-> [Ha _]].
    split; [reflexivity|]. split; [discriminate|]. split.
    - cbn [all_chars]. rewrite (name_chars_in_alphabet _ Ha), andb_true_r.
      unfold in_alphabet, is_name_char.
      apply orb_true_iff in E1. destruct E1 as [->| ->];
        rewrite ?orb_true_r; reflexivity.
    - right. split; [left|]; reflexivity. }
  destruct (is_meta c) eqn:E2.
  { intros H. injection H as <- <- <-.
    split; [reflexivity|]. split; [discriminate|]. split.
    - cbn [all_chars]. unfold in_alphabet. rewrite E2, !orb_true_r. reflexivity.
    - right. split; [right; left|]; reflexivity. }
  destruct (Ascii.eqb c "(") eqn:E3.
  { apply Ascii.eqb_eq in E3. subst c. intros H. injection H as <- <- <-.
    split; [reflexivity|]. split; [discriminate|]. split; [reflexivity|].
    right. split; [right; right; left|]; reflexivity. }
  destruct (Ascii.eqb c ")") eqn:E4.
  { apply Ascii.eqb_eq in E4. subst c. intros H. injection H as <- <- <-.
    split; [reflexivity|]. split; [discriminate|]. split; [reflexivity|].
    right. split; [right; right; right; left|]; reflexivity. }
  destruct (Ascii.eqb c "-") eqn:E5.
  { apply Ascii.eqb_eq in E5. subst c. destruct s as [|x s]; [discriminate|].
    destruct x as [[] [] [] [] [] [] [] []]; try discriminate.
    intros H. injection H as <- <- <-.
    split; [reflexivity|]. split; [discriminate|]. split; [reflexivity|].
    right. split; [do 4 right; left|]; reflexivity. }
  destruct (Ascii.eqb c "{") eqn:E6.
  { apply Ascii.eqb_eq in E6. subst c.
    destruct (match_brackets s) as [[text rest']|] eqn:Em; [|discriminate].
    intros H. injection H as <- <- <-.
    apply match_brackets_split in Em. destruct Em as [-> Ha].
    split; [reflexivity|]. split; [discriminate|]. split.
    - cbn [all_chars]. rewrite Ha. reflexivity.
    - right. split; [do 5 right; left|]; reflexivity. }
  destruct (Ascii.eqb c ":") eqn:E7.
  { apply Ascii.eqb_eq in E7. subst c.
    destruct (take_while is_digit s) as [a b] eqn:Et.
    destruct a as [|d ds]; [discriminate|].
    intros H. injection H as <- <- <-.
    apply take_while_split in Et. destruct Et as [-> [Ha _]].
    split; [reflexivity|]. split; [discriminate|]. split.
    - change (String ":" (String d ds)) with (":" ++ String d ds)%string.
      rewrite all_chars_append, (digits_in_alphabet _ Ha). reflexivity.
    - right. split; [do 6 right; left|]; reflexivity. }
  destruct (is_space c) eqn:E8; [|discriminate].
  destruct (take_while is_space s) as [a b] eqn:Et. intros H.
  injection H as <- <- <-.
  apply take_while_split in Et. destruct Et as [-> [Ha _]].
  split; [reflexivity|]. split; [discriminate|].
  assert (Hs : all_chars is_space (String c a) = true).
  { cbn [all_chars]. rewrite E8, Ha. reflexivity. }
  split; [apply spaces_in_alphabet, Hs|]. left. split; [reflexivity|exact Hs].
Qed.

Lemma get_token_shorter (s ty val rest : string) :
  get_token s = Some (ty, val, rest) ->
  (String.length rest < String.length s)%nat.
Proof.
  intros H. apply get_token_split in H. destruct H as [-> [Hne _]].
  rewrite length_append. destruct val; [congruence|simpl; lia].
Qed.

(** The number of rounds does not matter once it reaches the length of
    the input: the loop never stops for lack of rounds. *)
Lemma tokenize_loop_fuel (f1 : nat) :
  forall f2 s,
  (String.length s <= f1)%nat -> (String.length s <= f2)%nat ->
  tokenize_loop f1 s = tokenize_loop f2 s.
Proof.
  induction f1 as [|f1 IH]; intros f2 s H1 H2.
  - destruct s; [destruct f2; reflexivity|simpl in H1; lia].
  - destruct s as [|c s]; [destruct f2; reflexivity|].
    destruct f2 as [|f2]; [simpl in H2; lia|].
    cbn [tokenize_loop].
    destruct (get_token (String c s)) as [[[ty val] rest]|] eqn:E; [|reflexivity].
    apply get_token_shorter in E. simpl in E, H1, H2.
    rewrite (IH f2 rest); [reflexivity|lia|lia].
Qed.

(** [tokenize], one match at a time. *)
Lemma tokenize_nil : tokenize EmptyString = Some [].
Proof. reflexivity. Qed.

Lemma tokenize_none (s : string) :
  s <> EmptyString -> get_token s = None -> tokenize s = None.
Proof.
  intros Hs H. unfold tokenize. destruct s as [|c s]; [congruence|].
  cbn [String.length tokenize_loop]. rewrite H. reflexivity.
Qed.

Lemma tokenize_step (s ty val rest : string) :
  get_token s = Some (ty, val, rest) ->
  tokenize s =
  (toks <- tokenize rest ;;
   Some (if String.eqb ty "SKIP" then toks else mkToken ty val :: toks)).
Proof.
  intros H. unfold tokenize. pose proof (get_token_shorter _ _ _ _ H) as Hlen.
  destruct s as [|c s]; [discriminate H|].
  cbn [String.length tokenize_loop]. rewrite H.
  simpl in Hlen.
  rewrite (tokenize_loop_fuel (String.length s) (String.length rest) rest);
    [reflexivity|lia|lia].
Qed.

Lemma tokenize_loop_sound (f : nat) :
  forall s toks,
  tokenize_loop f s = Some toks ->
  drop_spaces (joined toks) = drop_spaces s /\
  all_chars in_alphabet s = true /\
  Forall (fun t => In (typ t) token_types /\ value t <> EmptyString) toks.
Proof.
  induction f as [|f IH]; intros s toks H.
  - destruct s; [|discriminate H]. injection H as <-. repeat split. constructor.
  - destruct s as [|c s]; [injection H as <-; repeat split; constructor|].
    cbn [tokenize_loop] in H.
    destruct (get_token (String c s)) as [[[ty val] rest]|] eqn:E; [|discriminate H].
    destruct (tokenize_loop f rest) as [toks'|] eqn:E'; [|discriminate H].
    simpl in H. injection H as <-.
    destruct (IH _ _ E') as [H1 [H2 H3]].
    apply get_token_split in E. destruct E as [Hs [Hne [Ha Hty]]].
    rewrite Hs. unfold drop_spaces in *. rewrite keep_chars_append, all_chars_append, Ha, H2.
    destruct Hty as [[-> Hsp]|[Hin Hskip]].
    + cbn [String.eqb Ascii.eqb Bool.eqb]. simpl String.eqb.
      rewrite (keep_chars_none is_space _ val) by
        (assumption || (intros x Hx; rewrite Hx; reflexivity)).
      split; [exact H1|]. split; [reflexivity|exact H3].
    + rewrite Hskip. split; [|split; [reflexivity|]].
      * cbn [joined fold_right value]. rewrite keep_chars_append. f_equal. exact H1.
      * constructor; [|exact H3]. split; assumption.
Qed.

(** ** Numbers in decimal notation *)

Lemma string_of_uint_digits (d : Decimal.uint) :
  all_chars is_digit (NilEmpty.string_of_uint d) = true.
Proof. induction d; simpl; try rewrite IHd; reflexivity. Qed.

Lemma to_uint_nonnil (n : nat) : Nat.to_uint n <> Decimal.Nil.
Proof.
  intros H. assert (n = O) by (rewrite <- (Unsigned.of_to n), H; reflexivity).
  subst n. discriminate H.
Qed.

Lemma dec_digits (n : nat) : all_chars is_digit (dec n) = true.
Proof. apply string_of_uint_digits. Qed.

Lemma dec_nonempty (n : nat) : exists c s, dec n = String c s.
Proof.
  unfold dec. pose proof (to_uint_nonnil n) as H.
  destruct (Nat.to_uint n); [congruence| | | | | | | | | |]; simpl; eauto.
Qed.

Lemma digit_not_space (c : ascii) : is_digit c = true -> is_space c = false.
Proof.
  destruct (is_space c) eqn:E; [|reflexivity]. unfold is_space in E.
  rewrite !orb_true_iff, !Ascii.eqb_eq in E.
  destruct E as [[->| ->]| ->]; discriminate.
Qed.

Lemma rstrip_digits (s : string) : all_chars is_digit s = true -> rstrip s = s.
Proof.
  induction s as [|c s IH]; [reflexivity|]. cbn [all_chars rstrip].
  rewrite andb_true_iff. intros [Hc Hs]. rewrite (IH Hs).
  destruct s; [rewrite (digit_not_space _ Hc)|]; reflexivity.
Qed.

Lemma lstrip_digits (s : string) : all_chars is_digit s = true -> lstrip s = s.
Proof.
  unfold lstrip. destruct s as [|c s]; [reflexivity|]. cbn [all_chars take_while].
  rewrite andb_true_iff. intros [Hc _]. rewrite (digit_not_space _ Hc). reflexivity.
Qed.

(** [int] reads back the decimal notation. *)
Lemma py_int_dec (n : nat) : py_int (dec n) = Some n.
Proof.
  unfold py_int. rewrite (lstrip_digits _ (dec_digits n)), (rstrip_digits _ (dec_digits n)).
  destruct (dec_nonempty n) as [c [s E]]. rewrite E, <- E. unfold dec.
  rewrite NilEmpty.usu. simpl. rewrite Unsigned.of_to. reflexivity.
Qed.

Lemma digit_not_comma (c : ascii) : is_digit c = true -> Ascii.eqb c "," = false.
Proof.
  destruct (Ascii.eqb c ",") eqn:E; [|reflexivity].
  apply Ascii.eqb_eq in E. subst. discriminate.
Qed.

Lemma split_comma_digits (s : string) :
  all_chars is_digit s = true -> split_comma s = [s].
Proof.
  induction s as [|c s IH]; [reflexivity|]. cbn [all_chars split_comma].
  rewrite andb_true_iff. intros [Hc Hs].
  rewrite (digit_not_comma _ Hc), (IH Hs). reflexivity.
Qed.

Lemma split_comma_pair (a b : string) :
  all_chars is_digit a = true -> all_chars is_digit b = true ->
  split_comma (a ++ "," ++ b) = [a; b].
Proof.
  intros Ha Hb. induction a as [|c a IH].
  - cbn [append split_comma]. simpl. rewrite (split_comma_digits _ Hb). reflexivity.
  - cbn [all_chars] in Ha. apply andb_true_iff in Ha. destruct Ha as [Hc Ha].
    change (String c a ++ "," ++ b)%string with (String c (a ++ "," ++ b)).
    cbn [split_comma]. rewrite (digit_not_comma _ Hc), (IH Ha). reflexivity.
Qed.

Lemma substring_prefix (a b : string) :
  String.substring 0 (String.length a) (a ++ b) = a.
Proof. induction a as [|c a IH]; simpl; [destruct b|rewrite IH]; reflexivity. Qed.

Lemma strip_ends_braces (s : string) : strip_ends ("{" ++ s ++ "}") = s.
Proof.
  cbn [append strip_ends]. rewrite length_append. cbn [String.length].
  replace (String.length s + 1 - 1)%nat with (String.length s) by lia.
  apply substring_prefix.
Qed.

(** The range of a [brackets] token. *)
Lemma bracket_range_dec (m n : nat) :
  bracket_range ("{" ++ dec m ++ "," ++ dec n ++ "}") = Some (m, n).
Proof.
  unfold bracket_range.
  replace ("{" ++ dec m ++ "," ++ dec n ++ "}")%string
    with ("{" ++ (dec m ++ "," ++ dec n) ++ "}")%string by string_assoc.
  rewrite strip_ends_braces, (split_comma_pair _ _ (dec_digits m) (dec_digits n)).
  rewrite !py_int_dec. reflexivity.
Qed.

(** ** Lexing the pieces of a rule line *)

Lemma is_name_inv (c : ascii) (cs : string) :
  is_name (String c cs) = true ->
  is_alpha c || is_underscore c = true /\ all_chars is_name_char cs = true.
Proof. cbn [is_name]. apply andb_true_iff. Qed.

Lemma name_start_not (c d : ascii) :
  is_alpha c || is_underscore c = true ->
  is_alpha d || is_underscore d = false -> Ascii.eqb c d = false.
Proof.
  intros Hc Hd. destruct (Ascii.eqb c d) eqn:E; [|reflexivity].
  apply Ascii.eqb_eq in E. subst. congruence.
Qed.

Lemma name_start_not_space (c : ascii) :
  is_alpha c || is_underscore c = true -> is_space c = false.
Proof.
  intros Hc. unfold is_space.
  rewrite !(name_start_not c _ Hc) by reflexivity. reflexivity.
Qed.

Lemma name_stops_space (n rest : string) :
  is_name n = true -> stops is_space (n ++ rest) = true.
Proof.
  destruct n as [|c cs]; [discriminate|]. intros H. apply is_name_inv in H.
  cbn [append stops]. rewrite (name_start_not_space c (proj1 H)). reflexivity.
Qed.

Lemma name_eqb_char (n : string) (d : ascii) :
  is_name n = true -> is_alpha d || is_underscore d = false ->
  String.eqb n (String d EmptyString) = false.
Proof.
  destruct n as [|c cs]; [discriminate|]. intros H Hd. apply is_name_inv in H.
  cbn [String.eqb]. rewrite (name_start_not c d (proj1 H) Hd). reflexivity.
Qed.

Lemma get_token_name (n rest : string) :
  is_name n = true -> stops is_name_char rest = true ->
  get_token (n ++ rest) = Some ("token"%string, n, rest).
Proof.
  destruct n as [|c cs]; [discriminate|]. intros H Hr. apply is_name_inv in H.
  destruct H as [Hc Hcs]. cbn [append get_token]. rewrite Hc.
  change (take_while _ (cs ++ rest)) with (take_while is_name_char (cs ++ rest)).
  rewrite (take_while_append _ _ _ Hcs Hr). reflexivity.
Qed.

Lemma get_token_blank (rest : string) :
  stops is_space rest = true ->
  get_token (String " " rest) = Some ("SKIP"%string, " "%string, rest).
Proof.
  intros Hr. cbn [get_token].
  change (is_alpha " " || is_underscore " ") with false.
  change (is_meta " ") with false. cbn [Ascii.eqb Bool.eqb].
  change (is_space " ") with true. cbv iota.
  pose proof (take_while_append is_space EmptyString rest eq_refl Hr) as Ht.
  cbn [append] in Ht. rewrite Ht. reflexivity.
Qed.

Lemma match_brackets_digits (c1 c2 : ascii) (s1 s2 rest : string) :
  all_chars is_digit (String c1 s1) = true ->
  all_chars is_digit (String c2 s2) = true ->
  match_brackets (String c1 s1 ++ "," ++ String c2 s2 ++ "}" ++ rest)
  = Some ((String c1 s1 ++ "," ++ String c2 s2 ++ "}")%string, rest).
Proof.
  intros D1 D2. unfold match_brackets.
  rewrite (take_while_append is_digit (String c1 s1)
             ("," ++ String c2 s2 ++ "}" ++ rest) D1 eq_refl).
  change ("," ++ String c2 s2 ++ "}" ++ rest)%string
    with (String "," (String c2 s2 ++ String "}" rest)).
  cbv iota beta.
  assert (Ht : take_while (fun c => Ascii.eqb c " ") (String c2 s2 ++ String "}" rest)
               = (EmptyString, (String c2 s2 ++ String "}" rest)%string)).
  { cbn [append take_while]. destruct (Ascii.eqb c2 " ") eqn:E; [|reflexivity].
    apply Ascii.eqb_eq in E. subst c2. discriminate D2. }
  rewrite Ht.
  rewrite (take_while_append is_digit (String c2 s2) (String "}" rest) D2 eq_refl).
  reflexivity.
Qed.

Lemma get_token_brackets (m n : nat) (rest : string) :
  get_token ("{" ++ dec m ++ "," ++ dec n ++ "}" ++ rest)
  = Some ("brackets"%string, ("{" ++ dec m ++ "," ++ dec n ++ "}")%string, rest).
Proof.
  pose proof (dec_digits m) as D1. pose proof (dec_digits n) as D2.
  destruct (dec_nonempty m) as [c1 [s1 E1]], (dec_nonempty n) as [c2 [s2 E2]].
  rewrite E1, E2 in *.
  change ("{" ++ String c1 s1 ++ "," ++ String c2 s2 ++ "}" ++ rest)%string
    with (String "{" (String c1 s1 ++ "," ++ String c2 s2 ++ "}" ++ rest)).
  cbn [get_token].
  change (is_alpha "{" || is_underscore "{") with false.
  change (is_meta "{") with false. cbn [Ascii.eqb Bool.eqb]. cbv iota.
  rewrite (match_brackets_digits _ _ _ _ rest D1 D2). reflexivity.
Qed.

Lemma bind_some {A : Type} (o : option A) : (x <- o ;; Some x) = o.
Proof. destruct o; reflexivity. Qed.

Lemma tokenize_name (n rest : string) :
  is_name n = true -> stops is_name_char rest = true ->
  tokenize (n ++ rest)
  = (toks <- tokenize rest ;; Some (mkToken "token" n :: toks)).
Proof. intros H Hr. apply (tokenize_step _ _ _ _ (get_token_name n rest H Hr)). Qed.

Lemma tokenize_blank (rest : string) :
  stops is_space rest = true -> tokenize (String " " rest) = tokenize rest.
Proof.
  intros Hr. rewrite (tokenize_step _ _ _ _ (get_token_blank rest Hr)).
  apply bind_some.
Qed.

Lemma tokenize_arrow (rest : string) :
  tokenize ("->" ++ rest)
  = (toks <- tokenize rest ;; Some (mkToken "arrow" "->" :: toks)).
Proof. apply (tokenize_step ("->" ++ rest) "arrow" "->" rest). reflexivity. Qed.

Lemma tokenize_meta (c : ascii) (rest : string) :
  is_meta c = true ->
  tokenize (String c rest)
  = (toks <- tokenize rest ;; Some (mkToken "meta" (String c EmptyString) :: toks)).
Proof.
  intros Hc. apply (tokenize_step (String c rest) "meta" (String c EmptyString) rest).
  unfold is_meta in Hc. rewrite !orb_true_iff, !Ascii.eqb_eq in Hc.
  destruct Hc as [[[->| ->]| ->]| ->]; reflexivity.
Qed.

Lemma tokenize_brackets (m n : nat) (rest : string) :
  tokenize ("{" ++ dec m ++ "," ++ dec n ++ "}" ++ rest)
  = (toks <- tokenize rest ;;
     Some (mkToken "brackets" ("{" ++ dec m ++ "," ++ dec n ++ "}") :: toks)).
Proof. apply (tokenize_step _ _ _ _ (get_token_brackets m n rest)). Qed.

(** The head of a rule line: the left-hand side and the arrow. *)
Lemma tokenize_head (lhs body : string) :
  is_name lhs = true -> stops is_space body = true ->
  tokenize (lhs ++ " -> " ++ body)
  = (toks <- tokenize body ;;
     Some (mkToken "token" lhs :: mkToken "arrow" "->" :: toks)).
Proof.
  intros Hl Hb. rewrite (tokenize_name lhs (" -> " ++ body) Hl eq_refl).
  change (" -> " ++ body)%string with (String " " ("->" ++ String " " body)).
  rewrite (tokenize_blank ("->" ++ String " " body) eq_refl), tokenize_arrow,
    (tokenize_blank _ Hb).
  destruct (tokenize body); reflexivity.
Qed.

(** ** The graph of a plain sequence of tokens *)

Lemma NoDup_snoc {A : Type} (l : list A) (a : A) :
  NoDup l -> ~ In a l -> NoDup (l ++ [a]).
Proof.
  induction l as [|x l IH]; intros Hn Ha.
  - constructor; [intros []|constructor].
  - inversion Hn as [|? ? Hnot Hn']; subst. cbn [app]. constructor.
    + intros Hin. apply in_app_iff in Hin. destruct Hin as [Hin|[->|[]]].
      * contradiction.
      * apply Ha. left. reflexivity.
    + apply IH; [assumption|]. intros Hin. apply Ha. right. assumption.
Qed.

Section ChainGraph.

Variable t0 : Token.
Variable ts' : list Token.

Let ts : list Token := t0 :: ts'.
Let L : list gnode := tok_nodes 0 0 0 ts.
Let G : RGraph := rhs_graph (map UTok ts).

Lemma chain_graph :
  rwf G /\
  forall e, In e (redges G) <->
            In e (chain_edges L) \/ e = (GStart, hd GStart L) \/
            e = (last L GStart, GEnd).
Proof.
  unfold G, rhs_graph, fixup, fixup_list, ts. cbn [map].
  destruct (fixup_seq_tokens (t0 :: ts') 0 0 None None (mkRGraph [] []) 0)
    as [g' [Heq [Hedges Hwf]]].
  cbn [map] in Heq. rewrite Heq. cbn [tok_nodes hd_error].
  change (GTok t0 0 0 0 :: tok_nodes 0 1 1 ts') with L. split.
  - apply rwf_radd_edge, rwf_radd_edge, Hwf. intros u v [].
  - intros e. rewrite !radd_edge_edges, Hedges. cbn [opt_list app redges].
    change (tok_nodes 0 0 0 (t0 :: ts')) with L.
    change (hd GStart L) with (GTok t0 0 0 0). simpl In. tauto.
Qed.

Lemma chain_L_In (x : gnode) : In x L -> is_branch_node x = true.
Proof. intros H. apply (tok_nodes_In _ _ _ _ _ H). Qed.

Lemma chain_L_NoDup : NoDup L.
Proof. apply tok_nodes_NoDup. Qed.

Lemma chain_hd_In : In (hd GStart L) L.
Proof. left. reflexivity. Qed.

Lemma chain_last_In : In (last L GStart) L.
Proof. apply last_In. Qed.

Lemma chain_step (pre post : list gnode) (x c : gnode) :
  L = pre ++ x :: post -> In (x, c) (redges G) ->
  (post = [] /\ c = GEnd) \/ (exists post', post = c :: post').
Proof.
  intros HL H.
  assert (Hx : In x L) by (rewrite HL; apply in_elt).
  pose proof (chain_L_In x Hx) as Hb.
  pose proof chain_L_NoDup as Hnd. rewrite HL in Hnd.
  apply (proj2 chain_graph) in H. destruct H as [H|[H|H]].
  - right. rewrite HL in H. apply (chain_edges_next _ _ _ _ Hnd H).
  - inversion H; subst. discriminate Hb.
  - left. assert (H1 : x = last L GStart) by congruence.
    assert (H2 : c = GEnd) by congruence. rewrite HL in H1.
    split; [|exact H2]. apply (last_NoDup _ _ _ _ Hnd H1).
Qed.

Lemma chain_walk_inv :
  forall post pre x p,
  L = pre ++ x :: post -> rwalk G GEnd x p -> p = post ++ [GEnd].
Proof.
  induction post as [|y post IH]; intros pre x p HL Hw.
  - inversion Hw as [? He|? c p' He Hne Hw']; subst; [reflexivity|].
    destruct (chain_step _ _ _ _ HL He) as [[_ H]|[post' H]];
      [contradiction|discriminate H].
  - assert (Hy : In y L).
    { rewrite HL. apply in_or_app. right. right. left. reflexivity. }
    apply chain_L_In in Hy.
    inversion Hw as [? He|? c p' He Hne Hw']; subst.
    + destruct (chain_step _ _ _ _ HL He) as [[H _]|[post' H]];
        [discriminate H|].
      inversion H; subst. discriminate Hy.
    + destruct (chain_step _ _ _ _ HL He) as [[H _]|[post' H]];
        [discriminate H|].
      inversion H; subst. rewrite <- app_comm_cons. f_equal.
      apply (IH (pre ++ [x]) c p'); [|assumption].
      rewrite HL, <- app_assoc. reflexivity.
Qed.

Lemma chain_start_inv (p : list gnode) :
  rwalk G GEnd GStart p -> p = L ++ [GEnd].
Proof.
  assert (Hstart : forall c, In (GStart, c) (redges G) -> c = hd GStart L).
  { intros c H. apply (proj2 chain_graph) in H. destruct H as [H|[H|H]].
    - apply chain_edges_In in H. destruct H as [H _].
      apply chain_L_In in H. discriminate H.
    - congruence.
    - assert (H1 : GStart = last L GStart) by congruence.
      pose proof chain_last_In as Hl.
      rewrite <- H1 in Hl. apply chain_L_In in Hl. discriminate Hl. }
  intros H. inversion H as [? He|? c p' He Hne Hw]; subst.
  - apply Hstart in He. pose proof chain_hd_In as Hh. rewrite <- He in Hh.
    apply chain_L_In in Hh. discriminate Hh.
  - apply Hstart in He. subst c.
    change (L ++ [GEnd]) with (hd GStart L :: (tl L ++ [GEnd])). f_equal.
    apply (chain_walk_inv (tl L) [] (hd GStart L) p'); [reflexivity|assumption].
Qed.

Lemma chain_walk :
  forall post pre x, L = pre ++ x :: post -> rwalk G GEnd x (post ++ [GEnd]).
Proof.
  induction post as [|y post IH]; intros pre x HL.
  - apply rwalk_end. apply (proj2 chain_graph). right. right.
    rewrite HL, last_app_cons. reflexivity.
  - rewrite <- app_comm_cons. apply rwalk_step.
    + apply (proj2 chain_graph). left. rewrite HL. apply chain_edges_mid.
    + assert (Hy : In y L).
      { rewrite HL. apply in_or_app. right. right. left. reflexivity. }
      apply chain_L_In in Hy. intros ->. discriminate Hy.
    + apply (IH (pre ++ [x])). rewrite HL, <- app_assoc. reflexivity.
Qed.

Lemma chain_start : rwalk G GEnd GStart (L ++ [GEnd]).
Proof.
  change (L ++ [GEnd]) with (hd GStart L :: (tl L ++ [GEnd])). apply rwalk_step.
  - apply (proj2 chain_graph). right. left. reflexivity.
  - discriminate.
  - apply (chain_walk (tl L) [] (hd GStart L)). reflexivity.
Qed.

Lemma chain_path_NoDup : NoDup (GStart :: L ++ [GEnd]).
Proof.
  constructor.
  - intros H. apply in_app_iff in H. destruct H as [H|[H|[]]].
    + apply chain_L_In in H. discriminate H.
    + discriminate H.
  - apply NoDup_snoc; [apply chain_L_NoDup|].
    intros H. apply chain_L_In in H. discriminate H.
Qed.

End ChainGraph.

Lemma chain_paths (t0 : Token) (ts' : list Token) (q : list gnode) :
  In q (all_simple_paths (rhs_graph (map UTok (t0 :: ts'))) GStart GEnd) <->
  q = GStart :: tok_nodes 0 0 0 (t0 :: ts') ++ [GEnd].
Proof.
  unfold all_simple_paths. split.
  - intros H. apply simple_paths_sound in H. destruct H as [p [-> Hw]].
    apply chain_start_inv in Hw. subst p. reflexivity.
  - intros ->. pose proof (chain_start t0 ts') as Hw.
    pose proof (chain_path_NoDup t0 ts') as Hnd.
    set (L := tok_nodes 0 0 0 (t0 :: ts')) in *.
    change (GStart :: L ++ [GEnd]) with ([GStart] ++ (L ++ [GEnd])).
    apply simple_paths_complete.
    + exact Hw.
    + pose proof (rwalk_nodes _ _ _ _ (proj1 (chain_graph t0 ts')) Hw) as [Hs Hall].
      assert (Hincl : incl (GStart :: L ++ [GEnd])
                           (rnodes (rhs_graph (map UTok (t0 :: ts'))))).
      { intros x [<-|Hx]; [assumption|apply Hall; assumption]. }
      pose proof (NoDup_incl_length Hnd Hincl) as Hlen.
      change (length (GStart :: L ++ [GEnd])) with (S (length (L ++ [GEnd]))) in Hlen.
      lia.
    + rewrite removelast_last. intros x Hx [<-|[]].
      apply NoDup_cons_iff in Hnd. destruct Hnd as [Hnotin _]. apply Hnotin.
      apply in_or_app. left. assumption.
    + rewrite removelast_last. apply NoDup_cons_iff in Hnd.
      destruct Hnd as [_ Hnd'].
      apply NoDup_remove_1 in Hnd'. rewrite app_nil_r in Hnd'. exact Hnd'.
Qed.

(** The strings of a list of tokens: the one string of their values. *)
Lemma chain_rhs (ts : list Token) (s : string) :
  ts <> [] ->
  In s (rhs_of_paths (rhs_graph (map UTok ts))) <->
  s = String.concat " " (map value ts).
Proof.
  destruct ts as [|t0 ts']; [congruence|]. intros _.
  unfold rhs_of_paths. rewrite str_set_In, in_map_iff.
  assert (Hl : path_labels (GStart :: tok_nodes 0 0 0 (t0 :: ts') ++ [GEnd])
               = map value (t0 :: ts')).
  { change (GStart :: tok_nodes 0 0 0 (t0 :: ts') ++ [GEnd])
      with ([GStart] ++ tok_nodes 0 0 0 (t0 :: ts') ++ [GEnd]).
    rewrite !path_labels_app, path_labels_tok_nodes.
    change (path_labels [GStart]) with (@nil string).
    change (path_labels [GEnd]) with (@nil string).
    rewrite app_nil_r. reflexivity. }
  split.
  - intros [q [<- Hq]]. apply chain_paths in Hq. subst q. rewrite Hl. reflexivity.
  - intros ->. exists (GStart :: tok_nodes 0 0 0 (t0 :: ts') ++ [GEnd]).
    split; [rewrite Hl; reflexivity|apply chain_paths; reflexivity].
Qed.

(** ** From the tokens of a line to its expansion *)

Lemma to_tree_tokens (line lhs : string) (more : list Token) :
  tokenize line = Some (mkToken "token" lhs :: mkToken "arrow" "->" :: more) ->
  more <> [] ->
  String.eqb (typ (last more (mkToken "token" lhs))) "weight" = false ->
  to_tree line = match parse more 0 0 with
                 | Some (PEnd _ p) => Some p
                 | _ => None
                 end.
Proof.
  intros Ht Hne Hw. unfold to_tree. rewrite Ht. cbv beta iota.
  destruct more as [|t more']; [congruence|].
  set (more := t :: more') in *. cbv zeta. rewrite Hw.
  rewrite <- (app_removelast_last (mkToken "token" lhs) Hne).
  cbn [typ String.eqb Ascii.eqb Bool.eqb andb]. 
  destruct (parse more 0 0) as [[? ?|? ?]|]; reflexivity.
Qed.

Lemma name_not_open (a : string) : is_name a = true -> String.eqb a "(" = false.
Proof. intros H. apply (name_eqb_char a "(" H). reflexivity. Qed.

Lemma name_not_close (a : string) : is_name a = true -> String.eqb a ")" = false.
Proof. intros H. apply (name_eqb_char a ")" H). reflexivity. Qed.

(** [parse] on a name followed by a postfix operator. *)
Lemma parse_unit_meta (a : string) (c : ascii) (f t : nat) :
  is_name a = true ->
  In (c, (f, t)) [("?"%char, (0, 1)); ("*"%char, (0, INF)); ("+"%char, (1, INF))]%nat ->
  parse [mkToken "token" a; mkToken "meta" (String c EmptyString)] 0 0
  = Some (PEnd 1 (IExpr [IExpr [ITok (mkToken "token" a)] f t] 1 1)).
Proof.
  intros Ha Hc. unfold parse. cbn [parse_loop value typ].
  rewrite (name_not_open a Ha), (name_not_close a Ha).
  destruct Hc as [Hc|[Hc|[Hc|[]]]]; injection Hc as <- <- <-; reflexivity.
Qed.

Lemma parse_unit_brackets (a s : string) (f t : nat) :
  is_name a = true ->
  bracket_range (String "{" s) = Some (f, t) ->
  parse [mkToken "token" a; mkToken "brackets" (String "{" s)] 0 0
  = Some (PEnd 1 (IExpr [IExpr [ITok (mkToken "token" a)] f t] 1 1)).
Proof.
  intros Ha Hb. unfold parse. cbn [parse_loop value typ].
  rewrite (name_not_open a Ha), (name_not_close a Ha).
  cbn [String.eqb Ascii.eqb Bool.eqb]. cbv iota. rewrite Hb. reflexivity.
Qed.

(** [shunt] leaves a unit with a range as it is, and what [unwrap] makes
    of it. *)
Lemma expand_unit (line : string) (a : Token) (f t : nat) :
  to_tree line = Some (IExpr [IExpr [ITok a] f t] 1 1) ->
  expand_line line
  = Some (if Nat.eqb t 1
          then if Nat.eqb f 1 then [UTok a]
               else if Nat.eqb f 0 then [flat_orr [[]; [a]]] else []
          else [flat_orr (map (fun j => repeat a j) (py_range f t))]).
Proof.
  intros H. unfold expand_line. rewrite H.
  change (shunt (item_depth (IExpr [IExpr [ITok a] f t] 1 1))
                (IExpr [IExpr [ITok a] f t] 1 1))
    with (Some (IExpr [IExpr [ITok a] f t] 1 1)).
  cbv beta iota. cbn [unwrap unwrap_node app].
  destruct (Nat.eqb t 1); [destruct (Nat.eqb f 1), (Nat.eqb f 0); reflexivity|].
  unfold flat_orr. rewrite map_map.
  rewrite (map_ext (fun j => map UTok (repeat a j)) (fun j => repeat (UTok a) j))
    by (intros j; apply map_repeat).
  reflexivity.
Qed.

Lemma py_range_In (f t j : nat) : In j (py_range f t) <-> (f <= j <= t)%nat.
Proof. unfold py_range. rewrite in_seq. lia. Qed.

(** The strings of a unit with a range: one for every count of the
    range, unless the range is [f, 1] with [f] above 1, where [unwrap]
    appends nothing. *)
Lemma unit_rhs (a : Token) (f t : nat) (s : string) :
  (t <> 1 \/ f <= 1)%nat ->
  In s (rhs_of_paths (rhs_graph
          (if Nat.eqb t 1
           then if Nat.eqb f 1 then [UTok a]
                else if Nat.eqb f 0 then [flat_orr [[]; [a]]] else []
           else [flat_orr (map (fun j => repeat a j) (py_range f t))]))) <->
  exists j, (f <= j <= t)%nat /\ s = String.concat " " (repeat (value a) j).
Proof.
  intros Hft. destruct (Nat.eqb t 1) eqn:Et.
  - apply Nat.eqb_eq in Et. subst t.
    assert (Hf : f = 1%nat \/ f = O) by lia. destruct Hf as [-> | ->]; cbn [Nat.eqb].
    + rewrite (chain_rhs [a] s) by discriminate. split.
      * intros ->. exists 1%nat. split; [lia|reflexivity].
      * intros [j [Hj ->]]. assert (j = 1%nat) by lia. subst j. reflexivity.
    + rewrite flat_orr_rhs. split.
      * intros [ts [[<-|[<-|[]]] ->]].
        -- exists O. split; [lia|reflexivity].
        -- exists 1%nat. split; [lia|reflexivity].
      * intros [j [Hj ->]]. assert (Hj' : j = O \/ j = 1%nat) by lia.
        destruct Hj' as [-> | ->].
        -- exists []. split; [left; reflexivity|reflexivity].
        -- exists [a]. split; [right; left; reflexivity|reflexivity].
  - rewrite flat_orr_rhs. split.
    + intros [ts [Hin ->]]. apply in_map_iff in Hin. destruct Hin as [j [<- Hj]].
      exists j. split; [apply py_range_In, Hj|]. rewrite map_repeat. reflexivity.
    + intros [j [Hj ->]]. exists (repeat a j). split.
      * apply in_map_iff. exists j. split; [reflexivity|apply py_range_In, Hj].
      * rewrite map_repeat. reflexivity.
Qed.

Lemma rhs_unit_line (line a : string) (f t : nat) :
  to_tree line = Some (IExpr [IExpr [ITok (mkToken "token" a)] f t] 1 1) ->
  (t <> 1 \/ f <= 1)%nat ->
  exists res, get_rhs_set line = Some res /\ NoDup res /\
              forall s, In s res <->
                        exists j, (f <= j <= t)%nat /\
                                  s = String.concat " " (repeat a j).
Proof.
  intros Ht Hft. unfold get_rhs_set. rewrite (expand_unit _ _ _ _ Ht).
  eexists. split; [reflexivity|]. split; [apply str_set_NoDup|].
  intros s. apply (unit_rhs (mkToken "token" a) f t s Hft).
Qed.

Lemma to_tree_unit_meta (lhs a : string) (c : ascii) (f t : nat) :
  is_name lhs = true -> is_name a = true ->
  In (c, (f, t)) [("?"%char, (0, 1)); ("*"%char, (0, INF)); ("+"%char, (1, INF))]%nat ->
  to_tree (lhs ++ " -> " ++ a ++ String c EmptyString)
  = Some (IExpr [IExpr [ITok (mkToken "token" a)] f t] 1 1).
Proof.
  intros Hl Ha Hc.
  assert (Hm : is_meta c = true /\ is_name_char c = false).
  { destruct Hc as [Hc|[Hc|[Hc|[]]]]; injection Hc as <- _ _; split; reflexivity. }
  assert (Htok : tokenize (lhs ++ " -> " ++ a ++ String c EmptyString)
                 = Some [mkToken "token" lhs; mkToken "arrow" "->";
                         mkToken "token" a; mkToken "meta" (String c EmptyString)]).
  { rewrite (tokenize_head lhs _ Hl (name_stops_space a _ Ha)).
    rewrite (tokenize_name a (String c EmptyString) Ha)
      by (cbn [stops]; rewrite (proj2 Hm); reflexivity).
    rewrite (tokenize_meta c EmptyString (proj1 Hm)). reflexivity. }
  rewrite (to_tree_tokens _ _ _ Htok) by (discriminate || reflexivity).
  rewrite (parse_unit_meta a c f t Ha Hc). reflexivity.
Qed.

Lemma to_tree_unit_brackets (lhs a : string) (m n : nat) :
  is_name lhs = true -> is_name a = true ->
  to_tree (lhs ++ " -> " ++ a ++ "{" ++ dec m ++ "," ++ dec n ++ "}")
  = Some (IExpr [IExpr [ITok (mkToken "token" a)] m n] 1 1).
Proof.
  intros Hl Ha.
  assert (Htok : tokenize (lhs ++ " -> " ++ a ++ "{" ++ dec m ++ "," ++ dec n ++ "}")
                 = Some [mkToken "token" lhs; mkToken "arrow" "->";
                         mkToken "token" a;
                         mkToken "brackets" ("{" ++ dec m ++ "," ++ dec n ++ "}")]).
  { rewrite (tokenize_head lhs _ Hl (name_stops_space a _ Ha)).
    rewrite (tokenize_name a _ Ha) by reflexivity.
    replace ("{" ++ dec m ++ "," ++ dec n ++ "}")%string
      with ("{" ++ dec m ++ "," ++ dec n ++ "}" ++ "")%string at 1
      by (rewrite append_nil_r; reflexivity).
    rewrite (tokenize_brackets m n EmptyString). reflexivity. }
  rewrite (to_tree_tokens _ _ _ Htok) by (discriminate || reflexivity).
  change ("{" ++ dec m ++ "," ++ dec n ++ "}")%string
    with (String "{" (dec m ++ "," ++ dec n ++ "}")).
  rewrite (parse_unit_brackets a _ m n Ha (bracket_range_dec m n)). reflexivity.
Qed.

(* ================================================================== *)
(** * Further properties of the rule notation ([docapply.py]) *)
(* ================================================================== *)

Lemma spaced_blanks (b : string) (toks : list Token) (s : string) :
  all_chars is_space b = true -> spaced toks s -> spaced toks (b ++ s).
Proof.
  intros Hb H. destruct toks as [|t toks]; cbn [spaced] in *.
  - rewrite all_chars_append, Hb, H. reflexivity.
  - destruct H as [b' [rest [Hb' [-> H]]]]. exists (b ++ b')%string, rest.
    split; [rewrite all_chars_append, Hb, Hb'; reflexivity|].
    split; [rewrite append_assoc; reflexivity|exact H].
Qed.

Lemma tokenize_loop_spaced (f : nat) :
  forall s toks, tokenize_loop f s = Some toks -> spaced toks s.
Proof.
  induction f as [|f IH]; intros s toks H.
  - destruct s; [|discriminate H]. injection H as <-. reflexivity.
  - destruct s as [|c s]; [injection H as <-; reflexivity|].
    cbn [tokenize_loop] in H.
    destruct (get_token (String c s)) as [[[ty val] rest]|] eqn:E; [|discriminate H].
    destruct (tokenize_loop f rest) as [toks'|] eqn:E'; [|discriminate H].
    injection H as <-. pose proof (IH _ _ E') as Hs.
    apply get_token_split in E. destruct E as [-> [_ [_ Hty]]].
    destruct Hty as [[-> Hsp]|[_ Hskip]].
    + change (String.eqb "SKIP" "SKIP") with true. cbv iota.
      apply spaced_blanks; assumption.
    + rewrite Hskip. cbn [spaced value]. exists EmptyString, rest.
      split; [reflexivity|]. split; [reflexivity|exact Hs].
Qed.

(** X1 ([tokenize]): when [tokenize] succeeds, the input line is the
    values of the tokens in their order with nothing but runs of blanks
    (blank, newline, tab), which may be empty, before, between and after
    them: nothing but blanks is dropped and nothing is added or
    reordered.  A blank between the braces of a repetition belongs to
    the value of its token, so the values written one after the other
    equal the line up to blanks.  Every token has one of the seven
    categories, never [SKIP], and a value that is not empty. *)
Theorem tokenize_keeps_text (s : string) (toks : list Token) :
  tokenize s = Some toks ->
  spaced toks s /\
  drop_spaces (joined toks) = drop_spaces s /\
  Forall (fun t => In (typ t) token_types /\ value t <> EmptyString) toks.
Proof.
  intros H. destruct (tokenize_loop_sound _ _ _ H) as [H1 [_ H3]].
  split; [exact (tokenize_loop_spaced _ _ _ H)|]. split; assumption.
Qed.

(** X1, witness: a line with blanks between its tokens and inside its
    braces. *)
Lemma tokenize_keeps_text_witness :
  tokenize "S -> a{2, 3} | (b c)* :5"
  = Some [mkToken "token" "S"; mkToken "arrow" "->"; mkToken "token" "a";
          mkToken "brackets" "{2, 3}"; mkToken "meta" "|";
          mkToken "startbr" "("; mkToken "token" "b"; mkToken "token" "c";
          mkToken "endbr" ")"; mkToken "meta" "*"; mkToken "weight" ":5"] /\
  (spaced [mkToken "token" "S"; mkToken "arrow" "->"; mkToken "token" "a";
          mkToken "brackets" "{2, 3}"; mkToken "meta" "|";
          mkToken "startbr" "("; mkToken "token" "b"; mkToken "token" "c";
          mkToken "endbr" ")"; mkToken "meta" "*"; mkToken "weight" ":5"]
          "S -> a{2, 3} | (b c)* :5" /\
   drop_spaces (joined [mkToken "token" "S"; mkToken "arrow" "->"; mkToken "token" "a";
          mkToken "brackets" "{2, 3}"; mkToken "meta" "|";
          mkToken "startbr" "("; mkToken "token" "b"; mkToken "token" "c";
          mkToken "endbr" ")"; mkToken "meta" "*"; mkToken "weight" ":5"])
   = drop_spaces "S -> a{2, 3} | (b c)* :5" /\
   Forall (fun t => In (typ t) token_types /\ value t <> EmptyString)
          [mkToken "token" "S"; mkToken "arrow" "->"; mkToken "token" "a";
          mkToken "brackets" "{2, 3}"; mkToken "meta" "|";
          mkToken "startbr" "("; mkToken "token" "b"; mkToken "token" "c";
          mkToken "endbr" ")"; mkToken "meta" "*"; mkToken "weight" ":5"]).
Proof.
  split; [reflexivity|].
  exact (tokenize_keeps_text "S -> a{2, 3} | (b c)* :5" _ eq_refl).
Defined.

(** A letter beyond ASCII is a letter of the pattern [token]: the line
    [S -> o] with the letter U+00F5 in place of the [o]. *)
Lemma tokenize_letter_above_ascii :
  tokenize ("S -> " ++ String (ascii_of_nat 245) EmptyString)
  = Some [mkToken "token" "S"; mkToken "arrow" "->";
          mkToken "token" (String (ascii_of_nat 245) EmptyString)].
Proof. vm_compute. reflexivity. Qed.

(** X2 ([tokenize]): a line that holds an ASCII character outside the
    notation (no letter, digit, underscore or blank, and none of
    [? * + | ( ) - > { } , :]) is rejected: [tokenize] raises
    RuntimeError, wherever the character stands. *)
Theorem tokenize_rejects_foreign_character (s : string) :
  some_char (fun c => is_ascii c && negb (in_alphabet c)) s = true ->
  tokenize s = None.
Proof.
  intros H. destruct (tokenize s) as [toks|] eqn:E; [exfalso|reflexivity].
  destruct (tokenize_loop_sound _ _ _ E) as [_ [Ha _]].
  unfold some_char in H. apply negb_true_iff in H.
  rewrite (all_chars_impl in_alphabet _ s) in H; [discriminate H| |exact Ha].
  intros c Hc. rewrite Hc, andb_false_r. reflexivity.
Qed.

(** X2, witness: an exclamation mark at the end of a line. *)
Lemma tokenize_rejects_foreign_character_witness :
  some_char (fun c => is_ascii c && negb (in_alphabet c)) "X -> a b!" = true /\
  tokenize "X -> a b!" = None.
Proof.
  split; [reflexivity|].
  exact (tokenize_rejects_foreign_character "X -> a b!" eq_refl).
Defined.

(** C7: for names [lhs] and [a] and bounds [m <= n] written in decimal,
    the line [lhs -> a{m,n}] compiles ([tokenize], [parse], [shunt],
    [unwrap], [fixup], [get_rhs_set]), and its set of right-hand sides
    holds exactly the strings of [j] copies of [a] joined by blanks, one
    for every [j] from [m] to [n]. *)
Theorem bounded_repetition_counts (lhs a : string) (m n : nat) :
  is_name lhs = true -> is_name a = true -> (m <= n)%nat ->
  exists res,
    get_rhs_set (lhs ++ " -> " ++ a ++ "{" ++ dec m ++ "," ++ dec n ++ "}")
    = Some res /\
    NoDup res /\
    forall s, In s res <->
              exists j, (m <= j <= n)%nat /\ s = String.concat " " (repeat a j).
Proof.
  intros Hl Ha Hmn.
  apply (rhs_unit_line _ a m n (to_tree_unit_brackets lhs a m n Hl Ha)). lia.
Qed.

(** C7, witness: [X -> a{2,3}] gives ['a a'] and ['a a a']. *)
Lemma bounded_repetition_counts_witness :
  is_name "X" = true /\ is_name "a" = true /\ (2 <= 3)%nat /\
  get_rhs_set "X -> a{2,3}" = Some ["a a"; "a a a"]%string /\
  exists res,
    get_rhs_set ("X" ++ " -> " ++ "a" ++ "{" ++ dec 2 ++ "," ++ dec 3 ++ "}")
    = Some res /\
    NoDup res /\
    forall s, In s res <->
              exists j, (2 <= j <= 3)%nat /\ s = String.concat " " (repeat "a"%string j).
Proof.
  split; [reflexivity|]. split; [reflexivity|]. split; [lia|].
  split; [vm_compute; reflexivity|].
  exact (bounded_repetition_counts "X" "a" 2 3 eq_refl eq_refl (le_S 2 2 (le_n 2))).
Defined.

(** X4 ([parse], [unwrap], [get_rhs_set]): bounds in the wrong order are
    not rejected.  For [m > n] the line [lhs -> a{m,n}] compiles to the
    empty set of right-hand sides, except for [n = 1], where [unwrap]
    appends nothing and the set holds the empty string alone. *)
Theorem reversed_bounds (lhs a : string) (m n : nat) :
  is_name lhs = true -> is_name a = true -> (n < m)%nat ->
  get_rhs_set (lhs ++ " -> " ++ a ++ "{" ++ dec m ++ "," ++ dec n ++ "}")
  = Some (if Nat.eqb n 1 then [EmptyString] else []).
Proof.
  intros Hl Ha Hmn. pose proof (to_tree_unit_brackets lhs a m n Hl Ha) as Ht.
  destruct (Nat.eqb n 1) eqn:En.
  - apply Nat.eqb_eq in En. subst n. unfold get_rhs_set.
    rewrite (expand_unit _ _ _ _ Ht). cbn [Nat.eqb].
    destruct m as [|[|m]]; [lia|lia|]. reflexivity.
  - apply Nat.eqb_neq in En.
    destruct (rhs_unit_line _ a m n Ht (or_introl En)) as [res [-> [_ Hres]]].
    destruct res as [|s res]; [reflexivity|exfalso].
    destruct (proj1 (Hres s) (or_introl eq_refl)) as [j [Hj _]]. lia.
Qed.

(** X4, witness: [X -> a{3,2}] and [X -> a{2,1}]. *)
Lemma reversed_bounds_witness :
  (get_rhs_set "X -> a{3,2}" = Some [] /\
   get_rhs_set "X -> a{2,1}" = Some [EmptyString]) /\
  get_rhs_set ("X" ++ " -> " ++ "a" ++ "{" ++ dec 3 ++ "," ++ dec 2 ++ "}")
  = Some (if Nat.eqb 2 1 then [EmptyString] else []) /\
  get_rhs_set ("X" ++ " -> " ++ "a" ++ "{" ++ dec 2 ++ "," ++ dec 1 ++ "}")
  = Some (if Nat.eqb 1 1 then [EmptyString] else []).
Proof.
  split; [split; vm_compute; reflexivity|]. split.
  - exact (reversed_bounds "X" "a" 3 2 eq_refl eq_refl (le_n 3)).
  - exact (reversed_bounds "X" "a" 2 1 eq_refl eq_refl (le_n 2)).
Defined.

(** X5 ([parse], [unwrap], [get_rhs_set]): the postfix operators are
    ranges with the bound [INF = 10] for the unbounded ones.  For names
    [lhs] and [a], the line [lhs -> a?] gives the strings of 0 and of 1
    copy of [a], [lhs -> a*] those of 0 to 10 copies and [lhs -> a+]
    those of 1 to 10 copies; a repetition of 11 copies or more is never
    produced. *)
Theorem postfix_operator_ranges (lhs a : string) (c : ascii) (f t : nat) :
  is_name lhs = true -> is_name a = true ->
  In (c, (f, t)) [("?"%char, (0, 1)); ("*"%char, (0, INF)); ("+"%char, (1, INF))]%nat ->
  exists res,
    get_rhs_set (lhs ++ " -> " ++ a ++ String c EmptyString) = Some res /\
    NoDup res /\
    forall s, In s res <->
              exists j, (f <= j <= t)%nat /\ s = String.concat " " (repeat a j).
Proof.
  intros Hl Ha Hc.
  apply (rhs_unit_line _ a f t (to_tree_unit_meta lhs a c f t Hl Ha Hc)).
  destruct Hc as [Hc|[Hc|[Hc|[]]]]; injection Hc as _ <- <-; unfold INF; lia.
Qed.

(** X5, witness: [X -> a+]. *)
Lemma postfix_operator_ranges_witness :
  is_name "X" = true /\ is_name "a" = true /\
  In ("+"%char, (1%nat, INF))
     [("?"%char, (0, 1)); ("*"%char, (0, INF)); ("+"%char, (1, INF))]%nat /\
  option_map (@length string) (get_rhs_set "X -> a+") = Some 10%nat /\
  exists res,
    get_rhs_set ("X" ++ " -> " ++ "a" ++ String "+" EmptyString) = Some res /\
    NoDup res /\
    forall s, In s res <->
              exists j, (1 <= j <= INF)%nat /\ s = String.concat " " (repeat "a"%string j).
Proof.
  split; [reflexivity|]. split; [reflexivity|].
  split; [right; right; left; reflexivity|].
  split; [vm_compute; reflexivity|].
  exact (postfix_operator_ranges "X" "a" "+" 1 INF eq_refl eq_refl
           (or_intror (or_intror (or_introl eq_refl)))).
Defined.

(** ** Plain sequences of names *)

Lemma concat_cons2 (sep x y : string) (l : list string) :
  String.concat sep (x :: y :: l) = (x ++ sep ++ String.concat sep (y :: l))%string.
Proof. reflexivity. Qed.

Lemma tokenize_names (names : list string) (rest : string) :
  names <> [] -> Forall (fun n => is_name n = true) names ->
  stops is_name_char rest = true ->
  tokenize (String.concat " " names ++ rest)
  = (toks <- tokenize rest ;; Some (map name_token names ++ toks)).
Proof.
  intros Hne Hall Hr. induction names as [|n names IH]; [congruence|].
  inversion Hall as [|? ? Hn Hall']; subst. destruct names as [|n' names].
  - cbn [String.concat map app]. rewrite (tokenize_name n rest Hn Hr). reflexivity.
  - rewrite concat_cons2, !append_assoc.
    rewrite (tokenize_name n (" " ++ String.concat " " (n' :: names) ++ rest)
               Hn eq_refl).
    change (" " ++ String.concat " " (n' :: names) ++ rest)%string
      with (String " " (String.concat " " (n' :: names) ++ rest)).
    rewrite tokenize_blank.
    + rewrite IH by (discriminate || assumption).
      destruct (tokenize rest); reflexivity.
    + inversion Hall' as [|? ? Hn' _]; subst. destruct names as [|n'' names].
      * cbn [String.concat]. apply name_stops_space, Hn'.
      * rewrite concat_cons2, append_assoc. apply name_stops_space, Hn'.
Qed.

Lemma get_token_weight (w : nat) :
  get_token (":" ++ dec w) = Some ("weight"%string, (":" ++ dec w)%string, EmptyString).
Proof.
  pose proof (dec_digits w) as D. destruct (dec_nonempty w) as [c [s E]].
  change (":" ++ dec w)%string with (String ":" (dec w)). cbn [get_token].
  change (is_alpha ":" || is_underscore ":") with false.
  change (is_meta ":") with false. cbn [Ascii.eqb Bool.eqb]. cbv iota.
  pose proof (take_while_append is_digit (dec w) EmptyString D eq_refl) as Ht.
  rewrite append_nil_r in Ht. rewrite Ht, E. reflexivity.
Qed.

Lemma tokenize_weight (w : nat) :
  tokenize (" :" ++ dec w) = Some [mkToken "weight" (":" ++ dec w)].
Proof.
  change (" :" ++ dec w)%string with (String " " (":" ++ dec w)).
  rewrite (tokenize_blank (":" ++ dec w) eq_refl).
  rewrite (tokenize_step _ _ _ _ (get_token_weight w)). reflexivity.
Qed.

Lemma parse_loop_names (names : list string) :
  Forall (fun n => is_name n = true) names ->
  forall idx res,
  parse_loop (map name_token names) 0 0 idx res None
  = Some (PEnd (Z.of_nat (idx + length names) - 1)
               (IExpr (res ++ map unit_of names) 1 1)).
Proof.
  induction 1 as [|n names Hn Hall IH]; intros idx res.
  - cbn [map parse_loop length]. rewrite Nat.add_0_r, app_nil_r. reflexivity.
  - cbn [map parse_loop name_token value typ].
    rewrite (name_not_open n Hn), (name_not_close n Hn).
    cbn [String.eqb Ascii.eqb Bool.eqb]. cbv iota.
    change (mkToken "token" n) with (name_token n).
    rewrite IH. cbn [length]. rewrite <- app_assoc.
    replace (S idx + length names)%nat with (idx + S (length names))%nat by lia.
    reflexivity.
Qed.

Lemma item_depth_units (names : list string) :
  names <> [] -> item_depth (IExpr (map unit_of names) 1 1) = 3%nat.
Proof.
  intros Hne. cbn [item_depth]. f_equal.
  induction names as [|n names IH]; [congruence|].
  destruct names as [|n' names]; [reflexivity|].
  specialize (IH ltac:(discriminate)). simpl in *. rewrite IH. reflexivity.
Qed.

Lemma shunt_units (names : list string) :
  names <> [] ->
  shunt 3 (IExpr (map unit_of names) 1 1) = Some (IExpr (map unit_of names) 1 1).
Proof.
  intros Hne. destruct names as [|n names]; [congruence|].
  cbn [shunt map unit_of]. fold (unit_of n).
  change (is_bar (unit_of n)) with false. cbv iota.
  change (shunt 2 (unit_of n)) with (Some (unit_of n)). cbv iota beta.
  cbn [app].
  assert (H : forall news,
    (fix loop (stack news0 : list item) {struct stack} : option (list item) :=
       match stack with
       | [] => Some news0
       | i :: stack' =>
           if is_bar i
           then
            match news0 with
            | [] => None
            | _ :: _ =>
                match stack' with
                | [] => None
                | r :: stack'' =>
                    r' <- shunt 2 r ;;
                    loop stack''
                      (removelast news0 ++
                       [IOr (last news0 (ITok (mkToken EmptyString EmptyString))) r'])
                end
            end
           else i' <- shunt 2 i ;; loop stack' (news0 ++ [i'])
       end) (map unit_of names) news = Some (news ++ map unit_of names)).
  { clear Hne. induction names as [|n' names IH]; intros news.
    - rewrite app_nil_r. reflexivity.
    - cbn [map]. change (is_bar (unit_of n')) with false. cbv iota.
      change (shunt 2 (unit_of n')) with (Some (unit_of n')). cbv iota beta.
      rewrite IH, <- app_assoc. reflexivity. }
  rewrite H. reflexivity.
Qed.

Lemma unwrap_units (names : list string) :
  unwrap (IExpr (map unit_of names) 1 1) = Some (map UTok (map name_token names)).
Proof.
  cbn [unwrap]. induction names as [|n names IH]; [reflexivity|].
  cbn [map]. rewrite IH. reflexivity.
Qed.

Lemma to_tree_tokens_weight (line lhs v : string) (body : list Token) :
  tokenize line
  = Some (mkToken "token" lhs :: mkToken "arrow" "->"
          :: (body ++ [mkToken "weight" v])) ->
  to_tree line = match parse body 0 0 with
                 | Some (PEnd _ p) => Some p
                 | _ => None
                 end.
Proof.
  intros Ht. unfold to_tree. rewrite Ht. clear Ht. cbv beta iota.
  destruct (body ++ [mkToken "weight" v]) as [|t more'] eqn:E.
  { destruct body; discriminate E. }
  rewrite <- E. clear t more' E. cbv zeta. rewrite last_last, removelast_last.
  cbn [typ String.eqb Ascii.eqb Bool.eqb andb]. cbv iota.
  destruct (parse body 0 0) as [[? ?|? ?]|]; reflexivity.
Qed.

Lemma to_tree_names (lhs : string) (names : list string) (suffix : string)
    (wt : list Token) :
  is_name lhs = true -> names <> [] ->
  Forall (fun n => is_name n = true) names ->
  stops is_name_char suffix = true ->
  tokenize suffix = Some wt ->
  (wt = [] \/ exists v, wt = [mkToken "weight" v]) ->
  to_tree (lhs ++ " -> " ++ String.concat " " names ++ suffix)
  = Some (IExpr (map unit_of names) 1 1).
Proof.
  intros Hl Hne Hall Hs Hw Hwt.
  assert (Hsp : stops is_space (String.concat " " names ++ suffix) = true).
  { destruct names as [|n [|n' names]]; [congruence| |];
      inversion Hall as [|? ? Hn _]; subst.
    - apply name_stops_space, Hn.
    - rewrite concat_cons2, append_assoc. apply name_stops_space, Hn. }
  assert (Htok : tokenize (lhs ++ " -> " ++ String.concat " " names ++ suffix)
                 = Some (mkToken "token" lhs :: mkToken "arrow" "->"
                         :: (map name_token names ++ wt))).
  { rewrite (tokenize_head lhs _ Hl Hsp), (tokenize_names names suffix Hne Hall Hs), Hw.
    reflexivity. }
  destruct Hwt as [-> | [v ->]].
  - rewrite app_nil_r in Htok. rewrite (to_tree_tokens _ _ _ Htok).
    + unfold parse. rewrite (parse_loop_names names Hall). reflexivity.
    + destruct names; [congruence|discriminate].
    + clear - Hne. induction names as [|n names IH]; [congruence|].
      destruct names as [|n' names]; [reflexivity|]. apply IH. discriminate.
  - rewrite (to_tree_tokens_weight _ _ _ _ Htok).
    unfold parse. rewrite (parse_loop_names names Hall). reflexivity.
Qed.

Lemma singleton_set (l : list string) (x : string) :
  NoDup l -> (forall s, In s l <-> s = x) -> l = [x].
Proof.
  intros Hnd H. destruct l as [|a l].
  - destruct (proj2 (H x) eq_refl).
  - assert (a = x) by (apply H; left; reflexivity). subst a.
    destruct l as [|b l]; [reflexivity|exfalso].
    assert (b = x) by (apply H; right; left; reflexivity). subst b.
    inversion Hnd as [|? ? Hnot _]. apply Hnot. left. reflexivity.
Qed.

Lemma rhs_names (line : string) (names : list string) :
  names <> [] ->
  to_tree line = Some (IExpr (map unit_of names) 1 1) ->
  get_rhs_set line = Some [String.concat " " names].
Proof.
  intros Hne Ht. unfold get_rhs_set, expand_line. rewrite Ht.
  rewrite (item_depth_units names Hne), (shunt_units names Hne), unwrap_units.
  f_equal. apply singleton_set; [apply str_set_NoDup|].
  intros s. rewrite chain_rhs by (destruct names; [congruence|discriminate]).
  rewrite !map_map. cbn [name_token value]. rewrite map_id. reflexivity.
Qed.

(** X6 ([get_rhs_set], [to_tree], [parse]): a rule whose right-hand side
    is a plain sequence of names separated by single blanks compiles to
    exactly one right-hand side, the sequence itself; a weight [:w] at
    the end of the line is no part of it and changes nothing. *)
Theorem plain_sequence_one_rhs (lhs : string) (names : list string) (w : nat) :
  is_name lhs = true -> names <> [] ->
  Forall (fun n => is_name n = true) names ->
  get_rhs_set (lhs ++ " -> " ++ String.concat " " names)
  = Some [String.concat " " names] /\
  get_rhs_set (lhs ++ " -> " ++ String.concat " " names ++ " :" ++ dec w)
  = Some [String.concat " " names].
Proof.
  intros Hl Hne Hall. split.
  - apply (rhs_names _ names Hne).
    rewrite <- (append_nil_r (String.concat " " names)).
    apply (to_tree_names lhs names EmptyString [] Hl Hne Hall eq_refl eq_refl).
    left. reflexivity.
  - apply (rhs_names _ names Hne).
    apply (to_tree_names lhs names (" :" ++ dec w) [mkToken "weight" (":" ++ dec w)]
             Hl Hne Hall eq_refl (tokenize_weight w)).
    right. eexists. reflexivity.
Qed.

(** X6, witness: [S -> NOUN VERB NOUN] with and without the weight 5. *)
Lemma plain_sequence_one_rhs_witness :
  is_name "S" = true /\
  Forall (fun n => is_name n = true) ["NOUN"; "VERB"; "NOUN"]%string /\
  get_rhs_set ("S" ++ " -> " ++ String.concat " " ["NOUN"; "VERB"; "NOUN"]%string)
  = Some [String.concat " " ["NOUN"; "VERB"; "NOUN"]%string] /\
  get_rhs_set ("S" ++ " -> " ++ String.concat " " ["NOUN"; "VERB"; "NOUN"]%string
               ++ " :" ++ dec 5)
  = Some [String.concat " " ["NOUN"; "VERB"; "NOUN"]%string].
Proof.
  assert (Hall : Forall (fun n => is_name n = true) ["NOUN"; "VERB"; "NOUN"]%string)
    by (repeat constructor).
  split; [reflexivity|]. split; [exact Hall|].
  apply (plain_sequence_one_rhs "S" ["NOUN"; "VERB"; "NOUN"]%string 5 eq_refl).
  - discriminate.
  - exact Hall.
Defined.

(** ** Alternation of two names *)

Lemma to_tree_alternation (lhs a b : string) :
  is_name lhs = true -> is_name a = true -> is_name b = true ->
  to_tree (lhs ++ " -> " ++ a ++ " | " ++ b)
  = Some (IExpr [unit_of a; ITok (mkToken "meta" "|"); unit_of b] 1 1).
Proof.
  intros Hl Ha Hb.
  assert (Hbs : stops is_space b = true).
  { rewrite <- (append_nil_r b). apply name_stops_space, Hb. }
  assert (Htok : tokenize (lhs ++ " -> " ++ a ++ " | " ++ b)
                 = Some [mkToken "token" lhs; mkToken "arrow" "->";
                         name_token a; mkToken "meta" "|"; name_token b]).
  { rewrite (tokenize_head lhs _ Hl (name_stops_space a _ Ha)).
    rewrite (tokenize_name a (" | " ++ b) Ha eq_refl).
    change (" | " ++ b)%string with (String " " (String "|" (String " " b))).
    rewrite (tokenize_blank (String "|" (String " " b)) eq_refl).
    rewrite (tokenize_meta "|" (String " " b) eq_refl).
    rewrite (tokenize_blank b Hbs).
    rewrite <- (append_nil_r b) at 1.
    rewrite (tokenize_name b EmptyString Hb eq_refl). reflexivity. }
  rewrite (to_tree_tokens _ _ _ Htok) by (discriminate || reflexivity).
  unfold parse. cbn [parse_loop name_token value typ].
  rewrite (name_not_open a Ha), (name_not_close a Ha),
    (name_not_open b Hb), (name_not_close b Hb).
  reflexivity.
Qed.

(** X7 ([get_rhs_set], [shunt], [unwrap], [fixup]): for names [lhs], [a]
    and [b] the line [lhs -> a | b] compiles to the two right-hand sides
    [a] and [b] and nothing else. *)
Theorem alternation_two_names (lhs a b : string) :
  is_name lhs = true -> is_name a = true -> is_name b = true ->
  exists res,
    get_rhs_set (lhs ++ " -> " ++ a ++ " | " ++ b) = Some res /\
    NoDup res /\
    forall s, In s res <-> s = a \/ s = b.
Proof.
  intros Hl Ha Hb. unfold get_rhs_set, expand_line.
  rewrite (to_tree_alternation lhs a b Hl Ha Hb).
  change (item_depth (IExpr [unit_of a; ITok (mkToken "meta" "|"); unit_of b] 1 1))
    with 3%nat.
  change (shunt 3 (IExpr [unit_of a; ITok (mkToken "meta" "|"); unit_of b] 1 1))
    with (Some (IExpr [IOr (unit_of a) (unit_of b)] 1 1)).
  cbv beta iota.
  change (unwrap (IExpr [IOr (unit_of a) (unit_of b)] 1 1))
    with (Some [flat_orr [[name_token a]; [name_token b]]]).
  cbv beta iota. eexists. split; [reflexivity|]. split; [apply str_set_NoDup|].
  intros s. rewrite flat_orr_rhs. split.
  - intros [ts [[<-|[<-|[]]] ->]]; [left|right]; reflexivity.
  - intros [-> | ->].
    + exists [name_token a]. split; [left; reflexivity|reflexivity].
    + exists [name_token b]. split; [right; left; reflexivity|reflexivity].
Qed.

(** X7, witness: [X -> a | b]. *)
Lemma alternation_two_names_witness :
  (is_name "X" = true /\ is_name "a" = true /\ is_name "b" = true) /\
  get_rhs_set "X -> a | b" = Some ["a"; "b"]%string /\
  exists res,
    get_rhs_set ("X" ++ " -> " ++ "a" ++ " | " ++ "b") = Some res /\
    NoDup res /\
    forall s, In s res <-> s = "a"%string \/ s = "b"%string.
Proof.
  split; [repeat split|]. split; [vm_compute; reflexivity|].
  exact (alternation_two_names "X" "a" "b" eq_refl eq_refl eq_refl).
Defined.

(** ** A right-hand side that starts with a repetition operator *)

Lemma parse_leading_operator (c : ascii) (X : list Token) :
  In c ["?"; "*"; "+"]%char ->
  parse (mkToken "meta" (String c EmptyString) :: X) 0 0 = None.
Proof. intros [<-|[<-|[<-|[]]]]; reflexivity. Qed.

Lemma to_tree_leading (line lhs : string) (t : Token) (toks : list Token) :
  tokenize line = Some (mkToken "token" lhs :: mkToken "arrow" "->" :: t :: toks) ->
  String.eqb (typ t) "weight" = false ->
  (forall X, parse (t :: X) 0 0 = None) ->
  to_tree line = None.
Proof.
  intros Ht Hw Hp. unfold to_tree. rewrite Ht. clear Ht. cbv beta iota zeta.
  assert (Hrest : exists X,
            (if String.eqb (typ (last (t :: toks) (mkToken "token" lhs))) "weight"
             then removelast (t :: toks)
             else removelast (t :: toks) ++ [last (t :: toks) (mkToken "token" lhs)])
            = t :: X).
  { destruct (String.eqb (typ (last (t :: toks) (mkToken "token" lhs))) "weight")
      eqn:E.
    - destruct toks as [|t' toks]; [simpl in E; congruence|].
      eexists. reflexivity.
    - rewrite <- (app_removelast_last (mkToken "token" lhs)) by discriminate.
      eexists. reflexivity. }
  destruct Hrest as [X ->]. rewrite Hp.
  destruct (_ && _); reflexivity.
Qed.

(** X8 ([parse], [to_tree], [get_rhs_set]): a right-hand side that starts
    with one of the operators [?], [*], [+] is rejected whatever follows
    it: [parse] reads the last element of an empty list (IndexError), or
    the rest of the line has a character that [tokenize] rejects. *)
Theorem leading_operator_rejected (lhs rest : string) (c : ascii) :
  is_name lhs = true -> In c ["?"; "*"; "+"]%char ->
  get_rhs_set (lhs ++ " -> " ++ String c rest) = None.
Proof.
  intros Hl Hc.
  assert (Hm : is_meta c = true /\ is_space c = false).
  { destruct Hc as [<-|[<-|[<-|[]]]]; split; reflexivity. }
  assert (Htok : tokenize (lhs ++ " -> " ++ String c rest)
                 = (toks <- tokenize rest ;;
                    Some (mkToken "token" lhs :: mkToken "arrow" "->"
                          :: mkToken "meta" (String c EmptyString) :: toks))).
  { rewrite (tokenize_head lhs (String c rest) Hl)
      by (cbn [stops]; rewrite (proj2 Hm); reflexivity).
    rewrite (tokenize_meta c rest (proj1 Hm)).
    destruct (tokenize rest); reflexivity. }
  unfold get_rhs_set, expand_line.
  destruct (tokenize rest) as [toks|] eqn:E.
  - rewrite (to_tree_leading _ lhs _ toks Htok eq_refl
               (fun X => parse_leading_operator c X Hc)).
    reflexivity.
  - unfold to_tree. rewrite Htok. reflexivity.
Qed.

(** X8, witness: [X -> + a b]. *)
Lemma leading_operator_rejected_witness :
  is_name "X" = true /\ In "+"%char ["?"; "*"; "+"]%char /\
  get_rhs_set ("X" ++ " -> " ++ String "+" " a b") = None.
Proof.
  split; [reflexivity|]. split; [right; right; left; reflexivity|].
  exact (leading_operator_rejected "X" " a b" "+" eq_refl
           (or_intror (or_intror (or_introl eq_refl)))).
Defined.

(* ================================================================== *)
(** * Further properties of the graph pipeline ([trees.py]) *)
(* ================================================================== *)

(** ** The dense mapping and its reverse *)

Lemma enumerate_get (l : list Z) :
  NoDup l ->
  forall k x i,
  dict_get (enumerate_from k l) x = Some i <->
  (k <= i)%nat /\ nth_error l (i - k) = Some x.
Proof.
  induction 1 as [|y l Hnot Hnd IH]; intros k x i.
  - simpl. split; [discriminate|]. intros [_ H]. destruct (i - k)%nat; discriminate H.
  - cbn [enumerate_from dict_get]. destruct (Z.eqb x y) eqn:E.
    + apply Z.eqb_eq in E. subst y. split.
      * intros H. injection H as <-. rewrite Nat.sub_diag. split; [lia|reflexivity].
      * intros [Hk H]. destruct (i - k)%nat as [|m] eqn:Em.
        -- f_equal. lia.
        -- simpl in H. apply nth_error_In in H. contradiction.
    + apply Z.eqb_neq in E. rewrite IH. split.
      * intros [Hk H]. split; [lia|].
        replace (i - k)%nat with (S (i - S k)) by lia. exact H.
      * intros [Hk H]. destruct (i - k)%nat as [|m] eqn:Em.
        -- simpl in H. congruence.
        -- simpl in H. split; [lia|]. replace (i - S k)%nat with m by lia. exact H.
Qed.

Lemma sorted_NoDup (l : list Z) : StronglySorted Z.lt l -> NoDup l.
Proof.
  induction 1 as [|x l Hs IH Hall]; constructor; [|assumption].
  intros Hin. rewrite Forall_forall in Hall. specialize (Hall x Hin). lia.
Qed.

Lemma sorted_nth_lt (l : list Z) :
  StronglySorted Z.lt l ->
  forall i j x y,
  nth_error l i = Some x -> nth_error l j = Some y -> (i < j)%nat -> x < y.
Proof.
  induction 1 as [|z l Hs IH Hall]; intros i j x y Hi Hj Hij.
  - destruct i; discriminate Hi.
  - destruct j as [|j]; [lia|]. simpl in Hj. destruct i as [|i].
    + simpl in Hi. injection Hi as <-. rewrite Forall_forall in Hall.
      apply Hall. apply (nth_error_In _ _ Hj).
    + simpl in Hi. apply (IH i j x y Hi Hj). lia.
Qed.

(** X9 ([get_dense_mapping]): the two results are inverse to each other
    and keep the order.  Every start or end offset of the document has
    an index in [mapping], and [reverse_mapping] at that index is the
    offset; every position of [reverse_mapping] is the index of the
    offset it holds; and an offset is smaller than another exactly when
    its index is. *)
Theorem dense_mapping_round_trip (rows : Document) :
  (forall x, In x (doc_starts rows ++ doc_ends rows) ->
     exists i, dict_get (fst (get_dense_mapping rows)) x = Some i /\
               nth_error (snd (get_dense_mapping rows)) i = Some x) /\
  (forall i x, nth_error (snd (get_dense_mapping rows)) i = Some x ->
     dict_get (fst (get_dense_mapping rows)) x = Some i /\
     In x (doc_starts rows ++ doc_ends rows)) /\
  (forall x y i j,
     dict_get (fst (get_dense_mapping rows)) x = Some i ->
     dict_get (fst (get_dense_mapping rows)) y = Some j ->
     (x < y <-> (i < j)%nat)).
Proof.
  unfold get_dense_mapping. cbn [fst snd].
  set (keys := sorted_set (doc_starts rows ++ doc_ends rows)).
  pose proof (sorted_set_sorted (doc_starts rows ++ doc_ends rows)) as Hs.
  fold keys in Hs. pose proof (sorted_NoDup keys Hs) as Hnd.
  assert (Hget : forall x i, dict_get (enumerate_from 0 keys) x = Some i <->
                             nth_error keys i = Some x).
  { intros x i. rewrite (enumerate_get keys Hnd 0 x i), Nat.sub_0_r.
    split; [tauto|]. intros H. split; [lia|exact H]. }
  split; [|split].
  - intros x Hx. apply (proj2 (sorted_set_In x _)) in Hx. fold keys in Hx.
    apply In_nth_error in Hx. destruct Hx as [i Hi]. exists i.
    split; [apply Hget, Hi|exact Hi].
  - intros i x Hi. split; [apply Hget, Hi|].
    apply nth_error_In in Hi. unfold keys in Hi.
    apply (proj1 (sorted_set_In x _)) in Hi. exact Hi.
  - intros x y i j Hx Hy. apply Hget in Hx, Hy. split.
    + intros Hlt. destruct (Nat.lt_trichotomy i j) as [H|[H|H]]; [exact H| |].
      * subst j. rewrite Hx in Hy. injection Hy as ->. lia.
      * pose proof (sorted_nth_lt keys Hs j i y x Hy Hx H). lia.
    + apply (sorted_nth_lt keys Hs i j x y Hx Hy).
Qed.

(** ** Spans that are empty or reversed *)

Lemma option_all_none {A B : Type} (f : A -> option B) (l : list A) (x : A) :
  In x l -> f x = None -> option_all (map f l) = None.
Proof.
  intros Hin Hx. induction l as [|y l IH]; [destruct Hin|].
  cbn [map option_all]. destruct Hin as [->|Hin].
  - rewrite Hx. reflexivity.
  - rewrite (IH Hin). destruct (f y); reflexivity.
Qed.

(** An empty or reversed span leaves a row of the dense table without a
    true entry, and [wh[0]] raises IndexError. *)
Lemma get_dense_matrix_none (rows : Document) :
  spans_nonempty rows = false -> get_dense_matrix rows = None.
Proof.
  intros H. unfold spans_nonempty in H.
  assert (Hbad : exists ab, In ab (doc_spans rows) /\ snd ab <= fst ab).
  { induction (doc_spans rows) as [|ab l IH]; [discriminate H|].
    cbn [forallb] in H. apply andb_false_iff in H. destruct H as [H|H].
    - exists ab. split; [left; reflexivity|]. apply Z.ltb_ge in H. exact H.
    - destruct (IH H) as [ab' [Hin Hle]]. exists ab'. split; [right|]; assumption. }
  destruct Hbad as [[a b] [Hin Hle]]. cbn [fst snd] in Hle.
  unfold get_dense_matrix. rewrite dense_rows_spec. cbv zeta.
  set (keys := sorted_set (doc_starts rows ++ doc_ends rows)).
  rewrite map_map.
  rewrite (option_all_none _ (doc_spans rows) (a, b) Hin); [reflexivity|].
  cbn [fst snd]. destruct (doc_spans_keys rows a b Hin) as [Ha Hb].
  fold keys in Ha, Hb.
  rewrite np_where_slice.
  + pose proof (rank_le keys b a Hle) as Hr.
    replace (rank keys b - rank keys a)%nat with O by lia. reflexivity.
  + pose proof (rank_lt_length keys b Hb). lia.
Qed.

(** X10 ([get_dense_matrix]): the function raises (IndexError on the
    empty index array of [np.where]) exactly when some span of the
    document is empty or reversed, [start >= end]; on all other
    documents, the empty one among them, it returns a matrix. *)
Theorem get_dense_matrix_fails_on_empty_span (rows : Document) :
  get_dense_matrix rows = None <-> spans_nonempty rows = false.
Proof.
  split.
  - intros H. destruct (spans_nonempty rows) eqn:E; [|reflexivity].
    rewrite (get_dense_matrix_spec rows E) in H. discriminate H.
  - apply get_dense_matrix_none.
Qed.

(** ** What [remove_shortcuts] removes *)

(** X12 ([remove_shortcuts]): on a graph as networkx keeps it (distinct
    node keys, edges between nodes of the graph) the function never
    raises, leaves the nodes alone, and removes exactly the edges
    [u -> v] that are doubled by a two-edge path [u -> x -> v] over a
    node [x] other than [v]: all other edges stay, and none is added.
    All removals are decided on the graph as it was at the call. *)
Theorem remove_shortcuts_removes_two_step_detours (g : DiGraph) :
  wf_graph g = true ->
  exists g',
    remove_shortcuts g = Some g' /\
    nodes g' = nodes g /\
    forall u v, has_edge g' u v = has_edge g u v && negb (is_shortcut g u v).
Proof.
  intros Hwf. rewrite (remove_shortcuts_spec g Hwf). eexists.
  split; [reflexivity|]. split; [reflexivity|].
  intros u v. apply bool_eq_iff. rewrite andb_true_iff, negb_true_iff, !has_edge_iff.
  cbn [edges]. split.
  - intros [e [Hin [Hu Hv]]]. apply filter_In in Hin. destruct Hin as [Hin Hs].
    apply negb_true_iff in Hs. split; [exists e; auto|].
    rewrite (is_shortcut_respects g u (fst e) v (snd e) Hu Hv). exact Hs.
  - intros [[e [Hin [Hu Hv]]] Hs]. exists e. split; [|auto].
    apply filter_In. split; [exact Hin|]. apply negb_true_iff.
    rewrite <- (is_shortcut_respects g u (fst e) v (snd e) Hu Hv). exact Hs.
Qed.

(** X12, witness: the graph of the example before its first reduction;
    the edge NOUN@(0,5) -> NOUN@(9,14) goes, START -> END stays. *)
Lemma remove_shortcuts_removes_two_step_detours_witness :
  wf_graph example_raw_graph = true /\
  (is_shortcut example_raw_graph noun_0_5 noun_9_14 = true /\
   is_shortcut example_raw_graph START END = false) /\
  exists g',
    remove_shortcuts example_raw_graph = Some g' /\
    nodes g' = nodes example_raw_graph /\
    forall u v, has_edge g' u v
                = has_edge example_raw_graph u v
                  && negb (is_shortcut example_raw_graph u v).
Proof.
  split; [reflexivity|]. split; [split; reflexivity|].
  exact (remove_shortcuts_removes_two_step_detours example_raw_graph eq_refl).
Defined.

(** ** The symbols of a grammar *)

Lemma order_loop_inv (D0 : list (string * list string)) (n fuel : nat) :
  NoDup (map fst D0) ->
  forall deps order o,
  order_inv D0 deps order ->
  order_loop fuel n deps order = Some o ->
  length o = n /\ NoDup o /\ incl o (map fst D0).
Proof.
  intros Hk. induction fuel as [|fuel IH]; intros deps order o Hinv E;
    cbn [order_loop] in E.
  - destruct (Nat.eqb (length order) n) eqn:El; [|discriminate E].
    injection E as <-. split; [apply Nat.eqb_eq, El|].
    destruct Hinv as [_ [H1 [H2 _]]]. split; assumption.
  - destruct (Nat.eqb (length order) n) eqn:El.
    + injection E as <-. split; [apply Nat.eqb_eq, El|].
      destruct Hinv as [_ [H1 [H2 _]]]. split; assumption.
    + destruct (order_pass deps [] order) as [deps' order'] eqn:Ep.
      apply (IH deps' order' o); [|exact E].
      apply (order_inv_pass D0 Hk deps deps' order order' Hinv Ep).
Qed.

(** X13 ([Grammar.__init__]): whenever a grammar is built, its terminals
    and nonterminals split the symbols of the rules: the nonterminals are
    the left-hand sides, the terminals are the right-hand-side symbols
    that are no left-hand side, no symbol is both, neither set lists a
    symbol twice, and the application order lists every nonterminal
    exactly once and nothing else. *)
Theorem grammar_symbols_split (fuel : nat) (start : string) (rs : list Rule)
    (g : Grammar) :
  Grammar_init fuel start rs = Some g ->
  (forall x, In x (nonterminals g) <-> exists r, In r rs /\ lhs r = x) /\
  (forall x, In x (terminals g) <->
             (exists r, In r rs /\ In x (rhs r)) /\ ~ In x (nonterminals g)) /\
  NoDup (nonterminals g) /\ NoDup (terminals g) /\
  NoDup (nonterminal_dependency_order g) /\
  (forall x, In x (nonterminal_dependency_order g) <-> In x (nonterminals g)).
Proof.
  unfold Grammar_init, get_rule_application_order. intros H.
  destruct (order_loop fuel _ _ _) as [order|] eqn:E; [|discriminate H].
  injection H as <-. cbn [nonterminals terminals nonterminal_dependency_order].
  assert (Hn : forall x, In x (Grammar_nonterminals rs) <->
                         exists r, In r rs /\ lhs r = x).
  { intros x. unfold Grammar_nonterminals. rewrite str_set_In, in_map_iff.
    split; intros [r [H1 H2]]; exists r; tauto. }
  assert (Hnd : NoDup (Grammar_nonterminals rs)) by apply str_set_NoDup.
  split; [exact Hn|]. split; [|split; [exact Hnd|split]].
  - intros x. rewrite terminals_In, in_flat_map.
    unfold Grammar_nonterminals. rewrite str_set_In. tauto.
  - unfold Grammar_terminals, str_diff. apply NoDup_filter, str_set_NoDup.
  - destruct (order_loop_inv (rules_deps rs) _ fuel (rules_deps_NoDup rs)
                _ _ _ (order_inv_init _) E) as [Hlen [Ho Hincl]].
    rewrite rules_deps_keys in Hincl. split; [exact Ho|].
    intros x. split; [apply Hincl|].
    apply (NoDup_length_incl Ho); [lia|exact Hincl].
Qed.

(** X13, witness: the grammar of the end-to-end example. *)
Lemma grammar_symbols_split_witness :
  Grammar_init 2 "S" [example_rule] = Some example_grammar /\
  (forall x, In x (nonterminals example_grammar) <->
             exists r, In r [example_rule] /\ lhs r = x) /\
  (forall x, In x (terminals example_grammar) <->
             (exists r, In r [example_rule] /\ In x (rhs r)) /\
             ~ In x (nonterminals example_grammar)) /\
  NoDup (nonterminals example_grammar) /\ NoDup (terminals example_grammar) /\
  NoDup (nonterminal_dependency_order example_grammar) /\
  (forall x, In x (nonterminal_dependency_order example_grammar) <->
             In x (nonterminals example_grammar)).
Proof.
  split; [reflexivity|].
  exact (grammar_symbols_split 2 "S" [example_rule] example_grammar eq_refl).
Defined.

(** ** Looking a rule up *)

Lemma find_ext {A : Type} (f h : A -> bool) (l : list A) :
  (forall x, f x = h x) -> find f l = find h l.
Proof.
  intros H. induction l as [|x l IH]; [reflexivity|].
  cbn [find]. rewrite H, IH. reflexivity.
Qed.

Lemma get_rule_test (r : list string) (ns : list Node) :
  Nat.eqb (length ns) (length r)
  && match map (fun ab : string * Node => String.eqb (fst ab) (name (snd ab)))
               (combine r ns) with
     | [] => false
     | _ :: _ => true
     end
  = Nat.eqb (length ns) (length r) && negb (Nat.eqb (length ns) 0).
Proof.
  destruct r as [|x r], ns as [|n ns]; cbn [length combine map Nat.eqb];
    rewrite ?andb_false_r; reflexivity.
Qed.

(** X14 ([Grammar.get_rule]): the names of the right-hand side play no
    part in the lookup.  [get_rule] returns the first rule that has the
    label of [lhs] as its left-hand side and as many right-hand-side
    symbols as [rhs] has nodes, whatever these nodes are called; and for
    an empty [rhs] it returns [None], even when the grammar has a rule
    with an empty right-hand side. *)
Theorem get_rule_ignores_names (g : Grammar) (l : Node) (ns : list Node) :
  Grammar_get_rule g l ns
  = (if Nat.eqb (length ns) 0 then None
     else find (fun rule => String.eqb (lhs rule) (name l)
                            && Nat.eqb (length (rhs rule)) (length ns))
               (rules g)) /\
  forall ns', length ns' = length ns ->
              Grammar_get_rule g l ns' = Grammar_get_rule g l ns.
Proof.
  assert (H : forall ms, Grammar_get_rule g l ms
              = find (fun rule => String.eqb (lhs rule) (name l)
                                  && (Nat.eqb (length ms) (length (rhs rule))
                                      && negb (Nat.eqb (length ms) 0)))
                     (rules g)).
  { intros ms. unfold Grammar_get_rule. apply find_ext. intros r.
    rewrite <- andb_assoc, get_rule_test. reflexivity. }
  split.
  - rewrite H. clear H. destruct (Nat.eqb (length ns) 0) eqn:E.
    + induction (rules g) as [|r rs IH]; [reflexivity|].
      cbn [find]. rewrite !andb_false_r. exact IH.
    + apply find_ext. intros r. rewrite andb_true_r, (Nat.eqb_sym (length ns)).
      reflexivity.
  - intros ns' Hlen. rewrite !H, Hlen. reflexivity.
Qed.

(** ** The paths that match a rule ([get_valid_paths]) *)

Lemma get_valid_paths_unfold (fuel : nat) (graph : DiGraph) (rule : Rule)
    (rhs0 : string) (rest : list string) :
  rhs rule = rhs0 :: rest ->
  get_valid_paths fuel graph rule
  = valid_paths_loop fuel (search_graph graph rhs0 (last (rhs rule) rhs0))
                     (rhs rule) [[START]] [].
Proof. intros H. unfold get_valid_paths, search_graph. rewrite H. reflexivity. Qed.

Lemma is_walk_snoc (g : DiGraph) (w : list Node) (x y : Node) :
  is_walk g (w ++ [x]) -> edge g x y -> is_walk g (w ++ [x; y]).
Proof.
  intros Hw He. induction w as [|a w IH].
  - simpl. split; [exact He|exact I].
  - destruct w as [|b w].
    + cbn [app is_walk] in *. destruct Hw as [H1 _]. repeat split; assumption.
    + cbn [app] in *. destruct Hw as [H1 H2]. split; [exact H1|].
      apply IH. exact H2.
Qed.

Lemma successors_edge (g : DiGraph) (x s : Node) :
  In s (successors g x) -> edge g x s.
Proof.
  unfold successors. rewrite in_map_iff. intros [e [<- He]].
  apply filter_In in He. destruct He as [Hin Hx]. unfold edge.
  apply has_edge_iff. exists e. split; [exact Hin|].
  split; [rewrite Node_eq_sym; exact Hx|apply Node_eq_refl].
Qed.

Lemma firstn_snoc_nth (l : list string) (n : nat) (d : string) :
  (n < length l)%nat -> firstn (S n) l = firstn n l ++ [nth n l d].
Proof.
  revert n. induction l as [|x l IH]; intros n Hn; [simpl in Hn; lia|].
  destruct n as [|n]; [reflexivity|].
  change (firstn (S (S n)) (x :: l)) with (x :: firstn (S n) l).
  change (firstn (S n) (x :: l)) with (x :: firstn n l).
  change (nth (S n) (x :: l) d) with (nth n l d).
  rewrite (IH n) by (simpl in Hn; lia). reflexivity.
Qed.

Lemma removelast_snoc {A : Type} (l : list A) (x : A) : removelast (l ++ [x]) = l.
Proof. apply removelast_last. Qed.

Lemma last_cons_snoc (q : list Node) (x d : Node) :
  exists w z, x :: q = w ++ [z] /\ last (x :: q) d = z.
Proof.
  exists (removelast (x :: q)), (last (x :: q) d). split; [|reflexivity].
  apply app_removelast_last. discriminate.
Qed.

Lemma valid_paths_step_inv (g : DiGraph) (etalon : list string)
    (cp : list Node) (succ : Node) (paths dones : list (list Node)) :
  queue_inv g etalon cp -> edge g (last cp START) succ ->
  Forall (queue_inv g etalon) paths -> Forall (done_inv g etalon) dones ->
  Forall (queue_inv g etalon) (fst (valid_paths_step etalon cp (paths, dones) succ)) /\
  Forall (done_inv g etalon) (snd (valid_paths_step etalon cp (paths, dones) succ)).
Proof.
  intros [q [-> [Hw [Hn Hl]]]] He Hp Hd. unfold valid_paths_step.
  destruct (Nat.leb (length (START :: q)) (length etalon)) eqn:E1.
  - apply Nat.leb_le in E1. cbn [length] in E1.
    destruct (String.eqb (name succ) _) eqn:E2; [|split; assumption].
    apply String.eqb_eq in E2. cbn [fst snd]. split; [|exact Hd].
    apply Forall_app. split; [exact Hp|]. constructor; [|constructor].
    exists (q ++ [succ]). split; [reflexivity|]. split; [|split].
    + destruct (last_cons_snoc q START START) as [w [z [Hq Hz]]].
      rewrite Hz in He. change (START :: q ++ [succ]) with ((START :: q) ++ [succ]).
      rewrite Hq, <- app_assoc. apply is_walk_snoc; [rewrite <- Hq; exact Hw|exact He].
    + rewrite map_app, length_app, Hn. cbn [map length].
      replace (length q + 1)%nat with (S (length q)) by lia.
      rewrite (firstn_snoc_nth etalon (length q) EmptyString) by lia.
      f_equal. f_equal. rewrite E2. f_equal. cbn [length]. lia.
    + rewrite length_app. cbn [length]. lia.
  - destruct (Nat.eqb (length (START :: q)) (length etalon + 1) && Node_eq succ END)
      eqn:E2; [|split; assumption].
    cbn [fst snd]. split; [exact Hp|]. apply Forall_app. split; [exact Hd|].
    constructor; [|constructor]. apply andb_true_iff in E2. destruct E2 as [E2 _].
    apply Nat.eqb_eq in E2. cbn [length] in E2. cbn [tl]. split.
    + exact Hw.
    + rewrite Hn. apply firstn_all2. lia.
Qed.

Lemma valid_paths_fold_inv (g : DiGraph) (etalon : list string) (cp : list Node)
    (succs : list Node) :
  queue_inv g etalon cp ->
  (forall s, In s succs -> edge g (last cp START) s) ->
  forall st,
  Forall (queue_inv g etalon) (fst st) -> Forall (done_inv g etalon) (snd st) ->
  Forall (queue_inv g etalon) (fst (fold_left (valid_paths_step etalon cp) succs st)) /\
  Forall (done_inv g etalon) (snd (fold_left (valid_paths_step etalon cp) succs st)).
Proof.
  intros Hcp. induction succs as [|s succs IH]; intros Hs st Hp Hd.
  - split; assumption.
  - cbn [fold_left]. destruct st as [paths dones].
    destruct (valid_paths_step_inv g etalon cp s paths dones Hcp
                (Hs s (or_introl eq_refl)) Hp Hd) as [H1 H2].
    apply IH; [intros s' Hs'; apply Hs; right; exact Hs'|assumption|assumption].
Qed.

Lemma valid_paths_loop_inv (g : DiGraph) (etalon : list string) (fuel : nat) :
  forall paths dones res,
  Forall (queue_inv g etalon) paths -> Forall (done_inv g etalon) dones ->
  valid_paths_loop fuel g etalon paths dones = Some res ->
  Forall (done_inv g etalon) res.
Proof.
  induction fuel as [|fuel IH]; intros paths dones res Hp Hd H.
  - destruct paths; [injection H as <-; exact Hd|discriminate H].
  - destruct paths as [|cp rest]; [injection H as <-; exact Hd|].
    cbn [valid_paths_loop] in H.
    inversion Hp as [|? ? Hcp Hrest]; subst.
    destruct (valid_paths_fold_inv g etalon cp (successors g (last cp START)) Hcp
                (fun s Hs => successors_edge g _ s Hs) (rest, dones) Hrest Hd)
      as [H1 H2].
    destruct (fold_left _ _ _) as [paths' dones']. apply (IH paths' dones' res H1 H2 H).
Qed.

Lemma remove_node_silent_edges (g : DiGraph) (n : Node) (e : Node * Node) :
  In e (edges (remove_node_silent g n)) -> In e (edges g).
Proof. cbn [remove_node_silent edges]. intros H. apply filter_In in H. tauto. Qed.

Lemma search_graph_edge (graph : DiGraph) (r0 rl : string) (u v : Node) :
  edge (search_graph graph r0 rl) u v ->
  edge graph u v \/ Node_eq u START = true \/ Node_eq v END = true.
Proof.
  unfold edge. rewrite !has_edge_iff. intros [e [Hin [Hu Hv]]].
  unfold search_graph in Hin.
  apply add_edges_from_edges in Hin. destruct Hin as [Hin|Hin].
  - apply add_edges_from_edges in Hin. destruct Hin as [Hin|Hin].
    + left. exists e. split; [|split; assumption].
      unfold add_nodes_from, remove_nodes_from in Hin. cbn [fold_left] in Hin.
      rewrite !add_node_edges in Hin.
      apply remove_node_silent_edges, remove_node_silent_edges in Hin. exact Hin.
    + right. left. apply in_map_iff in Hin. destruct Hin as [i [<- _]]. exact Hu.
  - right. right. apply in_map_iff in Hin. destruct Hin as [i [<- _]]. exact Hv.
Qed.

Lemma search_walk (graph : DiGraph) (r0 rl : string) (d : list Node) :
  is_walk (search_graph graph r0 rl) d ->
  (forall x, In x d -> name x <> "START"%string /\ name x <> "END"%string) ->
  is_walk graph d.
Proof.
  induction d as [|x d IH]; intros Hw Hn; [exact I|].
  destruct d as [|y d]; [exact I|]. cbn [is_walk] in *. destruct Hw as [He Hw].
  split.
  - destruct (search_graph_edge _ _ _ _ _ He) as [H|[H|H]]; [exact H| |].
    + apply Node_eq_iff in H. destruct H as [_ H].
      destruct (Hn x (or_introl eq_refl)) as [H1 _]. contradiction.
    + apply Node_eq_iff in H. destruct H as [_ H].
      destruct (Hn y (or_intror (or_introl eq_refl))) as [_ H2]. contradiction.
  - apply IH; [exact Hw|]. intros z Hz. apply Hn. right. exact Hz.
Qed.

(** X15 ([get_valid_paths]): every path the function returns spells the
    right-hand side of the rule, label by label, so it has as many nodes
    as the rule has symbols; and when neither [START] nor [END] is a
    symbol of the rule, each node of the path is linked to the next by
    an edge of the graph that was passed in. *)
Theorem valid_paths_spell_the_rule (fuel : nat) (graph : DiGraph) (rule : Rule)
    (paths : list (list Node)) :
  get_valid_paths fuel graph rule = Some paths ->
  (forall p, In p paths -> map name p = rhs rule) /\
  (~ In "START"%string (rhs rule) -> ~ In "END"%string (rhs rule) ->
   forall p, In p paths -> is_walk graph p).
Proof.
  intros H. destruct (rhs rule) as [|r0 rest] eqn:Er.
  { unfold get_valid_paths in H. rewrite Er in H. discriminate H. }
  rewrite (get_valid_paths_unfold fuel graph rule r0 rest Er) in H.
  set (g := search_graph graph r0 (last (rhs rule) r0)) in H.
  assert (Hinit : Forall (queue_inv g (rhs rule)) [[START]]).
  { constructor; [|constructor]. exists []. split; [reflexivity|].
    split; [exact I|]. split; [reflexivity|]. cbn [length]. lia. }
  pose proof (valid_paths_loop_inv g (rhs rule) fuel _ _ _ Hinit (Forall_nil _) H)
    as Hres.
  rewrite Forall_forall in Hres. rewrite <- Er. split.
  - intros p Hp. apply (Hres p Hp).
  - intros Hs He p Hp. destruct (Hres p Hp) as [Hw Hn].
    apply (search_walk graph r0 (last (rhs rule) r0) p (walk_tail _ _ _ Hw)).
    intros x Hx. assert (Hin : In (name x) (rhs rule)).
    { rewrite <- Hn. apply in_map. exact Hx. }
    split; intros E; rewrite E in Hin; contradiction.
Qed.

(** X15, witness: the rule of the end-to-end example on its base graph. *)
Lemma valid_paths_spell_the_rule_witness :
  get_valid_paths 10 example_base_graph example_rule
  = Some [[noun_0_5; verb_5_9; noun_9_14]] /\
  (forall p, In p [[noun_0_5; verb_5_9; noun_9_14]] ->
             map name p = rhs example_rule) /\
  (~ In "START"%string (rhs example_rule) -> ~ In "END"%string (rhs example_rule) ->
   forall p, In p [[noun_0_5; verb_5_9; noun_9_14]] ->
             is_walk example_base_graph p).
Proof.
  split; [vm_compute; reflexivity|].
  apply (valid_paths_spell_the_rule 10 example_base_graph example_rule).
  vm_compute. reflexivity.
Defined.

(** ** The search for matching paths always ends *)

Lemma valid_paths_step_adds (etalon : list string) (cp : list Node) (succ : Node)
    (paths dones : list (list Node)) :
  exists added dones',
    valid_paths_step etalon cp (paths, dones) succ = (paths ++ added, dones') /\
    (length added <= 1)%nat /\
    Forall (fun p => length p = S (length cp)) added /\
    ((length etalon < length cp)%nat -> added = []).
Proof.
  unfold valid_paths_step.
  destruct (Nat.leb (length cp) (length etalon)) eqn:E1.
  - apply Nat.leb_le in E1. destruct (String.eqb _ _).
    + exists [cp ++ [succ]], dones. split; [reflexivity|]. split; [simpl; lia|].
      split; [|lia]. constructor; [|constructor]. rewrite length_app. simpl. lia.
    + exists [], dones. rewrite app_nil_r. repeat split; auto.
  - destruct (_ && _); eexists [], _; rewrite app_nil_r; repeat split; auto.
Qed.

Lemma valid_paths_fold_adds (etalon : list string) (cp : list Node)
    (succs : list Node) :
  forall paths dones,
  exists added dones',
    fold_left (valid_paths_step etalon cp) succs (paths, dones)
    = (paths ++ added, dones') /\
    (length added <= length succs)%nat /\
    Forall (fun p => length p = S (length cp)) added /\
    ((length etalon < length cp)%nat -> added = []).
Proof.
  induction succs as [|s succs IH]; intros paths dones.
  - exists [], dones. rewrite app_nil_r. repeat split; auto.
  - cbn [fold_left].
    destruct (valid_paths_step_adds etalon cp s paths dones)
      as [a1 [d1 [E1 [L1 [F1 N1]]]]].
    rewrite E1. destruct (IH (paths ++ a1) d1) as [a2 [d2 [E2 [L2 [F2 N2]]]]].
    exists (a1 ++ a2), d2. rewrite E2, <- app_assoc. split; [reflexivity|].
    split; [rewrite length_app; cbn [length]; lia|]. split.
    + apply Forall_app. split; assumption.
    + intros H. rewrite (N1 H), (N2 H). reflexivity.
Qed.

Lemma queue_bound_app (d l : nat) (p q : list (list Node)) :
  queue_bound d l (p ++ q) = (queue_bound d l p + queue_bound d l q)%nat.
Proof.
  induction p as [|x p IH]; [reflexivity|].
  change (queue_bound d l ((x :: p) ++ q))
    with (round_bound d (l + 1 - length x) + queue_bound d l (p ++ q))%nat.
  change (queue_bound d l (x :: p))
    with (round_bound d (l + 1 - length x) + queue_bound d l p)%nat.
  rewrite IH. lia.
Qed.

Lemma queue_bound_same (d l k : nat) (added : list (list Node)) :
  Forall (fun p => length p = k) added ->
  queue_bound d l added = (length added * round_bound d (l + 1 - k))%nat.
Proof.
  induction 1 as [|p added Hp _ IH]; [reflexivity|].
  change (queue_bound d l (p :: added))
    with (round_bound d (l + 1 - length p) + queue_bound d l added)%nat.
  rewrite IH, Hp. cbn [length]. lia.
Qed.

Lemma successors_length (g : DiGraph) (x : Node) :
  (length (successors g x) <= length (edges g))%nat.
Proof.
  unfold successors. rewrite length_map.
  induction (edges g) as [|e l IH]; [apply le_n|].
  cbn [filter]. destruct (Node_eq (fst e) x); cbn [length]; lia.
Qed.

Lemma round_bound_pos (d k : nat) : (1 <= round_bound d k)%nat.
Proof. destruct k; simpl; lia. Qed.

Lemma valid_paths_loop_ends (g : DiGraph) (etalon : list string) (fuel : nat) :
  forall paths dones,
  (queue_bound (length (edges g)) (length etalon) paths <= fuel)%nat ->
  exists res, valid_paths_loop fuel g etalon paths dones = Some res.
Proof.
  set (d := length (edges g)). set (l := length etalon).
  induction fuel as [|fuel IH]; intros paths dones Hb.
  - destruct paths as [|cp rest]; [exists dones; reflexivity|].
    unfold queue_bound in Hb. cbn [fold_right] in Hb.
    pose proof (round_bound_pos d (l + 1 - length cp)). lia.
  - destruct paths as [|cp rest]; [exists dones; reflexivity|].
    cbn [valid_paths_loop].
    destruct (valid_paths_fold_adds etalon cp (successors g (last cp START))
                rest dones) as [added [dones' [E [Hlen [Hall Hnone]]]]].
    rewrite E. apply IH. rewrite queue_bound_app.
    rewrite (queue_bound_same d l (S (length cp)) added Hall).
    change (queue_bound d l (cp :: rest))
      with (round_bound d (l + 1 - length cp) + queue_bound d l rest)%nat in Hb.
    pose proof (successors_length g (last cp START)) as Hs. fold d in Hs.
    destruct (Nat.le_gt_cases (length cp) l) as [Hle|Hgt].
    + replace (l + 1 - length cp)%nat with (S (l + 1 - S (length cp))) in Hb by lia.
      cbn [round_bound] in Hb.
      assert (length added * round_bound d (l + 1 - S (length cp))
              <= d * round_bound d (l + 1 - S (length cp)))%nat
        by (apply Nat.mul_le_mono_r; lia).
      lia.
    + rewrite (Hnone Hgt). cbn [length].
      pose proof (round_bound_pos d (l + 1 - length cp)). lia.
Qed.

Lemma valid_paths_loop_more (g : DiGraph) (etalon : list string) (fuel : nat) :
  forall fuel' paths dones res,
  valid_paths_loop fuel g etalon paths dones = Some res -> (fuel <= fuel')%nat ->
  valid_paths_loop fuel' g etalon paths dones = Some res.
Proof.
  induction fuel as [|fuel IH]; intros fuel' paths dones res H Hle.
  - destruct paths; [|discriminate H]. destruct fuel'; exact H.
  - destruct paths as [|cp rest]; [destruct fuel'; exact H|].
    destruct fuel' as [|fuel']; [lia|]. cbn [valid_paths_loop] in *.
    destruct (fold_left _ _ _) as [paths' dones'].
    apply (IH fuel' paths' dones' res H). lia.
Qed.

(** X16 ([get_valid_paths]): the search always ends, on graphs with
    cycles as on others, because a path is dropped once it holds one
    node more than the rule has symbols: for a rule with a right-hand
    side there is a number of rounds of the [while] loop from which on
    the function returns, always the same list of paths.  An empty
    right-hand side makes it raise (IndexError on [rule.rhs[0]]). *)
Theorem get_valid_paths_terminates (graph : DiGraph) (rule : Rule) :
  (rhs rule = [] -> forall fuel, get_valid_paths fuel graph rule = None) /\
  (rhs rule <> [] ->
   exists fuel0 paths,
     forall fuel, (fuel0 <= fuel)%nat ->
                  get_valid_paths fuel graph rule = Some paths).
Proof.
  split.
  - intros H fuel. unfold get_valid_paths. rewrite H. reflexivity.
  - intros H. destruct (rhs rule) as [|r0 rest] eqn:Er; [congruence|].
    set (g := search_graph graph r0 (last (rhs rule) r0)).
    set (fuel0 := round_bound (length (edges g)) (length (rhs rule))).
    destruct (valid_paths_loop_ends g (rhs rule) fuel0 [[START]] []) as [res Hres].
    { unfold queue_bound. cbn [fold_right length]. unfold fuel0.
      replace (length (rhs rule) + 1 - 1)%nat with (length (rhs rule)) by lia. lia. }
    exists fuel0, res. intros fuel Hle.
    rewrite (get_valid_paths_unfold fuel graph rule r0 rest Er).
    apply (valid_paths_loop_more g (rhs rule) fuel0 fuel _ _ _ Hres Hle).
Qed.

(** ** Every candidate node has its derivations *)

Lemma fold_left_option_inv_In {S X : Type} (P : S -> Prop)
    (f : option S -> X -> option S) (l : list X) :
  (forall s x s', In x l -> P s -> f (Some s) x = Some s' -> P s') ->
  (forall x, f None x = None) ->
  forall s s', P s -> fold_left f l (Some s) = Some s' -> P s'.
Proof.
  intros Hstep Hnone. induction l as [|x l IH]; intros s s' Hs H; simpl in H.
  - inversion H; subst. assumption.
  - destruct (f (Some s) x) as [s1|] eqn:E.
    + apply (IH (fun s0 y s2 Hy => Hstep s0 y s2 (or_intror Hy)) s1 s').
      * exact (Hstep s x s1 (or_introl eq_refl) Hs E).
      * exact H.
    + exfalso. clear -H Hnone. induction l as [|y l IHl]; simpl in H; [discriminate|].
      rewrite Hnone in H. auto.
Qed.

Lemma get_valid_paths_names (fuel : nat) (graph : DiGraph) (rule : Rule)
    (paths : list (list Node)) (p : list Node) :
  get_valid_paths fuel graph rule = Some paths -> In p paths ->
  map name p = rhs rule.
Proof.
  intros H Hp. destruct (rhs rule) as [|r0 rest] eqn:Er.
  { unfold get_valid_paths in H. rewrite Er in H. discriminate H. }
  rewrite (get_valid_paths_unfold fuel graph rule r0 rest Er) in H.
  set (g := search_graph graph r0 (last (rhs rule) r0)) in H.
  assert (Hinit : Forall (queue_inv g (rhs rule)) [[START]]).
  { constructor; [|constructor]. exists []. split; [reflexivity|].
    split; [exact I|]. split; [reflexivity|]. cbn [length]. lia. }
  pose proof (valid_paths_loop_inv g (rhs rule) fuel _ _ _ Hinit (Forall_nil _) H)
    as Hres.
  rewrite Forall_forall in Hres. rewrite <- Er. apply (Hres p Hp).
Qed.

Lemma last_any (l : list Node) (x d d' : Node) : last (x :: l) d = last (x :: l) d'.
Proof.
  revert x. induction l as [|y l IH]; intros x; [reflexivity|].
  change (last (x :: y :: l) d) with (last (y :: l) d).
  change (last (x :: y :: l) d') with (last (y :: l) d'). apply IH.
Qed.

Lemma justified_append (grammar : Grammar) (cm : CandidateMap) (node : Node)
    (rule : Rule) (path : list Node) :
  justified_map grammar cm -> justified grammar node rule path ->
  justified_map grammar (cm_append cm node (rule, path)).
Proof.
  intros Hcm Hj. induction cm as [|[k0 ds0] cm IH]; cbn [cm_append].
  - intros k ds r p [H|[]] Hin. injection H as <- <-.
    destruct Hin as [H|[]]. injection H as <- <-. exact Hj.
  - assert (Hcm' : justified_map grammar cm).
    { intros k ds r p Hk Hin. apply (Hcm k ds r p); [right; exact Hk|exact Hin]. }
    destruct (Node_eq k0 node) eqn:E.
    + intros k ds r p [H|H] Hin.
      * injection H as <- <-. apply in_app_iff in Hin. destruct Hin as [Hin|[Hin|[]]].
        -- apply (Hcm k0 ds0 r p); [left; reflexivity|exact Hin].
        -- injection Hin as <- <-. apply Node_eq_iff in E. destruct E as [Es En].
           destruct Hj as [H1 [H2 [H3 H4]]]. unfold justified.
           rewrite Es, En. auto.
      * apply (Hcm k ds r p); [right; exact H|exact Hin].
    + intros k ds r p [H|H] Hin.
      * injection H as <- <-. apply (Hcm k0 ds0 r p); [left; reflexivity|exact Hin].
      * apply (IH Hcm' k ds r p H Hin).
Qed.

Lemma resolve_path_justified (grammar : Grammar) (nonterminal : string)
    (rule : Rule) (s s' : DiGraph * CandidateMap) (path : list Node) :
  In rule (rules grammar) -> lhs rule = nonterminal ->
  map name path = rhs rule ->
  justified_map grammar (snd s) ->
  resolve_path nonterminal rule (Some s) path = Some s' ->
  justified_map grammar (snd s').
Proof.
  intros Hr Hl Hn Hinv H. unfold resolve_path in H. destruct s as [g2 cm].
  destruct path as [|first path]; [discriminate|].
  injection H as <-. cbn [snd] in *. apply justified_append; [exact Hinv|].
  unfold justified. split; [exact Hr|]. split; [exact Hl|].
  split; [exact Hn|]. cbn [span hd]. f_equal. f_equal. apply last_any.
Qed.

Lemma resolve_rule_justified (fuel : nat) (grammar : Grammar) (nonterminal : string)
    (s s' : DiGraph * CandidateMap) (rule : Rule) :
  In rule (rules grammar) -> lhs rule = nonterminal ->
  justified_map grammar (snd s) ->
  resolve_rule fuel nonterminal (Some s) rule = Some s' ->
  justified_map grammar (snd s').
Proof.
  intros Hr Hl Hinv H. unfold resolve_rule in H.
  destruct (get_valid_paths fuel (fst s) rule) as [paths|] eqn:Ep; [|discriminate].
  revert H.
  apply (fold_left_option_inv_In (fun s => justified_map grammar (snd s)));
    [|reflexivity|exact Hinv].
  intros s0 p s1 Hp Hs0. apply (resolve_path_justified grammar _ _ _ _ _ Hr Hl);
    [|exact Hs0].
  apply (get_valid_paths_names fuel (fst s) rule paths p Ep Hp).
Qed.

Lemma resolve_nonterminal_justified (fuel : nat) (grammar : Grammar)
    (s s' : DiGraph * CandidateMap) (nonterminal : string) :
  justified_map grammar (snd s) ->
  resolve_nonterminal fuel grammar (Some s) nonterminal = Some s' ->
  justified_map grammar (snd s').
Proof.
  intros Hinv H. unfold resolve_nonterminal in H.
  destruct (Grammar_getitem grammar nonterminal) as [rs|] eqn:Eg; [|discriminate].
  unfold Grammar_getitem in Eg.
  destruct (str_mem nonterminal (nonterminals grammar)); [|discriminate].
  injection Eg as <-. revert H.
  apply (fold_left_option_inv_In (fun s => justified_map grammar (snd s)));
    [|reflexivity|exact Hinv].
  intros s0 r s1 Hr Hs0. apply filter_In in Hr. destruct Hr as [Hr Hl].
  apply String.eqb_eq in Hl.
  apply (resolve_rule_justified fuel grammar nonterminal s0 s1 r Hr Hl Hs0).
Qed.

(** X17 ([get_nonterminal_nodes]): every derivation in the candidate map
    justifies the node it is stored under.  For a key [k] and a pair
    [(rule, path)] of its list, [rule] is a rule of the grammar whose
    left-hand side is the label of [k], the labels of [path] are the
    right-hand side of [rule] in order, and the span of [k] runs from
    the start of the first node of [path] to the end of its last node;
    and no key has an empty list. *)
Theorem candidates_are_justified (fuel : nat) (graph : DiGraph) (grammar : Grammar)
    (cm : CandidateMap) :
  get_nonterminal_nodes fuel graph grammar = Some cm ->
  forall k ds,
    In (k, ds) cm ->
    ds <> [] /\
    forall rule path,
      In (rule, path) ds ->
      In rule (rules grammar) /\ lhs rule = name k /\
      map name path = rhs rule /\
      span k = (Node_start (hd START path), Node_end (last path START)).
Proof.
  intros H k ds Hk. split.
  - destruct (get_nonterminal_nodes_inv fuel graph grammar cm H) as [_ Hall].
    destruct (Hall k ds Hk) as [r [p [ds' [-> _]]]]. discriminate.
  - unfold get_nonterminal_nodes in H.
    destruct (fold_left _ _ _) as [s|] eqn:E; [|discriminate H].
    injection H as <-.
    assert (Hj : justified_map grammar (snd s)).
    { revert E.
      apply (fold_left_option_inv (fun s => justified_map grammar (snd s))).
      - intros s0 x s1. apply resolve_nonterminal_justified.
      - reflexivity.
      - intros k0 ds0 r p []. }
    intros rule path Hin. apply (Hj k ds rule path Hk Hin).
Qed.

(** X17, witness: the example with rules of weight 5, 9 and 7. *)
Lemma candidates_are_justified_witness :
  get_nonterminal_nodes 10 example_base_graph weights_grammar
  = Some [(s_0_14, [(rule_s5, [noun_0_5; verb_5_9; noun_9_14]);
                    (rule_s9, [noun_0_5; verb_5_9; noun_9_14])]);
          (s_0_9, [(rule_s7, [noun_0_5; verb_5_9])])] /\
  forall k ds,
    In (k, ds) [(s_0_14, [(rule_s5, [noun_0_5; verb_5_9; noun_9_14]);
                          (rule_s9, [noun_0_5; verb_5_9; noun_9_14])]);
                (s_0_9, [(rule_s7, [noun_0_5; verb_5_9])])] ->
    ds <> [] /\
    forall rule path,
      In (rule, path) ds ->
      In rule (rules weights_grammar) /\ lhs rule = name k /\
      map name path = rhs rule /\
      span k = (Node_start (hd START path), Node_end (last path START)).
Proof.
  assert (H : get_nonterminal_nodes 10 example_base_graph weights_grammar
    = Some [(s_0_14, [(rule_s5, [noun_0_5; verb_5_9; noun_9_14]);
                      (rule_s9, [noun_0_5; verb_5_9; noun_9_14])]);
            (s_0_9, [(rule_s7, [noun_0_5; verb_5_9])])])
    by (vm_compute; reflexivity).
  split; [exact H|].
  exact (candidates_are_justified 10 example_base_graph weights_grammar _ H).
Defined.

(** ** Entry and exit nodes ([create_entry_and_exit_nodes]) *)

Lemma has_node_iff (g : DiGraph) (n : Node) :
  has_node g n = true <-> exists m, In m (nodes g) /\ Node_eq n m = true.
Proof. unfold has_node. apply existsb_exists. Qed.

Lemma has_node_respects (g : DiGraph) (n n' : Node) :
  Node_eq n n' = true -> has_node g n = has_node g n'.
Proof.
  intros H. apply bool_eq_iff. rewrite !has_node_iff.
  split; intros [m [Hm E]]; exists m; (split; [exact Hm|]).
  - rewrite <- (Node_eq_l n n' m H). exact E.
  - rewrite (Node_eq_l n n' m H). exact E.
Qed.

Lemma add_node_has_node (g : DiGraph) (x n : Node) :
  has_node (add_node g x) n = has_node g n || Node_eq n x.
Proof.
  unfold add_node. destruct (has_node g x) eqn:E.
  - destruct (Node_eq n x) eqn:En; [|rewrite orb_false_r; reflexivity].
    rewrite (has_node_respects g n x En), E. reflexivity.
  - unfold has_node. cbn [nodes]. rewrite existsb_app. cbn [existsb].
    rewrite orb_false_r. reflexivity.
Qed.

Lemma add_edge_has_node (g : DiGraph) (u v n : Node) :
  has_node (add_edge g u v) n = has_node g n || Node_eq n u || Node_eq n v.
Proof.
  unfold add_edge. cbv zeta.
  destruct (has_edge (add_node (add_node g u) v) u v);
    unfold has_node at 1; cbn [nodes]; fold (has_node (add_node (add_node g u) v) n);
    rewrite !add_node_has_node; reflexivity.
Qed.

Lemma add_edge_has_edge (g : DiGraph) (u v a b : Node) :
  has_edge (add_edge g u v) a b = has_edge g a b || (Node_eq a u && Node_eq b v).
Proof.
  assert (H0 : has_edge (add_node (add_node g u) v) a b = has_edge g a b).
  { unfold has_edge. rewrite !add_node_edges. reflexivity. }
  unfold add_edge. cbv zeta.
  destruct (has_edge (add_node (add_node g u) v) u v) eqn:E.
  - rewrite H0. destruct (Node_eq a u && Node_eq b v) eqn:Eab;
      [|rewrite orb_false_r; reflexivity].
    apply andb_true_iff in Eab. destruct Eab as [Ea Eb].
    rewrite <- H0, (has_edge_respects _ a u b v Ea Eb), E. reflexivity.
  - unfold has_edge at 1. cbn [edges]. rewrite existsb_app. cbn [existsb].
    rewrite orb_false_r. fold (has_edge (add_node (add_node g u) v) a b).
    rewrite H0. reflexivity.
Qed.

Lemma fold_add_edge_from (src : Node) (l : list Node) :
  forall g a b,
  has_edge (fold_left (fun g node => add_edge g src node) l g) a b
  = has_edge g a b || (Node_eq a src && node_mem b l).
Proof.
  induction l as [|x l IH]; intros g a b; cbn [fold_left node_mem existsb].
  - rewrite andb_false_r, orb_false_r. reflexivity.
  - rewrite IH, add_edge_has_edge. unfold node_mem.
    destruct (has_edge g a b), (Node_eq a src), (Node_eq b x),
      (existsb (Node_eq b) l); reflexivity.
Qed.

Lemma fold_add_edge_to (dst : Node) (l : list Node) :
  forall g a b,
  has_edge (fold_left (fun g node => add_edge g node dst) l g) a b
  = has_edge g a b || (node_mem a l && Node_eq b dst).
Proof.
  induction l as [|x l IH]; intros g a b; cbn [fold_left node_mem existsb].
  - rewrite orb_false_r. reflexivity.
  - rewrite IH, add_edge_has_edge. unfold node_mem.
    destruct (has_edge g a b), (Node_eq b dst), (Node_eq a x),
      (existsb (Node_eq a) l); reflexivity.
Qed.

Lemma fold_add_edge_from_nodes (src : Node) (l : list Node) :
  forall g n,
  has_node g src = true -> (forall x, In x l -> has_node g x = true) ->
  has_node (fold_left (fun g node => add_edge g src node) l g) n = has_node g n.
Proof.
  induction l as [|x l IH]; intros g n Hs Hl; [reflexivity|].
  cbn [fold_left].
  assert (Hx : forall m, has_node (add_edge g src x) m = has_node g m).
  { intros m. rewrite add_edge_has_node.
    destruct (Node_eq m src) eqn:E1.
    - rewrite (has_node_respects g m src E1), Hs. reflexivity.
    - destruct (Node_eq m x) eqn:E2.
      + rewrite (has_node_respects g m x E2), (Hl x (or_introl eq_refl)). reflexivity.
      + rewrite !orb_false_r. reflexivity. }
  rewrite IH.
  - apply Hx.
  - rewrite Hx. exact Hs.
  - intros y Hy. rewrite Hx. apply Hl. right. exact Hy.
Qed.

Lemma fold_add_edge_to_nodes (dst : Node) (l : list Node) :
  forall g n,
  has_node g dst = true -> (forall x, In x l -> has_node g x = true) ->
  has_node (fold_left (fun g node => add_edge g node dst) l g) n = has_node g n.
Proof.
  induction l as [|x l IH]; intros g n Hs Hl; [reflexivity|].
  cbn [fold_left].
  assert (Hx : forall m, has_node (add_edge g x dst) m = has_node g m).
  { intros m. rewrite add_edge_has_node.
    destruct (Node_eq m dst) eqn:E1.
    - rewrite (has_node_respects g m dst E1), Hs, orb_true_r. 
      destruct (has_node g m || Node_eq m x); reflexivity.
    - destruct (Node_eq m x) eqn:E2.
      + rewrite (has_node_respects g m x E2), (Hl x (or_introl eq_refl)). reflexivity.
      + rewrite !orb_false_r. reflexivity. }
  rewrite IH.
  - apply Hx.
  - rewrite Hx. exact Hs.
  - intros y Hy. rewrite Hx. apply Hl. right. exact Hy.
Qed.

(** What [nx.descendants] and [nx.ancestors] return is reachable. *)
Lemma reach_step_sound (g : DiGraph) (src : Node) (s : list Node) :
  (forall x, In x s -> x = src \/ reachable g src x) ->
  forall x, In x (reach_step g s) -> x = src \/ reachable g src x.
Proof.
  intros Hs. unfold reach_step.
  assert (Hl : forall n, In n (flat_map (successors g) s) -> reachable g src n).
  { intros n Hn. apply in_flat_map in Hn. destruct Hn as [y [Hy Hn]].
    apply successors_edge in Hn. destruct (Hs y Hy) as [->|Hr].
    - apply t_step. exact Hn.
    - apply (t_trans _ _ _ y); [exact Hr|apply t_step; exact Hn]. }
  revert Hl Hs. generalize (flat_map (successors g) s). intros l. revert s.
  induction l as [|n l IH]; intros s Hl Hs x Hx; cbn [fold_left] in Hx.
  - apply Hs, Hx.
  - apply (IH _ (fun m Hm => Hl m (or_intror Hm))) in Hx; [exact Hx|].
    intros y Hy. destruct (node_mem n s); [apply Hs, Hy|].
    apply in_app_iff in Hy. destruct Hy as [Hy|[<-|[]]]; [apply Hs, Hy|].
    right. apply Hl. left. reflexivity.
Qed.

Lemma reach_iter_sound (g : DiGraph) (src : Node) (k : nat) :
  forall s,
  (forall x, In x s -> x = src \/ reachable g src x) ->
  forall x, In x (reach_iter k g s) -> x = src \/ reachable g src x.
Proof.
  induction k as [|k IH]; intros s Hs x Hx; [apply Hs, Hx|].
  cbn [reach_iter] in Hx. apply (IH (reach_step g s)); [|exact Hx].
  apply reach_step_sound, Hs.
Qed.

Lemma descendants_sound (g : DiGraph) (src x : Node) :
  In x (descendants g src) -> reachable g src x.
Proof.
  unfold descendants. intros H. apply filter_In in H. destruct H as [H Hne].
  apply (reach_iter_sound g src) in H.
  - destruct H as [->|H]; [|exact H]. rewrite Node_eq_refl in Hne. discriminate Hne.
  - intros y [<-|[]]. left. reflexivity.
Qed.

Lemma reverse_edge (g : DiGraph) (u v : Node) :
  edge (reverse_graph g) u v <-> edge g v u.
Proof.
  unfold edge. rewrite !has_edge_iff. cbn [reverse_graph edges]. split.
  - intros [e [Hin [Hu Hv]]]. apply in_map_iff in Hin. destruct Hin as [e0 [<- Hin]].
    exists e0. cbn [fst snd] in *. auto.
  - intros [e [Hin [Hv Hu]]]. exists (snd e, fst e). split; [|auto].
    apply in_map_iff. exists e. auto.
Qed.

Lemma reverse_reachable (g : DiGraph) (a b : Node) :
  reachable (reverse_graph g) a b -> reachable g b a.
Proof.
  induction 1 as [x y H|x y z _ IH1 _ IH2].
  - apply t_step. apply reverse_edge. exact H.
  - apply (t_trans _ _ _ y); assumption.
Qed.

Lemma ancestors_sound (g : DiGraph) (dst x : Node) :
  In x (ancestors g dst) -> reachable g x dst.
Proof. intros H. apply reverse_reachable, descendants_sound, H. Qed.

Lemma insert_node_In (x y : Node) (l : list Node) :
  In y (insert_node x l) <-> y = x \/ In y l.
Proof.
  induction l as [|z l IH]; cbn [insert_node]; [simpl; intuition|].
  destruct (Node_lt z x); cbn [In]; [rewrite IH|]; intuition.
Qed.

Lemma sorted_In (items : list Node) (y : Node) : In y (sorted items) <-> In y items.
Proof.
  unfold sorted. induction items as [|x items IH]; [reflexivity|].
  cbn [fold_right]. rewrite insert_node_In, IH. cbn [In]. intuition.
Qed.

Lemma reachable_respects_l (g : DiGraph) (x x' y : Node) :
  reachable g x y -> Node_eq x x' = true -> reachable g x' y.
Proof.
  intros H E. apply clos_trans_t1n in H. destruct H as [y H|y z H Hr].
  - apply t_step. unfold edge in *.
    rewrite <- (has_edge_respects g x x' y y E (Node_eq_refl y)). exact H.
  - apply (t_trans _ _ _ y); [|apply clos_t1n_trans; exact Hr].
    apply t_step. unfold edge in *.
    rewrite <- (has_edge_respects g x x' y y E (Node_eq_refl y)). exact H.
Qed.

Lemma last_In_cons (x : Node) (l : list Node) (d : Node) :
  In (last (x :: l) d) (x :: l).
Proof.
  revert x. induction l as [|y l IH]; intros x; [left; reflexivity|].
  right. apply IH.
Qed.

(** ** Blank nodes ([add_blanks]) *)

Lemma add_blanks_unfold (graph : DiGraph) :
  add_blanks graph
  = fold_left
      (fun (og : option DiGraph) (node : Node) =>
         g <- og ;;
         if takes_blanks node
         then fold_left (blank_step node) (successors g node) (Some g)
         else Some g)
      (nodes graph) (Some graph).
Proof. reflexivity. Qed.

Lemma edge_eq_sym (e f : Node * Node) : edge_eq e f = edge_eq f e.
Proof. unfold edge_eq. rewrite (Node_eq_sym (fst e)), (Node_eq_sym (snd e)). reflexivity. Qed.

Lemma edge_eq_trans (e f h : Node * Node) :
  edge_eq e f = true -> edge_eq f h = true -> edge_eq e h = true.
Proof.
  unfold edge_eq. rewrite !andb_true_iff. intros [H1 H2] [H3 H4].
  split; eapply Node_eq_trans; eassumption.
Qed.

Lemma existsb_edge_eq (e f : Node * Node) (l : list (Node * Node)) :
  edge_eq e f = true -> existsb (edge_eq e) l = existsb (edge_eq f) l.
Proof.
  intros H. apply bool_eq_iff. rewrite !existsb_exists.
  split; intros [x [Hx E]]; exists x; (split; [exact Hx|]).
  - apply (edge_eq_trans f e x); [rewrite edge_eq_sym; exact H|exact E].
  - apply (edge_eq_trans e f x); assumption.
Qed.

Lemma remove_edge_spec (g : DiGraph) (u v : Node) :
  has_edge g u v = true ->
  exists g',
    remove_edge g u v = Some g' /\ nodes g' = nodes g /\
    (forall a b, has_edge g' a b
                 = has_edge g a b && negb (Node_eq a u && Node_eq b v)) /\
    (edges_distinct (edges g) = true -> edges_distinct (edges g') = true).
Proof.
  intros H. unfold remove_edge. rewrite H. eexists. split; [reflexivity|].
  split; [reflexivity|]. cbn [edges]. split.
  - intros a b. unfold has_edge. cbn [edges]. apply bool_eq_iff.
    rewrite andb_true_iff, negb_true_iff, !existsb_exists. split.
    + intros [e [He E]]. apply filter_In in He. destruct He as [He Hne].
      split; [exists e; auto|]. apply negb_true_iff in Hne.
      destruct (Node_eq a u && Node_eq b v) eqn:Eab; [|reflexivity].
      assert (Heq : edge_eq (u, v) (a, b) = true).
      { unfold edge_eq. cbn [fst snd]. apply andb_true_iff in Eab.
        rewrite (Node_eq_sym u), (Node_eq_sym v). apply andb_true_iff. exact Eab. }
      rewrite (edge_eq_trans (u, v) (a, b) e Heq E) in Hne. discriminate Hne.
    + intros [[e [He E]] Hne]. exists e. split; [|exact E].
      apply filter_In. split; [exact He|]. apply negb_true_iff.
      destruct (edge_eq (u, v) e) eqn:Eu; [|reflexivity].
      assert (Heq : edge_eq (a, b) (u, v) = true).
      { apply (edge_eq_trans (a, b) e (u, v) E). rewrite edge_eq_sym. exact Eu. }
      unfold edge_eq in Heq. cbn [fst snd] in Heq. rewrite Heq in Hne.
      discriminate Hne.
  - generalize (edges g). intros l. induction l as [|e l IH]; [reflexivity|].
    cbn [edges_distinct filter]. rewrite andb_true_iff, negb_true_iff.
    intros [H1 H2]. destruct (negb (edge_eq (u, v) e)); [|apply IH, H2].
    cbn [edges_distinct]. rewrite (IH H2), andb_true_r. apply negb_true_iff.
    destruct (existsb (edge_eq e) (filter _ l)) eqn:E; [|reflexivity].
    apply existsb_exists in E. destruct E as [x [Hx E]].
    apply filter_In in Hx. destruct Hx as [Hx _].
    assert (existsb (edge_eq e) l = true) by (apply existsb_exists; exists x; auto).
    congruence.
Qed.

Lemma add_edge_distinct (g : DiGraph) (u v : Node) :
  edges_distinct (edges g) = true -> edges_distinct (edges (add_edge g u v)) = true.
Proof.
  intros H. unfold add_edge. cbv zeta.
  destruct (has_edge (add_node (add_node g u) v) u v) eqn:E.
  - rewrite !add_node_edges. exact H.
  - cbn [edges]. rewrite !add_node_edges. unfold has_edge in E.
    rewrite !add_node_edges in E. revert H E. generalize (edges g). intros l.
    induction l as [|e l IH]; intros H E; [reflexivity|].
    change ((e :: l) ++ [(u, v)]) with (e :: (l ++ [(u, v)])).
    cbn [edges_distinct] in H |- *. cbn [existsb] in E.
    apply andb_true_iff in H. destruct H as [H1 H2].
    apply orb_false_iff in E. destruct E as [E1 E2].
    rewrite (IH H2 E2), andb_true_r. apply negb_true_iff.
    rewrite existsb_app. cbn [existsb]. apply negb_true_iff in H1.
    rewrite H1, orb_false_r. cbn [orb]. rewrite edge_eq_sym. exact E1.
Qed.

Lemma successors_distinct (g : DiGraph) (x : Node) :
  edges_distinct (edges g) = true -> nodes_distinct (successors g x) = true.
Proof.
  unfold successors. generalize (edges g). intros l.
  induction l as [|e l IH]; intros H; [reflexivity|].
  cbn [edges_distinct] in H. apply andb_true_iff in H. destruct H as [H1 H2].
  cbn [filter]. destruct (Node_eq (fst e) x) eqn:E; [|apply IH, H2].
  cbn [map nodes_distinct]. rewrite (IH H2), andb_true_r.
  apply negb_true_iff. apply negb_true_iff in H1.
  destruct (node_mem (snd e) _) eqn:Em; [|reflexivity].
  apply node_mem_iff in Em. destruct Em as [y [Hy Ey]].
  apply in_map_iff in Hy. destruct Hy as [f [<- Hf]]. apply filter_In in Hf.
  destruct Hf as [Hf Ef].
  assert (existsb (edge_eq e) l = true); [|congruence].
  apply existsb_exists. exists f. split; [exact Hf|]. unfold edge_eq.
  rewrite Ey, andb_true_r. rewrite (Node_eq_l (fst e) x (fst f) E).
  rewrite Node_eq_sym. exact Ef.
Qed.

Lemma successors_complete (g : DiGraph) (x s : Node) :
  edge g x s -> exists s', In s' (successors g x) /\ Node_eq s s' = true.
Proof.
  unfold edge. rewrite has_edge_iff. intros [e [He [Hx Hs]]].
  exists (snd e). split; [|exact Hs]. unfold successors. apply in_map.
  apply filter_In. split; [exact He|]. rewrite Node_eq_sym. exact Hx.
Qed.

Lemma Node_eq_spans (a b : Node) :
  Node_eq a b = true -> Node_start a = Node_start b /\ Node_end a = Node_end b.
Proof.
  intros H. apply Node_eq_iff in H. destruct H as [H _].
  unfold Node_start, Node_end. rewrite H. split; reflexivity.
Qed.

Lemma far_apart_respects (a a' b b' : Node) :
  Node_eq a a' = true -> Node_eq b b' = true -> far_apart a b = far_apart a' b'.
Proof.
  intros Ha Hb. unfold far_apart.
  destruct (Node_eq_spans a a' Ha) as [_ ->].
  destruct (Node_eq_spans b b' Hb) as [-> _].
  rewrite (Node_eq_l b b' END Hb). reflexivity.
Qed.

Lemma takes_blanks_respects (a a' : Node) :
  Node_eq a a' = true -> takes_blanks a = takes_blanks a'.
Proof.
  intros Ha. unfold takes_blanks. rewrite (Node_eq_l a a' START Ha).
  apply Node_eq_iff in Ha. destruct Ha as [_ ->]. reflexivity.
Qed.

Lemma blank_between_respects (a a' b b' : Node) :
  Node_eq a a' = true -> Node_eq b b' = true ->
  Node_eq (blank_between a b) (blank_between a' b') = true.
Proof.
  intros Ha Hb. apply Node_eq_iff. unfold blank_between. cbn [span name].
  destruct (Node_eq_spans a a' Ha) as [_ ->].
  destruct (Node_eq_spans b b' Hb) as [-> _]. split; reflexivity.
Qed.

Lemma gap_gt_one_same (e : num) : gap_gt_one e e = false.
Proof. destruct e; cbn [gap_gt_one]; [reflexivity| |reflexivity]. apply Z.ltb_ge. lia. Qed.

Lemma far_apart_blank (x s s' : Node) :
  Node_eq s' (blank_between x s) = true -> far_apart x s' = false.
Proof.
  intros H. apply Node_eq_spans in H. destruct H as [H _].
  unfold far_apart. rewrite H. unfold blank_between, Node_start. cbn [span fst].
  rewrite gap_gt_one_same. reflexivity.
Qed.

Lemma takes_not_blank (x a b : Node) :
  takes_blanks x = true -> Node_eq x (blank_between a b) = false.
Proof.
  unfold takes_blanks. rewrite andb_true_iff, negb_true_iff. intros [H _].
  destruct (Node_eq x (blank_between a b)) eqn:E; [|reflexivity].
  apply Node_eq_iff in E. destruct E as [_ E]. cbn [blank_between name] in E.
  rewrite E in H. discriminate H.
Qed.

Lemma blank_step_spec (g : DiGraph) (x s : Node) :
  edge g x s -> edges_distinct (edges g) = true -> takes_blanks x = true ->
  exists g',
    blank_step x (Some g) s = Some g' /\
    edges_distinct (edges g') = true /\
    (forall u v,
       has_edge g' u v
       = if far_apart x s
         then (has_edge g u v && negb (Node_eq u x && Node_eq v s))
              || (Node_eq u x && Node_eq v (blank_between x s))
              || (Node_eq u (blank_between x s) && Node_eq v s)
         else has_edge g u v) /\
    (forall n,
       has_node g' n
       = if far_apart x s
         then has_node g n || Node_eq n (blank_between x s)
              || Node_eq n x || Node_eq n s
         else has_node g n).
Proof.
  intros He Hd Hx. unfold blank_step. destruct (far_apart x s) eqn:Ef.
  - cbv zeta. set (nn := blank_between x s).
    set (g2 := add_edges_from (add_node g nn) [(x, nn); (nn, s)]).
    assert (E2 : forall u v, has_edge g2 u v
                 = has_edge g u v || (Node_eq u x && Node_eq v nn)
                   || (Node_eq u nn && Node_eq v s)).
    { intros u v. unfold g2, add_edges_from. cbn [fold_left fst snd].
      rewrite !add_edge_has_edge. unfold has_edge at 1.
      rewrite add_node_edges. reflexivity. }
    assert (N2 : forall n, has_node g2 n
                 = has_node g n || Node_eq n nn || Node_eq n x || Node_eq n s).
    { intros n. unfold g2, add_edges_from. cbn [fold_left fst snd].
      rewrite !add_edge_has_node, add_node_has_node.
      destruct (has_node g n), (Node_eq n nn), (Node_eq n x), (Node_eq n s);
        reflexivity. }
    assert (D2 : edges_distinct (edges g2) = true).
    { unfold g2, add_edges_from. cbn [fold_left fst snd].
      apply add_edge_distinct, add_edge_distinct. rewrite add_node_edges. exact Hd. }
    assert (H2 : has_edge g2 x s = true).
    { rewrite E2. unfold edge in He. rewrite He. reflexivity. }
    destruct (remove_edge_spec g2 x s H2) as [g3 [E3 [N3 [H3 D3]]]].
    exists g3. split; [exact E3|]. split; [exact (D3 D2)|]. split.
    + intros u v. rewrite H3, E2.
      assert (F1 : Node_eq v nn && Node_eq v s = false).
      { destruct (Node_eq v nn) eqn:E1, (Node_eq v s) eqn:E4; try reflexivity.
        assert (Es : Node_eq s nn = true).
        { apply (Node_eq_trans s v nn); [rewrite Node_eq_sym; exact E4|exact E1]. }
        rewrite (far_apart_blank x s s Es) in Ef. discriminate Ef. }
      assert (F2 : Node_eq u nn && Node_eq u x = false).
      { destruct (Node_eq u nn) eqn:E1, (Node_eq u x) eqn:E4; try reflexivity.
        assert (Es : Node_eq x nn = true).
        { apply (Node_eq_trans x u nn); [rewrite Node_eq_sym; exact E4|exact E1]. }
        unfold nn in Es. rewrite (takes_not_blank x x s Hx) in Es. discriminate Es. }
      destruct (has_edge g u v), (Node_eq u x), (Node_eq v s), (Node_eq v nn),
        (Node_eq u nn); cbn in *; congruence.
    + intros n. unfold has_node at 1. rewrite N3. apply N2.
  - exists g. repeat split. exact Hd.
Qed.

Section BlankFold.

Variable x : Node.
Hypothesis Hx : takes_blanks x = true.

(** The successors of [x] in [S] that get a blank, and the edges that
    take the place of the direct edges to them. *)
Let blocked (S : list Node) (v : Node) : Prop :=
  exists s, In s S /\ Node_eq v s = true /\ far_apart x s = true.

Let bridged (S : list Node) (u v : Node) : Prop :=
  exists s, In s S /\ far_apart x s = true /\
    ((Node_eq u x = true /\ Node_eq v (blank_between x s) = true) \/
     (Node_eq u (blank_between x s) = true /\ Node_eq v s = true)).

Lemma blank_fold_spec (S : list Node) :
  forall g,
  nodes_distinct S = true -> (forall s, In s S -> edge g x s) ->
  edges_distinct (edges g) = true ->
  exists g',
    fold_left (blank_step x) S (Some g) = Some g' /\
    edges_distinct (edges g') = true /\
    (forall u v, edge g' u v <->
       (edge g u v /\ ~ (Node_eq u x = true /\ blocked S v)) \/ bridged S u v) /\
    (forall n, has_node g' n = true <->
       has_node g n = true \/
       exists s, In s S /\ far_apart x s = true /\
                 (Node_eq n (blank_between x s) = true \/ Node_eq n x = true \/
                  Node_eq n s = true)).
Proof.
  induction S as [|s S IH]; intros g Hnd Hs Hd.
  - exists g. split; [reflexivity|]. split; [exact Hd|]. split.
    + intros u v. split.
      * intros H. left. split; [exact H|]. intros [_ [s [[] _]]].
      * intros [[H _]|[s [[] _]]]. exact H.
    + intros n. split; [auto|]. intros [H|[s [[] _]]]. exact H.
  - cbn [nodes_distinct] in Hnd. apply andb_true_iff in Hnd.
    destruct Hnd as [Hs1 Hnd]. apply negb_true_iff in Hs1.
    destruct (blank_step_spec g x s (Hs s (or_introl eq_refl)) Hd Hx)
      as [g1 [E1 [D1 [H1 N1]]]].
    assert (Hs' : forall s', In s' S -> edge g1 x s').
    { intros s' Hin. unfold edge. rewrite H1.
      assert (Hne : Node_eq s' s = false).
      { destruct (Node_eq s' s) eqn:E; [|reflexivity].
        assert (node_mem s S = true); [|congruence].
        apply node_mem_iff. exists s'. split; [exact Hin|].
        rewrite Node_eq_sym. exact E. }
      pose proof (Hs s' (or_intror Hin)) as He. unfold edge in He.
      rewrite He, Hne, andb_false_r. destruct (far_apart x s); reflexivity. }
    destruct (IH g1 Hnd Hs' D1) as [g' [E' [D' [H' N']]]].
    exists g'. split; [cbn [fold_left]; rewrite E1; exact E'|].
    split; [exact D'|]. split.
    + intros u v. rewrite H'. unfold edge. rewrite H1.
      destruct (far_apart x s) eqn:Ef.
      * rewrite !orb_true_iff, !andb_true_iff, negb_true_iff. split.
        -- intros [[[[[He Hn]|[Hu Hv]]|[Hu Hv]] Hb]|[s0 [Hin Hb]]].
           ++ left. split; [exact He|]. intros [Hu [s0 [[<-|Hin] [Hv Hf]]]].
              ** rewrite Hu, Hv in Hn. discriminate Hn.
              ** apply Hb. split; [exact Hu|]. exists s0. auto.
           ++ right. exists s. split; [left; reflexivity|]. split; [exact Ef|].
              left. auto.
           ++ right. exists s. split; [left; reflexivity|]. split; [exact Ef|].
              right. auto.
           ++ right. exists s0. split; [right; exact Hin|exact Hb].
        -- intros [[He Hb]|[s0 [[<-|Hin] [Hf Hc]]]].
           ++ left. split.
              ** left. left. split; [exact He|].
                 destruct (Node_eq u x) eqn:Eu, (Node_eq v s) eqn:Ev; try reflexivity.
                 exfalso. apply Hb. split; [reflexivity|]. exists s.
                 split; [left; reflexivity|]. auto.
              ** intros [Hu [s0 [Hin Hc]]]. apply Hb. split; [exact Hu|].
                 exists s0. split; [right; exact Hin|exact Hc].
           ++ left. destruct Hc as [[Hu Hv]|[Hu Hv]].
              ** split; [left; right; auto|]. intros [_ [s' [Hin [Hv' Hf']]]].
                 assert (Es : Node_eq s' (blank_between x s) = true).
                 { apply (Node_eq_trans s' v _); [rewrite Node_eq_sym; exact Hv'|exact Hv]. }
                 rewrite (far_apart_blank x s s' Es) in Hf'. discriminate Hf'.
              ** split; [right; auto|]. intros [Hu' _].
                 assert (Es : Node_eq x (blank_between x s) = true).
                 { apply (Node_eq_trans x u _); [rewrite Node_eq_sym; exact Hu'|exact Hu]. }
                 rewrite (takes_not_blank x x s Hx) in Es. discriminate Es.
           ++ right. exists s0. auto.
      * split.
        -- intros [[He Hb]|[s0 [Hin Hb]]].
           ++ left. split; [exact He|]. intros [Hu [s0 [[<-|Hin] [Hv Hf]]]];
                [congruence|]. apply Hb. split; [exact Hu|]. exists s0. auto.
           ++ right. exists s0. split; [right; exact Hin|exact Hb].
        -- intros [[He Hb]|[s0 [[<-|Hin] [Hf Hc]]]]; [|congruence|].
           ++ left. split; [exact He|]. intros [Hu [s0 [Hin Hc]]]. apply Hb.
              split; [exact Hu|]. exists s0. split; [right; exact Hin|exact Hc].
           ++ right. exists s0. auto.
    + intros n. rewrite N', N1. destruct (far_apart x s) eqn:Ef.
      * rewrite !orb_true_iff. split.
        -- intros [[[[H|H]|H]|H]|[s0 [Hin Hc]]]; [left; exact H| | | |].
           ++ right. exists s. split; [left; reflexivity|]. auto.
           ++ right. exists s. split; [left; reflexivity|]. auto.
           ++ right. exists s. split; [left; reflexivity|]. auto.
           ++ right. exists s0. split; [right; exact Hin|exact Hc].
        -- intros [H|[s0 [[<-|Hin] [Hf Hc]]]].
           ++ left. left. left. left. exact H.
           ++ left. destruct Hc as [H|[H|H]]; auto.
           ++ right. exists s0. auto.
      * split.
        -- intros [H|[s0 [Hin Hc]]]; [left; exact H|].
           right. exists s0. split; [right; exact Hin|exact Hc].
        -- intros [H|[s0 [[<-|Hin] [Hf Hc]]]]; [left; exact H|congruence|].
           right. exists s0. auto.
Qed.

End BlankFold.

Lemma edge_respects (g : DiGraph) (u u' v v' : Node) :
  Node_eq u u' = true -> Node_eq v v' = true -> edge g u v -> edge g u' v'.
Proof.
  intros Hu Hv H. unfold edge in *.
  rewrite <- (has_edge_respects g u u' v v' Hu Hv). exact H.
Qed.

Lemma blank_node_spec (x : Node) (g : DiGraph) :
  takes_blanks x = true -> edges_distinct (edges g) = true ->
  exists g',
    fold_left (blank_step x) (successors g x) (Some g) = Some g' /\
    edges_distinct (edges g') = true /\
    (forall u v, edge g' u v <->
       (edge g u v /\ ~ (Node_eq u x = true /\ far_apart x v = true)) \/
       (exists b, edge g x b /\ far_apart x b = true /\
          ((Node_eq u x = true /\ Node_eq v (blank_between x b) = true) \/
           (Node_eq u (blank_between x b) = true /\ Node_eq v b = true)))) /\
    (forall n, has_node g' n = true <->
       has_node g n = true \/
       exists b, edge g x b /\ far_apart x b = true /\
                 (Node_eq n (blank_between x b) = true \/ Node_eq n x = true \/
                  Node_eq n b = true)).
Proof.
  intros Hx Hd.
  destruct (blank_fold_spec x Hx (successors g x) g (successors_distinct g x Hd)
              (fun s Hs => successors_edge g x s Hs) Hd)
    as [g' [E [D [He Hn]]]].
  exists g'. split; [exact E|]. split; [exact D|]. split.
  - intros u v. rewrite He. split.
    + intros [[H Hb]|[s [Hin [Hf Hc]]]].
      * left. split; [exact H|]. intros [Hu Hf]. apply Hb. split; [exact Hu|].
        destruct (successors_complete g x v (edge_respects g u x v v Hu
                    (Node_eq_refl v) H)) as [s [Hin Hs]].
        exists s. split; [exact Hin|]. split; [exact Hs|].
        rewrite <- (far_apart_respects x x v s (Node_eq_refl x) Hs). exact Hf.
      * right. exists s. split; [apply successors_edge, Hin|]. auto.
    + intros [[H Hb]|[b [Hb [Hf Hc]]]].
      * left. split; [exact H|]. intros [Hu [s [Hin [Hs Hf]]]]. apply Hb.
        split; [exact Hu|].
        rewrite (far_apart_respects x x v s (Node_eq_refl x) Hs). exact Hf.
      * right. destruct (successors_complete g x b Hb) as [s [Hin Hs]].
        exists s. split; [exact Hin|].
        split; [rewrite <- (far_apart_respects x x b s (Node_eq_refl x) Hs); exact Hf|].
        pose proof (blank_between_respects x x b s (Node_eq_refl x) Hs) as Hbl.
        destruct Hc as [[Hu Hv]|[Hu Hv]].
        -- left. split; [exact Hu|]. apply (Node_eq_trans v _ _ Hv Hbl).
        -- right. split; [apply (Node_eq_trans u _ _ Hu Hbl)|].
           apply (Node_eq_trans v _ _ Hv Hs).
  - intros n. rewrite Hn. split.
    + intros [H|[s [Hin [Hf Hc]]]]; [left; exact H|].
      right. exists s. split; [apply successors_edge, Hin|]. auto.
    + intros [H|[b [Hb [Hf Hc]]]]; [left; exact H|].
      right. destruct (successors_complete g x b Hb) as [s [Hin Hs]].
      exists s. split; [exact Hin|].
      split; [rewrite <- (far_apart_respects x x b s (Node_eq_refl x) Hs); exact Hf|].
      pose proof (blank_between_respects x x b s (Node_eq_refl x) Hs) as Hbl.
      destruct Hc as [H|[H|H]].
      * left. apply (Node_eq_trans n _ _ H Hbl).
      * right. left. exact H.
      * right. right. apply (Node_eq_trans n _ _ H Hs).
Qed.

Lemma takes_blanks_blank (u a b : Node) :
  Node_eq u (blank_between a b) = true -> takes_blanks u = false.
Proof.
  intros H. destruct (takes_blanks u) eqn:E; [|reflexivity].
  rewrite (takes_not_blank u a b E) in H. discriminate H.
Qed.

Lemma add_blanks_fold (NL : list Node) :
  forall g,
  nodes_distinct NL = true -> edges_distinct (edges g) = true ->
  exists g',
    fold_left
      (fun (og : option DiGraph) (node : Node) =>
         g <- og ;;
         if takes_blanks node
         then fold_left (blank_step node) (successors g node) (Some g)
         else Some g)
      NL (Some g) = Some g' /\
    edges_distinct (edges g') = true /\
    (forall u v, edge g' u v <->
       (edge g u v /\
        ~ (exists a, In a NL /\ Node_eq u a = true /\
                     takes_blanks u = true /\ far_apart u v = true)) \/
       (exists a b, In a NL /\ replaced g a b /\
          ((Node_eq u a = true /\ Node_eq v (blank_between a b) = true) \/
           (Node_eq u (blank_between a b) = true /\ Node_eq v b = true)))) /\
    (forall n, has_node g' n = true <->
       has_node g n = true \/
       exists a b, In a NL /\ replaced g a b /\
                   (Node_eq n (blank_between a b) = true \/ Node_eq n a = true \/
                    Node_eq n b = true)).
Proof.
  induction NL as [|x NL IH]; intros g Hnd Hd.
  - exists g. split; [reflexivity|]. split; [exact Hd|]. split.
    + intros u v. split.
      * intros H. left. split; [exact H|]. intros [a [[] _]].
      * intros [[H _]|[a [b [[] _]]]]. exact H.
    + intros n. split; [auto|]. intros [H|[a [b [[] _]]]]. exact H.
  - cbn [nodes_distinct] in Hnd. apply andb_true_iff in Hnd.
    destruct Hnd as [Hx1 Hnd]. apply negb_true_iff in Hx1.
    assert (Hdist : forall a, In a NL -> Node_eq a x = false).
    { intros a Ha. destruct (Node_eq a x) eqn:E; [|reflexivity].
      assert (node_mem x NL = true); [|congruence].
      apply node_mem_iff. exists a. split; [exact Ha|].
      rewrite Node_eq_sym. exact E. }
    cbn [fold_left]. destruct (takes_blanks x) eqn:Hx.
    + destruct (blank_node_spec x g Hx Hd) as [g1 [E1 [D1 [H1 N1]]]].
      rewrite E1. destruct (IH g1 Hnd D1) as [g' [E' [D' [H' N']]]].
      assert (K1 : forall a b, In a NL -> takes_blanks a = true ->
                               (edge g1 a b <-> edge g a b)).
      { intros a b Ha Ht. rewrite H1. split.
        - intros [[H _]|[b0 [_ [_ [[Hu _]|[Hu _]]]]]]; [exact H| |].
          + rewrite (Hdist a Ha) in Hu. discriminate Hu.
          + rewrite (takes_not_blank a x b0 Ht) in Hu. discriminate Hu.
        - intros H. left. split; [exact H|]. intros [Hu _].
          rewrite (Hdist a Ha) in Hu. discriminate Hu. }
      assert (K2 : forall a b, In a NL -> (replaced g1 a b <-> replaced g a b)).
      { intros a b Ha. unfold replaced. split; intros [He [Ht Hf]];
          (split; [apply (K1 a b Ha Ht); exact He|auto]). }
      exists g'. split; [exact E'|]. split; [exact D'|]. split.
      * intros u v. rewrite H', H1. split.
        -- intros [[[[He Hn]|[b [Hb [Hf Hc]]]] Hg]|[a [b [Ha [Hr Hc]]]]].
           ++ left. split; [exact He|]. intros [a [[<-|Ha] [Hu [Ht Hf]]]].
              ** apply Hn. split; [exact Hu|].
                 rewrite <- (far_apart_respects u x v v Hu (Node_eq_refl v)). exact Hf.
              ** apply Hg. exists a. auto.
           ++ right. exists x, b. split; [left; reflexivity|].
              split; [unfold replaced; auto|exact Hc].
           ++ right. exists a, b. split; [right; exact Ha|].
              split; [apply (K2 a b Ha); exact Hr|exact Hc].
        -- intros [[He Hg]|[a [b [[<-|Ha] [Hr Hc]]]]].
           ++ left. split.
              ** left. split; [exact He|]. intros [Hu Hf]. apply Hg.
                 exists x. split; [left; reflexivity|]. split; [exact Hu|].
                 rewrite (takes_blanks_respects u x Hu),
                   (far_apart_respects u x v v Hu (Node_eq_refl v)). auto.
              ** intros [a [Ha Hc]]. apply Hg. exists a. split; [right; exact Ha|exact Hc].
           ++ left. destruct Hr as [He [_ Hf]]. split.
              ** right. exists b. auto.
              ** intros [a [Ha [Hu [Ht _]]]]. destruct Hc as [[Hux _]|[Hub _]].
                 --- assert (E : Node_eq a x = true).
                     { apply (Node_eq_trans a u x); [rewrite Node_eq_sym; exact Hu|exact Hux]. }
                     rewrite (Hdist a Ha) in E. discriminate E.
                 --- rewrite (takes_blanks_blank u x b Hub) in Ht. discriminate Ht.
           ++ right. exists a, b. split; [exact Ha|].
              split; [apply (K2 a b Ha); exact Hr|exact Hc].
      * intros n. rewrite N', N1. split.
        -- intros [[H|[b [Hb [Hf Hc]]]]|[a [b [Ha [Hr Hc]]]]].
           ++ left. exact H.
           ++ right. exists x, b. split; [left; reflexivity|].
              split; [unfold replaced; auto|exact Hc].
           ++ right. exists a, b. split; [right; exact Ha|].
              split; [apply (K2 a b Ha); exact Hr|exact Hc].
        -- intros [H|[a [b [[<-|Ha] [Hr Hc]]]]].
           ++ left. left. exact H.
           ++ left. right. destruct Hr as [He [_ Hf]]. exists b. auto.
           ++ right. exists a, b. split; [exact Ha|].
              split; [apply (K2 a b Ha); exact Hr|exact Hc].
    + destruct (IH g Hnd Hd) as [g' [E' [D' [H' N']]]].
      exists g'. split; [exact E'|]. split; [exact D'|]. split.
      * intros u v. rewrite H'. split.
        -- intros [[He Hg]|[a [b [Ha Hc]]]].
           ++ left. split; [exact He|]. intros [a [[<-|Ha] [Hu [Ht Hf]]]].
              ** rewrite (takes_blanks_respects u x Hu), Hx in Ht. discriminate Ht.
              ** apply Hg. exists a. auto.
           ++ right. exists a, b. split; [right; exact Ha|exact Hc].
        -- intros [[He Hg]|[a [b [[<-|Ha] [Hr Hc]]]]].
           ++ left. split; [exact He|]. intros [a [Ha Hc]]. apply Hg.
              exists a. split; [right; exact Ha|exact Hc].
           ++ destruct Hr as [_ [Ht _]]. rewrite Hx in Ht. discriminate Ht.
           ++ right. exists a, b. auto.
      * intros n. rewrite N'. split.
        -- intros [H|[a [b [Ha Hc]]]]; [left; exact H|].
           right. exists a, b. split; [right; exact Ha|exact Hc].
        -- intros [H|[a [b [[<-|Ha] [Hr Hc]]]]]; [left; exact H| |].
           ++ destruct Hr as [_ [Ht _]]. rewrite Hx in Ht. discriminate Ht.
           ++ right. exists a, b. auto.
Qed.

Lemma has_node_In (g : DiGraph) (n : Node) :
  has_node g n = true -> exists m, In m (nodes g) /\ Node_eq n m = true.
Proof. apply has_node_iff. Qed.

Lemma replaced_respects (g : DiGraph) (a a' b : Node) :
  Node_eq a a' = true -> replaced g a b -> replaced g a' b.
Proof.
  intros Ha [He [Ht Hf]]. split; [|split].
  - apply (edge_respects g a a' b b Ha (Node_eq_refl b) He).
  - rewrite <- (takes_blanks_respects a a' Ha). exact Ht.
  - rewrite <- (far_apart_respects a a' b b Ha (Node_eq_refl b)). exact Hf.
Qed.

(** ** The base graph of a document *)

Lemma num_ltb_trans (a b c : num) :
  num_ltb a b = true -> num_ltb b c = true -> num_ltb a c = true.
Proof.
  destruct a, b, c; cbn [num_ltb]; try discriminate; try reflexivity.
  rewrite !Z.ltb_lt. lia.
Qed.

Lemma num_ltb_irrefl (a : num) : num_ltb a a = false.
Proof. destruct a; cbn [num_ltb]; [reflexivity| |reflexivity]. apply Z.ltb_irrefl. Qed.

Lemma forward_reachable (g : DiGraph) (a b : Node) :
  forward g -> reachable g a b -> num_ltb (Node_start a) (Node_start b) = true.
Proof.
  intros Hf H. induction H as [x y H|x y z _ IH1 _ IH2].
  - apply Hf, H.
  - apply (num_ltb_trans _ _ _ IH1 IH2).
Qed.

Lemma forward_acyclic (g : DiGraph) : forward g -> acyclic g.
Proof.
  intros Hf x Hx. pose proof (forward_reachable g x x Hf Hx) as H.
  rewrite num_ltb_irrefl in H. discriminate H.
Qed.

Lemma proper_respects (n m : Node) : Node_eq n m = true -> proper n -> proper m.
Proof.
  intros H [s [e [Hs Hl]]]. apply Node_eq_iff in H. destruct H as [H _].
  exists s, e. rewrite <- H. auto.
Qed.

Lemma proper_not_sentinel (n : Node) :
  proper n -> Node_eq n START = false /\ Node_eq n END = false.
Proof.
  intros [s [e [Hs _]]]. split.
  - destruct (Node_eq n START) eqn:E; [|reflexivity].
    apply Node_eq_iff in E. destruct E as [E _]. rewrite Hs in E. discriminate E.
  - destruct (Node_eq n END) eqn:E; [|reflexivity].
    apply Node_eq_iff in E. destruct E as [E _]. rewrite Hs in E. discriminate E.
Qed.

Lemma elementary_nodes_proper (rows : Document) (n : Node) :
  spans_nonempty rows = true -> In n (get_elementary_nodes rows) -> proper n.
Proof.
  intros Hne Hn. apply In_nth_error in Hn. destruct Hn as [i Hi].
  destruct (elementary_nodes_nth rows i n Hi) as [s [e [Hse [Hs He]]]].
  exists s, e. split.
  - unfold Node_start, Node_end in *. destruct (span n) as [a b].
    cbn [fst snd] in *. subst. reflexivity.
  - unfold spans_nonempty in Hne. rewrite forallb_forall in Hne.
    apply nth_error_In in Hse. apply Hne in Hse. cbn [fst snd] in Hse.
    apply Z.ltb_lt, Hse.
Qed.

(** ** The graph operations keep the graph well formed *)

Lemma add_node_wf (g : DiGraph) (x : Node) :
  wf_graph g = true -> wf_graph (add_node g x) = true.
Proof.
  intros Hwf. pose proof (proj1 (wf_graph_iff g) Hwf) as [Hd Hends].
  apply wf_graph_iff. split.
  - unfold add_node. destruct (has_node g x) eqn:E; [exact Hd|]. cbn [nodes].
    apply nodes_distinct_app; [exact Hd|].
    rewrite (existsb_pointwise _ (Node_eq x)) by (intros; apply Node_eq_sym).
    exact E.
  - intros e He. rewrite add_node_edges in He. rewrite !add_node_has_node.
    destruct (Hends e He) as [-> ->]. split; reflexivity.
Qed.

Lemma add_edge_wf (g : DiGraph) (u v : Node) :
  wf_graph g = true -> wf_graph (add_edge g u v) = true.
Proof.
  intros Hwf. pose proof (add_node_wf _ v (add_node_wf g u Hwf)) as H1.
  unfold add_edge. cbv zeta.
  destruct (has_edge (add_node (add_node g u) v) u v); [exact H1|].
  pose proof (proj1 (wf_graph_iff _) H1) as [Hd Hends].
  apply wf_graph_iff. cbn [nodes edges]. split; [exact Hd|].
  intros e He. apply in_app_or in He. destruct He as [He|[<-|[]]].
  - destruct (Hends e He) as [Ha Hb]. unfold has_node in *. cbn [nodes]. auto.
  - cbn [fst snd]. unfold has_node at 1 2. cbn [nodes].
    fold (has_node (add_node (add_node g u) v) u).
    fold (has_node (add_node (add_node g u) v) v).
    rewrite !add_node_has_node, !Node_eq_refl, !orb_true_r. split; reflexivity.
Qed.

Lemma remove_edge_wf (g g' : DiGraph) (u v : Node) :
  wf_graph g = true -> remove_edge g u v = Some g' -> wf_graph g' = true.
Proof.
  intros Hwf H. unfold remove_edge in H.
  destruct (has_edge g u v); [|discriminate H]. injection H as <-.
  pose proof (proj1 (wf_graph_iff g) Hwf) as [Hd Hends].
  apply wf_graph_iff. cbn [nodes edges]. split; [exact Hd|].
  intros e He. apply filter_In in He. destruct He as [He _].
  exact (Hends e He).
Qed.

Lemma add_nodes_from_wf (l : list Node) :
  forall g, wf_graph g = true -> wf_graph (add_nodes_from g l) = true.
Proof.
  unfold add_nodes_from. induction l as [|x l IH]; intros g H; [exact H|].
  cbn [fold_left]. apply IH, add_node_wf, H.
Qed.

Lemma add_nodes_from_edges (l : list Node) :
  forall g, edges (add_nodes_from g l) = edges g.
Proof.
  unfold add_nodes_from. induction l as [|x l IH]; intros g; [reflexivity|].
  cbn [fold_left]. rewrite IH. apply add_node_edges.
Qed.

Lemma add_nodes_from_has_node (l : list Node) :
  forall g n, has_node (add_nodes_from g l) n = has_node g n || node_mem n l.
Proof.
  unfold add_nodes_from. induction l as [|x l IH]; intros g n.
  - cbn [fold_left node_mem existsb]. rewrite orb_false_r. reflexivity.
  - cbn [fold_left node_mem existsb]. rewrite IH, add_node_has_node.
    unfold node_mem. rewrite orb_assoc. reflexivity.
Qed.

Lemma add_edges_from_wf (l : list (Node * Node)) :
  forall g, wf_graph g = true -> wf_graph (add_edges_from g l) = true.
Proof.
  unfold add_edges_from. induction l as [|x l IH]; intros g H; [exact H|].
  cbn [fold_left]. apply IH, add_edge_wf, H.
Qed.

Lemma add_edges_from_distinct (l : list (Node * Node)) :
  forall g, edges_distinct (edges g) = true ->
            edges_distinct (edges (add_edges_from g l)) = true.
Proof.
  unfold add_edges_from. induction l as [|x l IH]; intros g H; [exact H|].
  cbn [fold_left]. apply IH, add_edge_distinct, H.
Qed.

Lemma add_edges_from_has_edge (l : list (Node * Node)) :
  forall g a b,
  has_edge (add_edges_from g l) a b = has_edge g a b || existsb (edge_eq (a, b)) l.
Proof.
  unfold add_edges_from. induction l as [|x l IH]; intros g a b.
  - cbn [fold_left existsb]. rewrite orb_false_r. reflexivity.
  - cbn [fold_left existsb]. rewrite IH, add_edge_has_edge.
    unfold edge_eq at 2. cbn [fst snd]. rewrite orb_assoc. reflexivity.
Qed.

Lemma add_edges_from_has_node (l : list (Node * Node)) :
  forall g n,
  (forall e, In e l -> has_node g (fst e) = true /\ has_node g (snd e) = true) ->
  has_node (add_edges_from g l) n = has_node g n.
Proof.
  unfold add_edges_from. induction l as [|x l IH]; intros g n Hl; [reflexivity|].
  cbn [fold_left].
  assert (Hx : forall m, has_node (add_edge g (fst x) (snd x)) m = has_node g m).
  { intros m. rewrite add_edge_has_node.
    destruct (Hl x (or_introl eq_refl)) as [H1 H2].
    destruct (Node_eq m (fst x)) eqn:E1.
    - rewrite (has_node_respects g m _ E1), H1. reflexivity.
    - destruct (Node_eq m (snd x)) eqn:E2.
      + rewrite (has_node_respects g m _ E2), H2. reflexivity.
      + rewrite !orb_false_r. reflexivity. }
  rewrite IH; [apply Hx|].
  intros e He. rewrite !Hx. apply Hl. right. exact He.
Qed.

Lemma num_le_lt_trans (a b c : num) :
  num_ltb a b = true -> num_leb b c = true -> num_ltb a c = true.
Proof.
  unfold num_leb. destruct a, b, c; cbn [num_ltb negb]; try discriminate;
    try reflexivity.
  rewrite negb_true_iff, Z.ltb_lt, Z.ltb_ge, Z.ltb_lt. lia.
Qed.

Lemma proper_start_lt_end (n : Node) :
  proper n -> num_ltb (Node_start n) (Node_end n) = true.
Proof.
  intros [s [e [Hs Hl]]]. unfold Node_start, Node_end. rewrite Hs.
  cbn [fst snd num_ltb]. apply Z.ltb_lt, Hl.
Qed.

(** The graph of the elementary nodes and the candidate edges. *)
Lemma candidate_graph_inv (rows : Document) (es : list (Node * Node)) :
  spans_nonempty rows = true -> document_edges rows = Some es ->
  let items := get_elementary_nodes rows in
  let g := add_edges_from (add_nodes_from empty_graph items) es in
  base_inv g /\ (forall x, In x items -> has_node g x = true) /\
  (forall n, has_node g n = true -> proper n).
Proof.
  intros Hne Hes items g.
  pose proof (document_edges_forward rows Hne es Hes) as Hfw. fold items in Hfw.
  assert (Hmem : forall x, In x items -> node_mem x items = true).
  { intros x Hx. apply node_mem_iff. exists x. split; [exact Hx|apply Node_eq_refl]. }
  assert (Hn : forall n, has_node g n = node_mem n items).
  { intros n. unfold g. rewrite add_edges_from_has_node.
    - rewrite add_nodes_from_has_node. reflexivity.
    - intros [A B] He. destruct (Hfw A B He) as [HA [HB _]]. cbn [fst snd].
      rewrite !add_nodes_from_has_node, (Hmem A HA), (Hmem B HB). auto. }
  assert (Hp : forall n, has_node g n = true -> proper n).
  { intros n H. rewrite Hn in H. apply node_mem_iff in H.
    destruct H as [m [Hm E]]. apply (proper_respects m n).
    - rewrite Node_eq_sym. exact E.
    - apply (elementary_nodes_proper rows m Hne Hm). }
  split; [|split; [intros x Hx; rewrite Hn; apply Hmem, Hx|exact Hp]].
  split; [|split; [|split]].
  - apply add_edges_from_wf, add_nodes_from_wf. reflexivity.
  - apply add_edges_from_distinct. rewrite add_nodes_from_edges. reflexivity.
  - intros n H. right. right. apply Hp, H.
  - intros u v H. unfold edge, g in H. rewrite add_edges_from_has_edge in H.
    assert (H0 : has_edge (add_nodes_from empty_graph items) u v = false).
    { unfold has_edge. rewrite add_nodes_from_edges. reflexivity. }
    rewrite H0 in H. cbn [orb] in H. apply existsb_exists in H.
    destruct H as [[A B] [He E]]. apply edge_eq_iff in E. cbn [fst snd] in E.
    destruct E as [Eu Ev]. destruct (Hfw A B He) as [HA [_ Hle]].
    apply Node_eq_iff in Eu, Ev. destruct Eu as [Eu _]. destruct Ev as [Ev _].
    unfold Node_start, Node_end in *. rewrite Eu, Ev.
    apply (num_le_lt_trans _ (snd (span A))); [|exact Hle].
    apply (proper_start_lt_end A), (elementary_nodes_proper rows A Hne HA).
Qed.

Lemma fold_left_keeps {S X : Type} (P : S -> Prop) (f : S -> X -> S) :
  (forall s x, P s -> P (f s x)) ->
  forall l s, P s -> P (fold_left f l s).
Proof.
  intros Hf l. induction l as [|x l IH]; intros s Hs; [exact Hs|].
  cbn [fold_left]. apply IH, Hf, Hs.
Qed.

Lemma sorted_nil (items : list Node) : sorted items = [] -> items = [].
Proof.
  destruct items as [|x l]; [reflexivity|]. intros H.
  assert (Hin : In x (sorted (x :: l))) by (apply sorted_In; left; reflexivity).
  rewrite H in Hin. destruct Hin.
Qed.

(** ** Entry and exit nodes ([create_entry_and_exit_nodes]) *)

(** The graph with its entry and exit nodes: the nodes are those of the
    old graph with START and END, the new edges leave START or enter
    END, and START and END are linked to every node. *)
Lemma create_entry_and_exit_spec (graph : DiGraph) (items : list Node) :
  items <> [] ->
  (forall x, In x items -> has_node graph x = true) ->
  exists g',
    create_entry_and_exit_nodes graph items = Some g' /\
    (forall n, has_node g' n
               = has_node graph n || Node_eq n START || Node_eq n END) /\
    (forall u v, edge graph u v -> edge g' u v) /\
    (forall u v, edge g' u v ->
       edge graph u v \/
       (Node_eq u START = true /\
        (Node_eq v START = false \/ node_mem v items = true)) \/
       (Node_eq v END = true /\
        (Node_eq u END = false \/ node_mem u items = true))) /\
    (wf_graph graph = true -> wf_graph g' = true) /\
    (edges_distinct (edges graph) = true -> edges_distinct (edges g') = true) /\
    spanned g'.
Proof.
  intros Hnil Hitems. unfold create_entry_and_exit_nodes. cbv zeta.
  destruct (sorted items) as [|first rest] eqn:Es;
    [exfalso; apply Hnil, sorted_nil, Es|].
  set (g0 := add_nodes_from graph [START; END]).
  set (g1 := add_edge g0 START first).
  set (L1 := filter (fun n => negb (Node_eq n START)
                              && negb (node_mem n (descendants g1 START)))
                    (nodes g1)).
  set (g2 := fold_left (fun g node => add_edge g START node) L1 g1).
  set (lst := last (first :: rest) first).
  set (g3 := add_edge g2 lst END).
  set (L3 := filter (fun n => negb (Node_eq n END)
                              && negb (node_mem n (ancestors g3 END)))
                    (nodes g3)).
  eexists. split; [reflexivity|].
  assert (Hfi : In first items)
    by (apply sorted_In; rewrite Es; left; reflexivity).
  assert (Hli : In lst items)
    by (apply sorted_In; rewrite Es; apply last_In_cons).
  assert (Hfirst : has_node graph first = true).
  { apply Hitems, sorted_In. rewrite Es. left. reflexivity. }
  assert (Hlast : has_node graph lst = true).
  { apply Hitems, sorted_In. rewrite Es. apply last_In_cons. }
  assert (N0 : forall n, has_node g0 n = has_node graph n || Node_eq n START
                                         || Node_eq n END).
  { intros n. unfold g0, add_nodes_from. cbn [fold_left].
    rewrite !add_node_has_node. reflexivity. }
  assert (S0 : has_node g0 START = true)
    by (rewrite N0, Node_eq_refl, orb_true_r; reflexivity).
  assert (E0 : has_node g0 END = true)
    by (rewrite N0, Node_eq_refl, orb_true_r; reflexivity).
  assert (N1 : forall n, has_node g1 n = has_node g0 n).
  { intros n. unfold g1. rewrite add_edge_has_node.
    destruct (Node_eq n START) eqn:E1.
    - rewrite (has_node_respects g0 n START E1), S0. reflexivity.
    - destruct (Node_eq n first) eqn:E2; [|rewrite !orb_false_r; reflexivity].
      rewrite N0, (has_node_respects graph n first E2), Hfirst. reflexivity. }
  assert (HL1 : forall x, In x L1 -> has_node g1 x = true).
  { intros x Hx. apply filter_In in Hx. apply has_node_iff.
    exists x. split; [tauto|apply Node_eq_refl]. }
  assert (N2 : forall n, has_node g2 n = has_node g1 n).
  { intros n. unfold g2. apply fold_add_edge_from_nodes; [|exact HL1].
    rewrite N1. exact S0. }
  assert (N3 : forall n, has_node g3 n = has_node g2 n).
  { intros n. unfold g3. rewrite add_edge_has_node.
    destruct (Node_eq n END) eqn:E1.
    - rewrite (has_node_respects g2 n END E1), N2, N1, E0. reflexivity.
    - destruct (Node_eq n lst) eqn:E2; [|rewrite !orb_false_r; reflexivity].
      rewrite N2, N1, N0, (has_node_respects graph n lst E2), Hlast. reflexivity. }
  assert (HL3 : forall x, In x L3 -> has_node g3 x = true).
  { intros x Hx. apply filter_In in Hx. apply has_node_iff.
    exists x. split; [tauto|apply Node_eq_refl]. }
  set (g4 := fold_left (fun g node => add_edge g node END) L3 g3).
  assert (N4 : forall n, has_node g4 n = has_node g3 n).
  { intros n. unfold g4. apply fold_add_edge_to_nodes; [|exact HL3].
    rewrite N3, N2, N1. exact E0. }
  assert (M01 : forall u v, edge g0 u v -> edge g1 u v).
  { intros u v Huv. unfold edge, g1 in *. rewrite add_edge_has_edge, Huv. reflexivity. }
  assert (M12 : forall u v, edge g1 u v -> edge g2 u v).
  { intros u v Huv. unfold edge, g2 in *. rewrite fold_add_edge_from, Huv. reflexivity. }
  assert (M23 : forall u v, edge g2 u v -> edge g3 u v).
  { intros u v Huv. unfold edge, g3 in *. rewrite add_edge_has_edge, Huv. reflexivity. }
  assert (M34 : forall u v, edge g3 u v -> edge g4 u v).
  { intros u v Huv. unfold edge, g4 in *. rewrite fold_add_edge_to, Huv. reflexivity. }
  assert (G0 : forall u v, has_edge g0 u v = has_edge graph u v).
  { intros u v. unfold has_edge, g0. rewrite add_nodes_from_edges. reflexivity. }
  split; [|split; [|split; [|split; [|split]]]].
  - intros n. rewrite N4, N3, N2, N1. apply N0.
  - intros u v Huv. apply M34, M23, M12, M01. unfold edge. rewrite G0. exact Huv.
  - intros u v Huv. unfold edge in Huv. fold g4 in Huv. unfold g4 in Huv.
    rewrite fold_add_edge_to in Huv. unfold g3 in Huv.
    rewrite add_edge_has_edge in Huv. unfold g2 in Huv.
    rewrite fold_add_edge_from in Huv. unfold g1 in Huv.
    rewrite add_edge_has_edge, G0 in Huv.
    apply orb_true_iff in Huv. destruct Huv as [Huv|Huv].
    + apply orb_true_iff in Huv. destruct Huv as [Huv|Huv].
      * apply orb_true_iff in Huv. destruct Huv as [Huv|Huv].
        -- apply orb_true_iff in Huv. destruct Huv as [Huv|Huv].
           ++ left. exact Huv.
           ++ apply andb_true_iff in Huv. destruct Huv as [Hu Hv].
              right. left. split; [exact Hu|]. right.
              apply node_mem_iff. exists first. auto.
        -- apply andb_true_iff in Huv. destruct Huv as [Hu Hv].
           right. left. split; [exact Hu|]. left.
           apply node_mem_iff in Hv. destruct Hv as [m [Hm Evm]].
           apply filter_In in Hm. destruct Hm as [_ Hm].
           apply andb_true_iff in Hm. destruct Hm as [Hm _].
           apply negb_true_iff in Hm. rewrite (Node_eq_l v m START Evm). exact Hm.
      * apply andb_true_iff in Huv. destruct Huv as [Hu Hv].
        right. right. split; [exact Hv|]. right.
        apply node_mem_iff. exists lst. auto.
    + apply andb_true_iff in Huv. destruct Huv as [Hu Hv].
      right. right. split; [exact Hv|]. left.
      apply node_mem_iff in Hu. destruct Hu as [m [Hm Eum]].
      apply filter_In in Hm. destruct Hm as [_ Hm].
      apply andb_true_iff in Hm. destruct Hm as [Hm _].
      apply negb_true_iff in Hm. rewrite (Node_eq_l u m END Eum). exact Hm.
  - intros Hwf. fold g4. unfold g4.
    apply (fold_left_keeps (fun g => wf_graph g = true));
      [intros s x Hs; apply add_edge_wf, Hs|].
    apply add_edge_wf.
    apply (fold_left_keeps (fun g => wf_graph g = true));
      [intros s x Hs; apply add_edge_wf, Hs|].
    apply add_edge_wf, add_nodes_from_wf, Hwf.
  - intros Hd. fold g4. unfold g4.
    apply (fold_left_keeps (fun g => edges_distinct (edges g) = true));
      [intros s x Hs; apply add_edge_distinct, Hs|].
    apply add_edge_distinct.
    apply (fold_left_keeps (fun g => edges_distinct (edges g) = true));
      [intros s x Hs; apply add_edge_distinct, Hs|].
    apply add_edge_distinct. unfold g0. rewrite add_nodes_from_edges. exact Hd.
  - fold g4. split; [rewrite N4, N3, N2, N1; exact S0|].
    split; [rewrite N4, N3, N2, N1; exact E0|]. split.
    + intros n Hn Hne. rewrite N4, N3, N2 in Hn.
      apply has_node_iff in Hn. destruct Hn as [m [Hm Enm]].
      assert (Hms : Node_eq m START = false).
      { rewrite <- (Node_eq_l n m START Enm). exact Hne. }
      destruct (node_mem m (descendants g1 START)) eqn:Ed.
      * apply node_mem_iff in Ed. destruct Ed as [d [Hd Emd]].
        apply descendants_sound in Hd.
        apply (reachable_mono g1 g4); [intros u v Huv; apply M34, M23, M12, Huv|].
        apply (reachable_respects_r g1 START d n Hd).
        rewrite Node_eq_sym. rewrite (Node_eq_l n m d Enm). exact Emd.
      * apply t_step. apply M34, M23. unfold edge, g2.
        rewrite fold_add_edge_from, Node_eq_refl. cbn [andb].
        assert (Hin : node_mem n L1 = true); [|rewrite Hin; apply orb_true_r].
        apply node_mem_iff. exists m. split; [|exact Enm].
        apply filter_In. split; [exact Hm|]. rewrite Hms, Ed. reflexivity.
    + intros n Hn Hne. rewrite N4 in Hn.
      apply has_node_iff in Hn. destruct Hn as [m [Hm Enm]].
      assert (Hme : Node_eq m END = false).
      { rewrite <- (Node_eq_l n m END Enm). exact Hne. }
      destruct (node_mem m (ancestors g3 END)) eqn:Ed.
      * apply node_mem_iff in Ed. destruct Ed as [d [Hd Emd]].
        apply ancestors_sound in Hd.
        apply (reachable_mono g3 g4 M34).
        apply (reachable_respects_l g3 d n END Hd).
        rewrite Node_eq_sym. rewrite (Node_eq_l n m d Enm). exact Emd.
      * apply t_step. unfold edge, g4.
        rewrite fold_add_edge_to, Node_eq_refl, andb_true_r.
        assert (Hin : node_mem n L3 = true); [|rewrite Hin; apply orb_true_r].
        apply node_mem_iff. exists m. split; [|exact Enm].
        apply filter_In. split; [exact Hm|]. rewrite Hme, Ed. reflexivity.
Qed.

(** X18 ([create_entry_and_exit_nodes]): for a non-empty list of items
    that are nodes of the graph, the function returns a graph with the
    nodes START and END in which every edge of the old graph is kept,
    every node other than START can be reached from START, and END can
    be reached from every node other than END. *)
Theorem entry_and_exit_reach_every_node (graph : DiGraph) (items : list Node)
    (g' : DiGraph) :
  (forall x, In x items -> has_node graph x = true) ->
  create_entry_and_exit_nodes graph items = Some g' ->
  has_node g' START = true /\ has_node g' END = true /\
  (forall u v, edge graph u v -> edge g' u v) /\
  (forall n, has_node g' n = true -> Node_eq n START = false ->
             reachable g' START n) /\
  (forall n, has_node g' n = true -> Node_eq n END = false ->
             reachable g' n END).
Proof.
  intros Hitems H.
  assert (Hnil : items <> []).
  { intros ->. discriminate H. }
  destruct (create_entry_and_exit_spec graph items Hnil Hitems)
    as [g2 [E [_ [Hsub [_ [_ [_ [Hs [He [Hfrom Hto]]]]]]]]]].
  rewrite H in E. injection E as <-. auto.
Qed.

(** X18, witness: the example before its entry and exit nodes. *)
Lemma entry_and_exit_reach_every_node_witness :
  create_entry_and_exit_nodes example_candidate_graph
    [noun_0_5; noun_9_14; verb_5_9] = Some example_raw_graph /\
  has_node example_raw_graph START = true /\
  has_node example_raw_graph END = true /\
  (forall u v, edge example_candidate_graph u v -> edge example_raw_graph u v) /\
  (forall n, has_node example_raw_graph n = true -> Node_eq n START = false ->
             reachable example_raw_graph START n) /\
  (forall n, has_node example_raw_graph n = true -> Node_eq n END = false ->
             reachable example_raw_graph n END).
Proof.
  split; [vm_compute; reflexivity|].
  apply (entry_and_exit_reach_every_node example_candidate_graph
           [noun_0_5; noun_9_14; verb_5_9] example_raw_graph).
  - intros x [<-|[<-|[<-|[]]]]; reflexivity.
  - vm_compute. reflexivity.
Defined.

(** ** Blank nodes keep the graph well formed *)

Lemma blank_step_wf (x s : Node) (g g' : DiGraph) :
  wf_graph g = true -> blank_step x (Some g) s = Some g' -> wf_graph g' = true.
Proof.
  intros Hwf H. unfold blank_step in H. cbv zeta in H.
  destruct (far_apart x s).
  - apply (remove_edge_wf _ g' x s) in H; [exact H|].
    apply add_edges_from_wf, add_node_wf, Hwf.
  - injection H as <-. exact Hwf.
Qed.

Lemma add_blanks_wf (graph g' : DiGraph) :
  wf_graph graph = true -> add_blanks graph = Some g' -> wf_graph g' = true.
Proof.
  intros Hwf H. rewrite add_blanks_unfold in H. revert H.
  apply (fold_left_option_inv (fun g => wf_graph g = true)); [| |exact Hwf].
  - intros g x g1 Hg H. cbv beta in H.
    destruct (takes_blanks x); [|injection H as <-; exact Hg].
    revert H. apply (fold_left_option_inv (fun g => wf_graph g = true));
      [| |exact Hg].
    + intros g2 s g3 Hg2 H. apply (blank_step_wf x s g2 g3 Hg2 H).
    + intros s. reflexivity.
  - intros x. reflexivity.
Qed.

Lemma add_blanks_spec (graph : DiGraph) :
  wf_graph graph = true -> edges_distinct (edges graph) = true ->
  exists g',
    add_blanks graph = Some g' /\
    wf_graph g' = true /\ edges_distinct (edges g') = true /\
    (forall u v, edge g' u v <->
       (edge graph u v /\ ~ replaced graph u v) \/ through_blank graph u v) /\
    (forall n, has_node g' n = true <->
       has_node graph n = true \/
       exists a b, replaced graph a b /\ Node_eq n (blank_between a b) = true).
Proof.
  intros Hwf Hd. pose proof (proj1 (wf_graph_iff graph) Hwf) as [Hnd _].
  destruct (add_blanks_fold (nodes graph) graph Hnd Hd) as [g' [E [Hd' [He Hn]]]].
  exists g'. split; [rewrite add_blanks_unfold; exact E|].
  split; [apply (add_blanks_wf graph g' Hwf); rewrite add_blanks_unfold; exact E|].
  split; [exact Hd'|]. split.
  - intros u v. rewrite He. split.
    + intros [[H Hg]|[a [b [_ [Hr Hc]]]]].
      * left. split; [exact H|]. intros [_ [Ht Hf]].
        destruct (has_edge_nodes graph u v Hwf H) as [Hu _].
        apply has_node_In in Hu. destruct Hu as [a [Ha Eu]].
        apply Hg. exists a. auto.
      * right. exists a, b. auto.
    + intros [[H Hr]|[a [b [Hr Hc]]]].
      * left. split; [exact H|]. intros [a [_ [_ [Ht Hf]]]].
        apply Hr. split; [exact H|]. auto.
      * right. destruct Hr as [Hab [Ht Hf]].
        destruct (has_edge_nodes graph a b Hwf Hab) as [Ha _].
        apply has_node_In in Ha. destruct Ha as [a' [Ha' Ea]].
        pose proof (blank_between_respects a a' b b Ea (Node_eq_refl b)) as Hbl.
        exists a', b. split; [exact Ha'|].
        split; [apply (replaced_respects graph a a' b Ea); split; auto|].
        destruct Hc as [[Hu Hv]|[Hu Hv]].
        -- left. split; [apply (Node_eq_trans u a a' Hu Ea)|].
           apply (Node_eq_trans v _ _ Hv Hbl).
        -- right. split; [apply (Node_eq_trans u _ _ Hu Hbl)|exact Hv].
  - intros n. rewrite Hn. split.
    + intros [H|[a [b [_ [Hr Hc]]]]]; [left; exact H|].
      destruct Hc as [H|[H|H]].
      * right. exists a, b. auto.
      * left. destruct Hr as [Hab _].
        destruct (has_edge_nodes graph a b Hwf Hab) as [Ha _].
        rewrite (has_node_respects graph n a H). exact Ha.
      * left. destruct Hr as [Hab _].
        destruct (has_edge_nodes graph a b Hwf Hab) as [_ Hb].
        rewrite (has_node_respects graph n b H). exact Hb.
    + intros [H|[a [b [Hr Hc]]]]; [left; exact H|].
      right. destruct Hr as [Hab [Ht Hf]].
      destruct (has_edge_nodes graph a b Hwf Hab) as [Ha _].
      apply has_node_In in Ha. destruct Ha as [a' [Ha' Ea]].
      pose proof (blank_between_respects a a' b b Ea (Node_eq_refl b)) as Hbl.
      exists a', b. split; [exact Ha'|].
      split; [apply (replaced_respects graph a a' b Ea); split; auto|].
      left. apply (Node_eq_trans n _ _ Hc Hbl).
Qed.

(** X19 ([add_blanks]): on a graph as networkx keeps it (distinct node
    keys, no edge twice, edges between nodes of the graph) the function
    never raises, and its result is the old graph with every edge
    [a -> b] replaced by [a -> blank -> b] when [a] is no blank and not
    START, [b] is not END and more than one character lies between the
    end of [a] and the start of [b]; the blank node is labelled ["_"]
    and spans that gap.  All other edges are kept, among them those over
    a gap of no or one character, and nothing else is added. *)
Theorem add_blanks_replaces_wide_gaps (graph : DiGraph) :
  wf_graph graph = true -> edges_distinct (edges graph) = true ->
  exists g',
    add_blanks graph = Some g' /\
    (forall u v, edge g' u v <->
       (edge graph u v /\ ~ replaced graph u v) \/ through_blank graph u v) /\
    (forall n, has_node g' n = true <->
       has_node graph n = true \/
       exists a b, replaced graph a b /\ Node_eq n (blank_between a b) = true).
Proof.
  intros Hwf Hd.
  destruct (add_blanks_spec graph Hwf Hd) as [g' [E [_ [_ [He Hn]]]]].
  exists g'. auto.
Qed.

(** X19, witness: X@(0,1) -> Z@(5,6) becomes X -> _@(1,5) -> Z. *)
Lemma add_blanks_replaces_wide_gaps_witness :
  (wf_graph gap_graph = true /\ edges_distinct (edges gap_graph) = true) /\
  add_blanks gap_graph
  = Some (mkDiGraph [x_0_1; z_5_6; blank_between x_0_1 z_5_6]
                    [(x_0_1, blank_between x_0_1 z_5_6);
                     (blank_between x_0_1 z_5_6, z_5_6)]) /\
  exists g',
    add_blanks gap_graph = Some g' /\
    (forall u v, edge g' u v <->
       (edge gap_graph u v /\ ~ replaced gap_graph u v) \/
       through_blank gap_graph u v) /\
    (forall n, has_node g' n = true <->
       has_node gap_graph n = true \/
       exists a b, replaced gap_graph a b /\
                   Node_eq n (blank_between a b) = true).
Proof.
  split; [split; reflexivity|]. split; [vm_compute; reflexivity|].
  exact (add_blanks_replaces_wide_gaps gap_graph eq_refl eq_refl).
Defined.

(** ** The stages of [graph_from_document] *)

Lemma edges_distinct_filter (f : Node * Node -> bool) (l : list (Node * Node)) :
  edges_distinct l = true -> edges_distinct (filter f l) = true.
Proof.
  induction l as [|e l IH]; [reflexivity|].
  cbn [edges_distinct filter]. rewrite andb_true_iff, negb_true_iff.
  intros [H1 H2]. destruct (f e); [|apply IH, H2].
  cbn [edges_distinct]. rewrite (IH H2), andb_true_r. apply negb_true_iff.
  destruct (existsb (edge_eq e) (filter f l)) eqn:E; [|reflexivity].
  apply existsb_exists in E. destruct E as [x [Hx E]].
  apply filter_In in Hx. destruct Hx as [Hx _].
  assert (existsb (edge_eq e) l = true) by (apply existsb_exists; exists x; auto).
  congruence.
Qed.

Lemma Node_eq_start (a b : Node) :
  Node_eq a b = true -> Node_start a = Node_start b.
Proof.
  intros H. apply Node_eq_iff in H. destruct H as [H _].
  unfold Node_start. rewrite H. reflexivity.
Qed.

Lemma remove_shortcuts_keeps (g : DiGraph) :
  base_inv g -> spanned g ->
  exists g1,
    remove_shortcuts g = Some g1 /\ base_inv g1 /\ spanned g1 /\
    (forall u v, edge g1 u v -> is_shortcut g1 u v = false).
Proof.
  intros [Hwf [Hd [Hn Hf]]] [Hs [He [Hfrom Hto]]].
  pose proof (forward_acyclic g Hf) as Hac.
  eexists. split; [apply remove_shortcuts_spec, Hwf|].
  split; [|split].
  - split; [apply reduced_wf, Hwf|]. split; [|split].
    + cbn [edges]. apply edges_distinct_filter, Hd.
    + exact Hn.
    + intros u v H. apply Hf. apply (reduced_edge_sub g u v H).
  - split; [exact Hs|]. split; [exact He|]. split.
    + intros n H1 H2. apply (reduced_reachable g Hwf Hac). apply Hfrom; assumption.
    + intros n H1 H2. apply (reduced_reachable g Hwf Hac). apply Hto; assumption.
  - intros u v. apply (reduced_no_shortcut g).
Qed.

Lemma replaced_proper (g : DiGraph) (a b : Node) :
  base_inv g -> replaced g a b ->
  has_node g a = true /\ has_node g b = true /\
  Node_eq a START = false /\ Node_eq b END = false /\
  proper (blank_between a b) /\
  num_ltb (Node_start a) (Node_start (blank_between a b)) = true /\
  num_ltb (Node_start (blank_between a b)) (Node_start b) = true.
Proof.
  intros [Hwf [Hd [Hn Hf]]] [Hab [Ht Hfar]].
  destruct (has_edge_nodes g a b Hwf Hab) as [Ha Hb].
  pose proof (Hf a b Hab) as Hlt.
  unfold takes_blanks in Ht. apply andb_true_iff in Ht. destruct Ht as [_ Ht].
  apply negb_true_iff in Ht.
  unfold far_apart in Hfar. apply andb_true_iff in Hfar.
  destruct Hfar as [Hgap Hbe]. apply negb_true_iff in Hbe.
  assert (Hpa : proper a).
  { destruct (Hn a Ha) as [H|[H|H]]; [congruence| |exact H].
    rewrite (Node_eq_start a END H) in Hlt. discriminate Hlt. }
  assert (Hpb : proper b).
  { destruct (Hn b Hb) as [H|[H|H]]; [|congruence|exact H].
    rewrite (Node_eq_start b START H) in Hlt.
    destruct (Node_start a); discriminate Hlt. }
  destruct Hpa as [sa [ea [Esa Hla]]]. destruct Hpb as [sb [eb [Esb Hlb]]].
  unfold blank_between in *. unfold Node_start, Node_end in *. cbn [span] in *.
  rewrite Esa, Esb in *. cbn [fst snd gap_gt_one num_ltb] in *.
  apply Z.ltb_lt in Hgap.
  split; [exact Ha|]. split; [exact Hb|]. split; [exact Ht|].
  split; [exact Hbe|]. split; [|split].
  - exists ea, sb. split; [reflexivity|lia].
  - apply Z.ltb_lt. lia.
  - apply Z.ltb_lt. lia.
Qed.

Lemma add_blanks_keeps (g : DiGraph) :
  base_inv g -> spanned g ->
  exists g', add_blanks g = Some g' /\ base_inv g' /\ spanned g'.
Proof.
  intros Hinv Hsp. pose proof Hinv as [Hwf [Hd [Hn Hf]]].
  destruct Hsp as [Hs [He [Hfrom Hto]]].
  destruct (add_blanks_spec g Hwf Hd) as [g' [E [Hwf' [Hd' [Hedge Hnode]]]]].
  exists g'. split; [exact E|].
  assert (Hthrough_l : forall a b, replaced g a b -> edge g' a (blank_between a b)).
  { intros a b Hr. apply Hedge. right. exists a, b. split; [exact Hr|].
    left. split; apply Node_eq_refl. }
  assert (Hthrough_r : forall a b, replaced g a b -> edge g' (blank_between a b) b).
  { intros a b Hr. apply Hedge. right. exists a, b. split; [exact Hr|].
    right. split; apply Node_eq_refl. }
  assert (Hmono : forall x y, reachable g x y -> reachable g' x y).
  { intros x y H. induction H as [x y H|x y z _ IH1 _ IH2];
      [|apply (t_trans _ _ _ _ _ IH1 IH2)].
    destruct (takes_blanks x) eqn:Et.
    - destruct (far_apart x y) eqn:Ef.
      + assert (Hr : replaced g x y) by (split; [exact H|split; assumption]).
        apply t_trans with (blank_between x y); apply t_step; auto.
      + apply t_step, Hedge. left. split; [exact H|].
        intros [_ [_ Hc]]. congruence.
    - apply t_step, Hedge. left. split; [exact H|].
      intros [_ [Hc _]]. congruence. }
  split.
  - split; [exact Hwf'|]. split; [exact Hd'|]. split.
    + intros n H. apply Hnode in H. destruct H as [H|[a [b [Hr Hb]]]];
        [apply Hn, H|].
      right. right. apply (proper_respects (blank_between a b) n).
      * rewrite Node_eq_sym. exact Hb.
      * apply (replaced_proper g a b Hinv Hr).
    + intros u v H. apply Hedge in H.
      destruct H as [[H _]|[a [b [Hr Hc]]]]; [apply Hf, H|].
      destruct (replaced_proper g a b Hinv Hr) as [_ [_ [_ [_ [_ [H1 H2]]]]]].
      destruct Hc as [[Hu Hv]|[Hu Hv]];
        rewrite (Node_eq_start u _ Hu), (Node_eq_start v _ Hv); assumption.
  - split; [apply Hnode; left; exact Hs|].
    split; [apply Hnode; left; exact He|]. split.
    + intros n H Hne. apply Hnode in H. destruct H as [H|[a [b [Hr Hb]]]].
      * apply Hmono, Hfrom; assumption.
      * destruct (replaced_proper g a b Hinv Hr) as [Ha [_ [Has _]]].
        apply t_trans with a; [apply Hmono, Hfrom; assumption|].
        apply (reachable_respects_r g' a (blank_between a b) n).
        -- apply t_step, Hthrough_l, Hr.
        -- rewrite Node_eq_sym. exact Hb.
    + intros n H Hne. apply Hnode in H. destruct H as [H|[a [b [Hr Hb]]]].
      * apply Hmono, Hto; assumption.
      * destruct (replaced_proper g a b Hinv Hr) as [_ [Hbn [_ [Hbe _]]]].
        apply t_trans with b; [|apply Hmono, Hto; assumption].
        apply (reachable_respects_l g' (blank_between a b) n b).
        -- apply t_step, Hthrough_r, Hr.
        -- rewrite Node_eq_sym. exact Hb.
Qed.

Lemma graph_from_document_unfold (rows : Document) :
  graph_from_document rows
  = (es <- document_edges rows ;;
     let items := get_elementary_nodes rows in
     graph <- create_entry_and_exit_nodes
                (add_edges_from (add_nodes_from empty_graph items) es) items ;;
     graph <- remove_shortcuts graph ;;
     graph <- add_blanks graph ;;
     remove_shortcuts graph).
Proof.
  unfold graph_from_document, document_edges.
  destruct (get_dense_matrix rows) as [res|]; [|reflexivity].
  destruct (matrix_to_dataframe res (get_elementary_nodes rows)) as [df|];
    reflexivity.
Qed.

(** ** The edges of the base graph follow the text *)

Lemma remove_shortcuts_follows (g g1 : DiGraph) :
  wf_graph g = true -> remove_shortcuts g = Some g1 -> follows g -> follows g1.
Proof.
  intros Hwf E Hf. rewrite (remove_shortcuts_spec g Hwf) in E. injection E as <-.
  intros u v H. apply Hf. apply (reduced_edge_sub g u v H).
Qed.

Lemma add_blanks_follows (g g' : DiGraph) :
  wf_graph g = true -> edges_distinct (edges g) = true ->
  add_blanks g = Some g' -> follows g -> follows g'.
Proof.
  intros Hwf Hd E Hf.
  destruct (add_blanks_spec g Hwf Hd) as [g2 [E2 [_ [_ [Hedge _]]]]].
  rewrite E in E2. injection E2 as <-.
  intros u v H. apply Hedge in H.
  destruct H as [[H _]|[a [b [_ [[Hu Hv]|[Hu Hv]]]]]]; [apply Hf, H| |].
  - apply Node_eq_iff in Hu, Hv. destruct Hu as [Hu _]. destruct Hv as [Hv _].
    unfold apart, Node_start, Node_end. rewrite Hu, Hv.
    unfold blank_between. cbn [span fst]. apply num_leb_refl.
  - apply Node_eq_iff in Hu, Hv. destruct Hu as [Hu _]. destruct Hv as [Hv _].
    unfold apart, Node_start, Node_end. rewrite Hu, Hv.
    unfold blank_between. cbn [span snd]. apply num_leb_refl.
Qed.

(** [graph_from_document] stops on the empty document and on a document
    with an overtaken candidate. *)
Lemma graph_from_document_none (rows : Document) :
  spans_nonempty rows = true ->
  doc_spans rows = [] \/ crowded (get_elementary_nodes rows) = true ->
  graph_from_document rows = None.
Proof.
  intros Hne. rewrite graph_from_document_unfold.
  intros [Hnil|Hc]; [|rewrite (document_edges_crowded rows Hne Hc); reflexivity].
  destruct (document_edges rows) as [es|]; [|reflexivity]. cbv zeta.
  assert (Hitems : get_elementary_nodes rows = []).
  { apply length_zero_iff_nil. rewrite elementary_nodes_length, Hnil. reflexivity. }
  rewrite Hitems. unfold create_entry_and_exit_nodes. cbv zeta.
  cbn [sorted fold_right]. reflexivity.
Qed.

(** The graph of the items and the candidate edges with its entry and
    exit nodes. *)
Lemma entry_graph_spec (rows : Document) (es : list (Node * Node)) :
  spans_nonempty rows = true -> document_edges rows = Some es ->
  get_elementary_nodes rows <> [] ->
  exists g1,
    create_entry_and_exit_nodes
      (add_edges_from (add_nodes_from empty_graph (get_elementary_nodes rows)) es)
      (get_elementary_nodes rows) = Some g1 /\
    base_inv g1 /\ spanned g1 /\ follows g1 /\
    (forall n, has_node g1 n
               = node_mem n (get_elementary_nodes rows)
                 || Node_eq n START || Node_eq n END) /\
    (forall u v, edge g1 u v ->
       existsb (edge_eq (u, v)) es = true \/
       Node_eq u START = true \/ Node_eq v END = true).
Proof.
  intros Hne Hes Hnil.
  destruct (candidate_graph_inv rows es Hne Hes) as [Hinv0 [Hitems Hprop]].
  set (items := get_elementary_nodes rows) in *.
  set (g0 := add_edges_from (add_nodes_from empty_graph items) es) in *.
  assert (He0 : forall u v, has_edge g0 u v = existsb (edge_eq (u, v)) es).
  { intros u v. unfold g0. rewrite add_edges_from_has_edge.
    unfold has_edge at 1. rewrite add_nodes_from_edges. reflexivity. }
  assert (Hmem0 : forall x, In x items -> node_mem x items = true).
  { intros x Hx. apply node_mem_iff. exists x. split; [exact Hx|apply Node_eq_refl]. }
  assert (Hn0 : forall n, has_node g0 n = node_mem n items).
  { intros n. unfold g0. rewrite add_edges_from_has_node.
    - rewrite add_nodes_from_has_node. reflexivity.
    - intros [A B] He.
      destruct (document_edges_forward rows Hne es Hes A B He) as [HA [HB _]].
      cbn [fst snd].
      rewrite !add_nodes_from_has_node, (Hmem0 A HA), (Hmem0 B HB). auto. }
  assert (Hfol0 : follows g0).
  { intros u v H. unfold edge in H. rewrite He0 in H. apply existsb_exists in H.
    destruct H as [[A B] [He E]]. apply edge_eq_iff in E. cbn [fst snd] in E.
    destruct E as [Eu Ev].
    destruct (document_edges_forward rows Hne es Hes A B He) as [_ [_ Hle]].
    apply Node_eq_iff in Eu, Ev. destruct Eu as [Eu _]. destruct Ev as [Ev _].
    unfold apart, Node_start, Node_end in *. rewrite Eu, Ev. exact Hle. }
  destruct (create_entry_and_exit_spec g0 items Hnil Hitems)
    as [g1 [E1 [Hn1 [Hsub [Hnew [Hwf1 [Hd1 Hsp1]]]]]]].
  exists g1. split; [exact E1|]. destruct Hinv0 as [Hwf0 [Hd0 [_ Hf0]]].
  assert (Hinv1 : base_inv g1).
  { split; [apply Hwf1, Hwf0|]. split; [apply Hd1, Hd0|].
    assert (Hnodes : forall n, has_node g1 n = true ->
              Node_eq n START = true \/ Node_eq n END = true \/ proper n).
    { intros n H. rewrite Hn1 in H. apply orb_true_iff in H.
      destruct H as [H|H]; [|right; left; exact H].
      apply orb_true_iff in H. destruct H as [H|H]; [|left; exact H].
      right. right. apply Hprop, H. }
    assert (Hmem : forall n, node_mem n items = true -> proper n).
    { intros n H. apply Hprop. rewrite Hn0. exact H. }
    split; [exact Hnodes|].
    intros u v H. pose proof (has_edge_nodes g1 u v (Hwf1 Hwf0) H) as [Hu Hv].
    destruct (Hnew u v H) as [H0|[[Hus Hv']|[Hve Hu']]]; [apply Hf0, H0| |].
    - rewrite (Node_eq_start u START Hus).
      assert (Hvs : Node_eq v START = false).
      { destruct Hv' as [Hv'|Hv']; [exact Hv'|].
        apply (proper_not_sentinel v (Hmem v Hv')). }
      destruct (Hnodes v Hv) as [Hc'|[Hc'|[s [e [Hc' _]]]]]; [congruence| |].
      + rewrite (Node_eq_start v END Hc'). reflexivity.
      + unfold Node_start at 2. rewrite Hc'. reflexivity.
    - rewrite (Node_eq_start v END Hve).
      assert (Hue : Node_eq u END = false).
      { destruct Hu' as [Hu'|Hu']; [exact Hu'|].
        apply (proper_not_sentinel u (Hmem u Hu')). }
      destruct (Hnodes u Hu) as [Hc'|[Hc'|[s [e [Hc' _]]]]]; [|congruence|].
      + rewrite (Node_eq_start u START Hc'). reflexivity.
      + unfold Node_start at 1. rewrite Hc'. reflexivity. }
  split; [exact Hinv1|]. split; [exact Hsp1|]. split; [|split].
  - intros u v H. destruct (Hnew u v H) as [H0|[[Hus _]|[Hve _]]].
    + apply Hfol0, H0.
    + unfold apart. unfold Node_end. apply Node_eq_iff in Hus.
      destruct Hus as [-> _]. cbn [span START snd]. unfold num_leb.
      destruct (Node_start v); reflexivity.
    + unfold apart. unfold Node_start at 1. apply Node_eq_iff in Hve.
      destruct Hve as [-> _]. cbn [span END fst]. unfold num_leb.
      destruct (Node_end u); reflexivity.
  - intros n. rewrite Hn1, Hn0. reflexivity.
  - intros u v H. destruct (Hnew u v H) as [H0|[[Hus _]|[Hve _]]]; [left|auto|auto].
    unfold edge in H0. rewrite He0 in H0. exact H0.
Qed.

(** On every other document with non-empty spans it returns a graph
    with the invariants of the base graph. *)
Lemma graph_from_document_spec (rows : Document) :
  spans_nonempty rows = true ->
  doc_spans rows <> [] -> crowded (get_elementary_nodes rows) = false ->
  exists g,
    graph_from_document rows = Some g /\ base_inv g /\ spanned g /\ follows g /\
    (forall u v, edge g u v -> is_shortcut g u v = false).
Proof.
  intros Hne. rewrite graph_from_document_unfold.
  intros Hdoc Hc.
  destruct (document_edges_all rows Hne Hc) as [res [_ [Hes _]]].
  set (es := map _ _) in Hes. rewrite Hes. cbv zeta.
  assert (Hnil : get_elementary_nodes rows <> []).
  { intros H. apply Hdoc, length_zero_iff_nil.
    rewrite <- elementary_nodes_length, H. reflexivity. }
  destruct (entry_graph_spec rows es Hne Hes Hnil)
    as [g1 [E1 [Hinv1 [Hsp1 [Hfol1 _]]]]].
  rewrite E1.
  destruct (remove_shortcuts_keeps g1 Hinv1 Hsp1) as [g2 [E2 [Hinv2 [Hsp2 _]]]].
  rewrite E2.
  destruct (add_blanks_keeps g2 Hinv2 Hsp2) as [g3 [E3 [Hinv3 Hsp3]]].
  rewrite E3.
  destruct (remove_shortcuts_keeps g3 Hinv3 Hsp3) as [g4 [E4 [Hinv4 [Hsp4 Hno]]]].
  exists g4. split; [exact E4|]. split; [exact Hinv4|]. split; [exact Hsp4|].
  split; [|exact Hno].
  apply (remove_shortcuts_follows g3 g4 (proj1 Hinv3) E4).
  apply (add_blanks_follows g2 g3 (proj1 Hinv2) (proj1 (proj2 Hinv2)) E3).
  apply (remove_shortcuts_follows g1 g2 (proj1 Hinv1) E2). exact Hfol1.
Qed.

(** X20 ([graph_from_document] with [edges_from_dataframe],
    [create_entry_and_exit_nodes], [remove_shortcuts] and [add_blanks]):
    for a document whose spans are not empty, the function returns a
    graph exactly when the document has a span and no candidate
    successor is overtaken (no span that follows some span has a later
    span of its own layer that starts after it has ended).  The empty
    document stops at [items[0]], an overtaken candidate in
    [edges_from_dataframe].  In a returned graph both ends of an edge
    are nodes and no node is listed twice, no path leads back to its
    first node, START and END are nodes, every node other than START can
    be reached from START, END can be reached from every node other than
    END, and no edge is doubled by a path of two edges. *)
Theorem graph_from_document_links_every_node (rows : Document) :
  spans_nonempty rows = true ->
  (doc_spans rows = [] \/ crowded (get_elementary_nodes rows) = true ->
   graph_from_document rows = None) /\
  (doc_spans rows <> [] -> crowded (get_elementary_nodes rows) = false ->
   exists g,
     graph_from_document rows = Some g /\
     wf_graph g = true /\ acyclic g /\
     has_node g START = true /\ has_node g END = true /\
     (forall n, has_node g n = true -> Node_eq n START = false ->
                reachable g START n) /\
     (forall n, has_node g n = true -> Node_eq n END = false ->
                reachable g n END) /\
     (forall u v, edge g u v -> is_shortcut g u v = false)).
Proof.
  intros Hne. split; [apply graph_from_document_none, Hne|].
  intros Hdoc Hc.
  destruct (graph_from_document_spec rows Hne Hdoc Hc)
    as [g [E [[Hwf [_ [_ Hf]]] [[Hs [He [Hfrom Hto]]] [_ Hno]]]]].
  exists g. split; [exact E|]. split; [exact Hwf|].
  split; [apply forward_acyclic, Hf|]. auto.
Qed.

(** X20, witness: the document of the end-to-end example. *)
Lemma graph_from_document_links_every_node_witness :
  spans_nonempty example_doc = true /\
  doc_spans example_doc <> [] /\
  crowded (get_elementary_nodes example_doc) = false /\
  (doc_spans example_doc = [] \/ crowded (get_elementary_nodes example_doc) = true ->
   graph_from_document example_doc = None) /\
  (doc_spans example_doc <> [] ->
   crowded (get_elementary_nodes example_doc) = false ->
   exists g,
     graph_from_document example_doc = Some g /\
     wf_graph g = true /\ acyclic g /\
     has_node g START = true /\ has_node g END = true /\
     (forall n, has_node g n = true -> Node_eq n START = false ->
                reachable g START n) /\
     (forall n, has_node g n = true -> Node_eq n END = false ->
                reachable g n END) /\
     (forall u v, edge g u v -> is_shortcut g u v = false)).
Proof.
  split; [reflexivity|]. split; [discriminate|]. split; [reflexivity|].
  apply (graph_from_document_links_every_node example_doc eq_refl).
Defined.

(* ================================================================== *)
(** * The selected tree of a document ([choose_parse_tree] after chart
      resolution) *)
(* ================================================================== *)

(** ** The application order ranks the symbols *)

Lemma place_notin (o : list string) (x : string) : ~ In x o -> place o x = 0%nat.
Proof.
  induction o as [|y o IH]; intros H; [reflexivity|]. cbn [place].
  destruct (String.eqb x y) eqn:E.
  - apply String.eqb_eq in E. exfalso. apply H. left. symmetry. exact E.
  - rewrite IH; [reflexivity|]. intros Hin. apply H. right. exact Hin.
Qed.

Lemma place_in (o : list string) (x : string) :
  In x o -> (1 <= place o x <= length o)%nat.
Proof.
  induction o as [|y o IH]; intros H; [destruct H|]. cbn [place Datatypes.length].
  destruct (String.eqb x y) eqn:E; [lia|].
  destruct H as [H|H]; [subst y; rewrite String.eqb_refl in E; discriminate E|].
  specialize (IH H). destruct (place o x); lia.
Qed.

Lemma place_app (o1 o2 : list string) (x : string) :
  ~ In x o1 -> In x o2 -> place (o1 ++ o2) x = (length o1 + place o2 x)%nat.
Proof.
  intros H1 H2. induction o1 as [|y o1 IH]; [reflexivity|].
  rewrite <- app_comm_cons. cbn [place Datatypes.length].
  destruct (String.eqb x y) eqn:E.
  - apply String.eqb_eq in E. exfalso. apply H1. left. symmetry. exact E.
  - rewrite IH by (intros Hin; apply H1; right; exact Hin).
    pose proof (place_in o2 x H2). destruct (place o2 x); [lia|].
    replace (length o1 + S n)%nat with (S (length o1 + n)) by lia. lia.
Qed.

Lemma place_app_l (o1 o2 : list string) (x : string) :
  In x o1 -> place (o1 ++ o2) x = place o1 x.
Proof.
  induction o1 as [|y o1 IH]; intros H; [destruct H|].
  rewrite <- app_comm_cons. cbn [place].
  destruct (String.eqb x y) eqn:E; [reflexivity|].
  destruct H as [H|H]; [subst y; rewrite String.eqb_refl in E; discriminate E|].
  rewrite (IH H). reflexivity.
Qed.

Lemma place_before (o : list string) (d k : string) :
  NoDup o -> before d k o -> (place o d < place o k)%nat.
Proof.
  intros Hnd [o1 [o2 [-> Hd]]].
  assert (Hk : ~ In k o1).
  { apply NoDup_remove_2 in Hnd. intros Hin. apply Hnd. apply in_or_app. left. exact Hin. }
  rewrite (place_app_l o1 _ d Hd).
  rewrite (place_app o1 (k :: o2) k Hk (or_introl eq_refl)).
  cbn [place]. rewrite String.eqb_refl. pose proof (place_in o1 d Hd). lia.
Qed.

Lemma order_loop_before (D0 : list (string * list string)) (n fuel : nat) :
  NoDup (map fst D0) ->
  forall deps order o,
  order_inv D0 deps order ->
  order_loop fuel n deps order = Some o ->
  forall k d, In k o -> (exists v, In (k, v) D0 /\ In d v) -> before d k o.
Proof.
  intros Hk. induction fuel as [|fuel IH]; intros deps order o Hinv E;
    cbn [order_loop] in E.
  - destruct (Nat.eqb (length order) n) eqn:El; [|discriminate E].
    injection E as <-. destruct Hinv as [_ [_ [_ H]]]. exact H.
  - destruct (Nat.eqb (length order) n) eqn:El.
    + injection E as <-. destruct Hinv as [_ [_ [_ H]]]. exact H.
    + destruct (order_pass deps [] order) as [deps' order'] eqn:Ep.
      apply (IH deps' order' o); [|exact E].
      apply (order_inv_pass D0 Hk deps deps' order order' Hinv Ep).
Qed.

(** In a grammar that was built, every symbol of a right-hand side
    stands before the left-hand side in the application order, or is no
    nonterminal at all. *)
Lemma Grammar_init_ranked (fuel : nat) (start : string) (rs : list Rule)
    (g : Grammar) :
  Grammar_init fuel start rs = Some g ->
  rules g = rs /\ start_symbol g = start /\
  forall r d, In r rs -> In d (rhs r) ->
    (place (nonterminal_dependency_order g) d
     < place (nonterminal_dependency_order g) (lhs r))%nat.
Proof.
  unfold Grammar_init, get_rule_application_order. intros H.
  destruct (order_loop fuel _ _ _) as [order|] eqn:E; [|discriminate H].
  injection H as <-. cbn [rules start_symbol nonterminal_dependency_order].
  split; [reflexivity|]. split; [reflexivity|].
  destruct (order_loop_inv (rules_deps rs) _ fuel (rules_deps_NoDup rs)
              _ _ _ (order_inv_init _) E) as [Hlen [Ho Hincl]].
  rewrite rules_deps_keys in Hincl.
  assert (Hall : forall x, In x order <-> In x (Grammar_nonterminals rs)).
  { intros x. split; [apply Hincl|].
    apply (NoDup_length_incl Ho); [lia|exact Hincl]. }
  pose proof (order_loop_before (rules_deps rs) _ fuel (rules_deps_NoDup rs)
                _ _ _ (order_inv_init _) E) as Hbefore.
  intros r d Hr Hd.
  assert (Hl : In (lhs r) order).
  { apply Hall. unfold Grammar_nonterminals. apply str_set_In, in_map, Hr. }
  destruct (in_dec string_dec d (map lhs rs)) as [Hnt|Hnt].
  - apply (place_before order d (lhs r) Ho). apply (Hbefore (lhs r) d Hl).
    apply rules_deps_depends. exists r. auto.
  - rewrite (place_notin order d).
    + pose proof (place_in order (lhs r) Hl). lia.
    + intros Hin. apply Hnt. apply Hall in Hin. unfold Grammar_nonterminals in Hin.
      exact (proj1 (str_set_In _ _) Hin).
Qed.

(** ** The base graph as chart resolution receives it *)

Lemma graph_from_document_geo (rows : Document) (g : DiGraph) :
  graph_from_document rows = Some g -> geo_inv g.
Proof.
  intros H. destruct (spans_nonempty rows) eqn:Hne.
  - destruct (doc_spans rows) as [|ab l] eqn:Ed.
    + rewrite (graph_from_document_none rows Hne (or_introl Ed)) in H. discriminate H.
    + destruct (crowded (get_elementary_nodes rows)) eqn:Ec.
      * rewrite (graph_from_document_none rows Hne (or_intror Ec)) in H.
        discriminate H.
      * destruct (graph_from_document_spec rows Hne) as [g' [E [Hb [_ [Hf _]]]]];
          [rewrite Ed; discriminate|exact Ec|].
        rewrite H in E. injection E as <-.
        destruct Hb as [Hwf [_ [Hn _]]]. split; [exact Hwf|]. split; assumption.
  - unfold graph_from_document in H.
    rewrite (get_dense_matrix_none rows Hne) in H. discriminate H.
Qed.

(** ** Nodes one after the other *)

Lemma proper_offsets (n : Node) :
  proper n -> exists s e, Node_start n = Fin s /\ Node_end n = Fin e /\ s < e.
Proof.
  intros [s [e [Hs Hl]]]. exists s, e. unfold Node_start, Node_end. rewrite Hs. auto.
Qed.

Lemma num_leb_through (a c : num) (s e : Z) :
  num_leb a (Fin s) = true -> s < e -> num_leb (Fin e) c = true ->
  num_leb a c = true.
Proof.
  unfold num_leb. destruct a, c; cbn [num_ltb negb]; try discriminate;
    try reflexivity.
  rewrite !negb_true_iff, !Z.ltb_ge. lia.
Qed.

Lemma num_leb_lt_false (a b : num) (s e : Z) :
  num_leb a b = true -> num_leb b (Fin s) = true -> num_leb (Fin e) a = true ->
  s < e -> False.
Proof.
  unfold num_leb. destruct a, b; cbn [num_ltb negb]; try discriminate.
  rewrite !negb_true_iff, !Z.ltb_ge. lia.
Qed.

Lemma apart_through (x y z : Node) :
  apart x y -> proper y -> apart y z -> apart x z.
Proof.
  unfold apart. intros H1 Hy H2.
  destruct (proper_offsets y Hy) as [s [e [Hs [He Hl]]]]. rewrite Hs in H1.
  rewrite He in H2. exact (num_leb_through _ _ s e H1 Hl H2).
Qed.

Lemma chain_apart_pairs (l : list Node) :
  Forall proper l -> chain apart l -> ForallOrdPairs apart l.
Proof.
  induction l as [|x l IH]; intros Hp Hc; [constructor|].
  inversion Hp as [|? ? Hx Hl]; subst.
  assert (Hc' : chain apart l) by (destruct l; [exact I|apply Hc]).
  specialize (IH Hl Hc'). constructor; [|exact IH].
  destruct l as [|y l]; [constructor|]. destruct Hc as [Hxy _].
  inversion IH as [|? ? Hy _]; subst. inversion Hl as [|? ? Hpy _]; subst.
  constructor; [exact Hxy|]. rewrite Forall_forall in *. intros z Hz.
  apply (apart_through x y z Hxy Hpy (Hy z Hz)).
Qed.

Lemma chain_bounds (l : list Node) :
  forall x,
  Forall proper (x :: l) -> chain apart (x :: l) ->
  forall c, In c (x :: l) ->
    num_leb (Node_start x) (Node_start c) = true /\
    num_leb (Node_end c) (Node_end (last (x :: l) x)) = true.
Proof.
  induction l as [|y l IH]; intros x Hp Hc c Hin.
  - destruct Hin as [<-|[]]. split; apply num_leb_refl.
  - inversion Hp as [|? ? Hx Hl]; subst. destruct Hc as [Hxy Hc].
    specialize (IH y Hl Hc).
    change (last (x :: y :: l) x) with (last (y :: l) x).
    rewrite (last_any l y x y).
    destruct (proper_offsets x Hx) as [sx [ex [Hsx [Hex Hlx]]]].
    inversion Hl as [|? ? Hy _]; subst.
    destruct (proper_offsets y Hy) as [sy [ey [Hsy [Hey Hly]]]].
    unfold apart in Hxy. rewrite Hex, Hsy in Hxy.
    destruct Hin as [<-|Hin].
    + split; [apply num_leb_refl|].
      destruct (IH y (or_introl eq_refl)) as [_ H2]. rewrite Hey in H2.
      rewrite Hex. apply (num_leb_through _ _ sy ey Hxy Hly H2).
    + destruct (IH c Hin) as [H1 H2]. split; [|exact H2].
      rewrite Hsx. rewrite Hsy in H1.
      apply (num_leb_through (Fin sx) _ sx ex); [apply num_leb_refl|exact Hlx|].
      apply (num_leb_trans _ (Fin sy)); assumption.
Qed.

(** The node that chart resolution makes of a path is proper. *)
Lemma chain_span_proper (x : Node) (l : list Node) (nm : string) (w : Z) :
  Forall proper (x :: l) -> chain apart (x :: l) ->
  proper (mkNode (Node_start x, Node_end (last (x :: l) x)) nm w).
Proof.
  intros Hp Hc.
  destruct (chain_bounds l x Hp Hc (last (x :: l) x)) as [H1 _].
  { destruct l; [left; reflexivity|]. apply last_In_cons. }
  assert (Hlast : proper (last (x :: l) x)).
  { rewrite Forall_forall in Hp. apply Hp.
    destruct l; [left; reflexivity|]. apply last_In_cons. }
  inversion Hp as [|? ? Hx _]; subst.
  destruct (proper_offsets x Hx) as [sx [ex [Hsx [Hex Hlx]]]].
  destruct (proper_offsets _ Hlast) as [sl [el [Hsl [Hel Hll]]]].
  exists sx, el. cbn [span]. rewrite Hsx, Hel. split; [reflexivity|].
  rewrite Hsx, Hsl in H1. rewrite num_leb_Fin in H1. apply Z.leb_le in H1. lia.
Qed.

(** ** The paths of a rule in a graph that follows the text *)

Lemma walk_chain (g : DiGraph) (p : list Node) :
  follows g -> is_walk g p -> chain apart p.
Proof.
  intros Hf. induction p as [|x p IH]; intros Hw; [exact I|].
  destruct p as [|y p]; [exact I|]. destruct Hw as [He Hw].
  split; [apply Hf, He|apply IH, Hw].
Qed.

Lemma walk_targets (g : DiGraph) (p : list Node) :
  forall a, is_walk g (a :: p) -> forall x, In x p -> exists u, edge g u x.
Proof.
  induction p as [|y p IH]; intros a Hw x Hx; [destruct Hx|].
  destruct Hw as [He Hw]. destruct Hx as [<-|Hx]; [exists a; exact He|].
  apply (IH y Hw x Hx).
Qed.

Lemma remove_node_silent_has_node (g : DiGraph) (n m : Node) :
  has_node (remove_node_silent g n) m = true -> has_node g m = true.
Proof.
  unfold has_node, remove_node_silent. cbn [nodes]. rewrite !existsb_exists.
  intros [x [Hx E]]. apply filter_In in Hx. exists x. tauto.
Qed.

(** Every edge of the search graph ends in a node of the graph or in a
    sentinel. *)
Lemma search_graph_target (graph : DiGraph) (r0 rl : string) (u v : Node) :
  wf_graph graph = true -> edge (search_graph graph r0 rl) u v ->
  has_node graph v = true \/ Node_eq v START = true \/ Node_eq v END = true.
Proof.
  intros Hwf. unfold edge. rewrite has_edge_iff. intros [e [Hin [Hu Hv]]].
  unfold search_graph in Hin.
  apply add_edges_from_edges in Hin. destruct Hin as [Hin|Hin].
  - apply add_edges_from_edges in Hin. destruct Hin as [Hin|Hin].
    + left. rewrite add_nodes_from_edges in Hin.
      unfold remove_nodes_from in Hin. cbn [fold_left] in Hin.
      apply remove_node_silent_edges, remove_node_silent_edges in Hin.
      apply wf_graph_iff in Hwf. destruct Hwf as [_ Hends].
      destruct (Hends e Hin) as [_ H]. rewrite (has_node_respects graph v _ Hv).
      exact H.
    + apply in_map_iff in Hin. destruct Hin as [i [<- Hi]]. cbn [snd] in Hv.
      apply filter_In in Hi. destruct Hi as [Hi _].
      assert (H : has_node (add_nodes_from (remove_nodes_from graph [START; END])
                              [START; END]) i = true).
      { apply has_node_iff. exists i. split; [exact Hi|apply Node_eq_refl]. }
      rewrite add_nodes_from_has_node in H. apply orb_true_iff in H.
      destruct H as [H|H].
      * left. rewrite (has_node_respects graph v i Hv).
        unfold remove_nodes_from in H. cbn [fold_left] in H.
        apply remove_node_silent_has_node, remove_node_silent_has_node in H.
        exact H.
      * right. cbn [node_mem existsb] in H. rewrite orb_false_r in H.
        apply orb_true_iff in H. destruct H as [H|H];
          [left|right]; apply (Node_eq_trans v i _ Hv H).
  - right. right. apply in_map_iff in Hin. destruct Hin as [i [<- _]]. exact Hv.
Qed.

(** What [get_valid_paths] returns in such a graph: proper nodes, one
    after the other, that spell the right-hand side. *)
Lemma get_valid_paths_geo (fuel : nat) (graph : DiGraph) (rule : Rule)
    (paths : list (list Node)) (p : list Node) :
  geo_inv graph ->
  ~ In "START"%string (rhs rule) -> ~ In "END"%string (rhs rule) ->
  get_valid_paths fuel graph rule = Some paths -> In p paths ->
  Forall proper p /\ chain apart p /\ map name p = rhs rule.
Proof.
  intros [Hwf [Hnodes Hfol]] Hs He H Hp.
  destruct (rhs rule) as [|r0 rest] eqn:Er.
  { unfold get_valid_paths in H. rewrite Er in H. discriminate H. }
  rewrite (get_valid_paths_unfold fuel graph rule r0 rest Er) in H.
  set (g := search_graph graph r0 (last (rhs rule) r0)) in H.
  assert (Hinit : Forall (queue_inv g (rhs rule)) [[START]]).
  { constructor; [|constructor]. exists []. split; [reflexivity|].
    split; [exact I|]. split; [reflexivity|]. cbn [Datatypes.length]. lia. }
  pose proof (valid_paths_loop_inv g (rhs rule) fuel _ _ _ Hinit (Forall_nil _) H)
    as Hres.
  rewrite Forall_forall in Hres. destruct (Hres p Hp) as [Hw Hn].
  rewrite <- Er.
  assert (Hnames : forall x, In x p ->
            name x <> "START"%string /\ name x <> "END"%string).
  { intros x Hx. assert (Hin : In (name x) (rhs rule)).
    { rewrite <- Hn. apply in_map. exact Hx. }
    rewrite Er in Hin.
    split; intros E; rewrite E in Hin; contradiction. }
  split; [|split; [|exact Hn]].
  - apply Forall_forall. intros x Hx.
    destruct (walk_targets g p START Hw x Hx) as [u Hu].
    destruct (Hnames x Hx) as [N1 N2].
    destruct (search_graph_target graph _ _ u x Hwf Hu) as [Hx'|[Hx'|Hx']].
    + destruct (Hnodes x Hx') as [E|[E|E]]; [| |exact E];
        apply Node_eq_iff in E; destruct E as [_ E]; contradiction.
    + apply Node_eq_iff in Hx'. destruct Hx' as [_ E]. contradiction.
    + apply Node_eq_iff in Hx'. destruct Hx' as [_ E]. contradiction.
  - apply (walk_chain graph p Hfol).
    apply (search_walk graph r0 (last (rhs rule) r0) p (walk_tail _ _ _ Hw) Hnames).
Qed.

(** ** Chart resolution keeps the graph and the derivations in order *)

Lemma predecessors_edge (g : DiGraph) (x s : Node) :
  In s (predecessors g x) -> edge g s x.
Proof.
  unfold predecessors. rewrite in_map_iff. intros [e [<- He]].
  apply filter_In in He. destruct He as [Hin Hx]. unfold edge.
  apply has_edge_iff. exists e. split; [exact Hin|].
  split; [apply Node_eq_refl|rewrite Node_eq_sym; exact Hx].
Qed.

Lemma tiled_append (cm : CandidateMap) (node : Node) (rule : Rule)
    (path : list Node) :
  tiled cm -> path <> [] -> Forall proper path -> chain apart path ->
  tiled (cm_append cm node (rule, path)).
Proof.
  intros Hcm H1 H2 H3 k ds r p Hk Hin.
  destruct (cm_append_In cm node (rule, path) k ds Hk) as [H|[[ds0 [H ->]]|[_ ->]]].
  - apply (Hcm k ds r p H Hin).
  - apply in_app_iff in Hin. destruct Hin as [Hin|[Hin|[]]].
    + apply (Hcm k ds0 r p H Hin).
    + injection Hin as <- <-. auto.
  - destruct Hin as [Hin|[]]. injection Hin as <- <-. auto.
Qed.

Lemma resolve_path_geo (nonterminal : string) (rule : Rule)
    (s s' : DiGraph * CandidateMap) (path : list Node) :
  geo_inv (fst s) -> tiled (snd s) ->
  Forall proper path -> chain apart path ->
  resolve_path nonterminal rule (Some s) path = Some s' ->
  geo_inv (fst s') /\ tiled (snd s').
Proof.
  intros [Hwf [Hnodes Hfol]] Ht Hp Hc H. unfold resolve_path in H.
  destruct s as [g2 cm]. cbn [fst snd] in *.
  destruct path as [|first path]; [discriminate H|]. cbv zeta in H.
  set (lst := last (first :: path) first) in *.
  set (node := mkNode (Node_start first, Node_end lst) nonterminal (rule_weight rule))
    in *.
  set (ga := add_node g2 node) in *.
  set (es := map (fun i => (i, node)) (predecessors ga first)
             ++ map (fun i => (node, i)) (successors ga lst)) in *.
  injection H as <-. cbn [fst snd].
  assert (Hwfa : wf_graph ga = true) by (apply add_node_wf, Hwf).
  assert (Hnode : proper node) by (apply chain_span_proper; assumption).
  assert (Hna : forall n, has_node ga n = has_node g2 n || Node_eq n node)
    by (intros n; apply add_node_has_node).
  assert (Hea : forall u v, has_edge ga u v = has_edge g2 u v).
  { intros u v. unfold has_edge, ga. rewrite add_node_edges. reflexivity. }
  assert (Hends : forall e, In e es ->
            has_node ga (fst e) = true /\ has_node ga (snd e) = true).
  { intros e He. apply in_app_or in He. destruct He as [He|He];
      apply in_map_iff in He; destruct He as [i [<- Hi]]; cbn [fst snd].
    - apply predecessors_edge in Hi.
      destruct (has_edge_nodes ga i first Hwfa Hi) as [H1 _].
      split; [exact H1|]. rewrite Hna, Node_eq_refl. apply orb_true_r.
    - apply successors_edge in Hi.
      destruct (has_edge_nodes ga lst i Hwfa Hi) as [_ H1].
      split; [|exact H1]. rewrite Hna, Node_eq_refl. apply orb_true_r. }
  split; [|apply tiled_append; [exact Ht|discriminate|exact Hp|exact Hc]].
  split; [apply add_edges_from_wf, Hwfa|]. split.
  - intros n Hn. rewrite (add_edges_from_has_node es ga n Hends), Hna in Hn.
    apply orb_true_iff in Hn. destruct Hn as [Hn|Hn]; [apply Hnodes, Hn|].
    right. right. apply (proper_respects node n); [|exact Hnode].
    rewrite Node_eq_sym. exact Hn.
  - intros u v Huv. unfold edge in Huv. rewrite add_edges_from_has_edge, Hea in Huv.
    apply orb_true_iff in Huv. destruct Huv as [Huv|Huv]; [apply Hfol, Huv|].
    apply existsb_exists in Huv. destruct Huv as [e [He E]].
    apply edge_eq_iff in E. cbn [fst snd] in E. destruct E as [Eu Ev].
    apply Node_eq_iff in Eu, Ev. destruct Eu as [Eu _]. destruct Ev as [Ev _].
    unfold apart, Node_start, Node_end. rewrite Eu, Ev.
    apply in_app_or in He. destruct He as [He|He];
      apply in_map_iff in He; destruct He as [i [<- Hi]]; cbn [fst snd node span].
    + apply predecessors_edge in Hi. unfold edge in Hi. rewrite Hea in Hi.
      apply (Hfol i first Hi).
    + apply successors_edge in Hi. unfold edge in Hi. rewrite Hea in Hi.
      apply (Hfol lst i Hi).
Qed.

Lemma resolve_rule_geo (fuel : nat) (grammar : Grammar) (nonterminal : string)
    (s s' : DiGraph * CandidateMap) (rule : Rule) :
  ~ In "START"%string (rhs rule) -> ~ In "END"%string (rhs rule) ->
  geo_inv (fst s) /\ tiled (snd s) ->
  resolve_rule fuel nonterminal (Some s) rule = Some s' ->
  geo_inv (fst s') /\ tiled (snd s').
Proof.
  intros Hs He Hinv H. unfold resolve_rule in H.
  destruct (get_valid_paths fuel (fst s) rule) as [paths|] eqn:Ep; [|discriminate].
  revert H.
  apply (fold_left_option_inv_In (fun s => geo_inv (fst s) /\ tiled (snd s)));
    [|reflexivity|exact Hinv].
  intros s0 p s1 Hp [Hg Ht].
  destruct (get_valid_paths_geo fuel (fst s) rule paths p (proj1 Hinv) Hs He Ep Hp)
    as [H1 [H2 _]].
  apply (resolve_path_geo nonterminal rule s0 s1 p Hg Ht H1 H2).
Qed.

Lemma resolve_nonterminal_geo (fuel : nat) (grammar : Grammar)
    (s s' : DiGraph * CandidateMap) (nonterminal : string) :
  no_sentinel (rules grammar) ->
  geo_inv (fst s) /\ tiled (snd s) ->
  resolve_nonterminal fuel grammar (Some s) nonterminal = Some s' ->
  geo_inv (fst s') /\ tiled (snd s').
Proof.
  intros Hno Hinv H. unfold resolve_nonterminal in H.
  destruct (Grammar_getitem grammar nonterminal) as [rs|] eqn:Eg; [|discriminate].
  unfold Grammar_getitem in Eg.
  destruct (str_mem nonterminal (nonterminals grammar)); [|discriminate].
  injection Eg as <-. revert H.
  apply (fold_left_option_inv_In (fun s => geo_inv (fst s) /\ tiled (snd s)));
    [|reflexivity|exact Hinv].
  intros s0 r s1 Hr Hs0. apply filter_In in Hr. destruct Hr as [Hr _].
  destruct (Hno r Hr) as [N1 N2].
  apply (resolve_rule_geo fuel grammar nonterminal s0 s1 r N1 N2 Hs0).
Qed.

(** The candidate map of a graph that follows the text. *)
Lemma get_nonterminal_nodes_geo (fuel : nat) (graph : DiGraph) (grammar : Grammar)
    (cm : CandidateMap) :
  geo_inv graph -> no_sentinel (rules grammar) ->
  get_nonterminal_nodes fuel graph grammar = Some cm ->
  tiled cm /\ justified_map grammar cm.
Proof.
  intros Hg Hno H. unfold get_nonterminal_nodes in H.
  destruct (fold_left _ _ _) as [s|] eqn:E; [|discriminate H].
  injection H as <-. split.
  - assert (Hinv : geo_inv (fst s) /\ tiled (snd s)); [|apply Hinv].
    revert E.
    apply (fold_left_option_inv (fun s => geo_inv (fst s) /\ tiled (snd s))).
    + intros s0 x s1. apply resolve_nonterminal_geo, Hno.
    + reflexivity.
    + split; [exact Hg|]. intros k ds r p [].
  - revert E.
    apply (fold_left_option_inv (fun s => justified_map grammar (snd s))).
    + intros s0 x s1. apply resolve_nonterminal_justified.
    + reflexivity.
    + intros k0 ds0 r p [].
Qed.

(** ** The chosen derivations *)

Lemma py_max_In {A : Type} (gt : A -> A -> bool) (l : list A) :
  forall x, In (py_max gt x l) (x :: l).
Proof.
  unfold py_max. induction l as [|y l IH]; intros x; [left; reflexivity|].
  cbn [fold_left]. destruct (gt y x).
  - right. apply IH.
  - destruct (IH x) as [H|H]; [left; exact H|right; right; exact H].
Qed.

Lemma cm_get_In (cm : CandidateMap) (u : Node) (d : Rule * list Node) :
  In d (cm_get cm u) ->
  exists k ds, In (k, ds) cm /\ Node_eq k u = true /\ In d ds.
Proof.
  induction cm as [|[k ds] cm IH]; cbn [cm_get]; [intros []|].
  destruct (Node_eq k u) eqn:E.
  - intros H. exists k, ds. split; [left; reflexivity|]. auto.
  - intros H. destruct (IH H) as [k' [ds' [H1 H2]]]. exists k', ds'.
    split; [right; exact H1|exact H2].
Qed.

Lemma chosen_children_In (cm : CandidateMap) (u : Node) (cs : list Node) :
  chosen_children cm u = Some cs ->
  exists k ds rule, In (k, ds) cm /\ Node_eq k u = true /\ In (rule, cs) ds.
Proof.
  unfold chosen_children.
  destruct (map _ (cm_get cm u)) as [|d ds] eqn:E; [discriminate|].
  intros H. injection H as <-.
  pose proof (py_max_In derivation_gt ds d) as Hin. rewrite <- E in Hin.
  apply in_map_iff in Hin. destruct Hin as [[rule path] [Heq Hin]].
  rewrite <- Heq. cbn [snd]. destruct (cm_get_In cm u _ Hin) as [k [ds' [H1 [H2 H3]]]].
  exists k, ds', rule. auto.
Qed.

Lemma well_derived_of (grammar : Grammar) (order : list string) (cm : CandidateMap) :
  tiled cm -> justified_map grammar cm ->
  (forall r d, In r (rules grammar) -> In d (rhs r) ->
               (place order d < place order (lhs r))%nat) ->
  well_derived order cm.
Proof.
  intros Ht Hj Hrank u cs Hcs.
  destruct (chosen_children_In cm u cs Hcs) as [k [ds [rule [Hk [Eku Hin]]]]].
  destruct (Ht k ds rule cs Hk Hin) as [Hne [Hp Hc]].
  destruct (Hj k ds rule cs Hk Hin) as [Hr [Hl [Hn Hspan]]].
  apply Node_eq_iff in Eku. destruct Eku as [Espan Ename].
  split; [exact Hp|]. split; [apply chain_apart_pairs; assumption|].
  intros c Hc'. destruct cs as [|x l]; [destruct Hc'|].
  destruct (chain_bounds l x Hp Hc c Hc') as [H1 H2]. split.
  - unfold inside. unfold Node_start at 1, Node_end at 2.
    rewrite <- Espan, Hspan. cbn [fst snd hd].
    rewrite (last_any l x START x). auto.
  - rewrite <- Ename, <- Hl. apply (Hrank rule (name c) Hr).
    rewrite <- Hn. apply in_map, Hc'.
Qed.

(** ** The selected tree has no node with two parents *)

Lemma ForallOrdPairs_app {A : Type} (R : A -> A -> Prop) (l1 l2 : list A) :
  ForallOrdPairs R l1 -> ForallOrdPairs R l2 ->
  (forall x y, In x l1 -> In y l2 -> R x y) ->
  ForallOrdPairs R (l1 ++ l2).
Proof.
  intros H1 H2 H. induction l1 as [|a l1 IH]; [exact H2|].
  inversion H1 as [|? ? Ha Hl]; subst. cbn [List.app].
  constructor.
  - apply Forall_app. split; [exact Ha|]. apply Forall_forall. intros y Hy.
    apply H; [left; reflexivity|exact Hy].
  - apply IH; [exact Hl|]. intros x y Hx Hy. apply H; [right; exact Hx|exact Hy].
Qed.

Lemma ForallOrdPairs_impl {A : Type} (R S : A -> A -> Prop) (l : list A) :
  (forall x y, R x y -> S x y) -> ForallOrdPairs R l -> ForallOrdPairs S l.
Proof.
  intros H HR. induction HR as [|a l Ha _ IH]; constructor; [|exact IH].
  apply (Forall_impl _ (H a) Ha).
Qed.

Lemma inside_trans (a b c : Node) : inside a b -> inside b c -> inside a c.
Proof.
  intros [H1 H2] [H3 H4]. split.
  - apply (num_leb_trans _ (Node_start b)); assumption.
  - apply (num_leb_trans _ (Node_end b)); assumption.
Qed.

Lemma separate_inside (p x y : Node) : separate p x -> inside y p -> separate y x.
Proof.
  intros [H|H] [H1 H2]; [left|right]; unfold apart in *.
  - apply (num_leb_trans _ (Node_end p)); assumption.
  - apply (num_leb_trans _ (Node_start p)); assumption.
Qed.

Lemma separate_sym (x y : Node) : separate x y -> separate y x.
Proof. intros [H|H]; [right|left]; exact H. Qed.

Section ProperTree.

Variable order : list string.
Variable cm : CandidateMap.
Hypothesis Hwd : well_derived order cm.

Lemma derivation_edge_facts (u v : Node) :
  derivation_edge cm u v ->
  inside v u /\ (place order (name v) < place order (name u))%nat.
Proof.
  intros [cs [Hcs Hv]]. destruct (Hwd u cs Hcs) as [_ [_ H]]. apply H, Hv.
Qed.

Lemma descendant_facts (u v : Node) :
  clos_trans Node (derivation_edge cm) u v ->
  inside v u /\ (place order (name v) < place order (name u))%nat.
Proof.
  intros H. induction H as [u v H|u w v _ [I1 R1] _ [I2 R2]].
  - apply derivation_edge_facts, H.
  - split; [apply (inside_trans v w u); assumption|lia].
Qed.

(** A child of the chosen derivation of [p] is no child of a node [a]
    that lies apart from [p] or above it. *)
Lemma no_second_parent (p a b i : Node) (cs : list Node) :
  chosen_children cm p = Some cs -> In i cs ->
  derivation_edge cm a b ->
  separate a p \/ clos_trans Node (derivation_edge cm) a p ->
  Node_eq b i = true -> False.
Proof.
  intros Hcs Hi [csa [Hcsa Hb]] Hrel Ebi.
  destruct (Hwd p cs Hcs) as [Hpcs [_ Hin]].
  destruct (Hin i Hi) as [[Ii1 Ii2] Ri].
  rewrite Forall_forall in Hpcs.
  destruct (proper_offsets i (Hpcs i Hi)) as [si [ei [Hsi [Hei Hlt]]]].
  destruct (Hwd a csa Hcsa) as [_ [Hpairs Hina]].
  destruct (Hina b Hb) as [[Ib1 Ib2] _].
  apply Node_eq_iff in Ebi. destruct Ebi as [Espan Ename].
  assert (Hsb : Node_start b = Fin si) by (unfold Node_start; rewrite Espan; exact Hsi).
  assert (Heb : Node_end b = Fin ei) by (unfold Node_end; rewrite Espan; exact Hei).
  rewrite Hsi in Ii1. rewrite Hei in Ii2. rewrite Hsb in Ib1. rewrite Heb in Ib2.
  destruct Hrel as [[H|H]|H].
  - unfold apart in H.
    exact (num_leb_lt_false (Node_end a) (Node_start p) si ei H Ii1 Ib2 Hlt).
  - unfold apart in H.
    exact (num_leb_lt_false (Node_end p) (Node_start a) si ei H Ib1 Ii2 Hlt).
  - apply clos_trans_t1n in H.
    assert (Hd : exists d, In d csa /\
                   (d = p \/ clos_trans Node (derivation_edge cm) d p)).
    { inversion H as [? [cs' [E Hp]]|d ? [cs' [E Hd]] Hrest]; subst.
      - exists p. rewrite Hcsa in E. injection E as <-. auto.
      - exists d. rewrite Hcsa in E. injection E as <-. split; [exact Hd|].
        right. apply clos_t1n_trans. exact Hrest. }
    destruct Hd as [d [Hd Hdp]].
    assert (Iid : num_leb (Node_start d) (Fin si) = true /\
                  num_leb (Fin ei) (Node_end d) = true).
    { destruct Hdp as [->|Hdp]; [split; assumption|].
      destruct (descendant_facts d p Hdp) as [[J1 J2] _]. split.
      - apply (num_leb_trans _ (Node_start p)); assumption.
      - apply (num_leb_trans _ (Node_end p)); assumption. }
    destruct Iid as [Id1 Id2].
    destruct (ForallOrdPairs_In Hpairs b d Hb Hd) as [Ebd|[Hbd|Hdb]].
    + subst d. rewrite <- Ename in Ri. destruct Hdp as [Hdp|Hdp].
      * rewrite Hdp in Ri. lia.
      * destruct (descendant_facts b p Hdp) as [_ R]. lia.
    + unfold apart in Hbd. rewrite Heb in Hbd.
      pose proof (num_leb_trans _ _ _ Hbd Id1) as Hc.
      rewrite num_leb_Fin in Hc. apply Z.leb_le in Hc. lia.
    + unfold apart in Hdb. rewrite Hsb in Hdb.
      pose proof (num_leb_trans _ _ _ Id2 Hdb) as Hc.
      rewrite num_leb_Fin in Hc. apply Z.leb_le in Hc. lia.
Qed.

Lemma tree_step_leaf (p : Node) (rest : list Node) (graph : DiGraph) :
  tree_inv cm (p :: rest) graph -> tree_inv cm rest (add_node graph p).
Proof.
  intros [H1 [H2 [H3 H4]]]. unfold tree_inv. rewrite add_node_edges.
  inversion H1 as [|? ? _ Hrest]; subst.
  split; [exact Hrest|]. split; [exact H2|]. split; [|exact H4].
  intros u v q Huv Hq. apply (H3 u v q Huv). right. exact Hq.
Qed.

Lemma tree_step_children (p : Node) (rest cs : list Node) (graph : DiGraph) :
  chosen_children cm p = Some cs ->
  tree_inv cm (p :: rest) graph ->
  tree_inv cm (rest ++ cs)
           (add_edges_from (add_node graph p) (map (fun i => (p, i)) cs)).
Proof.
  intros Hcs [H1 [H2 [H3 H4]]].
  destruct (Hwd p cs Hcs) as [Hpcs [Hpairs Hin]].
  inversion H1 as [|? ? Hp Hrest]; subst. rewrite Forall_forall in Hp.
  assert (Hedges : forall u v,
            In (u, v) (edges (add_edges_from (add_node graph p)
                                (map (fun i => (p, i)) cs))) ->
            In (u, v) (edges graph) \/ (u = p /\ In v cs)).
  { intros u v H. apply add_edges_from_edges in H. rewrite add_node_edges in H.
    destruct H as [H|H]; [left; exact H|]. right. apply in_map_iff in H.
    destruct H as [i [Heq Hi]]. injection Heq as <- <-. auto. }
  split; [|split; [|split]].
  - apply ForallOrdPairs_app; [exact Hrest| |].
    + apply (ForallOrdPairs_impl apart separate); [intros x y H; left; exact H|].
      exact Hpairs.
    + intros x y Hx Hy. apply separate_sym.
      apply (separate_inside p x y (Hp x Hx)). apply Hin, Hy.
  - intros u v H. destruct (Hedges u v H) as [H'|[-> Hv]]; [apply H2, H'|].
    exists cs. auto.
  - intros u v q H Hq. apply in_app_or in Hq.
    destruct (Hedges u v H) as [H'|[-> Hv]].
    + destruct Hq as [Hq|Hq]; [apply (H3 u v q H'); right; exact Hq|].
      destruct (H3 u v p H' (or_introl eq_refl)) as [Hs|Hd].
      * left. apply separate_sym. apply (separate_inside p u q).
        -- apply separate_sym. exact Hs.
        -- apply Hin, Hq.
      * right. apply t_trans with p; [exact Hd|]. apply t_step. exists cs. auto.
    + destruct Hq as [Hq|Hq]; [left; apply Hp, Hq|].
      right. apply t_step. exists cs. auto.
  - intros u v u' v' H H' E.
    destruct (Hedges u v H) as [G|[-> Hv]]; destruct (Hedges u' v' H') as [G'|[-> Hv']].
    + apply (H4 u v u' v' G G' E).
    + exfalso. apply (no_second_parent p u v v' cs Hcs Hv' (H2 u v G)); [|exact E].
      apply (H3 u v p G). left. reflexivity.
    + exfalso.
      apply (no_second_parent p u' v' v cs Hcs Hv (H2 u' v' G')).
      * apply (H3 u' v' p G'). left. reflexivity.
      * rewrite Node_eq_sym. exact E.
    + apply Node_eq_refl.
Qed.

Lemma parse_tree_loop_proper (fuel : nat) :
  forall stack graph tree,
  tree_inv cm stack graph ->
  parse_tree_loop fuel cm stack graph = Some tree ->
  forall u v u' v', In (u, v) (edges tree) -> In (u', v') (edges tree) ->
    Node_eq v v' = true -> Node_eq u u' = true.
Proof.
  induction fuel as [|fuel IH]; intros stack graph tree Hinv H.
  - destruct stack; [|discriminate H]. injection H as <-. apply Hinv.
  - destruct stack as [|p rest]; [injection H as <-; apply Hinv|].
    cbn [parse_tree_loop] in H.
    destruct (chosen_children cm p) as [cs|] eqn:Ecs.
    + apply (IH _ _ tree (tree_step_children p rest cs graph Ecs Hinv) H).
    + apply (IH _ _ tree (tree_step_leaf p rest graph Hinv) H).
Qed.

End ProperTree.

(** ** The selected tree of the pipeline *)


